(** * Recast voxel pipeline: a shallow embedding and its verified properties

    The development follows the C++ sources function by function:

    - [Recast.h]                 constants, [rcMin]/[rcMax]/[rcAbs]/[rcClamp],
                                 the packed neighbour field ([rcSetCon]/[rcGetCon]),
                                 the direction tables ([rcGetDirOffsetX],
                                 [rcGetDirOffsetY], [rcGetDirForOffset]);
    - [RecastRasterization.cpp]  the span allocator, [addSpan], [dividePoly],
                                 [rasterizeTri], [rcRasterizeTriangle],
                                 [rcRasterizeTriangles];
    - [RecastFilter.cpp]         [rcFilterLowHangingWalkableObstacles],
                                 [rcFilterLedgeSpans],
                                 [rcFilterWalkableLowHeightSpans];
    - [Recast.cpp]               [rcCreateHeightfield], [rcBuildCompactHeightfield];
    - [RecastArea.cpp]           [rcErodeWalkableArea], [insertSort],
                                 [rcMedianFilterWalkableArea], [rcMarkBoxArea];
    - [RecastRegion.cpp]         [rcBuildDistanceField], the border painting and the
                                 row sweep of [rcBuildRegionsMonotone] and
                                 [rcBuildLayerRegions], [mergeAndFilterRegions],
                                 [mergeAndFilterLayerRegions], the watershed of
                                 [rcBuildRegions].

    Conventions.  C [int]s are [Z]; a [w]-bit unsigned field stores [v mod 2^w];
    C [float]s are IEEE 754 binary32 values ([spec_float]); arrays are lists
    indexed by [Z] through [zget]/[zset]; a [for] loop over [lo <= i < hi] is
    a [foldl] over [seqZ lo (hi - lo)]; a loop that can only be bounded by a
    measure takes that bound as fuel.  A linked span chain is the list of its
    spans from the column head upwards.  An allocation is a flag that says
    whether it succeeds; the log is the list of the messages sent to
    [rcContext::log]. *)

From Stdlib Require Import ZArith List Lia Bool Permutation String SpecFloat Sorted.
From stdpp Require Import base tactics option list numbers.
Import ListNotations.
Open Scope Z_scope.

(* ===================================================================== *)
(** * Part I: the model                                                   *)
(* ===================================================================== *)

(** ** Recast.h: integer helpers and arrays *)

Definition rcMin (a b : Z) : Z := if a <? b then a else b.
Definition rcMax (a b : Z) : Z := if a >? b then a else b.
Definition rcAbs (a : Z) : Z := if a <? 0 then - a else a.
Definition rcClamp (value minInclusive maxInclusive : Z) : Z :=
  if value <? minInclusive then minInclusive
  else if value >? maxInclusive then maxInclusive else value.

(** Storing [v] into an unsigned bit-field (or unsigned type) of [w] bits. *)
Definition ubits (w v : Z) : Z := v mod 2 ^ w.

(** Array read and write.  Reading or writing outside the array is undefined
    in C++; the model reads the default and ignores the write. *)
Definition zget {A} (d : A) (l : list A) (i : Z) : A :=
  if i <? 0 then d else nth (Z.to_nat i) l d.
Definition zset {A} (l : list A) (i : Z) (v : A) : list A :=
  if i <? 0 then l else <[Z.to_nat i := v]> l.

Definition RC_SPAN_HEIGHT_BITS : Z := 13.
Definition RC_SPAN_MAX_HEIGHT : Z := 2 ^ RC_SPAN_HEIGHT_BITS - 1.
Definition RC_SPANS_PER_POOL : Z := 2048.
Definition RC_NULL_AREA : Z := 0.
Definition RC_WALKABLE_AREA : Z := 63.
Definition RC_NOT_CONNECTED : Z := 63.
Definition RC_BORDER_REG : Z := 32768.

(** The log of [rcContext]: category, format string, arguments. *)
Inductive rcLogCategory := RC_LOG_PROGRESS | RC_LOG_WARNING | RC_LOG_ERROR.
Definition log_entry : Type := rcLogCategory * string * list Z.

(** [rcGetDirOffsetX], [rcGetDirOffsetY]: directions 0..3 are -X, +Z, +X, -Z. *)
Definition rcGetDirOffsetX (direction : Z) : Z := zget 0 [-1; 0; 1; 0] (Z.land direction 3).
Definition rcGetDirOffsetY (direction : Z) : Z := zget 0 [0; 1; 0; -1] (Z.land direction 3).

(** ** The sparse heightfield ([rcSpan], [rcHeightfield]) *)

Module Heightfield.

(** [smin : 13], [smax : 13], [area : 6]; [next] is the tail of the chain. *)
Record rcSpan := mkSpan { smin : Z; smax : Z; area : Z }.

(** [spans] holds one chain per column, row-major ([x + z * width]).
    The pooled allocator is kept as two counters: [pools] is the number of
    pools allocated so far, [freelist] the length of the free list. *)
Record rcHeightfield := mkHeightfield {
  width : Z;
  height : Z;
  spans : list (list rcSpan);
  pools : Z;
  freelist : Z
}.

Definition column (hf : rcHeightfield) (x z : Z) : list rcSpan :=
  zget [] (spans hf) (x + z * width hf).

Definition set_column (hf : rcHeightfield) (columnIndex : Z) (c : list rcSpan) : rcHeightfield :=
  mkHeightfield (width hf) (height hf) (zset (spans hf) columnIndex c) (pools hf) (freelist hf).

(** [rcCreateHeightfield]: [width * height] empty columns, no pool yet.
    The result is [None] when the allocation of the column table fails. *)
Definition rcCreateHeightfield (alloc_ok : bool) (sizeX sizeZ : Z) : option rcHeightfield :=
  if alloc_ok
  then Some (mkHeightfield sizeX sizeZ (replicate (Z.to_nat (sizeX * sizeZ)) []) 0 0)
  else None.

End Heightfield.

(** ** RecastRasterization.cpp *)

Module Rasterization.
Import Heightfield.

(** [allocSpan]: a new pool is requested when the free list holds at most
    one span; [alloc_ok] is the outcome of that [rcAlloc].  [None] is [NULL]. *)
Definition allocSpan (alloc_ok : bool) (hf : rcHeightfield) : option rcHeightfield :=
  if freelist hf <=? 1 then
    if alloc_ok
    then Some (mkHeightfield (width hf) (height hf) (spans hf)
                 (pools hf + 1) (freelist hf + RC_SPANS_PER_POOL - 1))
    else None
  else Some (mkHeightfield (width hf) (height hf) (spans hf) (pools hf) (freelist hf - 1)).

Definition freeSpan (hf : rcHeightfield) : rcHeightfield :=
  mkHeightfield (width hf) (height hf) (spans hf) (pools hf) (freelist hf + 1).

(** The overlap branch of [addSpan]'s loop: [newSpan] absorbs [currentSpan]. *)
Definition absorb (flagMergeThreshold : Z) (newSpan currentSpan : rcSpan) : rcSpan :=
  let smin' := if smin currentSpan <? smin newSpan then smin currentSpan else smin newSpan in
  let smax' := if smax currentSpan >? smax newSpan then smax currentSpan else smax newSpan in
  let area' := if rcAbs (smax' - smax currentSpan) <=? flagMergeThreshold
               then rcMax (area newSpan) (area currentSpan) else area newSpan in
  mkSpan smin' smax' area'.

(** The [while (currentSpan != NULL)] loop followed by the final splice.
    The second component counts the spans handed back to [freeSpan]. *)
Fixpoint addSpan_walk (flagMergeThreshold : Z) (newSpan : rcSpan) (chain : list rcSpan)
  : list rcSpan * Z :=
  match chain with
  | [] => ([newSpan], 0)
  | currentSpan :: next =>
      if smin currentSpan >? smax newSpan then (newSpan :: currentSpan :: next, 0)
      else if smax currentSpan <? smin newSpan then
        let '(rest, freed) := addSpan_walk flagMergeThreshold newSpan next in
        (currentSpan :: rest, freed)
      else
        let '(rest, freed) :=
          addSpan_walk flagMergeThreshold (absorb flagMergeThreshold newSpan currentSpan) next in
        (rest, freed + 1)
  end.

(** [addSpan]: the arguments arrive as [unsigned short]/[unsigned char] and
    are stored into the 13/13/6-bit fields of the fresh span. *)
Definition addSpan (alloc_ok : bool) (hf : rcHeightfield) (x z min max areaID flagMergeThreshold : Z)
  : bool * rcHeightfield :=
  match allocSpan alloc_ok hf with
  | None => (false, hf)
  | Some hf1 =>
      let newSpan := mkSpan (ubits RC_SPAN_HEIGHT_BITS (ubits 16 min))
                            (ubits RC_SPAN_HEIGHT_BITS (ubits 16 max))
                            (ubits 6 (ubits 8 areaID)) in
      let columnIndex := x + z * width hf1 in
      let '(chain, freed) := addSpan_walk flagMergeThreshold newSpan (zget [] (spans hf1) columnIndex) in
      (true, mkHeightfield (width hf1) (height hf1) (zset (spans hf1) columnIndex chain)
               (pools hf1) (freelist hf1 + freed))
  end.

(** [rcAddSpan]: [addSpan] with the failure logged. *)
Definition rcAddSpan (alloc_ok : bool) (log : list log_entry) (hf : rcHeightfield)
    (x z spanMin spanMax areaID flagMergeThreshold : Z)
  : bool * rcHeightfield * list log_entry :=
  let '(ok, hf') := addSpan alloc_ok hf x z spanMin spanMax areaID flagMergeThreshold in
  if ok then (true, hf', log)
  else (false, hf', log ++ [(RC_LOG_ERROR, "rcAddSpan: Out of memory."%string, [])]).

(** Step 10 of [rasterizeTri]: [fl] and [ce] stand for
    [(int)floorf(spanMin * inverseCellHeight)] and
    [(int)ceilf(spanMax * inverseCellHeight)]. *)
Definition spanMinCellIndex (fl : Z) : Z := ubits 16 (rcClamp fl 0 RC_SPAN_MAX_HEIGHT).
Definition spanMaxCellIndex (fl ce : Z) : Z :=
  ubits 16 (rcClamp ce (spanMinCellIndex fl + 1) RC_SPAN_MAX_HEIGHT).

(** One insertion into the heightfield: the [addSpan] call of a direct
    [rcAddSpan], or the one that [rasterizeTri] issues for a cell fragment. *)
Inductive insertion :=
| Direct (x z min max areaID : Z)
| Raster (x z fl ce areaID : Z).

Definition insert (flagMergeThreshold : Z) (alloc_ok : bool) (hf : rcHeightfield) (op : insertion)
  : bool * rcHeightfield :=
  match op with
  | Direct x z min max areaID => addSpan alloc_ok hf x z min max areaID flagMergeThreshold
  | Raster x z fl ce areaID =>
      addSpan alloc_ok hf x z (spanMinCellIndex fl) (spanMaxCellIndex fl ce) areaID flagMergeThreshold
  end.

(** A sequence of insertions, each paired with the outcome of its pool
    allocation; like the rasterization loops it stops at the first failure. *)
Fixpoint insert_all (flagMergeThreshold : Z) (ops : list (bool * insertion)) (hf : rcHeightfield)
  : bool * rcHeightfield :=
  match ops with
  | [] => (true, hf)
  | (alloc_ok, op) :: rest =>
      let '(ok, hf') := insert flagMergeThreshold alloc_ok hf op in
      if ok then insert_all flagMergeThreshold rest hf' else (false, hf')
  end.

(** *** Column invariants *)

Definition interval (s : rcSpan) : Z * Z := (smin s, smax s).

(** [smin < smax <= 8191] *)
Definition span_in_range (s : rcSpan) : Prop := 0 <= smin s /\ smin s < smax s /\ smax s <= RC_SPAN_MAX_HEIGHT.

(** Every later span of the chain starts strictly above the top of every
    earlier one: the chain is strictly ascending and pairwise disjoint. *)
Fixpoint separated (chain : list rcSpan) : Prop :=
  match chain with
  | [] => True
  | s :: rest => Forall (fun t => smax s < smin t) rest /\ separated rest
  end.

Definition ascending_smin (chain : list rcSpan) : Prop :=
  forall i j s t, (i < j)%nat -> chain !! i = Some s -> chain !! j = Some t -> smin s < smin t.

Definition non_overlapping (chain : list rcSpan) : Prop :=
  forall i j s t, i <> j -> chain !! i = Some s -> chain !! j = Some t ->
    smax s < smin t \/ smax t < smin s.

Definition chain_ok (chain : list rcSpan) : Prop :=
  ascending_smin chain /\ non_overlapping chain /\ Forall span_in_range chain.

(** Arguments within the limits that [rcAddSpan] documents, and fragments
    whose floor index leaves room for a one-voxel span below the maximum. *)
Definition insertion_in_limits (op : insertion) : Prop :=
  match op with
  | Direct x z min max areaID => 0 <= min /\ min < max /\ max <= RC_SPAN_MAX_HEIGHT
  | Raster x z fl ce areaID => fl < RC_SPAN_MAX_HEIGHT
  end.

(** The points a chain covers, on a doubled scale so that two spans that only
    touch ([smax = smin']) are told apart from two spans one voxel apart. *)
Definition inside (n : rcSpan) (q : Z) : Prop := 2 * smin n <= q <= 2 * smax n.
Definition covers (chain : list rcSpan) (q : Z) : Prop := Exists (fun s => inside s q) chain.

Definition proper (s : rcSpan) : Prop := smin s <= smax s.

(** Inserting a list of spans into one chain. *)
Definition addSpans (thr : Z) (l : list rcSpan) (chain : list rcSpan) : list rcSpan :=
  fold_left (fun c n => fst (addSpan_walk thr n c)) l chain.

Definition stored_span (s : Z * Z * Z) : rcSpan :=
  let '(min, max, areaID) := s in
  mkSpan (ubits RC_SPAN_HEIGHT_BITS (ubits 16 min)) (ubits RC_SPAN_HEIGHT_BITS (ubits 16 max))
         (ubits 6 (ubits 8 areaID)).

Definition span_args_in_limits (s : Z * Z * Z) : Prop :=
  let '(min, max, areaID) := s in 0 <= min /\ min < max /\ max <= RC_SPAN_MAX_HEIGHT.

Definition column_insertions (x z : Z) (l : list (bool * (Z * Z * Z))) : list (bool * insertion) :=
  map (fun p => let '(min, max, areaID) := snd p in (fst p, Direct x z min max areaID)) l.

Definition order_hf : rcHeightfield := mkHeightfield 1 1 [[]] 0 0.
Definition order_l1 : list (bool * (Z * Z * Z)) := [(true, (0, 10, 1)); (true, (0, 5, 2)); (true, (20, 30, 3))].
Definition order_l2 : list (bool * (Z * Z * Z)) := [(true, (20, 30, 3)); (true, (0, 5, 2)); (true, (0, 10, 1))].

(** Four insertions into an empty 2 x 1 heightfield and their result. *)
Definition demo_ops : list (bool * insertion) :=
  [(true, Direct 0 0 10 20 63); (true, Raster 0 0 15 18 0); (true, Direct 1 0 3 4 1);
   (true, Raster 0 0 40 41 5)].
Definition demo_hf0 : rcHeightfield := mkHeightfield 2 1 [[]; []] 0 0.
Definition demo_hf : rcHeightfield :=
  mkHeightfield 2 1 [[mkSpan 10 20 63; mkSpan 40 41 5]; [mkSpan 3 4 1]] 1 2045.

End Rasterization.

(** ** C floats *)

Module Float32.

(** C [float] as IEEE 754 binary32: 24 bits of precision, round to nearest
    even on every operation. *)
Definition float : Type := spec_float.
Definition prec : Z := 24.
Definition emax : Z := 128.

Definition add (a b : float) : float := SFadd prec emax a b.
Definition sub (a b : float) : float := SFsub prec emax a b.
Definition mul (a b : float) : float := SFmul prec emax a b.
Definition div (a b : float) : float := SFdiv prec emax a b.
Definition ltb (a b : float) : bool := SFltb a b.
Definition leb (a b : float) : bool := SFleb a b.
Definition eqb (a b : float) : bool := SFeqb a b.
Definition zero : float := S754_zero false.

(** [(float)n] for an [int] [n]. *)
Definition of_int (n : Z) : float := binary_normalize prec emax n 0 false.

(** The float [n / 2^k], for literals. *)
Definition of_frac (n k : Z) : float := binary_normalize prec emax n (- k) false.

(** The integer parts of the value [(-1)^s * m * 2^e]. *)
Definition floor_finite (s : bool) (m : positive) (e : Z) : Z :=
  let v := if s then Z.neg m else Z.pos m in
  if e >=? 0 then v * 2 ^ e else v / 2 ^ (- e).
Definition ceil_finite (s : bool) (m : positive) (e : Z) : Z := - floor_finite (negb s) m e.
Definition trunc_finite (s : bool) (m : positive) (e : Z) : Z :=
  if s then ceil_finite s m e else floor_finite s m e.

Definition in_int (n : Z) : option Z :=
  if (- 2 ^ 31 <=? n) && (n <? 2 ^ 31) then Some n else None.

(** [(int)f]: truncation towards zero; [None] where the conversion is
    undefined (NaN, infinities, values outside [int]). *)
Definition to_int (f : float) : option Z :=
  match f with
  | S754_zero _ => Some 0
  | S754_finite s m e => in_int (trunc_finite s m e)
  | _ => None
  end.

(** [(int)floorf(f)] and [(int)ceilf(f)]. *)
Definition floor_int (f : float) : option Z :=
  match f with
  | S754_zero _ => Some 0
  | S754_finite s m e => in_int (floor_finite s m e)
  | _ => None
  end.
Definition ceil_int (f : float) : option Z :=
  match f with
  | S754_zero _ => Some 0
  | S754_finite s m e => in_int (ceil_finite s m e)
  | _ => None
  end.

Definition is_zero (f : float) : bool :=
  match f with S754_zero _ => true | _ => false end.

Definition is_finite (f : float) : bool :=
  match f with S754_zero _ | S754_finite _ _ _ => true | _ => false end.

End Float32.

(** ** RecastRasterization.cpp: clipping *)

Module Clip.
Import Heightfield Rasterization.

(** A vertex: [x], [y], [z]. *)
Definition vec3 : Type := (Float32.float * Float32.float * Float32.float)%type.

Inductive rcAxis := RC_AXIS_X | RC_AXIS_Y | RC_AXIS_Z.

Definition coord (v : vec3) (axis : rcAxis) : Float32.float :=
  let '(x, y, z) := v in
  match axis with RC_AXIS_X => x | RC_AXIS_Y => y | RC_AXIS_Z => z end.

(** [rcMin], [rcMax] on floats: [a < b ? a : b] and [a > b ? a : b]. *)
Definition fmin (a b : Float32.float) : Float32.float := if Float32.ltb a b then a else b.
Definition fmax (a b : Float32.float) : Float32.float := if Float32.ltb b a then a else b.

Definition rcVmin (a b : vec3) : vec3 :=
  let '(ax, ay, az) := a in let '(bx, by_, bz) := b in (fmin ax bx, fmin ay by_, fmin az bz).
Definition rcVmax (a b : vec3) : vec3 :=
  let '(ax, ay, az) := a in let '(bx, by_, bz) := b in (fmax ax bx, fmax ay by_, fmax az bz).

Definition overlapBounds (aMin aMax bMin bMax : vec3) : bool :=
  let '(aminx, aminy, aminz) := aMin in
  let '(amaxx, amaxy, amaxz) := aMax in
  let '(bminx, bminy, bminz) := bMin in
  let '(bmaxx, bmaxy, bmaxz) := bMax in
  Float32.leb aminx bmaxx && Float32.leb bminx amaxx &&
  Float32.leb aminy bmaxy && Float32.leb bminy amaxy &&
  Float32.leb aminz bmaxz && Float32.leb bminz amaxz.

(** The point [inVertB + (inVertA - inVertB) * s]. *)
Definition lerp (vB vA : vec3) (s : Float32.float) : vec3 :=
  let '(xb, yb, zb) := vB in
  let '(xa, ya, za) := vA in
  (Float32.add xb (Float32.mul (Float32.sub xa xb) s),
   Float32.add yb (Float32.mul (Float32.sub ya yb) s),
   Float32.add zb (Float32.mul (Float32.sub za zb) s)).

(** The vertex loop of [dividePoly]: [vB] is the vertex before the first
    of [verts]; the two lists are the output polygons so far. *)
Fixpoint dividePoly_loop (axisOffset : Float32.float) (axis : rcAxis) (vB : vec3)
    (verts : list vec3) (out1 out2 : list vec3) : list vec3 * list vec3 :=
  match verts with
  | [] => (out1, out2)
  | vA :: rest =>
      let deltaA := Float32.sub axisOffset (coord vA axis) in
      let deltaB := Float32.sub axisOffset (coord vB axis) in
      let sameSide := Bool.eqb (Float32.leb Float32.zero deltaA) (Float32.leb Float32.zero deltaB) in
      if negb sameSide then
        let s := Float32.div deltaB (Float32.sub deltaB deltaA) in
        let p := lerp vB vA s in
        if Float32.ltb Float32.zero deltaA then
          dividePoly_loop axisOffset axis vA rest (out1 ++ [p; vA]) (out2 ++ [p])
        else if Float32.ltb deltaA Float32.zero then
          dividePoly_loop axisOffset axis vA rest (out1 ++ [p]) (out2 ++ [p; vA])
        else dividePoly_loop axisOffset axis vA rest (out1 ++ [p]) (out2 ++ [p])
      else if Float32.leb Float32.zero deltaA then
        if negb (Float32.eqb deltaA Float32.zero) then
          dividePoly_loop axisOffset axis vA rest (out1 ++ [vA]) out2
        else dividePoly_loop axisOffset axis vA rest (out1 ++ [vA]) (out2 ++ [vA])
      else dividePoly_loop axisOffset axis vA rest out1 (out2 ++ [vA])
  end.

(** [dividePoly]: the polygons [outVerts1] (the side of the vertices
    with [axisOffset - v[axis] >= 0]) and [outVerts2]. *)
Definition dividePoly (inVerts : list vec3) (axisOffset : Float32.float) (axis : rcAxis)
  : list vec3 * list vec3 :=
  match inVerts with
  | [] => ([], [])
  | v :: _ => dividePoly_loop axisOffset axis (last inVerts v) inVerts [] []
  end.

(** The grid geometry that [rasterizeTri] receives. *)
Record grid := mkGrid {
  g_width : Z;
  g_height : Z;
  heightfieldBBMin : vec3;
  heightfieldBBMax : vec3;
  cellSize : Float32.float;
  inverseCellSize : Float32.float;
  inverseCellHeight : Float32.float
}.

(** The body of the column loop of [rasterizeTri]: the part [p1] of the
    row polygon inside column [x], turned into the arguments of [addSpan]. *)
Definition column_fragment (g : grid) (x z : Z) (areaID : Z) (p1 : list vec3)
  : option (list insertion) :=
  if Z.of_nat (length p1) <? 3 then Some []
  else if x <? 0 then Some []
  else
    match p1 with
    | [] => Some []
    | v :: rest =>
        let spanMin0 := fold_left (fun m v => fmin m (coord v RC_AXIS_Y)) rest (coord v RC_AXIS_Y) in
        let spanMax0 := fold_left (fun m v => fmax m (coord v RC_AXIS_Y)) rest (coord v RC_AXIS_Y) in
        let bminy := coord (heightfieldBBMin g) RC_AXIS_Y in
        let by_ := Float32.sub (coord (heightfieldBBMax g) RC_AXIS_Y) bminy in
        let spanMin1 := Float32.sub spanMin0 bminy in
        let spanMax1 := Float32.sub spanMax0 bminy in
        if Float32.ltb spanMax1 Float32.zero then Some []
        else if Float32.ltb by_ spanMin1 then Some []
        else
          let spanMin2 := if Float32.ltb spanMin1 Float32.zero then Float32.zero else spanMin1 in
          let spanMax2 := if Float32.ltb by_ spanMax1 then by_ else spanMax1 in
          fl ← Float32.floor_int (Float32.mul spanMin2 (inverseCellHeight g)) ;
          ce ← Float32.ceil_int (Float32.mul spanMax2 (inverseCellHeight g)) ;
          Some [Raster x z fl ce areaID]
    end.

(** The column loop for row [z]. *)
Fixpoint column_loop (g : grid) (z : Z) (areaID : Z) (xs : list Z) (inRow : list vec3)
  : option (list insertion) :=
  match xs with
  | [] => Some []
  | x :: rest =>
      let cx := Float32.add (coord (heightfieldBBMin g) RC_AXIS_X)
                  (Float32.mul (Float32.of_int x) (cellSize g)) in
      let '(p1, p2) := dividePoly inRow (Float32.add cx (cellSize g)) RC_AXIS_X in
      here ← column_fragment g x z areaID p1 ;
      more ← column_loop g z areaID rest p2 ;
      Some (here ++ more)
  end.

(** The part of the row loop after the split along Z. *)
Definition row_fragments (g : grid) (z : Z) (areaID : Z) (inRow : list vec3)
  : option (list insertion) :=
  if Z.of_nat (length inRow) <? 3 then Some []
  else if z <? 0 then Some []
  else
    match inRow with
    | [] => Some []
    | v :: rest =>
        let minX := fold_left (fun m v => if Float32.ltb (coord v RC_AXIS_X) m
                                          then coord v RC_AXIS_X else m) rest (coord v RC_AXIS_X) in
        let maxX := fold_left (fun m v => if Float32.ltb m (coord v RC_AXIS_X)
                                          then coord v RC_AXIS_X else m) rest (coord v RC_AXIS_X) in
        let bminx := coord (heightfieldBBMin g) RC_AXIS_X in
        x0 ← Float32.to_int (Float32.mul (Float32.sub minX bminx) (inverseCellSize g)) ;
        x1 ← Float32.to_int (Float32.mul (Float32.sub maxX bminx) (inverseCellSize g)) ;
        if (x1 <? 0) || (x0 >=? g_width g) then Some []
        else
          let x0' := rcClamp x0 (-1) (g_width g - 1) in
          let x1' := rcClamp x1 0 (g_width g - 1) in
          column_loop g z areaID (seqZ x0' (x1' - x0' + 1)) inRow
    end.

(** The row loop. *)
Fixpoint row_loop (g : grid) (areaID : Z) (zs : list Z) (in_ : list vec3)
  : option (list insertion) :=
  match zs with
  | [] => Some []
  | z :: rest =>
      let cellZ := Float32.add (coord (heightfieldBBMin g) RC_AXIS_Z)
                     (Float32.mul (Float32.of_int z) (cellSize g)) in
      let '(inRow, p1) := dividePoly in_ (Float32.add cellZ (cellSize g)) RC_AXIS_Z in
      here ← row_fragments g z areaID inRow ;
      more ← row_loop g areaID rest p1 ;
      Some (here ++ more)
  end.

(** The clipping part of [rasterizeTri]: the [addSpan] calls that the
    triangle gives rise to, in order.  [None] stands for an undefined
    float-to-int conversion. *)
Definition triangle_fragments (g : grid) (v0 v1 v2 : vec3) (areaID : Z) : option (list insertion) :=
  let triBBMin := rcVmin (rcVmin v0 v1) v2 in
  let triBBMax := rcVmax (rcVmax v0 v1) v2 in
  if negb (overlapBounds triBBMin triBBMax (heightfieldBBMin g) (heightfieldBBMax g)) then Some []
  else
    let bminz := coord (heightfieldBBMin g) RC_AXIS_Z in
    z0 ← Float32.to_int (Float32.mul (Float32.sub (coord triBBMin RC_AXIS_Z) bminz)
                           (inverseCellSize g)) ;
    z1 ← Float32.to_int (Float32.mul (Float32.sub (coord triBBMax RC_AXIS_Z) bminz)
                           (inverseCellSize g)) ;
    let z0' := rcClamp z0 (-1) (g_height g - 1) in
    let z1' := rcClamp z1 0 (g_height g - 1) in
    row_loop g areaID (seqZ z0' (z1' - z0' + 1)) [v0; v1; v2].

(** [rasterizeTri]: the fragments are inserted one by one and the first
    failing [addSpan] ends the call; [alloc_ok] is the outcome of every
    pool allocation. *)
Definition rasterizeTri (alloc_ok : bool) (g : grid) (v0 v1 v2 : vec3) (areaID : Z)
    (hf : rcHeightfield) (flagMergeThreshold : Z) : option (bool * rcHeightfield) :=
  ops ← triangle_fragments g v0 v1 v2 areaID ;
  Some (insert_all flagMergeThreshold (map (fun op => (alloc_ok, op)) ops) hf).

(** A 2 x 2 grid of unit cells, ten cells high, at the origin. *)
Definition unit_grid : grid :=
  mkGrid 2 2
    (Float32.of_int 0, Float32.of_int 0, Float32.of_int 0)
    (Float32.of_int 2, Float32.of_int 10, Float32.of_int 2)
    (Float32.of_int 1) (Float32.of_int 1) (Float32.of_int 1).

(** The vertex [(x4 / 4, y4 / 4, z4 / 4)]. *)
Definition vertex (x4 y4 z4 : Z) : vec3 :=
  (Float32.of_frac x4 2, Float32.of_frac y4 2, Float32.of_frac z4 2).

(** The cell an insertion writes to. *)
Definition insertion_cell (op : insertion) : Z * Z :=
  match op with
  | Direct x z _ _ _ => (x, z)
  | Raster x z _ _ _ => (x, z)
  end.

(** All vertices of the polygon have coordinate [c] along [axis]. *)
Definition on_plane (axis : rcAxis) (c : Float32.float) (verts : list vec3) : Prop :=
  Forall (fun v => coord v axis = c) verts.

(** [x] has the value of [c]: it is [c], or both are zeros (of either sign). *)
Definition same_value (c x : Float32.float) : Prop :=
  x = c \/ (Float32.is_zero c = true /\ Float32.is_zero x = true).

(** What clipping along Z can make of the X coordinate of a polygon on the
    plane X = [c]: the value of [c], or a NaN where the interpolation factor
    of [dividePoly] is not a number. *)
Definition value_or_nan (c x : Float32.float) : Prop := same_value c x \/ x = S754_nan.

Definition x_on_plane (c : Float32.float) (v : vec3) : Prop := value_or_nan c (coord v RC_AXIS_X).

(** A triangle on the plane Z = 1 of [unit_grid] and one on the plane
    X = 2; the coordinates are given in quarters. *)
Definition tri_z1 : list vec3 := [vertex 1 4 4; vertex 3 4 4; vertex 2 8 4].
Definition tri_x2 : list vec3 := [vertex 8 4 1; vertex 8 4 3; vertex 8 8 2].

(** The insertion writes to a column of the grid of [hf]. *)
Definition in_grid (hf : rcHeightfield) (op : insertion) : Prop :=
  0 <= fst (insertion_cell op) < width hf /\ 0 <= snd (insertion_cell op) < height hf.

(** The number of spans that are linked into the columns. *)
Definition spans_in_use (hf : rcHeightfield) : Z := Z.of_nat (length (concat (spans hf))).

(** Every span of every pool is either in a column or on the free list. *)
Definition pools_balanced (hf : rcHeightfield) : Prop :=
  pools hf * RC_SPANS_PER_POOL = freelist hf + spans_in_use hf /\ 0 <= freelist hf.

(** The grid that [rcRasterizeTriangle] and [rcRasterizeTriangles] hand to
    [rasterizeTri]: [bmin], [bmax], [cs] and [ch] are the fields of these
    names of the heightfield. *)
Definition heightfield_grid (hf : rcHeightfield) (bmin bmax : vec3) (cs ch : Float32.float)
  : grid :=
  mkGrid (width hf) (height hf) bmin bmax cs
    (Float32.div (Float32.of_int 1) cs) (Float32.div (Float32.of_int 1) ch).

(** [rcRasterizeTriangle] *)
Definition rcRasterizeTriangle (alloc_ok : bool) (log : list log_entry)
    (bmin bmax : vec3) (cs ch : Float32.float) (v0 v1 v2 : vec3) (areaID : Z)
    (hf : rcHeightfield) (flagMergeThreshold : Z)
  : option (bool * rcHeightfield * list log_entry) :=
  match rasterizeTri alloc_ok (heightfield_grid hf bmin bmax cs ch) v0 v1 v2 areaID hf
          flagMergeThreshold with
  | None => None
  | Some (true, hf') => Some (true, hf', log)
  | Some (false, hf') =>
      Some (false, hf',
            log ++ [(RC_LOG_ERROR, "rcRasterizeTriangle: Out of memory."%string, [])])
  end.

(** The loop of [rcRasterizeTriangles] (indexed triangles): vertex [k] is
    [verts[k]], triangle [triIndex] has the vertices
    [tris[triIndex * 3 + 0 .. 2]]; the first failure ends the loop. *)
Fixpoint rasterize_triangles (alloc_ok : bool) (g : grid) (verts : list vec3)
    (tris triAreaIDs : list Z) (flagMergeThreshold : Z) (triIndices : list Z)
    (hf : rcHeightfield) : option (bool * rcHeightfield) :=
  match triIndices with
  | [] => Some (true, hf)
  | triIndex :: rest =>
      let origin := (Float32.zero, Float32.zero, Float32.zero) in
      let v0 := zget origin verts (zget 0 tris (triIndex * 3 + 0)) in
      let v1 := zget origin verts (zget 0 tris (triIndex * 3 + 1)) in
      let v2 := zget origin verts (zget 0 tris (triIndex * 3 + 2)) in
      match rasterizeTri alloc_ok g v0 v1 v2 (zget 0 triAreaIDs triIndex) hf
              flagMergeThreshold with
      | None => None
      | Some (true, hf') =>
          rasterize_triangles alloc_ok g verts tris triAreaIDs flagMergeThreshold rest hf'
      | Some (false, hf') => Some (false, hf')
      end
  end.

(** [rcRasterizeTriangles] *)
Definition rcRasterizeTriangles (alloc_ok : bool) (log : list log_entry)
    (bmin bmax : vec3) (cs ch : Float32.float) (verts : list vec3)
    (tris triAreaIDs : list Z) (numTris : Z) (hf : rcHeightfield) (flagMergeThreshold : Z)
  : option (bool * rcHeightfield * list log_entry) :=
  match rasterize_triangles alloc_ok (heightfield_grid hf bmin bmax cs ch) verts tris
          triAreaIDs flagMergeThreshold (seqZ 0 numTris) hf with
  | None => None
  | Some (true, hf') => Some (true, hf', log)
  | Some (false, hf') =>
      Some (false, hf',
            log ++ [(RC_LOG_ERROR, "rcRasterizeTriangles: Out of memory."%string, [])])
  end.

(** A 2 x 2 heightfield on [unit_grid] and what one triangle over three of
    its cells leaves in it. *)
Definition corner_hf0 : rcHeightfield := mkHeightfield 2 2 [[]; []; []; []] 0 0.
Definition corner_hf : rcHeightfield :=
  mkHeightfield 2 2 [[mkSpan 1 2 63]; [mkSpan 1 2 63]; [mkSpan 1 2 63]; []] 1 2045.

(** A heightfield of one column whose box is 8191 voxels high
    ([bmin = (0, 0, 0)], [bmax = (1, 8191, 1)], [cs = ch = 1]) and a flat
    triangle in its top face [y = 8191], with what its rasterization leaves
    in the column. *)
Definition top_bmin : vec3 := (Float32.of_int 0, Float32.of_int 0, Float32.of_int 0).
Definition top_bmax : vec3 := (Float32.of_int 1, Float32.of_int 8191, Float32.of_int 1).
Definition top_v0 : vec3 := vertex 1 32764 1.
Definition top_v1 : vec3 := vertex 3 32764 1.
Definition top_v2 : vec3 := vertex 2 32764 3.
Definition top_hf0 : rcHeightfield := mkHeightfield 1 1 [[]] 0 0.
Definition top_hf : rcHeightfield := mkHeightfield 1 1 [[mkSpan 8191 0 63]] 1 2047.

End Clip.

(** ** RecastFilter.cpp *)

Module Filter.
Import Heightfield.

Definition MAX_HEIGHTFIELD_HEIGHT : Z := 65535.

(** [span->next ? span->next->smin : MAX_HEIGHTFIELD_HEIGHT] *)
Definition ceiling_of (next : list rcSpan) : Z :=
  match next with
  | [] => MAX_HEIGHTFIELD_HEIGHT
  | n :: _ => smin n
  end.

(** The state of the ledge test of one span. *)
Record ledge_state := mkLedge {
  lowestNeighborFloorDifference : Z;
  lowestTraversableNeighborFloor : Z;
  highestTraversableNeighborFloor : Z
}.

(** The loop over the spans of one neighbour column. *)
Fixpoint ledge_neighbor_spans (walkableHeight walkableClimb floor ceiling : Z)
    (neighborChain : list rcSpan) (st : ledge_state) : ledge_state :=
  match neighborChain with
  | [] => st
  | neighborSpan :: next =>
      let neighborFloor := smax neighborSpan in
      let neighborCeiling := ceiling_of next in
      if rcMin ceiling neighborCeiling - rcMax floor neighborFloor <? walkableHeight
      then ledge_neighbor_spans walkableHeight walkableClimb floor ceiling next st
      else
        let neighborFloorDifference := neighborFloor - floor in
        let lowest := rcMin (lowestNeighborFloorDifference st) neighborFloorDifference in
        if rcAbs neighborFloorDifference <=? walkableClimb then
          ledge_neighbor_spans walkableHeight walkableClimb floor ceiling next
            (mkLedge lowest
               (rcMin (lowestTraversableNeighborFloor st) neighborFloor)
               (rcMax (highestTraversableNeighborFloor st) neighborFloor))
        else if neighborFloorDifference <? - walkableClimb then
          mkLedge lowest (lowestTraversableNeighborFloor st) (highestTraversableNeighborFloor st)
        else
          ledge_neighbor_spans walkableHeight walkableClimb floor ceiling next
            (mkLedge lowest (lowestTraversableNeighborFloor st) (highestTraversableNeighborFloor st))
  end.

(** The loop over the four directions; both early exits leave the sentinel
    [-walkableClimb - 1] in [lowestNeighborFloorDifference]. *)
Fixpoint ledge_directions (hf : rcHeightfield) (walkableHeight walkableClimb x z floor ceiling : Z)
    (directions : list Z) (st : ledge_state) : ledge_state :=
  match directions with
  | [] => st
  | direction :: rest =>
      let xSize := width hf in
      let zSize := height hf in
      let neighborX := x + rcGetDirOffsetX direction in
      let neighborZ := z + rcGetDirOffsetY direction in
      if (neighborX <? 0) || (neighborZ <? 0) || (neighborX >=? xSize) || (neighborZ >=? zSize) then
        mkLedge (- walkableClimb - 1)
          (lowestTraversableNeighborFloor st) (highestTraversableNeighborFloor st)
      else
        let neighborChain := zget [] (spans hf) (neighborX + neighborZ * xSize) in
        let neighborCeiling := ceiling_of neighborChain in
        if rcMin ceiling neighborCeiling - floor >=? walkableHeight then
          mkLedge (- walkableClimb - 1)
            (lowestTraversableNeighborFloor st) (highestTraversableNeighborFloor st)
        else
          ledge_directions hf walkableHeight walkableClimb x z floor ceiling rest
            (ledge_neighbor_spans walkableHeight walkableClimb floor ceiling neighborChain st)
  end.

Definition set_area (s : rcSpan) (a : Z) : rcSpan := mkSpan (smin s) (smax s) a.

(** The body of the loop over the spans of column [(x, z)]. *)
Definition ledge_span (hf : rcHeightfield) (walkableHeight walkableClimb x z : Z)
    (span : rcSpan) (next : list rcSpan) : rcSpan :=
  if area span =? RC_NULL_AREA then span
  else
    let floor := smax span in
    let ceiling := ceiling_of next in
    let st := ledge_directions hf walkableHeight walkableClimb x z floor ceiling [0; 1; 2; 3]
                (mkLedge MAX_HEIGHTFIELD_HEIGHT (smax span) (smax span)) in
    if lowestNeighborFloorDifference st <? - walkableClimb then set_area span RC_NULL_AREA
    else if highestTraversableNeighborFloor st - lowestTraversableNeighborFloor st >? walkableClimb
         then set_area span RC_NULL_AREA
         else span.

Fixpoint ledge_chain (hf : rcHeightfield) (walkableHeight walkableClimb x z : Z)
    (chain : list rcSpan) : list rcSpan :=
  match chain with
  | [] => []
  | span :: next =>
      ledge_span hf walkableHeight walkableClimb x z span next
        :: ledge_chain hf walkableHeight walkableClimb x z next
  end.

Definition ledge_column (walkableHeight walkableClimb z : Z) (hf : rcHeightfield) (x : Z)
  : rcHeightfield :=
  let columnIndex := x + z * width hf in
  set_column hf columnIndex
    (ledge_chain hf walkableHeight walkableClimb x z (zget [] (spans hf) columnIndex)).

(** [rcFilterLedgeSpans]: the spans are updated in place, column by column. *)
Definition rcFilterLedgeSpans (walkableHeight walkableClimb : Z) (hf : rcHeightfield) : rcHeightfield :=
  let xSize := width hf in
  let zSize := height hf in
  fold_left (fun hf z => fold_left (ledge_column walkableHeight walkableClimb z) (seqZ 0 xSize) hf)
    (seqZ 0 zSize) hf.

Definition all_null (chain : list rcSpan) : Prop := Forall (fun s => area s = RC_NULL_AREA) chain.

Definition on_grid_edge (hf : rcHeightfield) (x z : Z) : Prop :=
  x = 0 \/ x = width hf - 1 \/ z = 0 \/ z = height hf - 1.

Definition out_of_bounds (hf : rcHeightfield) (x z direction : Z) : Prop :=
  let neighborX := x + rcGetDirOffsetX direction in
  let neighborZ := z + rcGetDirOffsetY direction in
  neighborX < 0 \/ neighborZ < 0 \/ neighborX >= width hf \/ neighborZ >= height hf.

Definition ledge_hf : rcHeightfield := mkHeightfield 3 3 (replicate 9 [mkSpan 0 10 63]) 1 2039.

(** The loop over one chain of [rcFilterLowHangingWalkableObstacles].
    [previousSpan] is [NULL] only before the first span, where
    [previousWasWalkable] is false and the test does not read it. *)
Fixpoint low_obstacles_chain (walkableClimb : Z) (previousSpan : option rcSpan)
    (previousWasWalkable : bool) (previousAreaID : Z) (chain : list rcSpan) : list rcSpan :=
  match chain with
  | [] => []
  | span :: next =>
      let walkable := negb (area span =? RC_NULL_AREA) in
      let span' :=
        if negb walkable && previousWasWalkable
           && (smax span - from_option smax 0 previousSpan <=? walkableClimb)
        then set_area span previousAreaID else span in
      span' :: low_obstacles_chain walkableClimb (Some span') walkable (area span') next
  end.

Definition low_obstacles_column (walkableClimb z : Z) (hf : rcHeightfield) (x : Z)
  : rcHeightfield :=
  let columnIndex := x + z * width hf in
  set_column hf columnIndex
    (low_obstacles_chain walkableClimb None false RC_NULL_AREA (zget [] (spans hf) columnIndex)).

(** [rcFilterLowHangingWalkableObstacles] *)
Definition rcFilterLowHangingWalkableObstacles (walkableClimb : Z) (hf : rcHeightfield)
  : rcHeightfield :=
  let xSize := width hf in
  let zSize := height hf in
  fold_left (fun hf z => fold_left (low_obstacles_column walkableClimb z) (seqZ 0 xSize) hf)
    (seqZ 0 zSize) hf.

(** The loop over one chain of [rcFilterWalkableLowHeightSpans]. *)
Fixpoint low_height_chain (walkableHeight : Z) (chain : list rcSpan) : list rcSpan :=
  match chain with
  | [] => []
  | span :: next =>
      let floor := smax span in
      let ceiling := ceiling_of next in
      (if ceiling - floor <? walkableHeight then set_area span RC_NULL_AREA else span)
        :: low_height_chain walkableHeight next
  end.

Definition low_height_column (walkableHeight z : Z) (hf : rcHeightfield) (x : Z)
  : rcHeightfield :=
  let columnIndex := x + z * width hf in
  set_column hf columnIndex (low_height_chain walkableHeight (zget [] (spans hf) columnIndex)).

(** [rcFilterWalkableLowHeightSpans] *)
Definition rcFilterWalkableLowHeightSpans (walkableHeight : Z) (hf : rcHeightfield)
  : rcHeightfield :=
  let xSize := width hf in
  let zSize := height hf in
  fold_left (fun hf z => fold_left (low_height_column walkableHeight z) (seqZ 0 xSize) hf)
    (seqZ 0 zSize) hf.

(** The free space above the [i]-th span of a chain: from its top to the
    bottom of the next span, or to [MAX_HEIGHTFIELD_HEIGHT]. *)
Definition clearance (chain : list rcSpan) (i : nat) (s : rcSpan) : Z :=
  ceiling_of (drop (S i) chain) - smax s.

(** A heightfield whose column table has one entry per cell. *)
Definition grid_ok (hf : rcHeightfield) : Prop :=
  0 <= width hf /\ 0 <= height hf /\ Z.of_nat (length (spans hf)) = width hf * height hf.

(** Two heightfields with the same grid and, span by span, the same intervals. *)
Definition same_intervals (g hf : rcHeightfield) : Prop :=
  width g = width hf /\ height g = height hf
  /\ map (map Rasterization.interval) (spans g) = map (map Rasterization.interval) (spans hf).

(** A column with a low step above its floor, next to a plain floor. *)
Definition stairs_hf : rcHeightfield :=
  mkHeightfield 2 1
    [[mkSpan 0 10 63; mkSpan 12 14 0; mkSpan 15 16 0]; [mkSpan 0 10 63]] 1 2044.

End Filter.

(** ** The compact heightfield and Recast.cpp *)

Module Compact.

(** [index : 24], [count : 8] *)
Record rcCompactCell := mkCell { index : Z; count : Z }.

(** [y : 16], [reg : 16], [con : 24], [h : 8] *)
Record rcCompactSpan := mkCSpan { y : Z; reg : Z; con : Z; h : Z }.

Record rcCompactHeightfield := mkCompactHeightfield {
  width : Z;
  height : Z;
  spanCount : Z;
  walkableHeight : Z;
  walkableClimb : Z;
  borderSize : Z;
  maxDistance : Z;
  maxRegions : Z;
  cells : list rcCompactCell;
  spans : list rcCompactSpan;
  dist : list Z;
  areas : list Z
}.

Definition cell0 : rcCompactCell := mkCell 0 0.
Definition span0 : rcCompactSpan := mkCSpan 0 0 0 0.

(** [rcSetCon], [rcGetCon]: four 6-bit neighbour indices packed in [con]. *)
Definition rcSetCon (span : rcCompactSpan) (direction neighborIndex : Z) : rcCompactSpan :=
  let shift := direction * 6 in
  mkCSpan (y span) (reg span)
    (ubits 24 (Z.lor (Z.land (con span) (Z.lnot (Z.shiftl 63 shift)))
                     (Z.shiftl (Z.land neighborIndex 63) shift)))
    (h span).

Definition rcGetCon (span : rcCompactSpan) (direction : Z) : Z :=
  Z.land (Z.shiftr (con span) (direction * 6)) 63.

(** [rcGetHeightFieldSpanCount] *)
Definition rcGetHeightFieldSpanCount (hf : Heightfield.rcHeightfield) : Z :=
  let numCols := Heightfield.width hf * Heightfield.height hf in
  fold_left
    (fun spanCount columnIndex =>
       fold_left (fun spanCount span =>
                    if Heightfield.area span =? RC_NULL_AREA then spanCount else spanCount + 1)
         (zget [] (Heightfield.spans hf) columnIndex) spanCount)
    (seqZ 0 numCols) 0.

Definition MAX_HEIGHT : Z := 65535.
Definition MAX_LAYERS : Z := RC_NOT_CONNECTED - 1.

Record fill_state := mkFill {
  f_cells : list rcCompactCell;
  f_spans : list rcCompactSpan;
  f_areas : list Z;
  currentCellIndex : Z
}.

(** [span->next ? (int)span->next->smin : MAX_HEIGHT] *)
Definition top_of (next : list Heightfield.rcSpan) : Z :=
  match next with
  | [] => MAX_HEIGHT
  | n :: _ => Heightfield.smin n
  end.

(** The loop over the spans of one column. *)
Fixpoint fill_column (columnIndex : Z) (chain : list Heightfield.rcSpan) (st : fill_state)
  : fill_state :=
  match chain with
  | [] => st
  | span :: next =>
      if Heightfield.area span =? RC_NULL_AREA then fill_column columnIndex next st
      else
        let bot := Heightfield.smax span in
        let top := top_of next in
        let i := currentCellIndex st in
        let s := zget span0 (f_spans st) i in
        let s' := mkCSpan (ubits 16 (rcClamp bot 0 65535)) (reg s) (con s)
                          (ubits 8 (rcClamp (top - bot) 0 255)) in
        let cell := zget cell0 (f_cells st) columnIndex in
        fill_column columnIndex next
          (mkFill (zset (f_cells st) columnIndex (mkCell (index cell) (ubits 8 (count cell + 1))))
                  (zset (f_spans st) i s')
                  (zset (f_areas st) i (Heightfield.area span))
                  (i + 1))
  end.

Definition fill_step (hf : Heightfield.rcHeightfield) (st : fill_state) (columnIndex : Z)
  : fill_state :=
  match zget [] (Heightfield.spans hf) columnIndex with
  | [] => st
  | chain =>
      fill_column columnIndex chain
        (mkFill (zset (f_cells st) columnIndex (mkCell (ubits 24 (currentCellIndex st)) 0))
                (f_spans st) (f_areas st) (currentCellIndex st))
  end.

(** The connection test between a span and a candidate neighbour. *)
Definition connectable (walkableHeight walkableClimb : Z) (span neighborSpan : rcCompactSpan) : bool :=
  let bot := rcMax (y span) (y neighborSpan) in
  let top := rcMin (y span + h span) (y neighborSpan + h neighborSpan) in
  (top - bot >=? walkableHeight) && (rcAbs (y neighborSpan - y span) <=? walkableClimb).

(** The loop over the spans [k] of the neighbour column: the layer index of
    the first connectable span within the 6-bit range, and [maxLayerIndex]. *)
Fixpoint link_scan (walkableHeight walkableClimb : Z) (spans : list rcCompactSpan)
    (span : rcCompactSpan) (neighborIndex : Z) (ks : list Z) (maxLayerIndex : Z)
  : option Z * Z :=
  match ks with
  | [] => (None, maxLayerIndex)
  | k :: rest =>
      let neighborSpan := zget span0 spans k in
      if connectable walkableHeight walkableClimb span neighborSpan then
        let layerIndex := k - neighborIndex in
        if (layerIndex <? 0) || (layerIndex >? MAX_LAYERS)
        then link_scan walkableHeight walkableClimb spans span neighborIndex rest
               (rcMax maxLayerIndex layerIndex)
        else (Some layerIndex, maxLayerIndex)
      else link_scan walkableHeight walkableClimb spans span neighborIndex rest maxLayerIndex
  end.

(** One iteration of the direction loop for span [i] of column [(x, z)]. *)
Definition link_dir (walkableHeight walkableClimb xSize zSize : Z) (cells : list rcCompactCell)
    (st : list rcCompactSpan * Z) (step : Z * Z * Z * Z) : list rcCompactSpan * Z :=
  let '(x, z, i, dir) := step in
  let '(spans, maxLayerIndex) := st in
  let spans1 := zset spans i (rcSetCon (zget span0 spans i) dir RC_NOT_CONNECTED) in
  let neighborX := x + rcGetDirOffsetX dir in
  let neighborZ := z + rcGetDirOffsetY dir in
  if (neighborX <? 0) || (neighborZ <? 0) || (neighborX >=? xSize) || (neighborZ >=? zSize)
  then (spans1, maxLayerIndex)
  else
    let neighborCell := zget cell0 cells (neighborX + neighborZ * xSize) in
    match link_scan walkableHeight walkableClimb spans1 (zget span0 spans1 i)
            (index neighborCell) (seqZ (index neighborCell) (count neighborCell)) maxLayerIndex with
    | (Some layerIndex, m) => (zset spans1 i (rcSetCon (zget span0 spans1 i) dir layerIndex), m)
    | (None, m) => (spans1, m)
    end.

(** The four nested loops of the second pass. *)
Definition link_all (walkableHeight walkableClimb xSize zSize : Z) (cells : list rcCompactCell)
    (st : list rcCompactSpan * Z) : list rcCompactSpan * Z :=
  fold_left (fun st z =>
    fold_left (fun st x =>
      let cell := zget cell0 cells (x + z * xSize) in
      fold_left (fun st i =>
        fold_left (fun st dir =>
                     link_dir walkableHeight walkableClimb xSize zSize cells st (x, z, i, dir))
          [0; 1; 2; 3] st)
        (seqZ (index cell) (count cell)) st)
      (seqZ 0 xSize) st)
    (seqZ 0 zSize) st.

(** [rcBuildCompactHeightfield].  The three flags are the outcomes of the
    allocations of [cells], [spans] and [areas]. *)
Definition rcBuildCompactHeightfield (alloc_cells alloc_spans alloc_areas : bool)
    (log : list log_entry) (walkableHeight walkableClimb : Z) (hf : Heightfield.rcHeightfield)
  : bool * rcCompactHeightfield * list log_entry :=
  let xSize := Heightfield.width hf in
  let zSize := Heightfield.height hf in
  let spanCount := rcGetHeightFieldSpanCount hf in
  let header cells spans areas :=
    mkCompactHeightfield xSize zSize spanCount walkableHeight walkableClimb 0 0 0
      cells spans [] areas in
  if negb alloc_cells then
    (false, header [] [] [],
     log ++ [(RC_LOG_ERROR, "rcBuildCompactHeightfield: Out of memory 'chf.cells' (%d)"%string,
              [xSize * zSize])])
  else
    let cells0 := replicate (Z.to_nat (xSize * zSize)) cell0 in
    if negb alloc_spans then
      (false, header cells0 [] [],
       log ++ [(RC_LOG_ERROR, "rcBuildCompactHeightfield: Out of memory 'chf.spans' (%d)"%string,
                [spanCount])])
    else
      let spans0 := replicate (Z.to_nat spanCount) span0 in
      if negb alloc_areas then
        (false, header cells0 spans0 [],
         log ++ [(RC_LOG_ERROR, "rcBuildCompactHeightfield: Out of memory 'chf.areas' (%d)"%string,
                  [spanCount])])
      else
        let areas0 := replicate (Z.to_nat spanCount) RC_NULL_AREA in
        let numColumns := xSize * zSize in
        let filled := fold_left (fill_step hf) (seqZ 0 numColumns) (mkFill cells0 spans0 areas0 0) in
        let '(spans2, maxLayerIndex) :=
          link_all walkableHeight walkableClimb xSize zSize (f_cells filled) (f_spans filled, 0) in
        let log' :=
          if maxLayerIndex >? MAX_LAYERS
          then log ++ [(RC_LOG_ERROR,
                        "rcBuildCompactHeightfield: Heightfield has too many layers %d (max: %d)"%string,
                        [maxLayerIndex; MAX_LAYERS])]
          else log in
        (true, header (f_cells filled) spans2 (f_areas filled), log').

(** The iterations of the second pass in execution order. *)
Definition all_steps (xSize zSize : Z) (cells : list rcCompactCell) : list (Z * Z * Z * Z) :=
  flat_map (fun z =>
    flat_map (fun x =>
      let cell := zget cell0 cells (x + z * xSize) in
      flat_map (fun i => map (fun dir => (x, z, i, dir)) [0; 1; 2; 3])
        (seqZ (index cell) (count cell)))
      (seqZ 0 xSize))
    (seqZ 0 zSize).

(** The value the second pass leaves in [con] for direction [dir] of span
    [i] of column [(x, z)], read off the filled arrays. *)
Definition neighbor_link (walkableHeight walkableClimb xSize zSize : Z)
    (cells : list rcCompactCell) (spans : list rcCompactSpan) (x z i dir : Z) : Z :=
  let neighborX := x + rcGetDirOffsetX dir in
  let neighborZ := z + rcGetDirOffsetY dir in
  if (neighborX <? 0) || (neighborZ <? 0) || (neighborX >=? xSize) || (neighborZ >=? zSize)
  then RC_NOT_CONNECTED
  else
    let neighborCell := zget cell0 cells (neighborX + neighborZ * xSize) in
    match fst (link_scan walkableHeight walkableClimb spans (zget span0 spans i)
                 (index neighborCell) (seqZ (index neighborCell) (count neighborCell)) 0) with
    | Some layerIndex => layerIndex
    | None => RC_NOT_CONNECTED
    end.

(** Two span arrays that differ at most in [con] and [reg]. *)
Definition same_yh (a b : list rcCompactSpan) : Prop :=
  length a = length b /\
  forall j, y (zget span0 a j) = y (zget span0 b j) /\ h (zget span0 a j) = h (zget span0 b j).

(** Span [i] lies in the run of column [c]. *)
Definition in_cell (cells : list rcCompactCell) (c i : Z) : Prop :=
  index (zget cell0 cells c) <= i < index (zget cell0 cells c) + count (zget cell0 cells c).

(** The runs of the columns lie inside the span array and do not overlap. *)
Definition layout (xSize zSize : Z) (cells : list rcCompactCell) (spans : list rcCompactSpan) : Prop :=
  (forall c, 0 <= c < xSize * zSize ->
     0 <= index (zget cell0 cells c)
     /\ index (zget cell0 cells c) + count (zget cell0 cells c) <= Z.of_nat (length spans)) /\
  (forall c c' i, 0 <= c < xSize * zSize -> 0 <= c' < xSize * zSize ->
     in_cell cells c i -> in_cell cells c' i -> c = c').




(** The compact span and the area tag the first pass writes for each
    walkable span of a chain, bottom-up. *)
Fixpoint emit (chain : list Heightfield.rcSpan) : list (rcCompactSpan * Z) :=
  match chain with
  | [] => []
  | span :: next =>
      if Heightfield.area span =? RC_NULL_AREA then emit next
      else (mkCSpan (ubits 16 (rcClamp (Heightfield.smax span) 0 65535)) 0 0
                    (ubits 8 (rcClamp (top_of next - Heightfield.smax span) 0 255)),
            Heightfield.area span) :: emit next
  end.

Definition emit_all (columns : list (list Heightfield.rcSpan)) : list (rcCompactSpan * Z) :=
  concat (map emit columns).

(** The cell the first pass leaves for column [c]. *)
Definition filled_cell (columns : list (list Heightfield.rcSpan)) (c : nat) : rcCompactCell :=
  match nth c columns [] with
  | [] => cell0
  | chain => mkCell (ubits 24 (Z.of_nat (length (emit_all (take c columns)))))
                    (ubits 8 (Z.of_nat (length (emit chain))))
  end.

Definition fill_inv (columns : list (list Heightfield.rcSpan)) (n : nat) (st : fill_state) : Prop :=
    f_spans st = map fst (emit_all (take n columns))
                 ++ replicate (length (emit_all (drop n columns))) span0 /\
    f_areas st = map snd (emit_all (take n columns))
                 ++ replicate (length (emit_all (drop n columns))) RC_NULL_AREA /\
    currentCellIndex st = Z.of_nat (length (emit_all (take n columns))) /\
    length (f_cells st) = length columns /\
    (forall c, (c < n)%nat -> zget cell0 (f_cells st) (Z.of_nat c) = filled_cell columns c) /\
    (forall c, (n <= c)%nat -> zget cell0 (f_cells st) (Z.of_nat c) = cell0).


(** The walkable spans of a chain, each with the chain above it. *)
Fixpoint walkable_spans (chain : list Heightfield.rcSpan)
  : list (Heightfield.rcSpan * list Heightfield.rcSpan) :=
  match chain with
  | [] => []
  | span :: next =>
      if Heightfield.area span =? RC_NULL_AREA then walkable_spans next
      else (span, next) :: walkable_spans next
  end.

(** The values of the 13- and 6-bit fields of a span. *)
Definition span_fields (s : Heightfield.rcSpan) : Prop :=
  0 <= Heightfield.smin s < 2 ^ 13 /\ 0 <= Heightfield.smax s < 2 ^ 13
  /\ 0 <= Heightfield.area s < 2 ^ 6.

(** The filled state that [rcBuildCompactHeightfield] hands to its second pass. *)
Definition filled_state (hf : Heightfield.rcHeightfield) : fill_state :=
  fold_left (fill_step hf) (seqZ 0 (Heightfield.width hf * Heightfield.height hf))
    (mkFill (replicate (Z.to_nat (Heightfield.width hf * Heightfield.height hf)) cell0)
            (replicate (Z.to_nat (rcGetHeightFieldSpanCount hf)) span0)
            (replicate (Z.to_nat (rcGetHeightFieldSpanCount hf)) RC_NULL_AREA) 0).

Definition tall_hf : Heightfield.rcHeightfield :=
  Heightfield.mkHeightfield 1 1 [[Heightfield.mkSpan 0 1 63]] 1 2047.

Definition step_hf : Heightfield.rcHeightfield :=
  Heightfield.mkHeightfield 2 1
    [[Heightfield.mkSpan 0 10 63];
     [Heightfield.mkSpan 0 10 63; Heightfield.mkSpan 14 15 63]] 1 2045.

(** Direction [dir] of span [i] of column [(x, z)] runs into the layer
    limit: a span of the neighbour column above layer [MAX_LAYERS] passes
    the connection test and none at or below that layer does. *)
Definition layer_overflow (chf : rcCompactHeightfield) (x z i dir : Z) : Prop :=
  let neighborX := x + rcGetDirOffsetX dir in
  let neighborZ := z + rcGetDirOffsetY dir in
  let neighborCell := zget cell0 (cells chf) (neighborX + neighborZ * width chf) in
  let walks k := connectable (walkableHeight chf) (walkableClimb chf)
                   (zget span0 (spans chf) i) (zget span0 (spans chf) k) in
  (0 <= neighborX < width chf /\ 0 <= neighborZ < height chf) /\
  (exists k, index neighborCell + MAX_LAYERS < k < index neighborCell + count neighborCell
             /\ walks k = true) /\
  (forall k, index neighborCell <= k <= index neighborCell + MAX_LAYERS -> walks k = false).

(** The log entry of [rcBuildCompactHeightfield] for too many layers. *)
Definition too_many_layers (maxLayerIndex : Z) : log_entry :=
  (RC_LOG_ERROR, "rcBuildCompactHeightfield: Heightfield has too many layers %d (max: %d)"%string,
   [maxLayerIndex; MAX_LAYERS]).

(** A 2 x 1 field: one span in column 0 level with the topmost of the 64
    spans of column 1. *)
Definition tower_hf : Heightfield.rcHeightfield :=
  Heightfield.mkHeightfield 2 1
    [[Heightfield.mkSpan 630 631 63];
     map (fun k => Heightfield.mkSpan (10 * k) (10 * k + 1) 63) (seqZ 0 64)]
    1 1983.

(** [rcGetDirForOffset]: the table [dirs] is read at
    [((offsetZ + 1) << 1) + offsetX]. *)
Definition rcGetDirForOffset (offsetX offsetZ : Z) : Z :=
  zget 0 [3; 0; -1; 2; 1] (Z.shiftl (offsetZ + 1) 1 + offsetX).

End Compact.

(** ** RecastArea.cpp *)

Module Area.
Import Compact.

(** The index of the span that [span] links to in direction [dir], for a
    span of column [(x, z)]: [cells[ax + ay * w].index + rcGetCon(span, dir)]. *)
Definition con_index (chf : rcCompactHeightfield) (x z : Z) (span : rcCompactSpan) (dir : Z) : Z :=
  let ax := x + rcGetDirOffsetX dir in
  let ay := z + rcGetDirOffsetY dir in
  index (zget cell0 (cells chf) (ax + ay * width chf)) + rcGetCon span dir.

(** The loop that counts the walkable neighbours of a span; it stops at the
    first direction that is unconnected or leads to a null-area span. *)
Fixpoint walkable_neighbors (chf : rcCompactHeightfield) (x z : Z) (span : rcCompactSpan)
    (directions : list Z) (neighborCount : Z) : Z :=
  match directions with
  | [] => neighborCount
  | direction :: rest =>
      if rcGetCon span direction =? RC_NOT_CONNECTED then neighborCount
      else if zget 0 (areas chf) (con_index chf x z span direction) =? RC_NULL_AREA
           then neighborCount
           else walkable_neighbors chf x z span rest (neighborCount + 1)
  end.

(** A loop over the spans of all columns, rows and columns in the given order. *)
Definition for_spans {S : Type} (chf : rcCompactHeightfield) (zs xs : list Z)
    (body : Z -> Z -> Z -> S -> S) (st : S) : S :=
  fold_left (fun st z =>
    fold_left (fun st x =>
      let cell := zget cell0 (cells chf) (x + z * width chf) in
      fold_left (fun st spanIndex => body x z spanIndex st)
        (seqZ (index cell) (count cell)) st)
      xs st)
    zs st.

(** Step 2 of [rcErodeWalkableArea]: the seeds of the distance field. *)
Definition mark_boundary (chf : rcCompactHeightfield) (x z spanIndex : Z) (dist : list Z) : list Z :=
  if zget 0 (areas chf) spanIndex =? RC_NULL_AREA then zset dist spanIndex 0
  else
    let span := zget span0 (spans chf) spanIndex in
    if walkable_neighbors chf x z span [0; 1; 2; 3] 0 =? 4 then dist
    else zset dist spanIndex 0.

(** [newDistance = (unsigned char)rcMin(dist[from] + cost, 255)], kept when smaller. *)
Definition relax (dist : list Z) (spanIndex from cost : Z) : list Z :=
  let newDistance := ubits 8 (rcMin (zget 0 dist from + cost) 255) in
  if newDistance <? zget 0 dist spanIndex then zset dist spanIndex newDistance else dist.

(** One of the four blocks of the sweeps: the neighbour in direction [dirA]
    costs 2, the diagonal reached from it in direction [dirB] costs 3. *)
Definition relax_from (chf : rcCompactHeightfield) (x z spanIndex dirA dirB : Z) (dist : list Z)
  : list Z :=
  let span := zget span0 (spans chf) spanIndex in
  if rcGetCon span dirA =? RC_NOT_CONNECTED then dist
  else
    let aX := x + rcGetDirOffsetX dirA in
    let aY := z + rcGetDirOffsetY dirA in
    let aIndex := con_index chf x z span dirA in
    let aSpan := zget span0 (spans chf) aIndex in
    let dist1 := relax dist spanIndex aIndex 2 in
    if rcGetCon aSpan dirB =? RC_NOT_CONNECTED then dist1
    else relax dist1 spanIndex (con_index chf aX aY aSpan dirB) 3.

Definition sweep_forward (chf : rcCompactHeightfield) (x z spanIndex : Z) (dist : list Z) : list Z :=
  relax_from chf x z spanIndex 3 2 (relax_from chf x z spanIndex 0 3 dist).

Definition sweep_backward (chf : rcCompactHeightfield) (x z spanIndex : Z) (dist : list Z) : list Z :=
  relax_from chf x z spanIndex 1 0 (relax_from chf x z spanIndex 2 1 dist).

(** The distance field after the seeds and the two sweeps. *)
Definition distanceToBoundary (chf : rcCompactHeightfield) : list Z :=
  let zs := seqZ 0 (height chf) in
  let xs := seqZ 0 (width chf) in
  let dist0 := replicate (Z.to_nat (spanCount chf)) 255 in
  let dist1 := for_spans chf zs xs (mark_boundary chf) dist0 in
  let dist2 := for_spans chf zs xs (sweep_forward chf) dist1 in
  for_spans chf (rev zs) (rev xs) (sweep_backward chf) dist2.

Definition set_areas (chf : rcCompactHeightfield) (a : list Z) : rcCompactHeightfield :=
  mkCompactHeightfield (width chf) (height chf) (spanCount chf) (walkableHeight chf)
    (walkableClimb chf) (borderSize chf) (maxDistance chf) (maxRegions chf)
    (cells chf) (spans chf) (dist chf) a.

(** Step 4: null the spans closer to the boundary than the threshold. *)
Definition erode_areas (minBoundaryDistance : Z) (dist areas : list Z) (n : Z) : list Z :=
  fold_left (fun areas spanIndex =>
               if zget 0 dist spanIndex <? minBoundaryDistance
               then zset areas spanIndex RC_NULL_AREA else areas)
    (seqZ 0 n) areas.

(** [rcErodeWalkableArea]; [alloc_ok] is the outcome of the allocation of
    the temporary distance array. *)
Definition rcErodeWalkableArea (alloc_ok : bool) (log : list log_entry) (erosionRadius : Z)
    (chf : rcCompactHeightfield) : bool * rcCompactHeightfield * list log_entry :=
  if negb alloc_ok then
    (false, chf,
     log ++ [(RC_LOG_ERROR, "erodeWalkableArea: Out of memory 'dist' (%d)."%string, [spanCount chf])])
  else
    let dist := distanceToBoundary chf in
    let minBoundaryDistance := ubits 8 (erosionRadius * 2) in
    (true, set_areas chf (erode_areas minBoundaryDistance dist (areas chf) (spanCount chf)), log).

(** The smallest field on which the threshold overflows: one walkable span. *)
Definition single_hf : Heightfield.rcHeightfield :=
  Heightfield.mkHeightfield 1 1 [[Heightfield.mkSpan 0 1 63]] 1 2047.

Definition single_chf : rcCompactHeightfield :=
  snd (fst (rcBuildCompactHeightfield true true true [] 3 1 single_hf)).

Definition byte_values (dist : list Z) : Prop := Forall (fun d => 0 <= d <= 255) dist.

(** Span [spanIndex] belongs to the cell of column [(x, z)] of the grid. *)
Definition span_of_cell (chf : rcCompactHeightfield) (x z spanIndex : Z) : Prop :=
  0 <= x < width chf /\ 0 <= z < height chf
  /\ let cell := zget cell0 (cells chf) (x + z * width chf) in
     index cell <= spanIndex < index cell + count cell.

(** The inner loop of [insertSort]: while [insertionIndex >= 0] and
    [data[insertionIndex] > value], shift and step down.  It runs at most
    [insertionIndex + 1] times, which is the fuel [insertSort_step] gives it. *)
Fixpoint insertSort_shift (fuel : nat) (data : list Z) (value insertionIndex : Z)
  : list Z * Z :=
  match fuel with
  | O => (data, insertionIndex)
  | S fuel' =>
      if (insertionIndex >=? 0) && (zget 0 data insertionIndex >? value)
      then insertSort_shift fuel'
             (zset data (insertionIndex + 1) (zget 0 data insertionIndex))
             value (insertionIndex - 1)
      else (data, insertionIndex)
  end.

(** The body of the outer loop of [insertSort]. *)
Definition insertSort_step (data : list Z) (valueIndex : Z) : list Z :=
  let value := zget 0 data valueIndex in
  let '(data1, insertionIndex) :=
    insertSort_shift (Z.to_nat valueIndex) data value (valueIndex - 1) in
  zset data1 (insertionIndex + 1) value.

(** [insertSort] *)
Definition insertSort (data : list Z) (dataLength : Z) : list Z :=
  fold_left insertSort_step (seqZ 1 (dataLength - 1)) data.

(** The body of the loop over the four directions of
    [rcMedianFilterWalkableArea]: slots [dir * 2] and [dir * 2 + 1] take the
    areas of the neighbour and of the diagonal behind it, when walkable. *)
Definition median_neighbors (chf : rcCompactHeightfield) (x z : Z) (span : rcCompactSpan)
    (neighborAreas : list Z) (dir : Z) : list Z :=
  if rcGetCon span dir =? RC_NOT_CONNECTED then neighborAreas
  else
    let aX := x + rcGetDirOffsetX dir in
    let aZ := z + rcGetDirOffsetY dir in
    let aIndex := index (zget cell0 (cells chf) (aX + aZ * width chf)) + rcGetCon span dir in
    let neighborAreas1 :=
      if negb (zget 0 (areas chf) aIndex =? RC_NULL_AREA)
      then zset neighborAreas (dir * 2 + 0) (zget 0 (areas chf) aIndex)
      else neighborAreas in
    let aSpan := zget span0 (spans chf) aIndex in
    let dir2 := Z.land (dir + 1) 3 in
    let neighborConnection2 := rcGetCon aSpan dir2 in
    if negb (neighborConnection2 =? RC_NOT_CONNECTED) then
      let bX := aX + rcGetDirOffsetX dir2 in
      let bZ := aZ + rcGetDirOffsetY dir2 in
      let bIndex := index (zget cell0 (cells chf) (bX + bZ * width chf)) + neighborConnection2 in
      if negb (zget 0 (areas chf) bIndex =? RC_NULL_AREA)
      then zset neighborAreas1 (dir * 2 + 1) (zget 0 (areas chf) bIndex)
      else neighborAreas1
    else neighborAreas1.

(** The body of the loop over the spans: [areas] is the temporary array. *)
Definition median_span (chf : rcCompactHeightfield) (x z spanIndex : Z) (areas' : list Z)
  : list Z :=
  let span := zget span0 (spans chf) spanIndex in
  if zget 0 (areas chf) spanIndex =? RC_NULL_AREA
  then zset areas' spanIndex (zget 0 (areas chf) spanIndex)
  else
    let neighborAreas :=
      fold_left (median_neighbors chf x z span) [0; 1; 2; 3]
        (replicate 9 (zget 0 (areas chf) spanIndex)) in
    zset areas' spanIndex (zget 0 (insertSort neighborAreas 9) 4).

(** [memcpy(dst, src, n)] on byte arrays that hold at least [n] bytes. *)
Definition memcpy (dst src : list Z) (n : Z) : list Z :=
  take (Z.to_nat n) src ++ drop (Z.to_nat n) dst.

(** [rcMedianFilterWalkableArea]; [alloc_ok] is the outcome of the
    allocation of the temporary array, which is filled with [0xff]. *)
Definition rcMedianFilterWalkableArea (alloc_ok : bool) (log : list log_entry)
    (chf : rcCompactHeightfield) : bool * rcCompactHeightfield * list log_entry :=
  if negb alloc_ok then
    (false, chf,
     log ++ [(RC_LOG_ERROR, "medianFilterWalkableArea: Out of memory 'areas' (%d)."%string,
              [spanCount chf])])
  else
    let areas0 := replicate (Z.to_nat (spanCount chf)) 255 in
    let areas1 :=
      for_spans chf (seqZ 0 (height chf)) (seqZ 0 (width chf)) (median_span chf) areas0 in
    (true, set_areas chf (memcpy (areas chf) areas1 (spanCount chf)), log).

(** One voxel bound of [rcMarkBoxArea]: [(int)((bound - origin) / cell)];
    [None] where the conversion to [int] is undefined. *)
Definition box_coord (bound origin cell : Float32.float) : option Z :=
  Float32.to_int (Float32.div (Float32.sub bound origin) cell).

(** The body of the loop over the spans of [rcMarkBoxArea]; the areas are
    updated in place. *)
Definition mark_box_span (chf : rcCompactHeightfield) (minY maxY areaId : Z)
    (x z spanIndex : Z) (areas' : list Z) : list Z :=
  let span := zget span0 (spans chf) spanIndex in
  if (y span <? minY) || (y span >? maxY) then areas'
  else if zget 0 areas' spanIndex =? RC_NULL_AREA then areas'
  else zset areas' spanIndex areaId.

(** [rcMarkBoxArea] from the voxel bounds on: the four early returns, the
    clamping to the grid and the loops. *)
Definition mark_box (minX minY minZ maxX maxY maxZ areaId : Z) (chf : rcCompactHeightfield)
  : rcCompactHeightfield :=
  let xSize := width chf in
  let zSize := height chf in
  if maxX <? 0 then chf
  else if minX >=? xSize then chf
  else if maxZ <? 0 then chf
  else if minZ >=? zSize then chf
  else
    let minX := if minX <? 0 then 0 else minX in
    let maxX := if maxX >=? xSize then xSize - 1 else maxX in
    let minZ := if minZ <? 0 then 0 else minZ in
    let maxZ := if maxZ >=? zSize then zSize - 1 else maxZ in
    set_areas chf
      (for_spans chf (seqZ minZ (maxZ - minZ + 1)) (seqZ minX (maxX - minX + 1))
         (mark_box_span chf minY maxY areaId) (areas chf)).

(** [rcMarkBoxArea]; [bmin], [cs] and [ch] are the fields of these names of
    the compact heightfield, [areaId] is a byte. *)
Definition rcMarkBoxArea (bmin : Clip.vec3) (cs ch : Float32.float)
    (boxMinBounds boxMaxBounds : Clip.vec3) (areaId : Z) (chf : rcCompactHeightfield)
  : option rcCompactHeightfield :=
  minX ← box_coord (Clip.coord boxMinBounds Clip.RC_AXIS_X) (Clip.coord bmin Clip.RC_AXIS_X) cs;
  minY ← box_coord (Clip.coord boxMinBounds Clip.RC_AXIS_Y) (Clip.coord bmin Clip.RC_AXIS_Y) ch;
  minZ ← box_coord (Clip.coord boxMinBounds Clip.RC_AXIS_Z) (Clip.coord bmin Clip.RC_AXIS_Z) cs;
  maxX ← box_coord (Clip.coord boxMaxBounds Clip.RC_AXIS_X) (Clip.coord bmin Clip.RC_AXIS_X) cs;
  maxY ← box_coord (Clip.coord boxMaxBounds Clip.RC_AXIS_Y) (Clip.coord bmin Clip.RC_AXIS_Y) ch;
  maxZ ← box_coord (Clip.coord boxMaxBounds Clip.RC_AXIS_Z) (Clip.coord bmin Clip.RC_AXIS_Z) cs;
  Some (mark_box minX minY minZ maxX maxY maxZ areaId chf).

End Area.

(** ** RecastRegion.cpp: the row sweep *)

Module Sweep.
Import Compact Area.

Definition RC_NULL_NEI : Z := 65535.

(** [rid], [id], [ns], [nei]: four [unsigned short]s. *)
Record rcSweepSpan := mkSweep { rid : Z; id : Z; ns : Z; nei : Z }.
Definition sweep0 : rcSweepSpan := mkSweep 0 0 0 0.

(** An access to [sweeps] outside its [nsweeps] entries is undefined
    behaviour: the model stops with [None]. *)
Definition sweeps_get (sweeps : list rcSweepSpan) (k : Z) : option rcSweepSpan :=
  if (0 <=? k) && (k <? Z.of_nat (length sweeps)) then Some (zget sweep0 sweeps k) else None.

Definition sweeps_set (sweeps : list rcSweepSpan) (k : Z) (s : rcSweepSpan)
  : option (list rcSweepSpan) :=
  if (0 <=? k) && (k <? Z.of_nat (length sweeps)) then Some (zset sweeps k s) else None.

(** [paintRectRegion] *)
Definition paintRectRegion (minx maxx miny maxy regId : Z) (chf : rcCompactHeightfield)
    (srcReg : list Z) : list Z :=
  for_spans chf (seqZ miny (maxy - miny)) (seqZ minx (maxx - minx))
    (fun x y i srcReg =>
       if zget 0 (areas chf) i =? RC_NULL_AREA then srcReg else zset srcReg i regId)
    srcReg.

(** The border painting shared by the three partitioners: four strips with
    ids [id | RC_BORDER_REG]; returns the labels and the next free id. *)
Definition paint_borders (chf : rcCompactHeightfield) (borderSize : Z) (srcReg : list Z) (id : Z)
  : list Z * Z :=
  if borderSize >? 0 then
    let w := width chf in
    let h := height chf in
    let bw := rcMin w borderSize in
    let bh := rcMin h borderSize in
    let border id := ubits 16 (Z.lor id RC_BORDER_REG) in
    let r1 := paintRectRegion 0 bw 0 h (border id) chf srcReg in
    let id1 := ubits 16 (id + 1) in
    let r2 := paintRectRegion (w - bw) w 0 h (border id1) chf r1 in
    let id2 := ubits 16 (id1 + 1) in
    let r3 := paintRectRegion 0 w 0 bh (border id2) chf r2 in
    let id3 := ubits 16 (id2 + 1) in
    let r4 := paintRectRegion 0 w (h - bh) h (border id3) chf r3 in
    (r4, ubits 16 (id3 + 1))
  else (srcReg, id).

(** The state of one row of the sweep. *)
Record row_state := mkRow {
  srcReg : list Z;
  sweeps : list rcSweepSpan;
  prev : list Z;
  rid_next : Z
}.

(** The body of the span loop of the row sweep, for span [i] of column [(x, y)]. *)
Definition sweep_span (chf : rcCompactHeightfield) (x y i : Z) (st : row_state) : option row_state :=
  let w := width chf in
  let s := zget span0 (spans chf) i in
  if zget 0 (areas chf) i =? RC_NULL_AREA then Some st
  else
    let previd0 :=
      if rcGetCon s 0 =? RC_NOT_CONNECTED then 0
      else
        let ai := con_index chf x y s 0 in
        if (Z.land (zget 0 (srcReg st) ai) RC_BORDER_REG =? 0)
           && (zget 0 (areas chf) i =? zget 0 (areas chf) ai)
        then zget 0 (srcReg st) ai else 0 in
    '(previd, rid', sweeps1) ←
      (if previd0 =? 0 then
         let previd := rid_next st in
         sw ← sweeps_set (sweeps st) previd (mkSweep previd (id (zget sweep0 (sweeps st) previd)) 0 0) ;
         Some (previd, ubits 16 (rid_next st + 1), sw)
       else Some (previd0, rid_next st, sweeps st)) ;
    '(sweeps2, prev2) ←
      (if rcGetCon s 3 =? RC_NOT_CONNECTED then Some (sweeps1, prev st)
       else
         let ai := con_index chf x y s 3 in
         let nr := zget 0 (srcReg st) ai in
         if negb (nr =? 0) && (Z.land nr RC_BORDER_REG =? 0)
            && (zget 0 (areas chf) i =? zget 0 (areas chf) ai)
         then
           sp ← sweeps_get sweeps1 previd ;
           if (nei sp =? 0) || (nei sp =? nr) then
             sw ← sweeps_set sweeps1 previd (mkSweep (rid sp) (id sp) (ubits 16 (ns sp + 1)) nr) ;
             Some (sw, zset (prev st) nr (zget 0 (prev st) nr + 1))
           else
             sw ← sweeps_set sweeps1 previd (mkSweep (rid sp) (id sp) (ns sp) RC_NULL_NEI) ;
             Some (sw, prev st)
         else Some (sweeps1, prev st)) ;
    Some (mkRow (zset (srcReg st) i previd) sweeps2 prev2 rid').

(** A loop over the spans of the columns [xs] of row [y] that can stop. *)
Definition for_row {S : Type} (chf : rcCompactHeightfield) (y : Z) (xs : list Z)
    (body : Z -> Z -> Z -> S -> option S) (st : S) : option S :=
  fold_left (fun st x =>
    let cell := zget cell0 (cells chf) (x + y * width chf) in
    fold_left (fun st i => s ← st ; body x y i s) (seqZ (index cell) (count cell)) st)
    xs (Some st).

(** The loop that turns the row-local ids [1 .. rid - 1] into region ids. *)
Definition assign_ids (rid_end : Z) (prev : list Z) (sweeps : list rcSweepSpan) (id0 : Z)
  : option (list rcSweepSpan * Z) :=
  fold_left (fun acc i =>
    '(sweeps, id0) ← acc ;
    sp ← sweeps_get sweeps i ;
    if negb (nei sp =? RC_NULL_NEI) && negb (nei sp =? 0) && (zget 0 prev (nei sp) =? ns sp)
    then sw ← sweeps_set sweeps i (mkSweep (rid sp) (nei sp) (ns sp) (nei sp)) ; Some (sw, id0)
    else sw ← sweeps_set sweeps i (mkSweep (rid sp) id0 (ns sp) (nei sp)) ;
         Some (sw, ubits 16 (id0 + 1)))
    (seqZ 1 (rid_end - 1)) (Some (sweeps, id0)).

(** The remap loop of the row. *)
Definition remap_span (rid_end : Z) (sweeps : list rcSweepSpan) (x y i : Z) (srcReg : list Z)
  : option (list Z) :=
  let r := zget 0 srcReg i in
  if (r >? 0) && (r <? rid_end) then
    sp ← sweeps_get sweeps r ; Some (zset srcReg i (id sp))
  else Some srcReg.

(** One iteration of the row loop, shared by [rcBuildRegionsMonotone] and
    [rcBuildLayerRegions]: sweep, id assignment, remap. *)
Definition sweep_row (chf : rcCompactHeightfield) (borderSize : Z)
    (st : list Z * list rcSweepSpan * Z) (y : Z) : option (list Z * list rcSweepSpan * Z) :=
  let '(srcReg0, sweeps0, id0) := st in
  let xs := seqZ borderSize (width chf - borderSize - borderSize) in
  let prev0 := replicate (Z.to_nat (id0 + 1)) 0 in
  row ← for_row chf y xs (sweep_span chf) (mkRow srcReg0 sweeps0 prev0 1) ;
  '(sweeps1, id1) ← assign_ids (rid_next row) (prev row) (sweeps row) id0 ;
  srcReg1 ← for_row chf y xs (remap_span (rid_next row) sweeps1) (srcReg row) ;
  Some (srcReg1, sweeps1, id1).

Definition sweep_rows (chf : rcCompactHeightfield) (borderSize : Z)
    (st : list Z * list rcSweepSpan * Z) : option (list Z * list rcSweepSpan * Z) :=
  fold_left (fun st y => s ← st ; sweep_row chf borderSize s y)
    (seqZ borderSize (height chf - borderSize - borderSize)) (Some st).

(** The labelling phase of [rcBuildRegionsMonotone] and [rcBuildLayerRegions]. *)
Definition sweep_regions (chf : rcCompactHeightfield) (borderSize : Z)
  : option (list Z * Z) :=
  let srcReg0 := replicate (Z.to_nat (spanCount chf)) 0 in
  let nsweeps := rcMax (width chf) (height chf) in
  let sweeps0 := replicate (Z.to_nat nsweeps) sweep0 in
  let '(srcReg1, id1) := paint_borders chf borderSize srcReg0 1 in
  '(srcReg2, _, id2) ← sweep_rows chf borderSize (srcReg1, sweeps0, id1) ;
  Some (srcReg2, id2).

End Sweep.

(** ** RecastRegion.cpp: region tables and the partitioners *)

Module Region.
Import Compact Area.

(** [rcRegion] *)
Record rcRegion := mkRegion {
  spanCount : Z;
  id : Z;
  areaType : Z;
  remap : bool;
  visited : bool;
  overlap : bool;
  connectsToBorder : bool;
  ymin : Z;
  ymax : Z;
  connections : list Z;
  floors : list Z
}.

(** [rcRegion(i)] *)
Definition new_region (i : Z) : rcRegion :=
  mkRegion 0 i 0 false false false false 65535 0 [] [].

Definition region0 : rcRegion := new_region 0.

Definition set_spanCount (r : rcRegion) (v : Z) : rcRegion :=
  mkRegion v (id r) (areaType r) (remap r) (visited r) (overlap r) (connectsToBorder r)
    (ymin r) (ymax r) (connections r) (floors r).
Definition set_id (r : rcRegion) (v : Z) : rcRegion :=
  mkRegion (spanCount r) v (areaType r) (remap r) (visited r) (overlap r) (connectsToBorder r)
    (ymin r) (ymax r) (connections r) (floors r).
Definition set_areaType (r : rcRegion) (v : Z) : rcRegion :=
  mkRegion (spanCount r) (id r) v (remap r) (visited r) (overlap r) (connectsToBorder r)
    (ymin r) (ymax r) (connections r) (floors r).
Definition set_remap (r : rcRegion) (v : bool) : rcRegion :=
  mkRegion (spanCount r) (id r) (areaType r) v (visited r) (overlap r) (connectsToBorder r)
    (ymin r) (ymax r) (connections r) (floors r).
Definition set_visited (r : rcRegion) (v : bool) : rcRegion :=
  mkRegion (spanCount r) (id r) (areaType r) (remap r) v (overlap r) (connectsToBorder r)
    (ymin r) (ymax r) (connections r) (floors r).
Definition set_overlap (r : rcRegion) (v : bool) : rcRegion :=
  mkRegion (spanCount r) (id r) (areaType r) (remap r) (visited r) v (connectsToBorder r)
    (ymin r) (ymax r) (connections r) (floors r).
Definition set_connections (r : rcRegion) (v : list Z) : rcRegion :=
  mkRegion (spanCount r) (id r) (areaType r) (remap r) (visited r) (overlap r) (connectsToBorder r)
    (ymin r) (ymax r) v (floors r).
Definition set_floors (r : rcRegion) (v : list Z) : rcRegion :=
  mkRegion (spanCount r) (id r) (areaType r) (remap r) (visited r) (overlap r) (connectsToBorder r)
    (ymin r) (ymax r) (connections r) v.

Definition set_connectsToBorder (r : rcRegion) (v : bool) : rcRegion :=
  mkRegion (spanCount r) (id r) (areaType r) (remap r) (visited r) (overlap r) v
    (ymin r) (ymax r) (connections r) (floors r).
Definition set_yrange (r : rcRegion) (lo hi : Z) : rcRegion :=
  mkRegion (spanCount r) (id r) (areaType r) (remap r) (visited r) (overlap r) (connectsToBorder r)
    lo hi (connections r) (floors r).

Definition is_border (r : Z) : bool := negb (Z.land r RC_BORDER_REG =? 0).

(** Removing element [i] of a vector by shifting the tail down and [pop_back]. *)
Definition remove_at (l : list Z) (i : Z) : list Z := take (Z.to_nat i) l ++ drop (S (Z.to_nat i)) l.

(** The loop of [removeAdjacentNeighbours]; [guard] is the extra loop
    condition [size > 1], absent from the copy of the loop in [walkContour].
    Every iteration removes an element or advances [i], so [2 * size + 1]
    iterations are enough. *)
Fixpoint dedup_loop (fuel : nat) (guard : bool) (i : Z) (l : list Z) : list Z :=
  match fuel with
  | O => l
  | S fuel =>
      let size := Z.of_nat (length l) in
      if (i <? size) && (negb guard || (size >? 1)) then
        let ni := (i + 1) mod size in
        if zget 0 l i =? zget 0 l ni
        then dedup_loop fuel guard i (remove_at l i)
        else dedup_loop fuel guard (i + 1) l
      else l
  end.

Definition removeAdjacentNeighbours (reg : rcRegion) : rcRegion :=
  set_connections reg
    (dedup_loop (2 * length (connections reg) + 1) true 0 (connections reg)).

Definition replaceNeighbour (reg : rcRegion) (oldId newId : Z) : rcRegion :=
  let neiChanged := existsb (fun c => c =? oldId) (connections reg) in
  let reg1 := set_connections reg (map (fun c => if c =? oldId then newId else c) (connections reg)) in
  let reg2 := set_floors reg1 (map (fun f => if f =? oldId then newId else f) (floors reg1)) in
  if neiChanged then removeAdjacentNeighbours reg2 else reg2.

Definition canMergeWithRegion (rega regb : rcRegion) : bool :=
  if negb (areaType rega =? areaType regb) then false
  else
    let n := Z.of_nat (length (filter (fun c => c =? id regb) (connections rega))) in
    if n >? 1 then false
    else negb (existsb (fun f => f =? id regb) (floors rega)).

Definition addUniqueFloorRegion (reg : rcRegion) (n : Z) : rcRegion :=
  if existsb (fun f => f =? n) (floors reg) then reg else set_floors reg (floors reg ++ [n]).

(** The position of the first element equal to [v], or -1. *)
Fixpoint find_first (v : Z) (l : list Z) (i : Z) : Z :=
  match l with
  | [] => -1
  | c :: rest => if c =? v then i else find_first v rest (i + 1)
  end.

(** [mergeRegions]: the new [rega] and [regb], or [None] for [return false]. *)
Definition mergeRegions (rega regb : rcRegion) : option (rcRegion * rcRegion) :=
  let aid := id rega in
  let bid := id regb in
  let acon := connections rega in
  let bcon := connections regb in
  let insa := find_first bid acon 0 in
  if insa =? -1 then None
  else
    let insb := find_first aid bcon 0 in
    if insb =? -1 then None
    else
      let na := Z.of_nat (length acon) in
      let nb := Z.of_nat (length bcon) in
      let c1 := map (fun i => zget 0 acon ((insa + 1 + i) mod na)) (seqZ 0 (na - 1)) in
      let c2 := map (fun i => zget 0 bcon ((insb + 1 + i) mod nb)) (seqZ 0 (nb - 1)) in
      let rega1 := removeAdjacentNeighbours (set_connections rega (c1 ++ c2)) in
      let rega2 := fold_left addUniqueFloorRegion (floors regb) rega1 in
      let rega3 := set_spanCount rega2 (spanCount rega2 + spanCount regb) in
      Some (rega3, set_connections (set_spanCount regb 0) []).

Definition isRegionConnectedToBorder (reg : rcRegion) : bool :=
  existsb (fun c => c =? 0) (connections reg).

(** The label behind direction [dir] of span [i], 0 when unconnected. *)
Definition neighbor_reg (chf : rcCompactHeightfield) (srcReg : list Z) (x y i dir : Z) : Z :=
  let s := zget span0 (spans chf) i in
  if rcGetCon s dir =? RC_NOT_CONNECTED then 0 else zget 0 srcReg (con_index chf x y s dir).

Definition isSolidEdge (chf : rcCompactHeightfield) (srcReg : list Z) (x y i dir : Z) : bool :=
  negb (neighbor_reg chf srcReg x y i dir =? zget 0 srcReg i).

(** The state of the contour walk. *)
Record walker := mkWalker {
  wx : Z; wy : Z; wi : Z; wdir : Z; curReg : Z; cont : list Z
}.

(** The [while (++iter < 40000)] loop of [walkContour].  The result is
    paired with [true] when the walk left through the [return] in the
    middle of the loop, which skips the final clean-up. *)
Fixpoint walk_loop (fuel : nat) (chf : rcCompactHeightfield) (srcReg : list Z)
    (starti startDir : Z) (w : walker) : bool * walker :=
  match fuel with
  | O => (false, w)
  | S fuel =>
      let s := zget span0 (spans chf) (wi w) in
      let step :=
        if isSolidEdge chf srcReg (wx w) (wy w) (wi w) (wdir w) then
          let r := neighbor_reg chf srcReg (wx w) (wy w) (wi w) (wdir w) in
          let w1 := if negb (r =? curReg w)
                    then mkWalker (wx w) (wy w) (wi w) (wdir w) r (cont w ++ [r]) else w in
          Some (mkWalker (wx w1) (wy w1) (wi w1) (Z.land (wdir w1 + 1) 3) (curReg w1) (cont w1))
        else
          let nx := wx w + rcGetDirOffsetX (wdir w) in
          let ny := wy w + rcGetDirOffsetY (wdir w) in
          if rcGetCon s (wdir w) =? RC_NOT_CONNECTED then None
          else
            let ni := con_index chf (wx w) (wy w) s (wdir w) in
            if ni =? -1 then None
            else Some (mkWalker nx ny ni (Z.land (wdir w + 3) 3) (curReg w) (cont w)) in
      match step with
      | None => (true, w)
      | Some w' =>
          if (starti =? wi w') && (startDir =? wdir w') then (false, w')
          else walk_loop fuel chf srcReg starti startDir w'
      end
  end.

(** [walkContour]: the neighbour labels met along the contour, appended to [cont0]. *)
Definition walkContour (x y i dir : Z) (chf : rcCompactHeightfield) (srcReg : list Z)
    (cont0 : list Z) : list Z :=
  let curReg := neighbor_reg chf srcReg x y i dir in
  let '(returned, w) :=
    walk_loop (Z.to_nat 39999) chf srcReg i dir (mkWalker x y i dir curReg (cont0 ++ [curReg])) in
  if returned then cont w
  else if Z.of_nat (length (cont w)) >? 1
       then dedup_loop (2 * length (cont w) + 1) false 0 (cont w)
       else cont w.

(** The first direction with a solid edge, or -1. *)
Fixpoint first_solid_edge (chf : rcCompactHeightfield) (srcReg : list Z) (x y i : Z)
    (dirs : list Z) : Z :=
  match dirs with
  | [] => -1
  | dir :: rest =>
      if isSolidEdge chf srcReg x y i dir then dir else first_solid_edge chf srcReg x y i rest
  end.

(** Phase 1 of [mergeAndFilterRegions], for span [i] of column [(x, y)]. *)
Definition collect_span (chf : rcCompactHeightfield) (srcReg : list Z) (nreg : Z)
    (x y i : Z) (regions : list rcRegion) : list rcRegion :=
  let c := zget cell0 (cells chf) (x + y * width chf) in
  let r := zget 0 srcReg i in
  if (r =? 0) || (r >=? nreg) then regions
  else
    let reg0 := zget region0 regions r in
    let reg1 := set_spanCount reg0 (spanCount reg0 + 1) in
    let reg2 :=
      fold_left (fun reg j =>
        if i =? j then reg
        else
          let floorId := zget 0 srcReg j in
          if (floorId =? 0) || (floorId >=? nreg) then reg
          else addUniqueFloorRegion (if floorId =? r then set_overlap reg true else reg) floorId)
        (seqZ (index c) (count c)) reg1 in
    if Z.of_nat (length (connections reg2)) >? 0 then zset regions r reg2
    else
      let reg3 := set_areaType reg2 (zget 0 (areas chf) i) in
      let ndir := first_solid_edge chf srcReg x y i [0; 1; 2; 3] in
      if ndir =? -1 then zset regions r reg3
      else zset regions r
             (set_connections reg3 (walkContour x y i ndir chf srcReg (connections reg3))).

(** Phase 2: the traversal of one connected component.  The state is the
    regions, the stack, the trace, the span count and the border flag. *)
Fixpoint component_loop (fuel : nat) (regions : list rcRegion) (stack trace : list Z)
    (spanCountSum : Z) (connectsToBorder : bool) : list rcRegion * list Z * Z * bool :=
  match fuel with
  | O => (regions, trace, spanCountSum, connectsToBorder)
  | S fuel =>
      match rev stack with
      | [] => (regions, trace, spanCountSum, connectsToBorder)
      | ri :: rest =>
          let stack1 := rev rest in
          let creg := zget region0 regions ri in
          let '(regions1, stack2, border1) :=
            fold_left (fun '(regions, stack, border) c =>
              if is_border c then (regions, stack, true)
              else
                let neireg := zget region0 regions c in
                if visited neireg then (regions, stack, border)
                else if (id neireg =? 0) || is_border (id neireg) then (regions, stack, border)
                else (zset regions c (set_visited neireg true), stack ++ [id neireg], border))
              (connections creg) (regions, stack1, connectsToBorder) in
          component_loop fuel regions1 stack2 (trace ++ [ri]) (spanCountSum + spanCount creg) border1
      end
  end.

Definition remove_small (minRegionArea : Z) (regions : list rcRegion) (i : Z) : list rcRegion :=
  let reg := zget region0 regions i in
  if (id reg =? 0) || is_border (id reg) then regions
  else if spanCount reg =? 0 then regions
  else if visited reg then regions
  else
    let regions1 := zset regions i (set_visited reg true) in
    let '(regions2, trace, total, border) :=
      component_loop (S (length regions)) regions1 [i] [] 0 false in
    if (total <? minRegionArea) && negb border then
      fold_left (fun regions t =>
                   zset regions t (set_id (set_spanCount (zget region0 regions t) 0) 0))
        trace regions2
    else regions2.

(** Phase 3: the body of the loop over the regions in one merge pass. *)
Definition merge_one (mergeRegionSize : Z) (acc : list rcRegion * Z) (i : Z) : list rcRegion * Z :=
  let '(regions, mergeCount) := acc in
  let reg := zget region0 regions i in
  if (id reg =? 0) || is_border (id reg) then acc
  else if overlap reg then acc
  else if spanCount reg =? 0 then acc
  else if (spanCount reg >? mergeRegionSize) && isRegionConnectedToBorder reg then acc
  else
    let '(smallest, mergeId) :=
      fold_left (fun '(smallest, mergeId) c =>
        if is_border c then (smallest, mergeId)
        else
          let mreg := zget region0 regions c in
          if (id mreg =? 0) || is_border (id mreg) || overlap mreg then (smallest, mergeId)
          else if (spanCount mreg <? smallest) && canMergeWithRegion reg mreg
                  && canMergeWithRegion mreg reg
               then (spanCount mreg, id mreg) else (smallest, mergeId))
        (connections reg) (268435455, id reg) in
    if mergeId =? id reg then acc
    else
      let oldId := id reg in
      let target := zget region0 regions mergeId in
      match mergeRegions target reg with
      | None => acc
      | Some (target', reg') =>
          let regions1 := zset (zset regions mergeId target') i reg' in
          let regions2 :=
            map (fun rj =>
                   if (id rj =? 0) || is_border (id rj) then rj
                   else replaceNeighbour (if id rj =? oldId then set_id rj mergeId else rj)
                          oldId mergeId)
              regions1 in
          (regions2, mergeCount + 1)
      end.

(** The [do ... while (mergeCount > 0)] loop; every pass that merges
    empties one region, so [nreg + 1] passes are enough. *)
Fixpoint merge_passes (fuel : nat) (mergeRegionSize : Z) (regions : list rcRegion) : list rcRegion :=
  match fuel with
  | O => regions
  | S fuel =>
      let n := Z.of_nat (length regions) in
      let '(regions1, mergeCount) := fold_left (merge_one mergeRegionSize) (seqZ 0 n) (regions, 0) in
      if mergeCount >? 0 then merge_passes fuel mergeRegionSize regions1 else regions1
  end.

(** Phase 4: compression of the ids. *)
Definition compress_ids (regions : list rcRegion) : list rcRegion * Z :=
  let n := Z.of_nat (length regions) in
  let regions1 :=
    map (fun r => set_remap r (negb ((id r =? 0) || is_border (id r)))) regions in
  fold_left (fun '(regions, regIdGen) i =>
    let reg := zget region0 regions i in
    if negb (remap reg) then (regions, regIdGen)
    else
      let oldId := id reg in
      let newId := ubits 16 (regIdGen + 1) in
      (fold_left (fun regions j =>
                    let rj := zget region0 regions j in
                    if id rj =? oldId then zset regions j (set_remap (set_id rj newId) false)
                    else regions)
         (seqZ i (n - i)) regions,
       newId))
    (seqZ 0 n) (regions1, 0).

(** [mergeAndFilterRegions]; [alloc_ok] is the outcome of [regions.reserve].
    The results are the return value, the new [maxRegionId], the labels,
    the overlaps and the log. *)
Definition mergeAndFilterRegions (alloc_ok : bool) (log : list log_entry)
    (minRegionArea mergeRegionSize maxRegionId : Z) (chf : rcCompactHeightfield)
    (srcReg : list Z) : bool * Z * list Z * list Z * list log_entry :=
  let nreg := maxRegionId + 1 in
  if negb alloc_ok then
    (false, maxRegionId, srcReg, [],
     log ++ [(RC_LOG_ERROR, "mergeAndFilterRegions: Out of memory 'regions' (%d)."%string, [nreg])])
  else
    let regions0 := map (fun i => new_region (ubits 16 i)) (seqZ 0 nreg) in
    let regions1 :=
      for_spans chf (seqZ 0 (height chf)) (seqZ 0 (width chf))
        (collect_span chf srcReg nreg) regions0 in
    let regions2 := fold_left (remove_small minRegionArea) (seqZ 0 nreg) regions1 in
    let regions3 := merge_passes (S (length regions2)) mergeRegionSize regions2 in
    let '(regions4, regIdGen) := compress_ids regions3 in
    let srcReg' :=
      fold_left (fun srcReg i =>
                   let r := zget 0 srcReg i in
                   if Z.land r RC_BORDER_REG =? 0
                   then zset srcReg i (id (zget region0 regions4 r)) else srcReg)
        (seqZ 0 (Compact.spanCount chf)) srcReg in
    let overlaps := map id (filter overlap regions4) in
    (true, regIdGen, srcReg', overlaps, log).


(** The final loop of the partitioners: [chf.spans[i].reg = srcReg[i]]. *)
Definition write_regs (chf : rcCompactHeightfield) (srcReg : list Z) : list rcCompactSpan :=
  fold_left (fun spans i =>
               let s := zget span0 spans i in
               zset spans i (mkCSpan (y s) (zget 0 srcReg i) (con s) (h s)))
    (seqZ 0 (Compact.spanCount chf)) (spans chf).

Definition with_regions (chf : rcCompactHeightfield) (borderSize maxRegions : Z)
    (spans : list rcCompactSpan) : rcCompactHeightfield :=
  mkCompactHeightfield (width chf) (height chf) (Compact.spanCount chf) (walkableHeight chf)
    (walkableClimb chf) borderSize (maxDistance chf) maxRegions (cells chf) spans
    (dist chf) (areas chf).

(** [rcBuildRegionsMonotone].  The three flags are the outcomes of the
    allocations of [srcReg], [sweeps] and the region table; the result is
    [None] when the sweep reads or writes [sweeps] outside its bounds. *)
Definition rcBuildRegionsMonotone (alloc_src alloc_sweeps alloc_regions : bool)
    (log : list log_entry) (chf : rcCompactHeightfield)
    (borderSize minRegionArea mergeRegionArea : Z)
  : option (bool * rcCompactHeightfield * list log_entry) :=
  if negb alloc_src then
    Some (false, chf,
          log ++ [(RC_LOG_ERROR, "rcBuildRegionsMonotone: Out of memory 'src' (%d)."%string,
                   [Compact.spanCount chf])])
  else if negb alloc_sweeps then
    Some (false, chf,
          log ++ [(RC_LOG_ERROR, "rcBuildRegionsMonotone: Out of memory 'sweeps' (%d)."%string,
                   [rcMax (width chf) (height chf)])])
  else
    '(srcReg, id) ← Sweep.sweep_regions chf borderSize ;
    let '(ok, maxRegions, srcReg', overlaps, log') :=
      mergeAndFilterRegions alloc_regions log minRegionArea mergeRegionArea id chf srcReg in
    if negb ok then Some (false, with_regions chf borderSize maxRegions (spans chf), log')
    else Some (true, with_regions chf borderSize maxRegions (write_regs chf srcReg'), log').

Definition addUniqueConnection (reg : rcRegion) (n : Z) : rcRegion :=
  if existsb (fun c => c =? n) (connections reg) then reg
  else set_connections reg (connections reg ++ [n]).

(** Phase 1 of [mergeAndFilterLayerRegions] for span [i] of column [(x, y)];
    the state is the region table and [lregs]. *)
Definition layer_span (chf : rcCompactHeightfield) (srcReg : list Z) (nreg : Z)
    (x y i : Z) (st : list rcRegion * list Z) : list rcRegion * list Z :=
  let '(regions, lregs) := st in
  let s := zget span0 (spans chf) i in
  let ri := zget 0 srcReg i in
  if (ri =? 0) || (ri >=? nreg) then st
  else
    let reg0 := zget region0 regions ri in
    let reg1 :=
      set_yrange (set_areaType (set_spanCount reg0 (spanCount reg0 + 1)) (zget 0 (areas chf) i))
        (rcMin (ymin reg0) (Compact.y s)) (rcMax (ymax reg0) (Compact.y s)) in
    let reg2 :=
      fold_left (fun reg dir =>
        if rcGetCon s dir =? RC_NOT_CONNECTED then reg
        else
          let rai := zget 0 srcReg (con_index chf x y s dir) in
          let reg' := if (rai >? 0) && (rai <? nreg) && negb (rai =? ri)
                      then addUniqueConnection reg rai else reg in
          if is_border rai then set_connectsToBorder reg' true else reg')
        [0; 1; 2; 3] reg1 in
    (zset regions ri reg2, lregs ++ [ri]).

(** The loop over the pairs of [lregs] that records the regions stacked
    in one column as floors of each other. *)
Definition layer_floors (regions : list rcRegion) (lregs : list Z) : list rcRegion :=
  let n := Z.of_nat (length lregs) in
  fold_left (fun regions i =>
    fold_left (fun regions j =>
      let a := zget 0 lregs i in
      let b := zget 0 lregs j in
      if a =? b then regions
      else
        let regions1 := zset regions a (addUniqueFloorRegion (zget region0 regions a) b) in
        zset regions1 b (addUniqueFloorRegion (zget region0 regions1 b) a))
      (seqZ (i + 1) (n - (i + 1))) regions)
    (seqZ 0 (n - 1)) regions.

Definition layer_column (chf : rcCompactHeightfield) (srcReg : list Z) (nreg : Z)
    (regions : list rcRegion) (x y : Z) : list rcRegion :=
  let c := zget cell0 (cells chf) (x + y * width chf) in
  let '(regions1, lregs) :=
    fold_left (fun st i => layer_span chf srcReg nreg x y i st)
      (seqZ (index c) (count c)) (regions, []) in
  layer_floors regions1 lregs.

(** The [while (stack.size() > 0)] loop that grows the layer of root [i]. *)
Fixpoint layer_grow (fuel : nat) (i layerId : Z) (regions : list rcRegion) (stack : list Z)
  : list rcRegion :=
  match fuel with
  | O => regions
  | S fuel =>
      match stack with
      | [] => regions
      | top :: stack1 =>
          let reg := zget region0 regions top in
          let '(regions1, stack2) :=
            fold_left (fun '(regions, stack) nei =>
              let root := zget region0 regions i in
              let regn := zget region0 regions nei in
              if negb (id regn =? 0) then (regions, stack)
              else if negb (areaType reg =? areaType regn) then (regions, stack)
              else if existsb (fun f => f =? nei) (floors root) then (regions, stack)
              else
                let root1 := fold_left addUniqueFloorRegion (floors regn) root in
                let root2 :=
                  set_connectsToBorder
                    (set_spanCount
                       (set_yrange root1 (rcMin (ymin root1) (ymin regn))
                                         (rcMax (ymax root1) (ymax regn)))
                       (spanCount root1 + spanCount regn))
                    (connectsToBorder root1 || connectsToBorder regn) in
                (zset (zset regions nei (set_spanCount (set_id regn layerId) 0)) i root2,
                 stack ++ [nei]))
              (connections reg) (regions, stack1) in
          layer_grow fuel i layerId regions1 stack2
      end
  end.

(** The loop over the roots: the table and the next [layerId]. *)
Definition layer_roots (regions : list rcRegion) : list rcRegion * Z :=
  let nreg := Z.of_nat (length regions) in
  fold_left (fun '(regions, layerId) i =>
    let root := zget region0 regions i in
    if negb (id root =? 0) then (regions, layerId)
    else
      (layer_grow (S (length regions)) i layerId (zset regions i (set_id root layerId)) [i],
       ubits 16 (layerId + 1)))
    (seqZ 1 (nreg - 1)) (map (fun r => set_id r 0) regions, 1).

Definition layer_remove_small (minRegionArea : Z) (regions : list rcRegion) (i : Z)
  : list rcRegion :=
  let r := zget region0 regions i in
  if (spanCount r >? 0) && (spanCount r <? minRegionArea) && negb (connectsToBorder r)
  then map (fun rj => if id rj =? id r then set_id rj 0 else rj) regions
  else regions.

(** [mergeAndFilterLayerRegions]: the return value, the new [maxRegionId],
    the labels and the log. *)
Definition mergeAndFilterLayerRegions (alloc_ok : bool) (log : list log_entry)
    (minRegionArea maxRegionId : Z) (chf : rcCompactHeightfield) (srcReg : list Z)
  : bool * Z * list Z * list log_entry :=
  let nreg := maxRegionId + 1 in
  if negb alloc_ok then
    (false, maxRegionId, srcReg,
     log ++ [(RC_LOG_ERROR,
              "mergeAndFilterLayerRegions: Out of memory 'regions' (%d)."%string, [nreg])])
  else
    let regions0 := map (fun i => new_region (ubits 16 i)) (seqZ 0 nreg) in
    let regions1 :=
      fold_left (fun regions y =>
                   fold_left (fun regions x => layer_column chf srcReg nreg regions x y)
                     (seqZ 0 (width chf)) regions)
        (seqZ 0 (height chf)) regions0 in
    let '(regions2, _) := layer_roots regions1 in
    let regions3 := fold_left (layer_remove_small minRegionArea) (seqZ 0 nreg) regions2 in
    let '(regions4, regIdGen) := compress_ids regions3 in
    let srcReg' :=
      fold_left (fun srcReg i =>
                   let r := zget 0 srcReg i in
                   if Z.land r RC_BORDER_REG =? 0
                   then zset srcReg i (id (zget region0 regions4 r)) else srcReg)
        (seqZ 0 (Compact.spanCount chf)) srcReg in
    (true, regIdGen, srcReg', log).

(** [rcBuildLayerRegions]; flags and result as for [rcBuildRegionsMonotone]. *)
Definition rcBuildLayerRegions (alloc_src alloc_sweeps alloc_regions : bool)
    (log : list log_entry) (chf : rcCompactHeightfield) (borderSize minRegionArea : Z)
  : option (bool * rcCompactHeightfield * list log_entry) :=
  if negb alloc_src then
    Some (false, chf,
          log ++ [(RC_LOG_ERROR, "rcBuildLayerRegions: Out of memory 'src' (%d)."%string,
                   [Compact.spanCount chf])])
  else if negb alloc_sweeps then
    Some (false, chf,
          log ++ [(RC_LOG_ERROR, "rcBuildLayerRegions: Out of memory 'sweeps' (%d)."%string,
                   [rcMax (width chf) (height chf)])])
  else
    '(srcReg, id) ← Sweep.sweep_regions chf borderSize ;
    let '(ok, maxRegions, srcReg', log') :=
      mergeAndFilterLayerRegions alloc_regions log minRegionArea id chf srcReg in
    if negb ok then Some (false, with_regions chf borderSize maxRegions (spans chf), log')
    else Some (true, with_regions chf borderSize maxRegions (write_regs chf srcReg'), log').

Definition step_chf : rcCompactHeightfield :=
  snd (fst (rcBuildCompactHeightfield true true true [] 3 10 step_hf)).

(** A 2 x 2 field whose first column holds three walkable spans. *)
Definition stack_hf : Heightfield.rcHeightfield :=
  Heightfield.mkHeightfield 2 2
    [[Heightfield.mkSpan 0 1 63; Heightfield.mkSpan 10 11 63; Heightfield.mkSpan 20 21 63];
     [Heightfield.mkSpan 0 1 63]; [Heightfield.mkSpan 0 1 63]; [Heightfield.mkSpan 0 1 63]]
    1 2042.

Definition stack_chf : rcCompactHeightfield :=
  snd (fst (rcBuildCompactHeightfield true true true [] 3 1 stack_hf)).

(** [LevelStackEntry]: the grid coordinates [x], [y] and the span [index]
    (-1 once the entry has been handled). *)
Definition LevelStackEntry : Type := (Z * Z * Z)%type.

(** [DirtyEntry]: [index], [region], [distance2]. *)
Definition DirtyEntry : Type := (Z * Z * Z)%type.

(** The first loop over the directions in [floodRegion]: the label [ar]
    of a neighbour (or diagonal neighbour) that belongs to another region,
    0 when there is none. *)
Fixpoint flood_conflict (chf : rcCompactHeightfield) (srcReg : list Z) (area r cx cy ci : Z)
    (dirs : list Z) : Z :=
  match dirs with
  | [] => 0
  | dir :: rest =>
      let cs := zget span0 (spans chf) ci in
      let next := flood_conflict chf srcReg area r cx cy ci rest in
      if rcGetCon cs dir =? RC_NOT_CONNECTED then next
      else
        let ax := cx + rcGetDirOffsetX dir in
        let ay := cy + rcGetDirOffsetY dir in
        let ai := con_index chf cx cy cs dir in
        if negb (zget 0 (areas chf) ai =? area) then next
        else
          let nr := zget 0 srcReg ai in
          if is_border nr then next
          else if negb (nr =? 0) && negb (nr =? r) then nr
          else
            let as_ := zget span0 (spans chf) ai in
            let dir2 := Z.land (dir + 1) 3 in
            if rcGetCon as_ dir2 =? RC_NOT_CONNECTED then next
            else
              let ai2 := con_index chf ax ay as_ dir2 in
              if negb (zget 0 (areas chf) ai2 =? area) then next
              else
                let nr2 := zget 0 srcReg ai2 in
                if negb (nr2 =? 0) && negb (nr2 =? r) then nr2 else next
  end.

(** The second loop over the directions in [floodRegion]. *)
Definition flood_expand (chf : rcCompactHeightfield) (area r lev cx cy ci : Z)
    (st : list Z * list Z * list LevelStackEntry) : list Z * list Z * list LevelStackEntry :=
  fold_left (fun '(srcReg, srcDist, stack) dir =>
    let cs := zget span0 (spans chf) ci in
    if rcGetCon cs dir =? RC_NOT_CONNECTED then (srcReg, srcDist, stack)
    else
      let ax := cx + rcGetDirOffsetX dir in
      let ay := cy + rcGetDirOffsetY dir in
      let ai := con_index chf cx cy cs dir in
      if negb (zget 0 (areas chf) ai =? area) then (srcReg, srcDist, stack)
      else if (zget 0 (dist chf) ai >=? lev) && (zget 0 srcReg ai =? 0)
           then (zset srcReg ai r, zset srcDist ai 0, stack ++ [(ax, ay, ai)])
           else (srcReg, srcDist, stack))
    [0; 1; 2; 3] st.

(** The [while (stack.size() > 0)] loop of [floodRegion].  A span is
    pushed only by a span that kept its label, and each such span pushes
    at most four: [4 * spanCount + 2] iterations are enough. *)
Fixpoint flood_loop (fuel : nat) (chf : rcCompactHeightfield) (area r lev : Z)
    (srcReg srcDist : list Z) (stack : list LevelStackEntry) (count : Z)
  : list Z * list Z * Z :=
  match fuel with
  | O => (srcReg, srcDist, count)
  | S fuel =>
      match rev stack with
      | [] => (srcReg, srcDist, count)
      | (cx, cy, ci) :: below =>
          let stack1 := rev below in
          let ar := flood_conflict chf srcReg area r cx cy ci [0; 1; 2; 3] in
          if negb (ar =? 0) then
            flood_loop fuel chf area r lev (zset srcReg ci 0) srcDist stack1 count
          else
            let '(srcReg1, srcDist1, stack2) :=
              flood_expand chf area r lev cx cy ci (srcReg, srcDist, stack1) in
            flood_loop fuel chf area r lev srcReg1 srcDist1 stack2 (count + 1)
      end
  end.

Definition floodRegion (x y i level r : Z) (chf : rcCompactHeightfield)
    (srcReg srcDist : list Z) : bool * list Z * list Z :=
  let area := zget 0 (areas chf) i in
  let lev := if level >=? 2 then level - 2 else 0 in
  let '(srcReg1, srcDist1, count) :=
    flood_loop (Z.to_nat (4 * Compact.spanCount chf + 2)) chf area r lev
      (zset srcReg i r) (zset srcDist i 0) [(x, y, i)] 0 in
  (count >? 0, srcReg1, srcDist1).

(** One entry of the stack in a pass of [expandRegions]: the entry as it
    is left, the dirty entries and the count of failures. *)
Definition expand_entry (chf : rcCompactHeightfield) (srcReg srcDist : list Z)
    (st : list LevelStackEntry * list DirtyEntry * Z) (e : LevelStackEntry)
  : list LevelStackEntry * list DirtyEntry * Z :=
  let '(done, dirty, failed) := st in
  let '(x, y, i) := e in
  if i <? 0 then (done ++ [e], dirty, failed + 1)
  else
    let area := zget 0 (areas chf) i in
    let s := zget span0 (spans chf) i in
    let '(r, d2) :=
      fold_left (fun '(r, d2) dir =>
        if rcGetCon s dir =? RC_NOT_CONNECTED then (r, d2)
        else
          let ai := con_index chf x y s dir in
          if negb (zget 0 (areas chf) ai =? area) then (r, d2)
          else if (zget 0 srcReg ai >? 0) && (Z.land (zget 0 srcReg ai) RC_BORDER_REG =? 0)
                  && (zget 0 srcDist ai + 2 <? d2)
               then (zget 0 srcReg ai, ubits 16 (zget 0 srcDist ai + 2))
               else (r, d2))
        [0; 1; 2; 3] (zget 0 srcReg i, 65535) in
    if negb (r =? 0) then (done ++ [(x, y, -1)], dirty ++ [(i, r, d2)], failed)
    else (done ++ [e], dirty, failed + 1).

(** The [while (stack.size() > 0)] loop of [expandRegions].  A pass that
    does not stop the loop handles at least one entry for good, so
    [stack.size() + 1] passes are enough. *)
Fixpoint expand_loop (fuel : nat) (maxIter level : Z) (chf : rcCompactHeightfield)
    (srcReg srcDist : list Z) (stack : list LevelStackEntry) (iter : Z)
  : list Z * list Z * list LevelStackEntry :=
  match fuel with
  | O => (srcReg, srcDist, stack)
  | S fuel =>
      if Z.of_nat (length stack) >? 0 then
        let '(stack1, dirty, failed) :=
          fold_left (expand_entry chf srcReg srcDist) stack ([], [], 0) in
        let '(srcReg1, srcDist1) :=
          fold_left (fun '(srcReg, srcDist) '(idx, region, distance2) =>
                       (zset srcReg idx region, zset srcDist idx distance2))
            dirty (srcReg, srcDist) in
        if failed =? Z.of_nat (length stack1) then (srcReg1, srcDist1, stack1)
        else if (level >? 0) && (iter + 1 >=? maxIter) then (srcReg1, srcDist1, stack1)
        else expand_loop fuel maxIter level chf srcReg1 srcDist1 stack1
               (if level >? 0 then iter + 1 else iter)
      else (srcReg, srcDist, stack)
  end.

Definition expandRegions (maxIter level : Z) (chf : rcCompactHeightfield)
    (srcReg srcDist : list Z) (stack : list LevelStackEntry) (fillStack : bool)
  : list Z * list Z * list LevelStackEntry :=
  let stack0 :=
    if fillStack then
      for_spans chf (seqZ 0 (height chf)) (seqZ 0 (width chf))
        (fun x y i stack =>
           if (zget 0 (dist chf) i >=? level) && (zget 0 srcReg i =? 0)
              && negb (zget 0 (areas chf) i =? RC_NULL_AREA)
           then stack ++ [(x, y, i)] else stack)
        []
    else
      map (fun '(x, y, i) => if negb (zget 0 srcReg i =? 0) then (x, y, -1) else (x, y, i)) stack in
  expand_loop (S (length stack0)) maxIter level chf srcReg srcDist stack0 0.

Definition sortCellsByLevel (startLevel : Z) (chf : rcCompactHeightfield) (srcReg : list Z)
    (nbStacks loglevelsPerStack : Z) : list (list LevelStackEntry) :=
  let startLevel' := Z.shiftr startLevel loglevelsPerStack in
  for_spans chf (seqZ 0 (height chf)) (seqZ 0 (width chf))
    (fun x y i stacks =>
       if (zget 0 (areas chf) i =? RC_NULL_AREA) || negb (zget 0 srcReg i =? 0) then stacks
       else
         let level := Z.shiftr (zget 0 (dist chf) i) loglevelsPerStack in
         let sId := startLevel' - level in
         if sId >=? nbStacks then stacks
         else
           let sId' := if sId <? 0 then 0 else sId in
           zset stacks sId' (zget [] stacks sId' ++ [(x, y, i)]))
    (replicate (Z.to_nat nbStacks) []).

Definition appendStacks (srcStack dstStack : list LevelStackEntry) (srcReg : list Z)
  : list LevelStackEntry :=
  fold_left (fun dst '(x, y, i) =>
               if (i <? 0) || negb (zget 0 srcReg i =? 0) then dst else dst ++ [(x, y, i)])
    srcStack dstStack.

(** The state of the watershed loop of [rcBuildRegions]. *)
Record watershed := mkWatershed {
  w_srcReg : list Z;
  w_srcDist : list Z;
  regionId : Z;
  lvlStacks : list (list LevelStackEntry);
  sId : Z
}.

(** The loop over [lvlStacks[sId]] that floods new regions; [None] is the
    region-id overflow. *)
Definition flood_level (chf : rcCompactHeightfield) (level : Z) (entries : list LevelStackEntry)
    (st : list Z * list Z * Z) : option (list Z * list Z * Z) :=
  fold_left (fun st '(x, y, i) =>
    '(srcReg, srcDist, regionId) ← st ;
    if (i >=? 0) && (zget 0 srcReg i =? 0) then
      let '(flooded, srcReg1, srcDist1) := floodRegion x y i level regionId chf srcReg srcDist in
      if flooded then
        if regionId =? 65535 then None else Some (srcReg1, srcDist1, ubits 16 (regionId + 1))
      else Some (srcReg1, srcDist1, regionId)
    else Some (srcReg, srcDist, regionId))
    entries (Some st).

(** The [while (level > 0)] loop; the level drops by two in every pass. *)
Fixpoint watershed_loop (fuel : nat) (chf : rcCompactHeightfield) (level : Z) (st : watershed)
  : option watershed :=
  match fuel with
  | O => Some st
  | S fuel =>
      if level >? 0 then
        let level1 := if level >=? 2 then level - 2 else 0 in
        let sId1 := Z.land (sId st + 1) 7 in
        let stacks1 :=
          if sId1 =? 0 then sortCellsByLevel level1 chf (w_srcReg st) 8 1
          else zset (lvlStacks st) sId1
                 (appendStacks (zget [] (lvlStacks st) (sId1 - 1)) (zget [] (lvlStacks st) sId1)
                    (w_srcReg st)) in
        let '(srcReg1, srcDist1, stack1) :=
          expandRegions 8 level1 chf (w_srcReg st) (w_srcDist st) (zget [] stacks1 sId1) false in
        let stacks2 := zset stacks1 sId1 stack1 in
        '(srcReg2, srcDist2, regionId2) ←
          flood_level chf level1 stack1 (srcReg1, srcDist1, regionId st) ;
        watershed_loop fuel chf level1 (mkWatershed srcReg2 srcDist2 regionId2 stacks2 sId1)
      else Some st
  end.

(** The labelling phase of [rcBuildRegions], from the [memset]s to the
    final [expandRegions]: the labels and the next region id, [None] for
    the region-id overflow. *)
Definition watershed_labels (chf : rcCompactHeightfield) (borderSize : Z) : option (list Z * Z) :=
  let srcReg0 := replicate (Z.to_nat (Compact.spanCount chf)) 0 in
  let srcDist0 := replicate (Z.to_nat (Compact.spanCount chf)) 0 in
  let level := ubits 16 (Z.land (maxDistance chf + 1) (Z.lnot 1)) in
  let '(srcReg1, regionId1) := Sweep.paint_borders chf borderSize srcReg0 1 in
  st ← watershed_loop (Z.to_nat (level / 2 + 1)) chf level
         (mkWatershed srcReg1 srcDist0 regionId1 (replicate 8 []) (-1)) ;
  let '(srcReg2, _, _) := expandRegions 64 0 chf (w_srcReg st) (w_srcDist st) [] true in
  Some (srcReg2, regionId st).

(** The log entry of [rcBuildRegions] for overlapping regions. *)
Definition overlapping_regions (n : Z) : log_entry :=
  (RC_LOG_ERROR, "rcBuildRegions: %d overlapping regions."%string, [n]).

(** [rcBuildRegions].  The flags are the outcomes of the allocations of
    [buf] and of the region table. *)
Definition rcBuildRegions (alloc_buf alloc_regions : bool) (log : list log_entry)
    (chf : rcCompactHeightfield) (borderSize minRegionArea mergeRegionArea : Z)
  : bool * rcCompactHeightfield * list log_entry :=
  if negb alloc_buf then
    (false, chf,
     log ++ [(RC_LOG_ERROR, "rcBuildRegions: Out of memory 'tmp' (%d)."%string,
              [Compact.spanCount chf * 4])])
  else
    match watershed_labels chf borderSize with
    | None =>
        (false, with_regions chf borderSize (maxRegions chf) (spans chf),
         log ++ [(RC_LOG_ERROR, "rcBuildRegions: Region ID overflow"%string, [])])
    | Some (srcReg, regionId) =>
        let '(ok, maxRegions, srcReg', overlaps, log1) :=
          mergeAndFilterRegions alloc_regions log minRegionArea mergeRegionArea regionId
            chf srcReg in
        if negb ok then (false, with_regions chf borderSize maxRegions (spans chf), log1)
        else
          let log2 :=
            if Z.of_nat (length overlaps) >? 0
            then log1 ++ [overlapping_regions (Z.of_nat (length overlaps))]
            else log1 in
          (true, with_regions chf borderSize maxRegions (write_regs chf srcReg'), log2)
    end.

Definition with_distance (chf : rcCompactHeightfield) (maxDistance : Z) (dist : list Z)
  : rcCompactHeightfield :=
  mkCompactHeightfield (width chf) (height chf) (Compact.spanCount chf) (walkableHeight chf)
    (walkableClimb chf) (borderSize chf) maxDistance (maxRegions chf) (cells chf) (spans chf)
    dist (areas chf).

(** The number of directions in which span [i] is linked to a span of its
    own area. *)
Definition same_area_neighbors (chf : rcCompactHeightfield) (x y i : Z) : Z :=
  let s := zget span0 (spans chf) i in
  fold_left (fun nc dir =>
    if rcGetCon s dir =? RC_NOT_CONNECTED then nc
    else if zget 0 (areas chf) i =? zget 0 (areas chf) (con_index chf x y s dir)
         then nc + 1 else nc)
    [0; 1; 2; 3] 0.

(** [if (src[from] + cost < src[i]) src[i] = src[from] + cost] *)
Definition chamfer (src : list Z) (i from cost : Z) : list Z :=
  if zget 0 src from + cost <? zget 0 src i
  then zset src i (ubits 16 (zget 0 src from + cost)) else src.

(** One of the four blocks of the two passes of [calculateDistanceField]. *)
Definition chamfer_from (chf : rcCompactHeightfield) (x y i dirA dirB : Z) (src : list Z)
  : list Z :=
  let s := zget span0 (spans chf) i in
  if rcGetCon s dirA =? RC_NOT_CONNECTED then src
  else
    let ax := x + rcGetDirOffsetX dirA in
    let ay := y + rcGetDirOffsetY dirA in
    let ai := con_index chf x y s dirA in
    let as_ := zget span0 (spans chf) ai in
    let src1 := chamfer src i ai 2 in
    if rcGetCon as_ dirB =? RC_NOT_CONNECTED then src1
    else chamfer src1 i (con_index chf ax ay as_ dirB) 3.

(** [calculateDistanceField]: the distances and [maxDist]. *)
Definition calculateDistanceField (chf : rcCompactHeightfield) : list Z * Z :=
  let ys := seqZ 0 (height chf) in
  let xs := seqZ 0 (width chf) in
  let src0 := replicate (Z.to_nat (Compact.spanCount chf)) 65535 in
  let src1 :=
    for_spans chf ys xs
      (fun x y i src => if same_area_neighbors chf x y i =? 4 then src else zset src i 0) src0 in
  let src2 :=
    for_spans chf ys xs
      (fun x y i src => chamfer_from chf x y i 3 2 (chamfer_from chf x y i 0 3 src)) src1 in
  let src3 :=
    for_spans chf (rev ys) (rev xs)
      (fun x y i src => chamfer_from chf x y i 1 0 (chamfer_from chf x y i 2 1 src)) src2 in
  (src3, fold_left (fun maxDist i => rcMax (zget 0 src3 i) maxDist)
           (seqZ 0 (Compact.spanCount chf)) 0).

(** [boxBlur]: the contents of [dst]. *)
Definition boxBlur (chf : rcCompactHeightfield) (thr : Z) (src dst : list Z) : list Z :=
  let thr2 := thr * 2 in
  for_spans chf (seqZ 0 (height chf)) (seqZ 0 (width chf))
    (fun x y i dst =>
       let s := zget span0 (spans chf) i in
       let cd := zget 0 src i in
       if cd <=? thr2 then zset dst i cd
       else
         let d :=
           fold_left (fun d dir =>
             if rcGetCon s dir =? RC_NOT_CONNECTED then d + cd * 2
             else
               let ax := x + rcGetDirOffsetX dir in
               let ay := y + rcGetDirOffsetY dir in
               let ai := con_index chf x y s dir in
               let as_ := zget span0 (spans chf) ai in
               let dir2 := Z.land (dir + 1) 3 in
               if rcGetCon as_ dir2 =? RC_NOT_CONNECTED then d + zget 0 src ai + cd
               else d + zget 0 src ai + zget 0 src (con_index chf ax ay as_ dir2))
             [0; 1; 2; 3] cd in
         zset dst i (ubits 16 ((d + 5) / 9)))
    dst.

(** [rcBuildDistanceField]; the flags are the outcomes of the allocations
    of [src] and [dst]. *)
Definition rcBuildDistanceField (alloc_src alloc_dst : bool) (log : list log_entry)
    (chf : rcCompactHeightfield) : bool * rcCompactHeightfield * list log_entry :=
  let chf0 := with_distance chf (maxDistance chf) [] in
  if negb alloc_src then
    (false, chf0,
     log ++ [(RC_LOG_ERROR, "rcBuildDistanceField: Out of memory 'src' (%d)."%string,
              [Compact.spanCount chf])])
  else if negb alloc_dst then
    (false, chf0,
     log ++ [(RC_LOG_ERROR, "rcBuildDistanceField: Out of memory 'dst' (%d)."%string,
              [Compact.spanCount chf])])
  else
    let '(src, maxDist) := calculateDistanceField chf in
    let dst := boxBlur chf 1 src (replicate (Z.to_nat (Compact.spanCount chf)) 0) in
    (true, with_distance chf maxDist dst, log).

(** A 3 x 3 floor with a second span above the floor of column (2, 1). *)
Definition balcony_hf : Heightfield.rcHeightfield :=
  Heightfield.mkHeightfield 3 3
    [[Heightfield.mkSpan 0 10 63]; [Heightfield.mkSpan 0 10 63]; [Heightfield.mkSpan 0 10 63];
     [Heightfield.mkSpan 0 10 63]; [Heightfield.mkSpan 0 10 63];
     [Heightfield.mkSpan 0 10 63; Heightfield.mkSpan 14 15 63];
     [Heightfield.mkSpan 0 10 63]; [Heightfield.mkSpan 0 10 63]; [Heightfield.mkSpan 0 10 63]]
    1 2038.

Definition balcony_chf : rcCompactHeightfield :=
  snd (fst (rcBuildDistanceField true true []
              (snd (fst (rcBuildCompactHeightfield true true true [] 3 10 balcony_hf))))).

(** A flat 10 x 10 floor, one voxel thick. *)
Definition quad_hf : Heightfield.rcHeightfield :=
  Heightfield.mkHeightfield 10 10 (replicate 100 [Heightfield.mkSpan 0 1 63]) 1 1948.

(** Its compact field, with [walkableHeight = 4] and [walkableClimb = 1],
    eroded by one cell. *)
Definition quad_chf : rcCompactHeightfield :=
  snd (fst (rcErodeWalkableArea true [] 1
              (snd (fst (rcBuildCompactHeightfield true true true [] 4 1 quad_hf))))).

(** The number of spans with region label [r]. *)
Definition count_reg (r : Z) (chf : rcCompactHeightfield) : Z :=
  Z.of_nat (length (filter (fun s => reg s =? r) (spans chf))).

(** The compact field of the flat floor, not eroded: span [i] is the span
    of column [(i mod 10, i / 10)]. *)
Definition plain_chf : rcCompactHeightfield :=
  snd (fst (rcBuildCompactHeightfield true true true [] 4 1 quad_hf)).

(** On a 10 x 10 grid the spans of the strip of width 2 carry a border
    label, the 36 others the label [r]. *)
Definition border_strip_labelled (r : Z) (chf : rcCompactHeightfield) : bool :=
  forallb (fun i =>
             let x := i mod 10 in
             let z := i / 10 in
             let label := reg (zget span0 (spans chf) i) in
             if (x <? 2) || (x >=? 8) || (z <? 2) || (z >=? 8)
             then is_border label else label =? r)
    (seqZ 0 100).

Definition words (src : list Z) : Prop := Forall (fun d => 0 <= d <= 65535) src.

(** A ring of neighbour ids without two equal ids next to each other,
    the last and the first included. *)
Definition no_adjacent_duplicates (c : list Z) : Prop :=
  forall j, 0 <= j < Z.of_nat (length c) -> 1 < Z.of_nat (length c) ->
    zget 0 c j <> zget 0 c ((j + 1) mod Z.of_nat (length c)).

(** Column [(x, z)] lies within [borderSize] cells of an edge of the grid. *)
Definition in_border_strip (chf : rcCompactHeightfield) (borderSize x z : Z) : Prop :=
  x < borderSize \/ width chf - borderSize <= x \/ z < borderSize \/ height chf - borderSize <= z.

(** Two regions that name each other among their connections. *)
Definition pair_a : rcRegion := mkRegion 3 1 63 false false false false 0 4 [2; 0; 5] [7].
Definition pair_b : rcRegion := mkRegion 2 2 63 false false false false 0 4 [5; 1; 0] [7; 8].

End Region.

(* ===================================================================== *)
(** * Part II: properties                                                 *)
(* ===================================================================== *)

(** ** Arrays *)

Lemma zget_zset_eq {A} (d : A) l i v :
  0 <= i < Z.of_nat (length l) -> zget d (zset l i v) i = v.
Proof.
  intros Hi. unfold zget, zset.
  destruct (i <? 0) eqn:E; [lia|].
  apply nth_lookup_Some with (d := d). apply list_lookup_insert_eq. lia.
Qed.

Lemma zget_zset_ne {A} (d : A) l i j v :
  i <> j -> zget d (zset l i v) j = zget d l j.
Proof.
  intros Hij. unfold zget, zset.
  destruct (j <? 0) eqn:Ej; [reflexivity|].
  destruct (i <? 0) eqn:Ei; [reflexivity|].
  assert (Hne : Z.to_nat i <> Z.to_nat j) by lia.
  destruct (l !! Z.to_nat j) as [a|] eqn:El.
  - rewrite (nth_lookup_Some l _ d a El).
    apply nth_lookup_Some. rewrite list_lookup_insert_ne by exact Hne. exact El.
  - rewrite !nth_overflow; [reflexivity| |].
    + apply lookup_ge_None in El. lia.
    + rewrite length_insert. apply lookup_ge_None in El. lia.
Qed.

Lemma zset_length {A} (l : list A) i v : length (zset l i v) = length l.
Proof. unfold zset. destruct (i <? 0); [reflexivity|apply length_insert]. Qed.

Lemma zget_Forall {A} (P : A -> Prop) d l i : P d -> Forall P l -> P (zget d l i).
Proof.
  intros Hd Hl. unfold zget. destruct (i <? 0); [exact Hd|].
  rewrite Forall_forall in Hl.
  destruct (nth_in_or_default (Z.to_nat i) l d) as [Hin|Heq].
  - apply Hl. exact Hin.
  - rewrite Heq. exact Hd.
Qed.

Lemma zset_Forall {A} (P : A -> Prop) l i v : P v -> Forall P l -> Forall P (zset l i v).
Proof.
  intros Hv Hl. unfold zset. destruct (i <? 0); [exact Hl|].
  apply Forall_insert; assumption.
Qed.

Lemma zset_zset {A} (l : list A) i a b : zset (zset l i a) i b = zset l i b.
Proof. unfold zset. destruct (i <? 0); [reflexivity|]. apply list_insert_insert_eq. Qed.

Lemma zset_outside {A} (l : list A) i v : ~ (0 <= i < Z.of_nat (length l)) -> zset l i v = l.
Proof.
  intros H. unfold zset. destruct (i <? 0) eqn:E; [reflexivity|]. apply list_insert_ge. lia.
Qed.

Lemma In_seqZ x lo n : lo <= x < lo + n -> In x (seqZ lo n).
Proof. intros H. apply list_elem_of_In, elem_of_seqZ. lia. Qed.

(** ** Loops: invariants of a [fold_left] *)

Section FoldInvariant.
Context {A B : Type} (f : A -> B -> A) (I P : A -> Prop).
Hypothesis I_step : forall a b, I a -> I (f a b).
Hypothesis P_step : forall a b, I a -> P a -> P (f a b).

Lemma fold_left_inv l : forall a, I a -> I (fold_left f l a).
Proof. induction l as [|b l IH]; intros a Ha; simpl; auto. Qed.

Lemma fold_left_preserves l : forall a, I a -> P a -> P (fold_left f l a).
Proof. induction l as [|b l IH]; intros a Ha Hp; simpl; auto. Qed.

Lemma fold_left_establishes b0 l :
  (forall a, I a -> P (f a b0)) -> In b0 l -> forall a, I a -> P (fold_left f l a).
Proof.
  intros Hb0. induction l as [|b l IH]; intros Hin a Ha; [destruct Hin|].
  simpl. destruct Hin as [->|Hin].
  - apply fold_left_preserves; auto.
  - apply IH; auto.
Qed.
End FoldInvariant.

(** ** Rasterization: the column invariant of [addSpan] *)

Module RasterizationFacts.
Import Heightfield Rasterization.

Lemma absorb_smin thr n c : smin (absorb thr n c) = Z.min (smin c) (smin n).
Proof. unfold absorb; simpl. destruct (smin c <? smin n) eqn:E; lia. Qed.

Lemma absorb_smax thr n c : smax (absorb thr n c) = Z.max (smax c) (smax n).
Proof. unfold absorb; simpl. destruct (smax c >? smax n) eqn:E; lia. Qed.

Lemma walk_lower_bound thr b chain : forall n,
  b < smin n -> Forall (fun t => b < smin t) chain ->
  Forall (fun t => b < smin t) (fst (addSpan_walk thr n chain)).
Proof.
  induction chain as [|c rest IH]; intros n Hn Hc; simpl.
  - constructor; [exact Hn|constructor].
  - inversion Hc as [|? ? Hb Hrest]; subst.
    destruct (smin c >? smax n) eqn:E1; simpl.
    + constructor; assumption.
    + destruct (smax c <? smin n) eqn:E2.
      * specialize (IH n Hn Hrest).
        destruct (addSpan_walk thr n rest) as [r f]; simpl in *.
        constructor; assumption.
      * assert (Hm : b < smin (absorb thr n c)) by (rewrite absorb_smin; lia).
        specialize (IH _ Hm Hrest).
        destruct (addSpan_walk thr (absorb thr n c) rest) as [r f]; simpl in *.
        exact IH.
Qed.

Lemma walk_separated thr chain : forall n,
  proper n -> Forall proper chain -> separated chain ->
  separated (fst (addSpan_walk thr n chain)).
Proof.
  induction chain as [|c rest IH]; intros n Hn Hp Hs; simpl.
  - split; [constructor|exact I].
  - inversion Hp as [|? ? Hpc Hprest]; subst.
    destruct Hs as [Hc Hs].
    destruct (smin c >? smax n) eqn:E1; simpl.
    + split; [|split; assumption].
      constructor; [lia|].
      eapply Forall_impl; [|exact Hc]. unfold proper in *. simpl. intros t Ht. lia.
    + destruct (smax c <? smin n) eqn:E2.
      * pose proof (walk_lower_bound thr (smax c) rest n ltac:(lia) Hc) as Hlow.
        specialize (IH n Hn Hprest Hs).
        destruct (addSpan_walk thr n rest) as [r f]; simpl in *.
        split; assumption.
      * assert (Hm : proper (absorb thr n c)).
        { unfold proper in *. rewrite absorb_smin, absorb_smax. lia. }
        specialize (IH _ Hm Hprest Hs).
        destruct (addSpan_walk thr (absorb thr n c) rest) as [r f]; simpl in *.
        exact IH.
Qed.

Lemma walk_in_range thr chain : forall n,
  span_in_range n -> Forall span_in_range chain ->
  Forall span_in_range (fst (addSpan_walk thr n chain)).
Proof.
  induction chain as [|c rest IH]; intros n Hn Hc; simpl.
  - constructor; [exact Hn|constructor].
  - inversion Hc as [|? ? Hrc Hrest]; subst.
    destruct (smin c >? smax n) eqn:E1; simpl.
    + constructor; assumption.
    + destruct (smax c <? smin n) eqn:E2.
      * specialize (IH n Hn Hrest).
        destruct (addSpan_walk thr n rest) as [r f]; simpl in *.
        constructor; assumption.
      * assert (Hm : span_in_range (absorb thr n c)).
        { unfold span_in_range in *. rewrite absorb_smin, absorb_smax. lia. }
        specialize (IH _ Hm Hrest).
        destruct (addSpan_walk thr (absorb thr n c) rest) as [r f]; simpl in *.
        exact IH.
Qed.

Lemma in_range_proper s : span_in_range s -> proper s.
Proof. unfold span_in_range, proper. lia. Qed.

(** [separated] is the list form of "ascending and pairwise disjoint". *)
Lemma separated_lookup chain : separated chain ->
  forall i j s t, (i < j)%nat -> chain !! i = Some s -> chain !! j = Some t -> smax s < smin t.
Proof.
  induction chain as [|c rest IH]; intros Hs i j s t Hij Hi Hj.
  - discriminate.
  - destruct Hs as [Hc Hs]. destruct j as [|j]; [lia|]. simpl in Hj.
    destruct i as [|i]; simpl in Hi.
    + inversion Hi; subst. rewrite Forall_forall in Hc. apply Hc.
      apply list_elem_of_In. apply list_elem_of_lookup. eauto.
    + apply (IH Hs i j); [lia|assumption|assumption].
Qed.

Lemma separated_chain_ok chain :
  separated chain -> Forall span_in_range chain -> chain_ok chain.
Proof.
  intros Hs Hr. split; [|split; [|exact Hr]].
  - intros i j s t Hij Hi Hj.
    pose proof (separated_lookup chain Hs i j s t Hij Hi Hj).
    assert (span_in_range s).
    { rewrite Forall_forall in Hr. apply Hr, list_elem_of_In, list_elem_of_lookup. eauto. }
    unfold span_in_range in *. lia.
  - intros i j s t Hij Hi Hj.
    destruct (Nat.lt_ge_cases i j) as [Hlt|Hge].
    + left. exact (separated_lookup chain Hs i j s t Hlt Hi Hj).
    + right. apply (separated_lookup chain Hs j i t s); [lia|assumption|assumption].
Qed.

Lemma chain_ok_separated chain : chain_ok chain -> separated chain.
Proof.
  intros (Hasc & Hno & Hr). induction chain as [|c rest IH]; [exact I|].
  split.
  - rewrite Forall_forall. intros t Ht.
    apply list_elem_of_In, list_elem_of_lookup in Ht. destruct Ht as [j Hj].
    pose proof (Hasc 0%nat (S j) c t ltac:(lia) eq_refl Hj) as Hlt.
    destruct (Hno 0%nat (S j) c t ltac:(lia) eq_refl Hj) as [H|H]; [exact H|].
    assert (Hrt : span_in_range t).
    { rewrite Forall_forall in Hr. apply Hr. right.
      apply list_elem_of_In, list_elem_of_lookup. eauto. }
    unfold span_in_range in Hrt. lia.
  - apply IH.
    + intros i j s t Hij Hi Hj. apply (Hasc (S i) (S j) s t); [lia|exact Hi|exact Hj].
    + intros i j s t Hij Hi Hj. apply (Hno (S i) (S j) s t); [lia|exact Hi|exact Hj].
    + inversion Hr; assumption.
Qed.

Lemma chain_ok_nil : chain_ok [].
Proof. apply separated_chain_ok; [exact I|constructor]. Qed.

Lemma walk_chain_ok thr n chain :
  span_in_range n -> chain_ok chain -> chain_ok (fst (addSpan_walk thr n chain)).
Proof.
  intros Hn Hc. pose proof (chain_ok_separated _ Hc) as Hs. destruct Hc as (_ & _ & Hr).
  apply separated_chain_ok.
  - apply walk_separated; [apply in_range_proper, Hn| |exact Hs].
    eapply Forall_impl; [|exact Hr]. apply in_range_proper.
  - apply walk_in_range; assumption.
Qed.

Lemma ubits_small w v : 0 <= v < 2 ^ w -> ubits w v = v.
Proof. intros H. unfold ubits. apply Z.mod_small. exact H. Qed.

Lemma stored_span_in_range min max a :
  0 <= min -> min < max -> max <= RC_SPAN_MAX_HEIGHT ->
  span_in_range (mkSpan (ubits RC_SPAN_HEIGHT_BITS (ubits 16 min))
                        (ubits RC_SPAN_HEIGHT_BITS (ubits 16 max))
                        (ubits 6 (ubits 8 a))).
Proof.
  unfold RC_SPAN_MAX_HEIGHT, RC_SPAN_HEIGHT_BITS. intros H0 H1 H2.
  rewrite !(ubits_small 16), !(ubits_small 13) by lia.
  unfold span_in_range, RC_SPAN_MAX_HEIGHT, RC_SPAN_HEIGHT_BITS; simpl. lia.
Qed.

(** Below the top voxel the quantisation of [rasterizeTri] yields a span of
    at least one voxel inside the 13-bit range. *)
Lemma quantized_in_limits fl ce :
  fl < RC_SPAN_MAX_HEIGHT ->
  0 <= spanMinCellIndex fl /\ spanMinCellIndex fl < spanMaxCellIndex fl ce
  /\ spanMaxCellIndex fl ce <= RC_SPAN_MAX_HEIGHT.
Proof.
  unfold spanMaxCellIndex, spanMinCellIndex, rcClamp, RC_SPAN_MAX_HEIGHT, RC_SPAN_HEIGHT_BITS.
  intros Hfl.
  assert (Hm : 0 <= (if fl <? 0 then 0 else if fl >? 2 ^ 13 - 1 then 2 ^ 13 - 1 else fl) < 2 ^ 13 - 1).
  { destruct (fl <? 0) eqn:E1; [lia|]. destruct (fl >? 2 ^ 13 - 1) eqn:E2; lia. }
  rewrite (ubits_small 16 (if fl <? 0 then _ else _)) by lia.
  set (m := if fl <? 0 then 0 else if fl >? 2 ^ 13 - 1 then 2 ^ 13 - 1 else fl) in *.
  destruct (ce <? m + 1) eqn:E1.
  - rewrite ubits_small by lia. lia.
  - destruct (ce >? 2 ^ 13 - 1) eqn:E2; rewrite ubits_small by lia; lia.
Qed.

(** At the top voxel the lower clamp bound [8192] exceeds the upper one and
    wins; stored into the 13-bit [smax] it reads back as [0]. *)
Lemma quantisation_at_top :
  spanMinCellIndex 8191 = 8191 /\ spanMaxCellIndex 8191 8191 = 8192 /\
  ubits RC_SPAN_HEIGHT_BITS (spanMaxCellIndex 8191 8191) = 0.
Proof. vm_compute. auto. Qed.

Lemma allocSpan_spans ok hf hf1 : allocSpan ok hf = Some hf1 ->
  spans hf1 = spans hf /\ width hf1 = width hf /\ height hf1 = height hf.
Proof.
  unfold allocSpan. intros Ea.
  destruct (freelist hf <=? 1); [destruct ok|]; inversion Ea; auto.
Qed.

Lemma addSpan_preserves thr ok hf x z min max a hf' :
  0 <= min -> min < max -> max <= RC_SPAN_MAX_HEIGHT ->
  Forall chain_ok (spans hf) ->
  addSpan ok hf x z min max a thr = (true, hf') -> Forall chain_ok (spans hf').
Proof.
  intros H0 H1 H2 Hinv. unfold addSpan.
  destruct (allocSpan ok hf) as [hf1|] eqn:Ea; [|discriminate].
  destruct (allocSpan_spans _ _ _ Ea) as (Hs1 & _ & _).
  pose proof (walk_chain_ok thr _ (zget [] (spans hf1) (x + z * width hf1))
                (stored_span_in_range min max a H0 H1 H2)) as Hw.
  destruct (addSpan_walk thr _ (zget [] (spans hf1) (x + z * width hf1))) as [chain freed].
  intros Heq. inversion Heq; subst hf'; simpl.
  apply zset_Forall; [|rewrite Hs1; exact Hinv].
  apply Hw. apply zget_Forall; [apply chain_ok_nil|rewrite Hs1; exact Hinv].
Qed.

Lemma insert_preserves thr ok hf op hf' :
  insertion_in_limits op -> Forall chain_ok (spans hf) ->
  insert thr ok hf op = (true, hf') -> Forall chain_ok (spans hf').
Proof.
  destruct op as [x z min max a|x z fl ce a]; simpl; intros Hl Hinv Hrun.
  - destruct Hl as (H0 & H1 & H2). eapply addSpan_preserves; eauto.
  - destruct (quantized_in_limits fl ce Hl) as (H0 & H1 & H2).
    eapply addSpan_preserves; eauto.
Qed.

Lemma insert_all_preserves thr ops : forall hf hf',
  Forall (fun p => insertion_in_limits (snd p)) ops ->
  Forall chain_ok (spans hf) ->
  insert_all thr ops hf = (true, hf') -> Forall chain_ok (spans hf').
Proof.
  induction ops as [|[ok op] rest IH]; intros hf hf' Hl Hinv Hrun; simpl in Hrun.
  - inversion Hrun; subst; exact Hinv.
  - inversion Hl as [|? ? Hop Hrest]; subst. simpl in Hop.
    destruct (insert thr ok hf op) as [r hf1] eqn:E.
    destruct r; [|discriminate].
    apply (IH hf1 hf' Hrest); [|exact Hrun].
    eapply insert_preserves; eauto.
Qed.

(** Starting from the heightfield that [rcCreateHeightfield] returns, after
    any sequence of successful [addSpan] insertions whose arguments satisfy
    [0 <= min < max <= 8191] (the limits [rcAddSpan] documents; the
    quantisation of [rasterizeTri] meets them when its floor index is below
    8191, and only then), every column's chain is strictly ascending in
    [smin], pairwise non-overlapping, and every span has [smin < smax <= 8191]. *)
Theorem insertions_keep_chain_invariant thr sizeX sizeZ ops hf0 hf :
  rcCreateHeightfield true sizeX sizeZ = Some hf0 ->
  Forall (fun p => insertion_in_limits (snd p)) ops ->
  insert_all thr ops hf0 = (true, hf) ->
  Forall chain_ok (spans hf).
Proof.
  intros Hc Hl Hrun. eapply insert_all_preserves; [exact Hl| |exact Hrun].
  inversion Hc; subst; simpl. apply Forall_replicate. apply chain_ok_nil.
Qed.

Lemma insertions_keep_chain_invariant_witness :
  rcCreateHeightfield true 2 1 = Some demo_hf0
  /\ Forall (fun p => insertion_in_limits (snd p)) demo_ops
  /\ insert_all 1 demo_ops demo_hf0 = (true, demo_hf)
  /\ Forall chain_ok (spans demo_hf).
Proof.
  assert (Hl : Forall (fun p => insertion_in_limits (snd p)) demo_ops).
  { unfold demo_ops. repeat constructor; simpl;
      unfold RC_SPAN_MAX_HEIGHT, RC_SPAN_HEIGHT_BITS; lia. }
  split; [reflexivity|]. split; [exact Hl|]. split; [vm_compute; reflexivity|].
  apply (insertions_keep_chain_invariant 1 2 1 demo_ops demo_hf0 demo_hf);
    [reflexivity|exact Hl|vm_compute; reflexivity].
Defined.

(** [addSpan] does not check its arguments: a successful insertion of
    [min = max = 5], outside the limits of [rcAddSpan], leaves a span with
    [smin = smax]. *)
Lemma addSpan_empty_span_counterexample :
  exists hf0 hf, rcCreateHeightfield true 1 1 = Some hf0
    /\ insert_all 1 [(true, Direct 0 0 5 5 63)] hf0 = (true, hf)
    /\ ~ Forall chain_ok (spans hf).
Proof.
  eexists. eexists. split; [reflexivity|]. split; [vm_compute; reflexivity|].
  intros H. inversion H as [|? ? Hc _]; subst.
  destruct Hc as (_ & _ & Hr). inversion Hr as [|? ? Hs _]; subst.
  unfold span_in_range in Hs. simpl in Hs. lia.
Qed.

Lemma covers_cons s chain q : covers (s :: chain) q <-> inside s q \/ covers chain q.
Proof. unfold covers. rewrite Exists_cons. reflexivity. Qed.

Lemma covers_nil q : ~ covers [] q.
Proof. unfold covers. intros H. inversion H. Qed.

Lemma absorb_inside thr n c q :
  proper n -> proper c -> (smin c >? smax n) = false -> (smax c <? smin n) = false ->
  inside (absorb thr n c) q <-> inside n q \/ inside c q.
Proof.
  unfold inside, proper. rewrite absorb_smin, absorb_smax. lia.
Qed.

Lemma walk_covers thr chain : forall n q,
  proper n -> Forall proper chain ->
  covers (fst (addSpan_walk thr n chain)) q <-> inside n q \/ covers chain q.
Proof.
  induction chain as [|c rest IH]; intros n q Hn Hp; simpl.
  - rewrite covers_cons. reflexivity.
  - inversion Hp as [|? ? Hpc Hprest]; subst.
    destruct (smin c >? smax n) eqn:E1; simpl.
    + rewrite covers_cons. reflexivity.
    + destruct (smax c <? smin n) eqn:E2.
      * specialize (IH n q Hn Hprest).
        destruct (addSpan_walk thr n rest) as [r f]; simpl in *.
        rewrite !covers_cons, IH. tauto.
      * assert (Hm : proper (absorb thr n c)).
        { unfold proper in *. rewrite absorb_smin, absorb_smax. lia. }
        specialize (IH _ q Hm Hprest).
        destruct (addSpan_walk thr (absorb thr n c) rest) as [r f]; simpl in *.
        rewrite IH, covers_cons, absorb_inside by assumption. tauto.
Qed.

Lemma covers_above chain b q :
  Forall (fun s => b < smin s) chain -> covers chain q -> 2 * b + 2 <= q.
Proof.
  unfold covers. rewrite Forall_forall, Exists_exists.
  intros Hall (s & Hin & Hq). specialize (Hall s Hin). unfold inside in Hq. lia.
Qed.

(** A separated chain of proper spans is determined by the points it covers. *)
Lemma separated_covers_unique l1 : forall l2,
  separated l1 -> separated l2 -> Forall proper l1 -> Forall proper l2 ->
  (forall q, covers l1 q <-> covers l2 q) ->
  map interval l1 = map interval l2.
Proof.
  induction l1 as [|a l1 IH]; intros [|b l2] Hs1 Hs2 Hp1 Hp2 Hcov.
  - reflexivity.
  - exfalso. inversion Hp2 as [|? ? Hb _]; subst.
    apply (covers_nil (2 * smin b)). apply Hcov. apply covers_cons. left.
    unfold inside, proper in *. lia.
  - exfalso. inversion Hp1 as [|? ? Ha _]; subst.
    apply (covers_nil (2 * smin a)). apply Hcov. apply covers_cons. left.
    unfold inside, proper in *. lia.
  - destruct Hs1 as [Ha1 Hs1]. destruct Hs2 as [Hb2 Hs2].
    inversion Hp1 as [|? ? Ha Hp1']; subst. inversion Hp2 as [|? ? Hb Hp2']; subst.
    unfold proper in Ha, Hb.
    assert (Hmin : smin a = smin b).
    { assert (H1 : covers (b :: l2) (2 * smin a)).
      { apply Hcov, covers_cons. left. unfold inside. lia. }
      assert (H2 : covers (a :: l1) (2 * smin b)).
      { apply Hcov, covers_cons. left. unfold inside. lia. }
      apply covers_cons in H1. apply covers_cons in H2.
      destruct H1 as [H1|H1]; [|apply (covers_above _ _ _ Hb2) in H1];
      destruct H2 as [H2|H2]; [| apply (covers_above _ _ _ Ha1) in H2 | |
                                 apply (covers_above _ _ _ Ha1) in H2];
      unfold inside in *; lia. }
    assert (Hmax : smax a = smax b).
    { destruct (Z.lt_trichotomy (smax a) (smax b)) as [Hlt|[Heq|Hgt]]; [|exact Heq|].
      - exfalso. assert (H1 : covers (a :: l1) (2 * smax a + 1)).
        { apply Hcov, covers_cons. left. unfold inside. lia. }
        apply covers_cons in H1. destruct H1 as [H1|H1].
        + unfold inside in H1. lia.
        + apply (covers_above _ _ _ Ha1) in H1. lia.
      - exfalso. assert (H1 : covers (b :: l2) (2 * smax b + 1)).
        { apply Hcov, covers_cons. left. unfold inside. lia. }
        apply covers_cons in H1. destruct H1 as [H1|H1].
        + unfold inside in H1. lia.
        + apply (covers_above _ _ _ Hb2) in H1. lia. }
    simpl. f_equal; [unfold interval; congruence|].
    apply IH; try assumption.
    intros q. split; intros Hq.
    + pose proof (covers_above _ _ _ Ha1 Hq) as Hlow.
      assert (H1 : covers (b :: l2) q) by (apply Hcov, covers_cons; right; exact Hq).
      apply covers_cons in H1. destruct H1 as [H1|H1]; [|exact H1].
      unfold inside in H1. lia.
    + pose proof (covers_above _ _ _ Hb2 Hq) as Hlow.
      assert (H1 : covers (a :: l1) q) by (apply Hcov, covers_cons; right; exact Hq).
      apply covers_cons in H1. destruct H1 as [H1|H1]; [|exact H1].
      unfold inside in H1. lia.
Qed.

Lemma addSpans_chain_ok thr l : forall chain,
  Forall span_in_range l -> chain_ok chain -> chain_ok (addSpans thr l chain).
Proof.
  induction l as [|n l IH]; intros chain Hl Hc; simpl; [exact Hc|].
  inversion Hl; subst. apply IH; [assumption|]. apply walk_chain_ok; assumption.
Qed.

Lemma chain_ok_proper chain : chain_ok chain -> Forall proper chain.
Proof. intros (_ & _ & Hr). eapply Forall_impl; [|exact Hr]. apply in_range_proper. Qed.

Lemma addSpans_covers thr l : forall chain q,
  Forall span_in_range l -> chain_ok chain ->
  covers (addSpans thr l chain) q <-> covers chain q \/ Exists (fun n => inside n q) l.
Proof.
  induction l as [|n l IH]; intros chain q Hl Hc; simpl.
  - rewrite Exists_nil. tauto.
  - inversion Hl as [|? ? Hn Hl']; subst.
    rewrite IH by (try assumption; apply walk_chain_ok; assumption).
    rewrite walk_covers by (try apply in_range_proper; try apply chain_ok_proper; assumption).
    rewrite Exists_cons. tauto.
Qed.

Lemma addSpans_order thr l1 l2 chain :
  Forall span_in_range l1 -> chain_ok chain -> Permutation l1 l2 ->
  map interval (addSpans thr l1 chain) = map interval (addSpans thr l2 chain).
Proof.
  intros Hl1 Hc Hperm.
  assert (Hl2 : Forall span_in_range l2).
  { rewrite Forall_forall in *. intros s Hs. apply Hl1.
    eapply Permutation_in; [symmetry; exact Hperm|exact Hs]. }
  pose proof (addSpans_chain_ok thr l1 chain Hl1 Hc) as H1.
  pose proof (addSpans_chain_ok thr l2 chain Hl2 Hc) as H2.
  apply separated_covers_unique;
    try (apply chain_ok_separated; assumption); try (apply chain_ok_proper; assumption).
  intros q. rewrite !addSpans_covers by assumption.
  assert (He : Exists (fun n => inside n q) l1 <-> Exists (fun n => inside n q) l2).
  { rewrite !Exists_exists. split; intros (s & Hin & Hq); exists s; split; try exact Hq.
    - eapply Permutation_in; [exact Hperm|exact Hin].
    - eapply Permutation_in; [symmetry; exact Hperm|exact Hin]. }
  tauto.
Qed.

Lemma zset_out_of_range {A} (l : list A) i v : Z.of_nat (length l) <= i -> zset l i v = l.
Proof.
  intros H. unfold zset. destruct (i <? 0); [reflexivity|]. apply list_insert_ge. lia.
Qed.

Lemma insert_all_column thr x z l : forall hf hf',
  insert_all thr (column_insertions x z l) hf = (true, hf') ->
  width hf' = width hf /\
  spans hf' =
    if decide (0 <= x + z * width hf < Z.of_nat (length (spans hf)))
    then zset (spans hf) (x + z * width hf)
           (addSpans thr (map (fun p => stored_span (snd p)) l) (zget [] (spans hf) (x + z * width hf)))
    else spans hf.
Proof.
  induction l as [|[ok [[min max] a]] l IH]; intros hf hf' Hrun; simpl in Hrun.
  - inversion Hrun; subst. split; [reflexivity|]. simpl.
    destruct (decide _) as [Hin|Hout]; [|reflexivity].
    unfold zset. destruct (x + z * width hf' <? 0) eqn:E; [reflexivity|].
    symmetry. apply list_insert_id.
    unfold zget. rewrite E.
    destruct (lookup_lt_is_Some_2 (spans hf') (Z.to_nat (x + z * width hf'))) as [c Hc]; [lia|].
    rewrite Hc. f_equal. symmetry. apply nth_lookup_Some. exact Hc.
  - unfold addSpan in Hrun.
    destruct (allocSpan ok hf) as [hf1|] eqn:Ea; [|discriminate].
    destruct (allocSpan_spans _ _ _ Ea) as (Hs1 & Hw1 & _).
    rewrite Hs1, Hw1 in Hrun.
    set (idx := x + z * width hf) in *.
    set (n := mkSpan _ _ _) in Hrun.
    destruct (addSpan_walk thr n (zget [] (spans hf) idx)) as [chain freed] eqn:Ew.
    apply IH in Hrun. simpl in Hrun. destruct Hrun as [Hw Hs].
    split; [congruence|].
    rewrite zset_length in Hs. fold idx in Hs |- *.
    destruct (decide (0 <= idx < Z.of_nat (length (spans hf)))) as [Hin|Hout].
    + rewrite Hs, zset_zset, zget_zset_eq by exact Hin. simpl. fold n. rewrite Ew. reflexivity.
    + rewrite Hs. unfold zset. destruct (idx <? 0) eqn:E; [reflexivity|].
      apply list_insert_ge. lia.
Qed.

(** C3 (as amended).  For every column, every [flagMergeThreshold] and
    every list of insertions within the documented limits, inserting the
    same spans with [addSpan] in any order yields, in every column, chains
    with the same intervals [(smin, smax)]; the area tags are left out,
    they depend on the order. *)
Theorem addSpan_order_independent_intervals thr hf x z
    (l1 l2 : list (bool * (Z * Z * Z))) hf1 hf2 :
  Forall chain_ok (spans hf) ->
  Forall span_args_in_limits (map snd l1) ->
  Permutation (map snd l1) (map snd l2) ->
  insert_all thr (column_insertions x z l1) hf = (true, hf1) ->
  insert_all thr (column_insertions x z l2) hf = (true, hf2) ->
  map (map interval) (spans hf1) = map (map interval) (spans hf2).
Proof.
  intros Hinv Hl Hperm H1 H2.
  apply insert_all_column in H1. apply insert_all_column in H2.
  destruct H1 as [_ H1]. destruct H2 as [_ H2]. rewrite H1, H2.
  destruct (decide _) as [Hin|Hout]; [|reflexivity].
  unfold zset. destruct (x + z * width hf <? 0); [reflexivity|].
  rewrite !list_fmap_insert. f_equal.
  assert (Hm : forall l : list (bool * (Z * Z * Z)),
             map (fun p => stored_span (snd p)) l = map stored_span (map snd l)).
  { intros l. rewrite map_map. reflexivity. }
  rewrite !Hm. apply addSpans_order.
  - rewrite Forall_forall in *. intros s Hs. apply in_map_iff in Hs.
    destruct Hs as ([[min max] a] & <- & Hin'). specialize (Hl _ Hin').
    simpl in Hl. apply stored_span_in_range; tauto.
  - apply zget_Forall; [apply chain_ok_nil|exact Hinv].
  - apply Permutation_map. exact Hperm.
Qed.

Lemma addSpan_order_independent_intervals_witness :
  map (map interval) (spans (snd (insert_all 1 (column_insertions 0 0 order_l1) order_hf)))
  = map (map interval) (spans (snd (insert_all 1 (column_insertions 0 0 order_l2) order_hf)))
  /\ map (map area) (spans (snd (insert_all 1 (column_insertions 0 0 order_l1) order_hf)))
     <> map (map area) (spans (snd (insert_all 1 (column_insertions 0 0 order_l2) order_hf))).
Proof.
  split.
  - apply (addSpan_order_independent_intervals 1 order_hf 0 0 order_l1 order_l2).
    + constructor; [apply chain_ok_nil|constructor].
    + unfold order_l1. repeat constructor; simpl; unfold RC_SPAN_MAX_HEIGHT, RC_SPAN_HEIGHT_BITS; lia.
    + unfold order_l1, order_l2. simpl.
      apply Permutation_trans with [(0, 5, 2); (20, 30, 3); (0, 10, 1)].
      * change [(0, 10, 1); (0, 5, 2); (20, 30, 3)] with ([(0, 10, 1)] ++ [(0, 5, 2); (20, 30, 3)]).
        change [(0, 5, 2); (20, 30, 3); (0, 10, 1)] with ([(0, 5, 2); (20, 30, 3)] ++ [(0, 10, 1)]).
        apply Permutation_app_comm.
      * apply perm_swap.
    + vm_compute. reflexivity.
    + vm_compute. reflexivity.
  - vm_compute. discriminate.
Defined.

Lemma addSpan_order_changes_area_counterexample :
  exists hf1 hf2,
    insert_all 1 (column_insertions 0 0 [(true, (0, 10, 1)); (true, (0, 5, 2))]) order_hf = (true, hf1)
    /\ insert_all 1 (column_insertions 0 0 [(true, (0, 5, 2)); (true, (0, 10, 1))]) order_hf = (true, hf2)
    /\ spans hf1 = [[mkSpan 0 10 2]] /\ spans hf2 = [[mkSpan 0 10 1]]
    /\ spans hf1 <> spans hf2.
Proof.
  eexists. eexists. split; [vm_compute; reflexivity|]. split; [vm_compute; reflexivity|].
  simpl. split; [reflexivity|]. split; [reflexivity|]. discriminate.
Qed.

End RasterizationFacts.

(** ** The ledge filter *)

Module FilterFacts.
Import Heightfield Filter.

Lemma ledge_directions_sentinel hf wh wc x z fl ce dirs : forall st,
  Exists (out_of_bounds hf x z) dirs ->
  lowestNeighborFloorDifference (ledge_directions hf wh wc x z fl ce dirs st) = - wc - 1.
Proof.
  induction dirs as [|d rest IH]; intros st Hex; [inversion Hex|].
  simpl.
  destruct ((x + rcGetDirOffsetX d <? 0) || (z + rcGetDirOffsetY d <? 0)
            || (x + rcGetDirOffsetX d >=? width hf) || (z + rcGetDirOffsetY d >=? height hf)) eqn:E.
  - reflexivity.
  - destruct (rcMin ce _ - fl >=? wh); [reflexivity|].
    apply IH. inversion Hex as [? ? Hd|? ? Hr]; subst; [|exact Hr].
    exfalso. unfold out_of_bounds in Hd.
    rewrite !orb_false_iff in E. destruct E as [[[E1 E2] E3] E4]. lia.
Qed.

Lemma edge_has_out_of_bounds hf x z :
  on_grid_edge hf x z -> Exists (out_of_bounds hf x z) [0; 1; 2; 3].
Proof.
  unfold on_grid_edge. intros H. rewrite Exists_exists.
  destruct H as [H|[H|[H|H]]].
  - exists 0. split; [simpl; auto|]. unfold out_of_bounds. vm_compute rcGetDirOffsetX. lia.
  - exists 2. split; [simpl; auto|]. unfold out_of_bounds. vm_compute rcGetDirOffsetX. lia.
  - exists 3. split; [simpl; auto|]. unfold out_of_bounds.
    change (rcGetDirOffsetY 3) with (-1). lia.
  - exists 1. split; [simpl; auto|]. unfold out_of_bounds.
    change (rcGetDirOffsetY 1) with 1. lia.
Qed.

Lemma ledge_column_width wh wc z hf x :
  width (ledge_column wh wc z hf x) = width hf /\ height (ledge_column wh wc z hf x) = height hf
  /\ length (spans (ledge_column wh wc z hf x)) = length (spans hf).
Proof. unfold ledge_column, set_column; simpl. rewrite zset_length. auto. Qed.

Import Rasterization RasterizationFacts.

(** ** Filters: loops over all columns *)

Lemma fold_left_app_once {A B} (f : A -> B -> A) (Q P : A -> Prop) l1 b0 l2 :
  (forall a b, In b l1 -> Q a -> Q (f a b)) ->
  (forall a, Q a -> P (f a b0)) ->
  (forall a b, In b l2 -> P a -> P (f a b)) ->
  forall a, Q a -> P (fold_left f (l1 ++ b0 :: l2) a).
Proof.
  intros H1 H0 H2 a Ha. rewrite fold_left_app. simpl.
  assert (Hq : Q (fold_left f l1 a)).
  { clear H0 H2. revert a Ha. induction l1 as [|b l1 IH]; intros a Ha; [exact Ha|].
    simpl. apply IH.
    - intros a' b' Hin. apply H1. right. exact Hin.
    - apply H1; [left; reflexivity|exact Ha]. }
  apply H0 in Hq. revert Hq. generalize (f (fold_left f l1 a) b0).
  induction l2 as [|b l2 IH]; intros a' Ha'; [exact Ha'|].
  simpl. apply IH.
  - intros a'' b' Hin. apply H2. right. exact Hin.
  - apply H2; [left; reflexivity|exact Ha'].
Qed.

Lemma seqZ_split_at lo n x : lo <= x < lo + n ->
  seqZ lo n = seqZ lo (x - lo) ++ x :: seqZ (x + 1) (lo + n - x - 1).
Proof.
  intros H. replace n with ((x - lo) + (1 + (lo + n - x - 1))) at 1 by lia.
  rewrite seqZ_app by lia. f_equal.
  replace (lo + (x - lo)) with x by lia.
  rewrite seqZ_app by lia. replace (x + 1) with (x + 1)%Z by lia.
  change (seqZ x 1) with [x]. reflexivity.
Qed.

Lemma cell_index_inj w x z x' z' :
  0 <= x < w -> 0 <= x' < w -> x' + z' * w = x + z * w -> x' = x /\ z' = z.
Proof. intros Hx Hx' He. assert (z' = z) by nia. subst. lia. Qed.

Section ColumnWise.
Variable step : Z -> rcHeightfield -> Z -> rcHeightfield.
Variable hf0 : rcHeightfield.
Variable F : Z -> Z -> list rcSpan -> list rcSpan.
Variable Inv : rcHeightfield -> Prop.

Let dims (g : rcHeightfield) : Prop :=
  width g = width hf0 /\ height g = height hf0 /\ length (spans g) = length (spans hf0).

Hypothesis step_dims : forall z g x,
  width (step z g x) = width g /\ height (step z g x) = height g
  /\ length (spans (step z g x)) = length (spans g).
Hypothesis step_other : forall z g x i,
  i <> x + z * width g -> zget [] (spans (step z g x)) i = zget [] (spans g) i.
Hypothesis step_self : forall z g x,
  Inv g -> dims g -> 0 <= x < width g -> 0 <= z < height g ->
  zget [] (spans (step z g x)) (x + z * width g) = F x z (zget [] (spans g) (x + z * width g)).
Hypothesis Inv_step : forall z g x,
  Inv g -> dims g -> 0 <= x < width g -> 0 <= z < height g -> Inv (step z g x).

Let I (g : rcHeightfield) : Prop := dims g /\ Inv g.

Lemma columnwise_I_step z g x :
  0 <= x < width hf0 -> 0 <= z < height hf0 -> I g -> I (step z g x).
Proof.
  intros Hx Hz [Hd Hi]. destruct (step_dims z g x) as (E1 & E2 & E3).
  pose proof Hd as (D1 & D2 & D3).
  split.
  - unfold dims. rewrite E1, E2, E3. auto.
  - apply Inv_step; auto; lia.
Qed.

Lemma columnwise_row (R : rcHeightfield -> Prop) z g :
  0 <= z < height hf0 ->
  (forall a x', 0 <= x' < width hf0 -> I a -> R a -> R (step z a x')) ->
  I g -> R g -> I (fold_left (step z) (seqZ 0 (width hf0)) g)
              /\ R (fold_left (step z) (seqZ 0 (width hf0)) g).
Proof.
  intros Hz Hstep. generalize (seqZ 0 (width hf0)) (fun x => proj1 (elem_of_seqZ 0 (width hf0) x)).
  intros l Hl. revert g. induction l as [|b l IH]; intros g Hg Hr; [auto|].
  simpl. assert (Hb : 0 <= b < width hf0) by (specialize (Hl b ltac:(left)); lia).
  apply IH.
  - intros y Hy. apply Hl. right. exact Hy.
  - apply columnwise_I_step; auto.
  - apply Hstep; auto.
Qed.

Lemma columnwise x z :
  grid_ok hf0 -> Inv hf0 -> 0 <= x < width hf0 -> 0 <= z < height hf0 ->
  let g := fold_left (fun hf z => fold_left (step z) (seqZ 0 (width hf0)) hf)
             (seqZ 0 (height hf0)) hf0 in
  I g /\ column g x z = F x z (column hf0 x z).
Proof.
  intros (Hw & Hh & Hlen) Hinv Hx Hz. cbv zeta.
  set (i0 := x + z * width hf0).
  set (Q := fun g : rcHeightfield => I g /\ zget [] (spans g) i0 = zget [] (spans hf0) i0).
  set (P := fun g : rcHeightfield => I g /\ zget [] (spans g) i0 = F x z (zget [] (spans hf0) i0)).
  assert (HI0 : I hf0) by (split; [unfold dims; auto|exact Hinv]).
  assert (Hother : forall (R : rcHeightfield -> Prop) z' a x',
            0 <= x' < width hf0 -> 0 <= z' < height hf0 -> (x', z') <> (x, z) -> I a ->
            zget [] (spans (step z' a x')) i0 = zget [] (spans a) i0).
  { intros _ z' a x' Hx' Hz' Hne [(D1 & D2 & D3) _]. apply step_other. rewrite D1. unfold i0.
    intros He. symmetry in He. apply cell_index_inj in He; [|lia|lia].
    destruct He as [-> ->]. apply Hne. reflexivity. }
  assert (Hrow_other : forall (R : rcHeightfield -> Prop) z' g,
            (forall a, R a -> I a) ->
            (forall a b, I a -> I b -> zget [] (spans a) i0 = zget [] (spans b) i0 -> R a -> R b) ->
            0 <= z' < height hf0 -> z' <> z -> R g ->
            R (fold_left (step z') (seqZ 0 (width hf0)) g)).
  { intros R z' g HRI Hext Hz' Hne Hr.
    apply (columnwise_row R z' g Hz'); [|apply HRI; exact Hr|exact Hr].
    intros a x' Hx' Ha Hra. apply (Hext a); auto.
    - apply columnwise_I_step; auto.
    - symmetry. apply (Hother R); auto. intros [= _ E]. apply Hne. exact E. }
  assert (HQI : forall a, Q a -> I a) by (intros a [H _]; exact H).
  assert (HPI : forall a, P a -> I a) by (intros a [H _]; exact H).
  assert (HQext : forall a b, I a -> I b -> zget [] (spans a) i0 = zget [] (spans b) i0 -> Q a -> Q b).
  { intros a b _ Hb He [_ Hq]. split; [exact Hb|]. rewrite <- He. exact Hq. }
  assert (HPext : forall a b, I a -> I b -> zget [] (spans a) i0 = zget [] (spans b) i0 -> P a -> P b).
  { intros a b _ Hb He [_ Hq]. split; [exact Hb|]. rewrite <- He. exact Hq. }
  assert (Hrow : forall g, Q g -> P (fold_left (step z) (seqZ 0 (width hf0)) g)).
  { intros g Hq. rewrite (seqZ_split_at 0 (width hf0) x) by lia.
    apply (fold_left_app_once _ Q P); [| | |exact Hq].
    - intros a b Hin Ha. apply list_elem_of_In, elem_of_seqZ in Hin.
      apply (HQext a); auto.
      + apply columnwise_I_step; auto. lia.
      + symmetry. apply (Hother Q); auto; [lia|]. intros [= E]. lia.
    - intros a [Ha Hqa]. split; [apply columnwise_I_step; auto|].
      pose proof Ha as [(D1 & D2 & D3) Hia].
      unfold i0. rewrite <- D1. rewrite step_self; auto; try lia.
      + rewrite D1. fold i0. rewrite Hqa. reflexivity.
      + unfold dims; auto.
    - intros a b Hin Ha. apply list_elem_of_In, elem_of_seqZ in Hin.
      apply (HPext a); auto.
      + apply columnwise_I_step; auto. lia.
      + symmetry. apply (Hother P); auto; [lia|]. intros [= E]. lia. }
  assert (Hfinal : P (fold_left (fun hf z => fold_left (step z) (seqZ 0 (width hf0)) hf)
             (seqZ 0 (height hf0)) hf0)).
  { rewrite (seqZ_split_at 0 (height hf0) z) by lia.
    apply (fold_left_app_once _ Q P).
    - intros a b Hin Ha. apply list_elem_of_In, elem_of_seqZ in Hin.
      apply Hrow_other; auto; lia.
    - exact Hrow.
    - intros a b Hin Ha. apply list_elem_of_In, elem_of_seqZ in Hin.
      apply Hrow_other; auto; lia.
    - split; [exact HI0|reflexivity]. }
  destruct Hfinal as [Hi Hp]. split; [exact Hi|].
  unfold column. destruct Hi as [(D1 & _) _]. rewrite D1. exact Hp.
Qed.

End ColumnWise.

(** ** Filters: what one chain loop does *)

Lemma set_area_interval s a : interval (set_area s a) = interval s.
Proof. reflexivity. Qed.

Lemma ceiling_of_intervals c1 c2 :
  map interval c1 = map interval c2 -> ceiling_of c1 = ceiling_of c2.
Proof.
  destruct c1 as [|a c1], c2 as [|b c2]; simpl; intros H; try discriminate; [reflexivity|].
  injection H as H _. unfold interval in H. congruence.
Qed.

Lemma low_height_chain_intervals wh chain :
  map interval (low_height_chain wh chain) = map interval chain.
Proof.
  induction chain as [|s next IH]; [reflexivity|]. simpl. rewrite IH.
  destruct (ceiling_of next - smax s <? wh); reflexivity.
Qed.

Lemma low_height_chain_lookup wh chain : forall i s,
  chain !! i = Some s ->
  low_height_chain wh chain !! i
  = Some (if clearance chain i s <? wh then set_area s RC_NULL_AREA else s).
Proof.
  induction chain as [|t next IH]; intros i s Hi; [discriminate|].
  destruct i as [|i]; simpl in *.
  - injection Hi as ->. unfold clearance. simpl. rewrite drop_0. reflexivity.
  - rewrite (IH i s Hi). reflexivity.
Qed.

Lemma intervals_lookup c1 c2 i s :
  map interval c1 = map interval c2 -> c1 !! i = Some s ->
  exists t, c2 !! i = Some t /\ smin t = smin s /\ smax t = smax s.
Proof.
  intros He Hi. assert (H : map interval c1 !! i = Some (interval s)).
  { rewrite list_lookup_fmap. change (map interval c1) with (interval <$> c1).
    rewrite Hi. reflexivity. }
  rewrite He in H. change (map interval c2) with (interval <$> c2) in H.
  rewrite list_lookup_fmap in H. destruct (c2 !! i) as [t|]; [|discriminate].
  simpl in H. injection H as H1 H2. exists t. auto.
Qed.

Lemma clearance_intervals c1 c2 i s t :
  map interval c1 = map interval c2 -> smax s = smax t ->
  clearance c1 i s = clearance c2 i t.
Proof.
  intros He Hs. unfold clearance. rewrite Hs. f_equal.
  apply ceiling_of_intervals.
  change (interval <$> drop (S i) c1 = interval <$> drop (S i) c2). rewrite !fmap_drop.
  change (drop (S i) (map interval c1) = drop (S i) (map interval c2)). rewrite He. reflexivity.
Qed.

(** ** Filters: rewriting one column *)

Lemma set_column_dims g i c :
  width (set_column g i c) = width g /\ height (set_column g i c) = height g
  /\ length (spans (set_column g i c)) = length (spans g).
Proof. unfold set_column; simpl. rewrite zset_length. auto. Qed.

Lemma zset_same_intervals (l : list (list rcSpan)) i c :
  map interval c = map interval (zget [] l i) ->
  map (map interval) (zset l i c) = map (map interval) l.
Proof.
  intros Hc. unfold zset, zget in *. destruct (i <? 0); [reflexivity|].
  change (map (map interval) (<[Z.to_nat i:=c]> l)) with (map interval <$> <[Z.to_nat i:=c]> l).
  rewrite list_fmap_insert. rewrite Hc.
  destruct (l !! Z.to_nat i) as [a|] eqn:El.
  - rewrite (nth_lookup_Some l _ [] a El). apply list_insert_id.
    rewrite list_lookup_fmap, El. reflexivity.
  - apply list_insert_ge. rewrite length_fmap. apply lookup_ge_None in El. exact El.
Qed.

Lemma set_column_same_intervals g hf i c :
  same_intervals g hf -> map interval c = map interval (zget [] (spans g) i) ->
  same_intervals (set_column g i c) hf.
Proof.
  intros (H1 & H2 & H3) Hc. unfold same_intervals, set_column; simpl.
  rewrite zset_same_intervals by exact Hc. auto.
Qed.

Lemma same_intervals_zget g hf i :
  same_intervals g hf ->
  map interval (zget [] (spans g) i) = map interval (zget [] (spans hf) i).
Proof.
  intros (_ & _ & H). unfold zget. destruct (i <? 0); [reflexivity|].
  rewrite <- !(map_nth (map interval)). simpl. rewrite H. reflexivity.
Qed.

Lemma same_intervals_refl hf : same_intervals hf hf.
Proof. unfold same_intervals. auto. Qed.

Lemma same_intervals_trans a b c :
  same_intervals a b -> same_intervals b c -> same_intervals a c.
Proof. unfold same_intervals. intros (?&?&?) (?&?&?). repeat split; congruence. Qed.

(** ** [rcFilterWalkableLowHeightSpans] *)

Lemma low_height_chain_clearance wh chain i s' :
  low_height_chain wh chain !! i = Some s' -> area s' <> RC_NULL_AREA ->
  wh <= clearance (low_height_chain wh chain) i s'.
Proof.
  intros Hi Hw. pose proof (low_height_chain_intervals wh chain) as Hint.
  destruct (intervals_lookup _ _ _ _ Hint Hi) as (s & Hs & E1 & E2).
  rewrite (clearance_intervals _ chain i s' s Hint) by lia.
  rewrite (low_height_chain_lookup _ _ _ _ Hs) in Hi. injection Hi as <-.
  destruct (clearance chain i s <? wh) eqn:E; [|lia].
  exfalso. apply Hw. reflexivity.
Qed.

Lemma rcFilterWalkableLowHeightSpans_column wh hf x z :
  grid_ok hf -> 0 <= x < width hf -> 0 <= z < height hf ->
  same_intervals (rcFilterWalkableLowHeightSpans wh hf) hf
  /\ column (rcFilterWalkableLowHeightSpans wh hf) x z = low_height_chain wh (column hf x z).
Proof.
  intros Hg Hx Hz.
  destruct (columnwise (low_height_column wh) hf (fun _ _ c => low_height_chain wh c)
              (fun g => same_intervals g hf)) with (x := x) (z := z) as [[_ Hi] Hc]; auto.
  - intros; apply set_column_dims.
  - intros z' g x' i Hne. unfold low_height_column, set_column; simpl.
    apply zget_zset_ne. auto.
  - intros z' g x' _ (D1 & D2 & D3) Hx' Hz'. unfold low_height_column, set_column; simpl.
    apply zget_zset_eq. destruct Hg as (G1 & G2 & G3). rewrite D3. nia.
  - intros z' g x' Hi _ _ _. apply set_column_same_intervals; [exact Hi|].
    apply low_height_chain_intervals.
  - apply same_intervals_refl.
Qed.

(** After [rcFilterWalkableLowHeightSpans] every span that is still walkable
    has at least [walkableHeight] voxels of free space above it (up to the
    next span of its column, or to [MAX_HEIGHTFIELD_HEIGHT] for the topmost
    span).  The filter keeps every span and its interval, clears the area of
    exactly the spans with less free space, and leaves the others as they were. *)
Theorem low_height_filter_leaves_clearance walkableHeight hf x z :
  grid_ok hf -> 0 <= x < width hf -> 0 <= z < height hf ->
  let before := column hf x z in
  let after := column (rcFilterWalkableLowHeightSpans walkableHeight hf) x z in
  map interval after = map interval before
  /\ (forall i s', after !! i = Some s' -> area s' <> RC_NULL_AREA ->
        walkableHeight <= clearance after i s')
  /\ (forall i s, before !! i = Some s ->
        exists s', after !! i = Some s'
          /\ (clearance before i s < walkableHeight -> area s' = RC_NULL_AREA)
          /\ (walkableHeight <= clearance before i s -> s' = s)).
Proof.
  intros Hg Hx Hz before after.
  destruct (rcFilterWalkableLowHeightSpans_column walkableHeight hf x z Hg Hx Hz) as [_ Hc].
  fold before after in Hc.
  assert (Hint : map interval after = map interval before)
    by (rewrite Hc; apply low_height_chain_intervals).
  split; [exact Hint|]. split.
  - intros i s' Hi Hw. rewrite Hc in *. apply low_height_chain_clearance; assumption.
  - intros i s Hs. rewrite Hc, (low_height_chain_lookup _ _ _ _ Hs).
    eexists; split; [reflexivity|].
    destruct (clearance before i s <? walkableHeight) eqn:E; split; intros H; try lia; reflexivity.
Qed.

Lemma low_height_filter_leaves_clearance_witness :
  let before := column stairs_hf 0 0 in
  let after := column (rcFilterWalkableLowHeightSpans 4 stairs_hf) 0 0 in
  map interval after = map interval before
  /\ (forall i s', after !! i = Some s' -> area s' <> RC_NULL_AREA -> 4 <= clearance after i s')
  /\ (forall i s, before !! i = Some s ->
        exists s', after !! i = Some s'
          /\ (clearance before i s < 4 -> area s' = RC_NULL_AREA)
          /\ (4 <= clearance before i s -> s' = s)).
Proof.
  apply (low_height_filter_leaves_clearance 4 stairs_hf 0 0); unfold grid_ok; simpl; lia.
Defined.

(** ** [rcFilterLowHangingWalkableObstacles] *)

Lemma low_obstacles_chain_intervals wc chain : forall prev pw pa,
  map interval (low_obstacles_chain wc prev pw pa chain) = map interval chain.
Proof.
  induction chain as [|s next IH]; intros prev pw pa; [reflexivity|]. simpl. rewrite IH.
  destruct (negb (negb (area s =? RC_NULL_AREA)) && pw && _); reflexivity.
Qed.

(** The state of the loop, given the span [p0] that was below in the
    unfiltered chain ([None] before the first span). *)
Lemma low_obstacles_chain_lookup wc chain : forall prev pw pa p0,
  pw = from_option (fun p => negb (area p =? RC_NULL_AREA)) false p0 ->
  (forall p, p0 = Some p -> area p <> RC_NULL_AREA ->
     exists q, prev = Some q /\ smax q = smax p /\ pa = area p) ->
  forall i s, chain !! i = Some s ->
  exists s', low_obstacles_chain wc prev pw pa chain !! i = Some s'
    /\ interval s' = interval s
    /\ match (match i with O => p0 | S j => chain !! j end) with
       | Some p =>
           if (area s =? RC_NULL_AREA) && negb (area p =? RC_NULL_AREA)
              && (smax s - smax p <=? wc)
           then area s' = area p else s' = s
       | None => s' = s
       end.
Proof.
  induction chain as [|t next IH]; intros prev pw pa p0 Hpw Hprev i s Hi; [discriminate|].
  destruct i as [|i]; simpl in Hi.
  - injection Hi as ->. simpl. eexists; split; [reflexivity|].
    rewrite negb_involutive.
    destruct p0 as [p|]; simpl in Hpw; subst pw.
    + destruct (area s =? RC_NULL_AREA) eqn:Es; simpl; [|auto].
      destruct (area p =? RC_NULL_AREA) eqn:Ep; simpl; [auto|].
      destruct (Hprev p eq_refl ltac:(lia)) as (q & -> & Hq & ->). simpl. rewrite Hq.
      destruct (smax s - smax p <=? wc); auto.
    + rewrite andb_false_r. simpl. auto.
  - simpl.
    set (t' := if negb (negb (area t =? RC_NULL_AREA)) && pw
                  && (smax t - from_option smax 0 prev <=? wc)
               then set_area t pa else t).
    destruct (IH (Some t') (negb (area t =? RC_NULL_AREA)) (area t') (Some t)
                eq_refl) with (i := i) (s := s) as (s' & Hs' & Hint & Hspec); [|exact Hi|].
    + intros p [= <-] Hp. exists t'. split; [reflexivity|].
      assert (Ht' : t' = t).
      { unfold t'. destruct (area t =? RC_NULL_AREA) eqn:E; [lia|reflexivity]. }
      rewrite Ht'. auto.
    + exists s'. split; [exact Hs'|]. split; [exact Hint|].
      destruct i as [|i]; simpl in *; exact Hspec.
Qed.

Lemma rcFilterLowHangingWalkableObstacles_column wc hf x z :
  grid_ok hf -> 0 <= x < width hf -> 0 <= z < height hf ->
  same_intervals (rcFilterLowHangingWalkableObstacles wc hf) hf
  /\ column (rcFilterLowHangingWalkableObstacles wc hf) x z
     = low_obstacles_chain wc None false RC_NULL_AREA (column hf x z).
Proof.
  intros Hg Hx Hz.
  destruct (columnwise (low_obstacles_column wc) hf
              (fun _ _ c => low_obstacles_chain wc None false RC_NULL_AREA c)
              (fun g => same_intervals g hf)) with (x := x) (z := z) as [[_ Hi] Hc]; auto.
  - intros; apply set_column_dims.
  - intros z' g x' i Hne. unfold low_obstacles_column, set_column; simpl.
    apply zget_zset_ne. auto.
  - intros z' g x' _ (D1 & D2 & D3) Hx' Hz'. unfold low_obstacles_column, set_column; simpl.
    apply zget_zset_eq. destruct Hg as (G1 & G2 & G3). rewrite D3. nia.
  - intros z' g x' Hi _ _ _. apply set_column_same_intervals; [exact Hi|].
    apply low_obstacles_chain_intervals.
  - apply same_intervals_refl.
Qed.

(** [rcFilterLowHangingWalkableObstacles] changes a span only when it is
    unwalkable, the span directly below it in its column was walkable before
    the filter ran, and the two tops are at most [walkableClimb] apart; it
    then gives the span the area of the span below.  Every other span is
    left as it was, so walkability does not climb a staircase of obstacles:
    a span raised by the filter does not raise the one above it. *)
Theorem low_obstacles_filter_raises_one_step walkableClimb hf x z :
  grid_ok hf -> 0 <= x < width hf -> 0 <= z < height hf ->
  let before := column hf x z in
  let after := column (rcFilterLowHangingWalkableObstacles walkableClimb hf) x z in
  length after = length before
  /\ (forall s, before !! 0%nat = Some s -> after !! 0%nat = Some s)
  /\ (forall j p s, before !! j = Some p -> before !! S j = Some s ->
        if (area s =? RC_NULL_AREA) && negb (area p =? RC_NULL_AREA)
           && (smax s - smax p <=? walkableClimb)
        then after !! S j = Some (set_area s (area p))
        else after !! S j = Some s).
Proof.
  intros Hg Hx Hz before after.
  destruct (rcFilterLowHangingWalkableObstacles_column walkableClimb hf x z Hg Hx Hz) as [_ Hc].
  fold before after in Hc.
  assert (Hlook := fun i s => low_obstacles_chain_lookup walkableClimb before None false
                     RC_NULL_AREA None eq_refl ltac:(discriminate) i s).
  split; [|split].
  - rewrite <- (length_map interval after), <- (length_map interval before), Hc.
    rewrite low_obstacles_chain_intervals. reflexivity.
  - intros s Hs. destruct (Hlook _ _ Hs) as (s' & Hs' & _ & ->). rewrite Hc. exact Hs'.
  - intros j p s Hp Hs. destruct (Hlook _ _ Hs) as (s' & Hs' & Hint & Hspec).
    rewrite Hp in Hspec. rewrite Hc.
    destruct ((area s =? RC_NULL_AREA) && negb (area p =? RC_NULL_AREA)
              && (smax s - smax p <=? walkableClimb)).
    + rewrite Hs'. f_equal. destruct s' as [a b c], s as [a0 b0 c0]. simpl in *.
      unfold interval in Hint. simpl in Hint. unfold set_area. simpl. congruence.
    + rewrite Hs', Hspec. reflexivity.
Qed.

Lemma low_obstacles_filter_raises_one_step_witness :
  let before := column stairs_hf 0 0 in
  let after := column (rcFilterLowHangingWalkableObstacles 4 stairs_hf) 0 0 in
  length after = length before
  /\ (forall s, before !! 0%nat = Some s -> after !! 0%nat = Some s)
  /\ (forall j p s, before !! j = Some p -> before !! S j = Some s ->
        if (area s =? RC_NULL_AREA) && negb (area p =? RC_NULL_AREA)
           && (smax s - smax p <=? 4)
        then after !! S j = Some (set_area s (area p))
        else after !! S j = Some s).
Proof.
  apply (low_obstacles_filter_raises_one_step 4 stairs_hf 0 0); unfold grid_ok; simpl; lia.
Defined.

(** ** [rcFilterLedgeSpans]: the outcome depends on intervals only *)

Lemma ledge_neighbor_spans_intervals wh wc fl ce n1 : forall n2 st,
  map interval n1 = map interval n2 ->
  ledge_neighbor_spans wh wc fl ce n1 st = ledge_neighbor_spans wh wc fl ce n2 st.
Proof.
  induction n1 as [|a n1 IH]; intros [|b n2] st He; try discriminate; [reflexivity|].
  simpl in He. unfold interval at 1 3 in He. injection He as Hmin Hmax He.
  simpl. rewrite Hmax, (ceiling_of_intervals n1 n2 He).
  destruct (rcMin ce (ceiling_of n2) - rcMax fl (smax b) <? wh); [apply IH; exact He|].
  destruct (rcAbs (smax b - fl) <=? wc); [apply IH; exact He|].
  destruct (smax b - fl <? - wc); [reflexivity|apply IH; exact He].
Qed.

Lemma ledge_directions_intervals g hf wh wc x z fl ce dirs : forall st,
  same_intervals g hf ->
  ledge_directions g wh wc x z fl ce dirs st = ledge_directions hf wh wc x z fl ce dirs st.
Proof.
  induction dirs as [|d rest IH]; intros st Hs; [reflexivity|].
  pose proof Hs as (Hw & Hh & _). simpl. rewrite Hw, Hh.
  destruct ((x + rcGetDirOffsetX d <? 0) || (z + rcGetDirOffsetY d <? 0)
            || (x + rcGetDirOffsetX d >=? width hf) || (z + rcGetDirOffsetY d >=? height hf));
    [reflexivity|].
  pose proof (same_intervals_zget g hf
                (x + rcGetDirOffsetX d + (z + rcGetDirOffsetY d) * width hf) Hs) as Hn.
  rewrite (ceiling_of_intervals _ _ Hn).
  destruct (rcMin ce _ - fl >=? wh); [reflexivity|].
  rewrite (ledge_neighbor_spans_intervals _ _ _ _ _ _ _ Hn). apply IH. exact Hs.
Qed.

Lemma ledge_chain_same_intervals g hf wh wc x z chain :
  same_intervals g hf -> ledge_chain g wh wc x z chain = ledge_chain hf wh wc x z chain.
Proof.
  intros Hs. induction chain as [|s next IH]; [reflexivity|]. simpl. rewrite IH. f_equal.
  unfold ledge_span. rewrite (ledge_directions_intervals g hf) by exact Hs. reflexivity.
Qed.

Lemma ledge_span_cases hf wh wc x z s next :
  ledge_span hf wh wc x z s next = s
  \/ ledge_span hf wh wc x z s next = set_area s RC_NULL_AREA.
Proof.
  unfold ledge_span. destruct (area s =? RC_NULL_AREA); [auto|].
  destruct (_ <? _); [auto|]. destruct (_ >? _); auto.
Qed.

Lemma ledge_chain_intervals hf wh wc x z chain :
  map interval (ledge_chain hf wh wc x z chain) = map interval chain.
Proof.
  induction chain as [|s next IH]; [reflexivity|]. simpl. rewrite IH.
  destruct (ledge_span_cases hf wh wc x z s next) as [-> | ->]; reflexivity.
Qed.

Lemma ledge_chain_lookup hf wh wc x z chain : forall i s,
  chain !! i = Some s ->
  ledge_chain hf wh wc x z chain !! i = Some (ledge_span hf wh wc x z s (drop (S i) chain)).
Proof.
  induction chain as [|t next IH]; intros i s Hi; [discriminate|].
  destruct i as [|i]; simpl in *.
  - injection Hi as ->. rewrite drop_0. reflexivity.
  - apply IH. exact Hi.
Qed.

Lemma rcFilterLedgeSpans_column wh wc hf x z :
  grid_ok hf -> 0 <= x < width hf -> 0 <= z < height hf ->
  same_intervals (rcFilterLedgeSpans wh wc hf) hf
  /\ column (rcFilterLedgeSpans wh wc hf) x z = ledge_chain hf wh wc x z (column hf x z).
Proof.
  intros Hg Hx Hz.
  destruct (columnwise (ledge_column wh wc) hf
              (fun x z c => ledge_chain hf wh wc x z c)
              (fun g => same_intervals g hf)) with (x := x) (z := z) as [[_ Hi] Hc]; auto.
  - intros; apply ledge_column_width.
  - intros z' g x' i Hne. unfold ledge_column, set_column; simpl.
    apply zget_zset_ne. auto.
  - intros z' g x' Hi (D1 & D2 & D3) Hx' Hz'. unfold ledge_column, set_column; simpl.
    rewrite zget_zset_eq by (destruct Hg as (G1 & G2 & G3); rewrite D3; nia).
    apply ledge_chain_same_intervals. exact Hi.
  - intros z' g x' Hi _ _ _. apply set_column_same_intervals; [exact Hi|].
    apply ledge_chain_intervals.
  - apply same_intervals_refl.
Qed.

(** ** [rcFilterLedgeSpans]: the columns on the grid edge *)

Lemma set_area_null_span s : area s = RC_NULL_AREA -> set_area s RC_NULL_AREA = s.
Proof. destruct s as [mn mx a]. unfold set_area. simpl. intros ->. reflexivity. Qed.

Lemma ledge_span_edge_clears hf wh wc x z s next :
  on_grid_edge hf x z -> ledge_span hf wh wc x z s next = set_area s RC_NULL_AREA.
Proof.
  intros He. unfold ledge_span.
  destruct (area s =? RC_NULL_AREA) eqn:E.
  - apply Z.eqb_eq in E. symmetry. apply set_area_null_span. exact E.
  - rewrite ledge_directions_sentinel by (apply edge_has_out_of_bounds; exact He).
    assert (Hlt : (- wc - 1 <? - wc) = true) by lia. rewrite Hlt. reflexivity.
Qed.

Lemma ledge_chain_edge_clears hf wh wc x z chain :
  on_grid_edge hf x z ->
  ledge_chain hf wh wc x z chain = map (fun s => set_area s RC_NULL_AREA) chain.
Proof.
  intros He. induction chain as [|s next IH]; [reflexivity|].
  simpl. rewrite IH, ledge_span_edge_clears by exact He. reflexivity.
Qed.

(** C9.  For a heightfield of at least one column each way and
    [walkableClimb >= 0], [rcFilterLedgeSpans] keeps every span of a column
    on the grid edge ([x = 0], [x = width - 1], [z = 0] or [z = height - 1])
    with its [smin] and [smax] and sets its area to [RC_NULL_AREA]: the
    column after the filter is the column before it with every area
    cleared, so each walkable span of it has become unwalkable and no
    walkable span remains in an edge column. *)
Theorem rcFilterLedgeSpans_clears_edge_columns walkableHeight walkableClimb hf x z :
  1 <= width hf -> 1 <= height hf -> 0 <= walkableClimb ->
  Z.of_nat (length (spans hf)) = width hf * height hf ->
  0 <= x < width hf -> 0 <= z < height hf ->
  on_grid_edge hf x z ->
  column (rcFilterLedgeSpans walkableHeight walkableClimb hf) x z
    = map (fun s => set_area s RC_NULL_AREA) (column hf x z)
  /\ (forall i s, column hf x z !! i = Some s ->
        column (rcFilterLedgeSpans walkableHeight walkableClimb hf) x z !! i
          = Some (mkSpan (smin s) (smax s) RC_NULL_AREA))
  /\ all_null (column (rcFilterLedgeSpans walkableHeight walkableClimb hf) x z).
Proof.
  intros Hw Hh Hc Hlen Hx Hz He.
  assert (Hg : grid_ok hf) by (unfold grid_ok; repeat split; try lia; exact Hlen).
  destruct (rcFilterLedgeSpans_column walkableHeight walkableClimb hf x z Hg Hx Hz) as [_ Hcol].
  rewrite Hcol, ledge_chain_edge_clears by exact He.
  split; [reflexivity|]. split.
  - intros i s Hs. rewrite list_lookup_fmap, Hs. reflexivity.
  - unfold all_null. apply Forall_forall. intros s Hs.
    apply in_map_iff in Hs. destruct Hs as (t & <- & _). reflexivity.
Qed.

Lemma rcFilterLedgeSpans_clears_edge_columns_witness :
  column ledge_hf 0 1 = [mkSpan 0 10 63]
  /\ column (rcFilterLedgeSpans 4 1 ledge_hf) 0 1 = [mkSpan 0 10 RC_NULL_AREA]
  /\ all_null (column (rcFilterLedgeSpans 4 1 ledge_hf) 0 1).
Proof.
  split; [reflexivity|].
  destruct (rcFilterLedgeSpans_clears_edge_columns 4 1 ledge_hf 0 1) as (H1 & _ & H3);
    [simpl; lia|simpl; lia|lia|reflexivity|simpl; lia|simpl; lia|
     unfold on_grid_edge; simpl; lia|].
  split; [exact H1|exact H3].
Defined.

(** [rcFilterLedgeSpans] updates the spans in place while it still reads
    the neighbour columns, but the outcome does not depend on the order of
    the columns: each span gets what the ledge test gives on the unfiltered
    heightfield.  The filter keeps every span and its interval and either
    leaves a span as it was or clears its area. *)
Theorem ledge_filter_independent_of_column_order walkableHeight walkableClimb hf x z :
  grid_ok hf -> 0 <= x < width hf -> 0 <= z < height hf ->
  let before := column hf x z in
  let after := column (rcFilterLedgeSpans walkableHeight walkableClimb hf) x z in
  map interval after = map interval before
  /\ forall i s, before !! i = Some s ->
       after !! i = Some (ledge_span hf walkableHeight walkableClimb x z s (drop (S i) before))
       /\ (after !! i = Some s \/ after !! i = Some (set_area s RC_NULL_AREA)).
Proof.
  intros Hg Hx Hz before after.
  destruct (rcFilterLedgeSpans_column walkableHeight walkableClimb hf x z Hg Hx Hz) as [_ Hc].
  fold before after in Hc. rewrite Hc. split; [apply ledge_chain_intervals|].
  intros i s Hs. rewrite (ledge_chain_lookup _ _ _ _ _ _ _ _ Hs). split; [reflexivity|].
  destruct (ledge_span_cases hf walkableHeight walkableClimb x z s (drop (S i) before))
    as [-> | ->]; auto.
Qed.

Lemma ledge_filter_independent_of_column_order_witness :
  let before := column stairs_hf 0 0 in
  let after := column (rcFilterLedgeSpans 4 2 stairs_hf) 0 0 in
  map interval after = map interval before
  /\ forall i s, before !! i = Some s ->
       after !! i = Some (ledge_span stairs_hf 4 2 0 0 s (drop (S i) before))
       /\ (after !! i = Some s \/ after !! i = Some (set_area s RC_NULL_AREA)).
Proof.
  apply (ledge_filter_independent_of_column_order 4 2 stairs_hf 0 0);
    unfold grid_ok; simpl; lia.
Defined.


End FilterFacts.

(** ** The compact heightfield builder *)

Module CompactFacts.
Import Compact.

(** *** First pass of [rcBuildCompactHeightfield]: fill cells, spans, areas *)

(** *** Second pass: neighbour links *)

Lemma testbit_63 n : 0 <= n -> Z.testbit 63 n = (n <? 6).
Proof. intros Hn. change 63 with (Z.ones 6). apply Z.testbit_ones_nonneg; lia. Qed.

Lemma con_get_set_same c v sh :
  0 <= sh -> sh + 6 <= 24 ->
  Z.land (Z.shiftr (ubits 24 (Z.lor (Z.land c (Z.lnot (Z.shiftl 63 sh)))
                                    (Z.shiftl (Z.land v 63) sh))) sh) 63
  = Z.land v 63.
Proof.
  intros H0 H1. apply Z.bits_inj'. intros n Hn.
  rewrite !Z.land_spec, testbit_63 by lia.
  destruct (n <? 6) eqn:E; [|rewrite !andb_false_r; reflexivity].
  rewrite !andb_true_r.
  rewrite Z.shiftr_spec by lia. unfold ubits.
  rewrite Z.mod_pow2_bits_low by lia.
  rewrite Z.lor_spec, Z.land_spec, Z.lnot_spec, !Z.shiftl_spec by lia.
  replace (n + sh - sh) with n by lia.
  rewrite Z.land_spec, testbit_63, E by lia.
  rewrite andb_false_r, andb_true_r. reflexivity.
Qed.

Lemma con_get_set_other c v sh sh' :
  0 <= sh -> 0 <= sh' -> sh' + 6 <= 24 -> (sh + 6 <= sh' \/ sh' + 6 <= sh) ->
  Z.land (Z.shiftr (ubits 24 (Z.lor (Z.land c (Z.lnot (Z.shiftl 63 sh)))
                                    (Z.shiftl (Z.land v 63) sh))) sh') 63
  = Z.land (Z.shiftr c sh') 63.
Proof.
  intros H0 H1 H2 H3. apply Z.bits_inj'. intros n Hn.
  rewrite !Z.land_spec, testbit_63 by lia.
  destruct (n <? 6) eqn:E; [|rewrite !andb_false_r; reflexivity].
  rewrite !andb_true_r.
  rewrite !Z.shiftr_spec by lia. unfold ubits.
  rewrite Z.mod_pow2_bits_low by lia.
  rewrite Z.lor_spec, Z.land_spec, Z.lnot_spec, !Z.shiftl_spec by lia.
  rewrite Z.land_spec.
  assert (Hf : Z.testbit 63 (n + sh' - sh) = false).
  { destruct (Z.lt_ge_cases (n + sh' - sh) 0) as [Hneg|Hpos].
    - apply Z.testbit_neg_r. exact Hneg.
    - rewrite testbit_63 by lia. lia. }
  rewrite Hf. simpl. rewrite andb_true_r, andb_false_r, orb_false_r. reflexivity.
Qed.

Lemma rcGetCon_rcSetCon_same s d v :
  0 <= d <= 3 -> rcGetCon (rcSetCon s d v) d = Z.land v 63.
Proof. intros Hd. unfold rcGetCon, rcSetCon; simpl. apply con_get_set_same; lia. Qed.

Lemma rcGetCon_rcSetCon_other s d d' v :
  0 <= d <= 3 -> 0 <= d' <= 3 -> d <> d' -> rcGetCon (rcSetCon s d v) d' = rcGetCon s d'.
Proof. intros Hd Hd' Hne. unfold rcGetCon, rcSetCon; simpl. apply con_get_set_other; lia. Qed.

Lemma land_63_small v : 0 <= v <= 63 -> Z.land v 63 = v.
Proof.
  intros Hv. change 63 with (Z.ones 6). rewrite Z.land_ones by lia.
  apply Z.mod_small. change (2 ^ 6) with 64. lia.
Qed.

Lemma rcSetCon_y s d v : y (rcSetCon s d v) = y s.
Proof. reflexivity. Qed.

Lemma rcSetCon_h s d v : h (rcSetCon s d v) = h s.
Proof. reflexivity. Qed.

Lemma fold_left_flat_map {A B C} (f : A -> C -> A) (g : B -> list C) l : forall a,
  fold_left f (flat_map g l) a = fold_left (fun a b => fold_left f (g b) a) l a.
Proof.
  induction l as [|b l IH]; intros a; simpl; [reflexivity|].
  rewrite fold_left_app. apply IH.
Qed.

Lemma fold_left_map {A B C} (f : A -> C -> A) (g : B -> C) l : forall a,
  fold_left f (map g l) a = fold_left (fun a b => f a (g b)) l a.
Proof. induction l as [|b l IH]; intros a; simpl; [reflexivity|apply IH]. Qed.

Lemma fold_left_ext_in {A B} (f g : A -> B -> A) l :
  (forall a b, In b l -> f a b = g a b) -> forall a, fold_left f l a = fold_left g l a.
Proof.
  induction l as [|b l IH]; intros H a; simpl; [reflexivity|].
  rewrite H by (left; reflexivity). apply IH. intros; apply H; right; assumption.
Qed.

Section FoldMembers.
Context {A B : Type} (f : A -> B -> A) (I P : A -> Prop) (l : list B).
Hypothesis I_step : forall a b, In b l -> I a -> I (f a b).
Hypothesis P_step : forall a b, In b l -> I a -> P a -> P (f a b).

Lemma fold_left_members_inv_aux l' :
  (forall b, In b l' -> In b l) -> forall a, I a -> I (fold_left f l' a).
Proof.
  induction l' as [|b l' IH]; intros Hsub a Ha; simpl; [exact Ha|].
  apply IH; [intros; apply Hsub; right; assumption|].
  apply I_step; [apply Hsub; left; reflexivity|exact Ha].
Qed.

Lemma fold_left_members_inv : forall a, I a -> I (fold_left f l a).
Proof. apply fold_left_members_inv_aux. auto. Qed.

Lemma fold_left_members_preserves_aux l' :
  (forall b, In b l' -> In b l) -> forall a, I a -> P a -> P (fold_left f l' a).
Proof.
  induction l' as [|b l' IH]; intros Hsub a Ha Hp; simpl; [exact Hp|].
  apply IH; [intros; apply Hsub; right; assumption| |].
  - apply I_step; [apply Hsub; left; reflexivity|exact Ha].
  - apply P_step; [apply Hsub; left; reflexivity|exact Ha|exact Hp].
Qed.

Lemma fold_left_members_establishes_aux b0 l' :
  (forall a, I a -> P (f a b0)) -> (forall b, In b l' -> In b l) -> In b0 l' ->
  forall a, I a -> P (fold_left f l' a).
Proof.
  intros Hb0. induction l' as [|b l' IH]; intros Hsub Hin a Ha; [destruct Hin|].
  simpl. destruct Hin as [->|Hin].
  - apply fold_left_members_preserves_aux.
    + intros; apply Hsub; right; assumption.
    + apply I_step; [apply Hsub; left; reflexivity|exact Ha].
    + apply Hb0; exact Ha.
  - apply IH; [intros; apply Hsub; right; assumption|exact Hin|].
    apply I_step; [apply Hsub; left; reflexivity|exact Ha].
Qed.

Lemma fold_left_members_establishes b0 :
  (forall a, I a -> P (f a b0)) -> In b0 l -> forall a, I a -> P (fold_left f l a).
Proof. intros Hb0 Hin. apply (fold_left_members_establishes_aux b0); auto. Qed.
End FoldMembers.

Lemma link_all_flat wh wc xSize zSize cells st :
  link_all wh wc xSize zSize cells st
  = fold_left (link_dir wh wc xSize zSize cells) (all_steps xSize zSize cells) st.
Proof.
  unfold link_all, all_steps.
  rewrite fold_left_flat_map. apply fold_left_ext_in. intros st1 z _.
  rewrite fold_left_flat_map. apply fold_left_ext_in. intros st2 x _.
  rewrite fold_left_flat_map. apply fold_left_ext_in. intros st3 i _.
  rewrite fold_left_map. reflexivity.
Qed.

Lemma in_all_steps xSize zSize cells x z i dir :
  In (x, z, i, dir) (all_steps xSize zSize cells) <->
  0 <= z < zSize /\ 0 <= x < xSize /\
  index (zget cell0 cells (x + z * xSize)) <= i
    < index (zget cell0 cells (x + z * xSize)) + count (zget cell0 cells (x + z * xSize)) /\
  0 <= dir <= 3.
Proof.
  unfold all_steps. rewrite in_flat_map. split.
  - intros (z' & Hz & H). apply list_elem_of_In, elem_of_seqZ in Hz.
    rewrite in_flat_map in H. destruct H as (x' & Hx & H).
    apply list_elem_of_In, elem_of_seqZ in Hx.
    rewrite in_flat_map in H. destruct H as (i' & Hi & H).
    apply list_elem_of_In, elem_of_seqZ in Hi.
    simpl in H. destruct H as [H|[H|[H|[H|[]]]]]; inversion H; subst; lia.
  - intros (Hz & Hx & Hi & Hd). exists z. split; [apply In_seqZ; lia|].
    rewrite in_flat_map. exists x. split; [apply In_seqZ; lia|].
    rewrite in_flat_map. exists i. split; [apply In_seqZ; lia|].
    simpl. assert (dir = 0 \/ dir = 1 \/ dir = 2 \/ dir = 3) as [->|[->|[->| ->]]] by lia; auto.
Qed.

Lemma same_yh_refl a : same_yh a a.
Proof. split; auto. Qed.

Lemma same_yh_trans a b c : same_yh a b -> same_yh b c -> same_yh a c.
Proof.
  intros [L1 H1] [L2 H2]. split; [congruence|].
  intros j. destruct (H1 j), (H2 j). split; congruence.
Qed.

Lemma same_yh_sym a b : same_yh a b -> same_yh b a.
Proof. intros [L1 H1]. split; [congruence|]. intros j. destruct (H1 j). split; congruence. Qed.

Lemma same_yh_setcon sp i d v : same_yh sp (zset sp i (rcSetCon (zget span0 sp i) d v)).
Proof.
  split; [symmetry; apply zset_length|].
  intros j. destruct (Z.eq_dec i j) as [->|Hne].
  - destruct (decide (0 <= j < Z.of_nat (length sp))) as [Hin|Hout].
    + rewrite zget_zset_eq by exact Hin. auto.
    + rewrite zset_outside by exact Hout. auto.
  - rewrite zget_zset_ne by exact Hne. auto.
Qed.

Lemma connectable_yh wh wc s s' n n' :
  y s = y s' -> h s = h s' -> y n = y n' -> h n = h n' ->
  connectable wh wc s n = connectable wh wc s' n'.
Proof. intros H1 H2 H3 H4. unfold connectable. rewrite H1, H2, H3, H4. reflexivity. Qed.

Lemma link_scan_same_yh wh wc a b s s' n ks :
  same_yh a b -> y s = y s' -> h s = h s' ->
  forall m, link_scan wh wc a s n ks m = link_scan wh wc b s' n ks m.
Proof.
  intros [_ Hab] Hy Hh. induction ks as [|k ks IH]; intros m; simpl; [reflexivity|].
  destruct (Hab k) as [Hky Hkh].
  rewrite (connectable_yh wh wc s s' _ _ Hy Hh Hky Hkh).
  destruct (connectable wh wc s' (zget span0 b k)); [|apply IH].
  destruct ((k - n <? 0) || (k - n >? MAX_LAYERS)); [apply IH|reflexivity].
Qed.

Lemma link_scan_fst wh wc sp s n ks : forall m m',
  fst (link_scan wh wc sp s n ks m) = fst (link_scan wh wc sp s n ks m').
Proof.
  induction ks as [|k ks IH]; intros m m'; simpl; [reflexivity|].
  destruct (connectable wh wc s (zget span0 sp k)); [|apply IH].
  destruct ((k - n <? 0) || (k - n >? MAX_LAYERS)); [apply IH|reflexivity].
Qed.

(** What a successful scan found: the first connectable span of the
    neighbour column whose layer index fits the 6-bit field. *)
Lemma link_scan_Some wh wc sp s n ks : forall m l,
  fst (link_scan wh wc sp s n ks m) = Some l ->
  exists pre k post, ks = pre ++ k :: post /\ l = k - n /\ 0 <= l <= MAX_LAYERS /\
    connectable wh wc s (zget span0 sp k) = true /\
    Forall (fun k' => connectable wh wc s (zget span0 sp k') = false
                      \/ k' - n < 0 \/ k' - n > MAX_LAYERS) pre.
Proof.
  induction ks as [|k ks IH]; intros m l H; simpl in H; [discriminate|].
  destruct (connectable wh wc s (zget span0 sp k)) eqn:Ec.
  - destruct ((k - n <? 0) || (k - n >? MAX_LAYERS)) eqn:El.
    + destruct (IH _ _ H) as (pre & k0 & post & -> & Hl & Hr & Hc & Hpre).
      exists (k :: pre), k0, post. repeat split; try assumption; try lia.
      constructor; [|exact Hpre]. right. apply orb_true_iff in El. lia.
    + simpl in H. inversion H; subst l. exists [], k, ks.
      apply orb_false_iff in El. repeat split; try lia; auto.
  - destruct (IH _ _ H) as (pre & k0 & post & -> & Hl & Hr & Hc & Hpre).
    exists (k :: pre), k0, post. repeat split; try assumption; try lia.
    constructor; [|exact Hpre]. left. exact Ec.
Qed.


Lemma link_dir_spec wh wc xS zS cells sp m x z i dir sp' m' :
  0 <= i < Z.of_nat (length sp) -> 0 <= dir <= 3 ->
  link_dir wh wc xS zS cells (sp, m) (x, z, i, dir) = (sp', m') ->
  same_yh sp sp' /\
  (forall j, j <> i -> zget span0 sp' j = zget span0 sp j) /\
  rcGetCon (zget span0 sp' i) dir = neighbor_link wh wc xS zS cells sp x z i dir /\
  (forall d', 0 <= d' <= 3 -> d' <> dir ->
     rcGetCon (zget span0 sp' i) d' = rcGetCon (zget span0 sp i) d').
Proof.
  intros Hi Hd. unfold link_dir, neighbor_link.
  set (sp1 := zset sp i (rcSetCon (zget span0 sp i) dir RC_NOT_CONNECTED)).
  assert (H1 : same_yh sp sp1) by apply same_yh_setcon.
  assert (Hg1 : zget span0 sp1 i = rcSetCon (zget span0 sp i) dir RC_NOT_CONNECTED).
  { unfold sp1. apply zget_zset_eq. exact Hi. }
  assert (Hi1 : 0 <= i < Z.of_nat (length sp1)) by (unfold sp1; rewrite zset_length; exact Hi).
  destruct ((x + rcGetDirOffsetX dir <? 0) || (z + rcGetDirOffsetY dir <? 0)
            || (x + rcGetDirOffsetX dir >=? xS) || (z + rcGetDirOffsetY dir >=? zS)).
  - intros Heq. inversion Heq; subst sp' m'. split; [exact H1|]. split; [|split].
    + intros j Hj. unfold sp1. apply zget_zset_ne. lia.
    + rewrite Hg1, rcGetCon_rcSetCon_same by exact Hd. reflexivity.
    + intros d' Hd' Hne. rewrite Hg1. apply rcGetCon_rcSetCon_other; auto.
  - set (nc := zget cell0 cells (x + rcGetDirOffsetX dir + (z + rcGetDirOffsetY dir) * xS)).
    rewrite (link_scan_same_yh wh wc sp1 sp (zget span0 sp1 i) (zget span0 sp i))
      by (try apply same_yh_sym; try rewrite Hg1; auto).
    rewrite (link_scan_fst wh wc sp (zget span0 sp i) (index nc) _ 0 m).
    destruct (link_scan wh wc sp (zget span0 sp i) (index nc) (seqZ (index nc) (count nc)) m)
      as [[l|] m1] eqn:Es; simpl; intros Heq; inversion Heq; subst sp' m'.
    + assert (Hl : 0 <= l <= MAX_LAYERS).
      { destruct (link_scan_Some wh wc sp (zget span0 sp i) (index nc)
                    (seqZ (index nc) (count nc)) m l) as (? & ? & ? & ? & ? & ? & ?);
          [rewrite Es; reflexivity|assumption]. }
      unfold MAX_LAYERS, RC_NOT_CONNECTED in Hl.
      split; [|split; [|split]].
      * eapply same_yh_trans; [exact H1|apply same_yh_setcon].
      * intros j Hj. rewrite zget_zset_ne by lia. unfold sp1. apply zget_zset_ne. lia.
      * rewrite zget_zset_eq by exact Hi1.
        rewrite rcGetCon_rcSetCon_same by exact Hd. apply land_63_small. lia.
      * intros d' Hd' Hne. rewrite zget_zset_eq by exact Hi1.
        rewrite rcGetCon_rcSetCon_other by auto. rewrite Hg1.
        apply rcGetCon_rcSetCon_other; auto.
    + split; [exact H1|]. split; [|split].
      * intros j Hj. unfold sp1. apply zget_zset_ne. lia.
      * rewrite Hg1, rcGetCon_rcSetCon_same by exact Hd. reflexivity.
      * intros d' Hd' Hne. rewrite Hg1. apply rcGetCon_rcSetCon_other; auto.
Qed.

Lemma column_index_range xS zS x z : 0 <= x < xS -> 0 <= z < zS -> 0 <= x + z * xS < xS * zS.
Proof. nia. Qed.

Lemma column_index_inj xS x z x' z' :
  0 <= x < xS -> 0 <= x' < xS -> x + z * xS = x' + z' * xS -> x = x' /\ z = z'.
Proof. intros Hx Hx' He. assert (z = z') by nia. subst. lia. Qed.

Lemma neighbor_link_same_yh wh wc xS zS cells a b x z i dir :
  same_yh a b -> neighbor_link wh wc xS zS cells a x z i dir
               = neighbor_link wh wc xS zS cells b x z i dir.
Proof.
  intros Hab. unfold neighbor_link.
  destruct (_ || _); [reflexivity|].
  destruct Hab as [Hl Hyh]. destruct (Hyh i) as [Hy Hh].
  rewrite (link_scan_same_yh wh wc a b _ _ _ _ (conj Hl Hyh) Hy Hh). reflexivity.
Qed.

Lemma link_all_spec wh wc xS zS cells sp0 m0 x z i dir :
  layout xS zS cells sp0 -> In (x, z, i, dir) (all_steps xS zS cells) ->
  same_yh sp0 (fst (link_all wh wc xS zS cells (sp0, m0))) /\
  rcGetCon (zget span0 (fst (link_all wh wc xS zS cells (sp0, m0))) i) dir
  = neighbor_link wh wc xS zS cells sp0 x z i dir.
Proof.
  intros [Hrange Hdisj] Hin. rewrite link_all_flat.
  set (I := fun st : list rcCompactSpan * Z => same_yh sp0 (fst st)).
  set (P := fun st : list rcCompactSpan * Z =>
              rcGetCon (zget span0 (fst st) i) dir = neighbor_link wh wc xS zS cells sp0 x z i dir).
  assert (Hstep : forall st b, In b (all_steps xS zS cells) -> I st ->
            I (link_dir wh wc xS zS cells st b) /\
            (P st -> P (link_dir wh wc xS zS cells st b)) /\
            (b = (x, z, i, dir) -> P (link_dir wh wc xS zS cells st b))).
  { intros [sp m] [[[x' z'] i'] d'] Hb HI. unfold I, P in *. simpl in HI.
    apply in_all_steps in Hb. destruct Hb as (Hz' & Hx' & Hi' & Hd').
    pose proof (column_index_range xS zS x' z' Hx' Hz') as Hc'.
    destruct (Hrange _ Hc') as [Hlo Hhi].
    assert (Hlen : 0 <= i' < Z.of_nat (length sp)).
    { destruct HI as [HL _]. rewrite <- HL. lia. }
    destruct (link_dir wh wc xS zS cells (sp, m) (x', z', i', d')) as [sp' m'] eqn:Es.
    destruct (link_dir_spec _ _ _ _ _ _ _ _ _ _ _ _ _ Hlen Hd' Es) as (Hyh & Hother & Hsame & Hdirs).
    simpl. split; [eapply same_yh_trans; eauto|].
    assert (Hnew : i' = i -> d' = dir ->
              rcGetCon (zget span0 sp' i) dir = neighbor_link wh wc xS zS cells sp0 x z i dir).
    { intros -> ->. rewrite Hsame.
      rewrite <- (neighbor_link_same_yh wh wc xS zS cells sp0 sp) by exact HI.
      apply in_all_steps in Hin. destruct Hin as (Hz & Hx & Hi & Hd).
      pose proof (column_index_range xS zS x z Hx Hz) as Hc.
      assert (Hcc : x' + z' * xS = x + z * xS) by (apply (Hdisj _ _ i); assumption).
      destruct (column_index_inj xS x' z' x z Hx' Hx Hcc) as [-> ->]. reflexivity. }
    split.
    - intros HP. destruct (Z.eq_dec i' i) as [Hii|Hii].
      + destruct (Z.eq_dec d' dir) as [Hdd|Hdd]; [auto|].
        subst i'. rewrite Hdirs; [exact HP| |congruence].
        apply in_all_steps in Hin. tauto.
      + rewrite Hother by congruence. exact HP.
    - intros Heq. inversion Heq; subst. auto. }
  split.
  - apply (fold_left_members_inv _ I (all_steps xS zS cells)).
    + intros a b Hb Ha. apply Hstep; assumption.
    + unfold I. simpl. apply same_yh_refl.
  - apply (fold_left_members_establishes _ I P (all_steps xS zS cells)) with (b0 := (x, z, i, dir)).
    + intros a b Hb Ha. apply Hstep; assumption.
    + intros a b Hb Ha. apply Hstep; assumption.
    + intros a Ha. apply Hstep; auto.
    + exact Hin.
    + unfold I. simpl. apply same_yh_refl.
Qed.









Lemma zset_app_middle {A} (l1 l2 : list A) (a v : A) :
  zset (l1 ++ a :: l2) (Z.of_nat (length l1)) v = l1 ++ v :: l2.
Proof.
  unfold zset. destruct (Z.ltb_spec (Z.of_nat (length l1)) 0) as [Hlt|Hge]; [exfalso; lia|].
  rewrite Nat2Z.id. rewrite insert_app_r_alt by lia.
  replace (length l1 - length l1)%nat with 0%nat by lia. reflexivity.
Qed.

Lemma zget_app_middle {A} (d : A) (l1 l2 : list A) (a : A) :
  zget d (l1 ++ a :: l2) (Z.of_nat (length l1)) = a.
Proof.
  unfold zget. destruct (Z.ltb_spec (Z.of_nat (length l1)) 0) as [Hlt|Hge]; [exfalso; lia|].
  rewrite Nat2Z.id. rewrite app_nth2 by lia.
  replace (length l1 - length l1)%nat with 0%nat by lia. reflexivity.
Qed.

Lemma ubits_add_l w a b : ubits w (ubits w a + b) = ubits w (a + b).
Proof. unfold ubits. rewrite Zplus_mod_idemp_l. reflexivity. Qed.

Lemma fill_column_spec c chain : forall st ds da k,
  f_spans st = ds ++ replicate (length (emit chain) + k) span0 ->
  f_areas st = da ++ replicate (length (emit chain) + k) RC_NULL_AREA ->
  currentCellIndex st = Z.of_nat (length ds) -> length da = length ds ->
  let st' := fill_column c chain st in
  f_spans st' = ds ++ map fst (emit chain) ++ replicate k span0 /\
  f_areas st' = da ++ map snd (emit chain) ++ replicate k RC_NULL_AREA /\
  currentCellIndex st' = Z.of_nat (length ds + length (emit chain)) /\
  length (f_cells st') = length (f_cells st) /\
  (forall c', c' <> c -> zget cell0 (f_cells st') c' = zget cell0 (f_cells st) c') /\
  (0 <= c < Z.of_nat (length (f_cells st)) ->
   zget cell0 (f_cells st') c
   = mkCell (index (zget cell0 (f_cells st) c))
            (ubits 8 (count (zget cell0 (f_cells st) c) + Z.of_nat (length (emit chain))))
   \/ (emit chain = [] /\ zget cell0 (f_cells st') c = zget cell0 (f_cells st) c)).
Proof.
  induction chain as [|span next IH]; intros st ds da k Hs Ha Hc Hl; simpl.
  - simpl in Hs, Ha. repeat split; try assumption; try (rewrite Hc; f_equal; lia).
    intros _. right. auto.
  - simpl in Hs, Ha. destruct (Heightfield.area span =? RC_NULL_AREA) eqn:E.
    + apply IH; assumption.
    + simpl in Hs, Ha.
      set (s' := mkCSpan _ _ _ _).
      set (st1 := mkFill _ _ _ _).
      assert (Hz : zget span0 (f_spans st) (currentCellIndex st) = span0).
      { rewrite Hs, Hc. apply zget_app_middle. }
      assert (Hs1 : f_spans st1 = (ds ++ [s']) ++ replicate (length (emit next) + k) span0).
      { unfold st1; simpl. rewrite Hs, Hc, zset_app_middle. rewrite <- app_assoc. reflexivity. }
      assert (Ha1 : f_areas st1 = (da ++ [Heightfield.area span])
                                   ++ replicate (length (emit next) + k) RC_NULL_AREA).
      { unfold st1; simpl. rewrite Ha, Hc, <- Hl, zset_app_middle. rewrite <- app_assoc. reflexivity. }
      assert (Hc1 : currentCellIndex st1 = Z.of_nat (length (ds ++ [s']))).
      { unfold st1; simpl. rewrite Hc, length_app. simpl. lia. }
      assert (Hl1 : length (da ++ [Heightfield.area span]) = length (ds ++ [s'])).
      { rewrite !length_app. simpl. lia. }
      destruct (IH st1 _ _ k Hs1 Ha1 Hc1 Hl1) as (R1 & R2 & R3 & R4 & R5 & R6).
      assert (Hs' : s' = mkCSpan (ubits 16 (rcClamp (Heightfield.smax span) 0 65535)) 0 0
                     (ubits 8 (rcClamp (top_of next - Heightfield.smax span) 0 255))).
      { unfold s'. rewrite Hz. reflexivity. }
      split; [rewrite R1, <- app_assoc, <- Hs'; reflexivity|].
      split; [rewrite R2, <- app_assoc; reflexivity|].
      split; [rewrite R3, length_app; simpl; f_equal; lia|].
      split; [rewrite R4; unfold st1; simpl; apply zset_length|].
      split.
      * intros c' Hne. rewrite R5 by exact Hne. unfold st1; simpl.
        apply zget_zset_ne. congruence.
      * intros Hin. left.
        assert (Hin1 : 0 <= c < Z.of_nat (length (f_cells st1))).
        { unfold st1; simpl. rewrite zset_length. exact Hin. }
        assert (Hg : zget cell0 (f_cells st1) c
                     = mkCell (index (zget cell0 (f_cells st) c))
                              (ubits 8 (count (zget cell0 (f_cells st) c) + 1))).
        { unfold st1; simpl. apply zget_zset_eq. exact Hin. }
        destruct (R6 Hin1) as [R|[Re R]]; rewrite R, Hg; simpl; f_equal.
        -- rewrite ubits_add_l. f_equal. lia.
        -- rewrite Re. reflexivity.
Qed.

Lemma emit_all_app a b : emit_all (a ++ b) = emit_all a ++ emit_all b.
Proof. unfold emit_all. rewrite map_app, concat_app. reflexivity. Qed.

Lemma zget_nat {A} (d : A) l (n : nat) : zget d l (Z.of_nat n) = nth n l d.
Proof.
  unfold zget. destruct (Z.ltb_spec (Z.of_nat n) 0) as [H|H]; [exfalso; lia|].
  rewrite Nat2Z.id. reflexivity.
Qed.

Section FillLoop.
Variable hf : Heightfield.rcHeightfield.
Let columns := Heightfield.spans hf.
Let total := length (emit_all columns).

Lemma fill_inv_step n st :
  (n < length columns)%nat -> fill_inv columns n st -> fill_inv columns (S n) (fill_step hf st (Z.of_nat n)).
Proof.
  intros Hn (Hs & Ha & Hc & Hl & Hlow & Hhigh).
  destruct (lookup_lt_is_Some_2 columns n Hn) as [chain Hchain].
  assert (Hnth : nth n columns [] = chain) by (apply nth_lookup_Some; exact Hchain).
  assert (Htake : take (S n) columns = take n columns ++ [chain]).
  { apply take_S_r. exact Hchain. }
  assert (Hdrop : drop n columns = chain :: drop (S n) columns).
  { apply drop_S. exact Hchain. }
  assert (Hea : emit_all (take (S n) columns) = emit_all (take n columns) ++ emit chain).
  { rewrite Htake, emit_all_app. unfold emit_all at 2. simpl. rewrite app_nil_r. reflexivity. }
  assert (Hed : emit_all (drop n columns) = emit chain ++ emit_all (drop (S n) columns)).
  { rewrite Hdrop. reflexivity. }
  assert (Hfc : filled_cell columns n
                = match chain with
                  | [] => cell0
                  | _ => mkCell (ubits 24 (Z.of_nat (length (emit_all (take n columns)))))
                                (ubits 8 (Z.of_nat (length (emit chain))))
                  end).
  { unfold filled_cell. rewrite Hnth. destruct chain; reflexivity. }
  unfold fill_step. fold columns. rewrite zget_nat, Hnth.
  destruct chain as [|span next] eqn:Echain.
  - unfold fill_inv. rewrite Hea. rewrite Hed in Hs, Ha. simpl in *. rewrite app_nil_r.
    repeat split; try assumption.
    + intros c Hc'. destruct (Nat.eq_dec c n) as [->|Hne].
      * rewrite Hfc. apply Hhigh. lia.
      * apply Hlow. lia.
    + intros c Hc'. apply Hhigh. lia.
  - set (st1 := mkFill _ _ _ _).
    assert (Hin : 0 <= Z.of_nat n < Z.of_nat (length (f_cells st1))).
    { unfold st1; simpl. rewrite zset_length. lia. }
    assert (Hg1 : zget cell0 (f_cells st1) (Z.of_nat n) = mkCell (ubits 24 (currentCellIndex st)) 0).
    { unfold st1; simpl. apply zget_zset_eq. lia. }
    destruct (fill_column_spec (Z.of_nat n) (span :: next) st1
                (map fst (emit_all (take n columns))) (map snd (emit_all (take n columns)))
                (length (emit_all (drop (S n) columns))))
      as (R1 & R2 & R3 & R4 & R5 & R6).
    { unfold st1; simpl. rewrite Hs, Hed, length_app. reflexivity. }
    { unfold st1; simpl. rewrite Ha, Hed, length_app. reflexivity. }
    { unfold st1; simpl. rewrite Hc, length_map. reflexivity. }
    { rewrite !length_map. reflexivity. }
    unfold fill_inv. rewrite Hea, !map_app, <- !app_assoc.
    split; [exact R1|]. split; [exact R2|].
    split; [rewrite R3, length_app, length_map; reflexivity|].
    split; [rewrite R4; unfold st1; simpl; rewrite zset_length; exact Hl|].
    split.
    + intros c Hc'. destruct (Nat.eq_dec c n) as [->|Hne].
      * rewrite Hfc. destruct (R6 Hin) as [R|[Re R]]; rewrite R, Hg1, Hc; cbn [index count].
        -- reflexivity.
        -- rewrite Re. reflexivity.
      * rewrite R5 by lia. unfold st1; simpl. rewrite zget_zset_ne by lia. apply Hlow. lia.
    + intros c Hc'. rewrite R5 by lia. unfold st1; simpl. rewrite zget_zset_ne by lia.
      apply Hhigh. lia.
Qed.

Lemma fill_loop n :
  (n <= length columns)%nat ->
  fill_inv columns n (fold_left (fill_step hf) (seqZ 0 (Z.of_nat n))
                (mkFill (replicate (length columns) cell0) (replicate total span0)
                        (replicate total RC_NULL_AREA) 0)).
Proof.
  induction n as [|n IH]; intros Hn.
  - simpl. unfold fill_inv. rewrite take_0, drop_0. simpl. fold total.
    repeat split; try reflexivity.
    + apply length_replicate.
    + intros c Hc. lia.
    + intros c _. rewrite zget_nat.
      destruct (nth_in_or_default c (replicate (length columns) cell0) cell0) as [Hin|Hd];
        [|exact Hd].
      apply list_elem_of_In, elem_of_replicate in Hin. tauto.
  - rewrite seqZ_S, fold_left_app. simpl. apply fill_inv_step; [lia|]. apply IH. lia.
Qed.
End FillLoop.

Lemma count_chain chain : forall n0,
  fold_left (fun spanCount span =>
               if Heightfield.area span =? RC_NULL_AREA then spanCount else spanCount + 1) chain n0
  = n0 + Z.of_nat (length (emit chain)).
Proof.
  induction chain as [|span next IH]; intros n0; simpl; [lia|].
  rewrite IH. destruct (Heightfield.area span =? RC_NULL_AREA); simpl; lia.
Qed.

Lemma count_columns columns n :
  (n <= length columns)%nat ->
  fold_left
    (fun spanCount columnIndex =>
       fold_left (fun spanCount span =>
                    if Heightfield.area span =? RC_NULL_AREA then spanCount else spanCount + 1)
         (zget [] columns columnIndex) spanCount)
    (seqZ 0 (Z.of_nat n)) 0
  = Z.of_nat (length (emit_all (take n columns))).
Proof.
  induction n as [|n IH]; intros Hn; [reflexivity|].
  rewrite seqZ_S, fold_left_app. cbn [fold_left]. rewrite Z.add_0_l, IH by lia.
  destruct (lookup_lt_is_Some_2 columns n ltac:(lia)) as [chain Hchain].
  rewrite zget_nat, (nth_lookup_Some _ _ _ _ Hchain), count_chain.
  rewrite (take_S_r _ _ _ Hchain), emit_all_app, length_app.
  unfold emit_all at 3. simpl. rewrite app_nil_r. lia.
Qed.

Lemma rcGetHeightFieldSpanCount_spec hf :
  Z.of_nat (length (Heightfield.spans hf)) = Heightfield.width hf * Heightfield.height hf ->
  rcGetHeightFieldSpanCount hf = Z.of_nat (length (emit_all (Heightfield.spans hf))).
Proof.
  intros Hlen. unfold rcGetHeightFieldSpanCount. rewrite <- Hlen.
  rewrite count_columns by lia. rewrite firstn_all. reflexivity.
Qed.

(** The arrays after the first pass. *)
Lemma fill_pass_spec hf :
  Z.of_nat (length (Heightfield.spans hf)) = Heightfield.width hf * Heightfield.height hf ->
  let columns := Heightfield.spans hf in
  let filled :=
    fold_left (fill_step hf) (seqZ 0 (Heightfield.width hf * Heightfield.height hf))
      (mkFill (replicate (Z.to_nat (Heightfield.width hf * Heightfield.height hf)) cell0)
              (replicate (Z.to_nat (rcGetHeightFieldSpanCount hf)) span0)
              (replicate (Z.to_nat (rcGetHeightFieldSpanCount hf)) RC_NULL_AREA) 0) in
  f_spans filled = map fst (emit_all columns) /\
  f_areas filled = map snd (emit_all columns) /\
  length (f_cells filled) = length columns /\
  forall c, (c < length columns)%nat -> zget cell0 (f_cells filled) (Z.of_nat c) = filled_cell columns c.
Proof.
  intros Hlen columns filled.
  pose proof (fill_loop hf (length columns) (Nat.le_refl _)) as H.
  unfold fill_inv in H. fold columns in H.
  rewrite firstn_all, drop_all in H. simpl in H. rewrite !app_nil_r in H.
  assert (Hf : filled = fold_left (fill_step hf) (seqZ 0 (Z.of_nat (length columns)))
                 (mkFill (replicate (length columns) cell0)
                    (replicate (length (emit_all columns)) span0)
                    (replicate (length (emit_all columns)) RC_NULL_AREA) 0)).
  { unfold filled. rewrite rcGetHeightFieldSpanCount_spec by exact Hlen.
    fold columns. rewrite <- Hlen. fold columns. rewrite !Nat2Z.id. reflexivity. }
  rewrite Hf. destruct H as (H1 & H2 & _ & H4 & H5 & _). auto.
Qed.





Lemma offset_le (columns : list (list Heightfield.rcSpan)) c c' :
  (c <= c')%nat ->
  (length (emit_all (take c columns)) <= length (emit_all (take c' columns)))%nat.
Proof.
  intros Hle. rewrite <- (take_drop c (take c' columns)).
  rewrite take_take, Nat.min_l by exact Hle.
  rewrite emit_all_app, length_app. lia.
Qed.

Lemma offset_succ (columns : list (list Heightfield.rcSpan)) c chain :
  columns !! c = Some chain ->
  length (emit_all (take (S c) columns))
  = (length (emit_all (take c columns)) + length (emit chain))%nat.
Proof.
  intros Hc. rewrite (take_S_r _ _ _ Hc), emit_all_app, length_app.
  unfold emit_all at 2. simpl. rewrite app_nil_r. reflexivity.
Qed.


Section FilledLayout.
Variables (xS zS : Z) (columns : list (list Heightfield.rcSpan)) (cells : list rcCompactCell).
Hypothesis Hlen : Z.of_nat (length columns) = xS * zS.
Hypothesis Hcells : forall c, (c < length columns)%nat ->
  zget cell0 cells (Z.of_nat c) = filled_cell columns c.
Hypothesis Hfit : Forall (fun chain => (length (emit chain) <= 255)%nat) columns.
Hypothesis Htot : Z.of_nat (length (emit_all columns)) < 2 ^ 24.

Lemma offset_total c : (length (emit_all (take c columns)) <= length (emit_all columns))%nat.
Proof.
  destruct (Nat.le_gt_cases c (length columns)) as [Hc|Hc].
  - rewrite <- (firstn_all columns) at 2. apply offset_le. exact Hc.
  - rewrite take_ge by lia. lia.
Qed.

Lemma cell_facts c chain :
  columns !! c = Some chain ->
  count (zget cell0 cells (Z.of_nat c)) = Z.of_nat (length (emit chain)) /\
  0 <= index (zget cell0 cells (Z.of_nat c)) /\
  index (zget cell0 cells (Z.of_nat c)) + count (zget cell0 cells (Z.of_nat c))
    <= Z.of_nat (length (emit_all columns)) /\
  (0 < count (zget cell0 cells (Z.of_nat c)) ->
   index (zget cell0 cells (Z.of_nat c)) = Z.of_nat (length (emit_all (take c columns)))).
Proof.
  intros Hc. pose proof (lookup_lt_Some _ _ _ Hc) as Hlt.
  rewrite (Hcells c Hlt). unfold filled_cell. rewrite (nth_lookup_Some _ _ _ _ Hc).
  destruct chain as [|span next] eqn:Ech; [simpl; lia|].
  rewrite <- Ech in *.
  assert (H255 : (length (emit chain) <= 255)%nat).
  { rewrite Forall_forall in Hfit. apply Hfit. apply list_elem_of_In, list_elem_of_lookup. eauto. }
  pose proof (offset_total c) as Ho. pose proof (offset_total (S c)) as Hs.
  rewrite (offset_succ _ _ _ Hc) in Hs.
  destruct chain; [discriminate|]. cbn [index count].
  rewrite !RasterizationFacts.ubits_small by (change (2 ^ 8) with 256; lia).
  lia.
Qed.

Lemma column_nat c : 0 <= c < xS * zS ->
  exists n chain, c = Z.of_nat n /\ columns !! n = Some chain.
Proof.
  intros Hc. exists (Z.to_nat c).
  destruct (lookup_lt_is_Some_2 columns (Z.to_nat c)) as [chain Hch]; [lia|].
  exists chain. split; [lia|exact Hch].
Qed.

Lemma in_cell_offset n chain i :
  columns !! n = Some chain -> in_cell cells (Z.of_nat n) i ->
  Z.of_nat (length (emit_all (take n columns))) <= i
    < Z.of_nat (length (emit_all (take n columns)) + length (emit chain)).
Proof.
  intros Hc Hi. unfold in_cell in Hi.
  destruct (cell_facts n chain Hc) as (H1 & H2 & H3 & H4). lia.
Qed.

Lemma filled_layout : layout xS zS cells (map fst (emit_all columns)).
Proof.
  split.
  - intros c Hc. destruct (column_nat c Hc) as (n & chain & -> & Hch).
    destruct (cell_facts n chain Hch) as (H1 & H2 & H3 & H4).
    rewrite length_map. lia.
  - intros c c' i Hc Hc' Hi Hi'.
    destruct (column_nat c Hc) as (n & chain & -> & Hch).
    destruct (column_nat c' Hc') as (n' & chain' & -> & Hch').
    pose proof (in_cell_offset _ _ _ Hch Hi) as Ho.
    pose proof (in_cell_offset _ _ _ Hch' Hi') as Ho'.
    destruct (Nat.lt_trichotomy n n') as [Hlt|[->|Hgt]]; [exfalso| reflexivity |exfalso].
    + pose proof (offset_le columns (S n) n' ltac:(lia)) as Hle.
      rewrite (offset_succ _ _ _ Hch) in Hle. lia.
    + pose proof (offset_le columns (S n') n ltac:(lia)) as Hle.
      rewrite (offset_succ _ _ _ Hch') in Hle. lia.
Qed.



Hypothesis Hok : Forall Rasterization.chain_ok columns.

End FilledLayout.

Lemma emit_walkable chain :
  emit chain
  = map (fun p => (mkCSpan (ubits 16 (rcClamp (Heightfield.smax (fst p)) 0 65535)) 0 0
                           (ubits 8 (rcClamp (top_of (snd p) - Heightfield.smax (fst p)) 0 255)),
                   Heightfield.area (fst p)))
        (walkable_spans chain).
Proof.
  induction chain as [|span next IH]; simpl; [reflexivity|].
  destruct (Heightfield.area span =? RC_NULL_AREA); [exact IH|]. simpl. rewrite IH. reflexivity.
Qed.

Lemma walkable_spans_in chain p : In p (walkable_spans chain) -> In (fst p) chain.
Proof.
  induction chain as [|span next IH]; simpl; [tauto|].
  destruct (Heightfield.area span =? RC_NULL_AREA); simpl.
  - intros H. right. apply IH. exact H.
  - intros [<-|H]; [left; reflexivity|right; apply IH; exact H].
Qed.

(** Unfolding a successful build. *)
Lemma build_success a1 a2 a3 log wh wc hf chf log' :
  rcBuildCompactHeightfield a1 a2 a3 log wh wc hf = (true, chf, log') ->
  width chf = Heightfield.width hf /\ height chf = Heightfield.height hf /\
  walkableHeight chf = wh /\ walkableClimb chf = wc /\
  cells chf = f_cells (filled_state hf) /\
  areas chf = f_areas (filled_state hf) /\
  spans chf = fst (link_all wh wc (Heightfield.width hf) (Heightfield.height hf)
                     (f_cells (filled_state hf)) (f_spans (filled_state hf), 0)).
Proof.
  unfold rcBuildCompactHeightfield. fold (filled_state hf).
  destruct a1; [|discriminate]. destruct a2; [|discriminate]. destruct a3; [|discriminate].
  simpl.
  destruct (link_all wh wc (Heightfield.width hf) (Heightfield.height hf)
              (f_cells (filled_state hf)) (f_spans (filled_state hf), 0)) as [spans2 m].
  intros H. inversion H; subst. simpl. repeat split; reflexivity.
Qed.

Lemma same_yh_map a b : same_yh a b ->
  map (fun s => (y s, h s)) a = map (fun s => (y s, h s)) b.
Proof.
  intros [Hl Hyh]. apply list_eq. intros i. rewrite !list_lookup_fmap.
  destruct (a !! i) as [sa|] eqn:Ea, (b !! i) as [sb|] eqn:Eb; simpl.
  - specialize (Hyh (Z.of_nat i)). rewrite !zget_nat in Hyh.
    rewrite (nth_lookup_Some _ _ _ _ Ea), (nth_lookup_Some _ _ _ _ Eb) in Hyh.
    destruct Hyh as [-> ->]. reflexivity.
  - apply lookup_lt_Some in Ea. apply lookup_ge_None in Eb. lia.
  - apply lookup_ge_None in Ea. apply lookup_lt_Some in Eb. lia.
  - reflexivity.
Qed.

Lemma link_dir_same_yh wh wc xS zS cells st step :
  same_yh (fst st) (fst (link_dir wh wc xS zS cells st step)).
Proof.
  destruct st as [sp m]. destruct step as [[[x z] i] dir]. unfold link_dir.
  set (sp1 := zset sp i (rcSetCon (zget span0 sp i) dir RC_NOT_CONNECTED)).
  assert (H1 : same_yh sp sp1) by apply same_yh_setcon.
  destruct (_ || _); [exact H1|].
  destruct (link_scan _ _ _ _ _ _ _) as [[l|] m1]; simpl; [|exact H1].
  eapply same_yh_trans; [exact H1|apply same_yh_setcon].
Qed.

Lemma link_all_same_yh wh wc xS zS cells st :
  same_yh (fst st) (fst (link_all wh wc xS zS cells st)).
Proof.
  rewrite link_all_flat. generalize (all_steps xS zS cells). intros steps.
  revert st. induction steps as [|b steps IH]; intros st; simpl; [apply same_yh_refl|].
  eapply same_yh_trans; [apply link_dir_same_yh|apply IH].
Qed.

(** C4 (as amended).  The spans of the compact heightfield are, in row-major
    and bottom-up order, exactly the walkable spans of the source: the compact
    span of a walkable span has floor [y = smax], height
    [h = rcClamp (top - smax) 0 255] where [top] is the [smin] of the next
    span of the column ([0xFFFF] when there is none), and its area tag. *)
Theorem compact_spans_of_walkable_spans a1 a2 a3 log wh wc hf chf log' :
  rcBuildCompactHeightfield a1 a2 a3 log wh wc hf = (true, chf, log') ->
  Z.of_nat (length (Heightfield.spans hf)) = Heightfield.width hf * Heightfield.height hf ->
  Forall (Forall span_fields) (Heightfield.spans hf) ->
  map (fun s => (y s, h s)) (spans chf)
  = map (fun p => (Heightfield.smax (fst p),
                   rcClamp (top_of (snd p) - Heightfield.smax (fst p)) 0 255))
        (concat (map walkable_spans (Heightfield.spans hf)))
  /\ areas chf = map (fun p => Heightfield.area (fst p))
                   (concat (map walkable_spans (Heightfield.spans hf))).
Proof.
  intros Hb Hlen Hf.
  destruct (build_success _ _ _ _ _ _ _ _ _ Hb) as (_ & _ & _ & _ & _ & Ha & Hs).
  destruct (fill_pass_spec hf Hlen) as (Fs & Fa & _ & _). fold (filled_state hf) in Fs, Fa.
  rewrite Hs, Ha, Fa.
  rewrite <- (same_yh_map _ _ (link_all_same_yh wh wc _ _ _ (f_spans (filled_state hf), 0))).
  simpl. rewrite Fs. unfold emit_all.
  assert (Hcol : forall chain, Forall span_fields chain ->
            map (fun s => (y s, h s)) (map fst (emit chain))
            = map (fun p => (Heightfield.smax (fst p),
                             rcClamp (top_of (snd p) - Heightfield.smax (fst p)) 0 255))
                  (walkable_spans chain)
            /\ map snd (emit chain) = map (fun p => Heightfield.area (fst p)) (walkable_spans chain)).
  { intros chain Hc. rewrite emit_walkable, !map_map. simpl. split; [|reflexivity].
    apply map_ext_in. intros p Hp. apply walkable_spans_in in Hp.
    rewrite Forall_forall in Hc. destruct (Hc _ Hp) as (_ & Hmax & _).
    f_equal.
    - unfold rcClamp. destruct (_ <? 0) eqn:E1; [lia|]. destruct (_ >? 65535) eqn:E2; [lia|].
      apply RasterizationFacts.ubits_small. lia.
    - apply RasterizationFacts.ubits_small. unfold rcClamp.
      destruct (_ <? 0) eqn:E1; [lia|]. destruct (_ >? 255) eqn:E2; lia. }
  clear Hb Hlen Ha Hs Fs Fa. revert Hf. generalize (Heightfield.spans hf). intros cols Hf.
  induction Hf as [|chain columns Hc Hcs IH]; [split; reflexivity|].
  simpl. rewrite !map_app. destruct (Hcol chain Hc) as [-> ->]. destruct IH as [-> ->].
  split; reflexivity.
Qed.

Lemma compact_spans_of_walkable_spans_witness :
  exists chf log',
    rcBuildCompactHeightfield true true true [] 3 1 tall_hf = (true, chf, log')
    /\ map (fun s => (y s, h s)) (spans chf) = [(1, 255)] /\ areas chf = [63].
Proof.
  eexists. eexists. split; [vm_compute; reflexivity|].
  refine (compact_spans_of_walkable_spans true true true [] 3 1 tall_hf _ _ _ _ _);
    [vm_compute; reflexivity|reflexivity|].
  repeat constructor; simpl; lia.
Defined.

(** C4 as stated fails: the open space above the topmost span is
    [0xFFFF - smax], but [h] is an 8-bit field and the code clamps it to 255. *)
Lemma compact_height_clamped_counterexample :
  exists chf log',
    rcBuildCompactHeightfield true true true [] 3 1 tall_hf = (true, chf, log')
    /\ map h (spans chf) = [255] /\ 255 <> rcMin MAX_HEIGHT 65535 - 1.
Proof.
  eexists. eexists. split; [vm_compute; reflexivity|]. split; [reflexivity|]. vm_compute. discriminate.
Qed.






Lemma link_scan_mono wh wc sp s n ks : forall m,
  m <= snd (link_scan wh wc sp s n ks m).
Proof.
  induction ks as [|k ks IH]; intros m; simpl; [lia|].
  destruct (connectable wh wc s (zget span0 sp k)); [|apply IH].
  destruct ((k - n <? 0) || (k - n >? MAX_LAYERS)); [|simpl; lia].
  specialize (IH (rcMax m (k - n))). unfold rcMax in *.
  destruct (m >? k - n) eqn:E; lia.
Qed.

Lemma link_scan_overflow wh wc sp s n ks :
  (forall k, In k ks -> k - n <= MAX_LAYERS -> connectable wh wc s (zget span0 sp k) = false) ->
  forall m,
    fst (link_scan wh wc sp s n ks m) = None /\
    (forall k, In k ks -> connectable wh wc s (zget span0 sp k) = true ->
       k - n <= snd (link_scan wh wc sp s n ks m)).
Proof.
  induction ks as [|k ks IH]; intros Hlow m; simpl; [split; [reflexivity|tauto]|].
  assert (Hrest : forall k', In k' ks -> k' - n <= MAX_LAYERS ->
                    connectable wh wc s (zget span0 sp k') = false).
  { intros k' Hk'. apply Hlow. right. exact Hk'. }
  destruct (connectable wh wc s (zget span0 sp k)) eqn:Ec.
  - assert (Hk : k - n > MAX_LAYERS).
    { destruct (Z_le_gt_dec (k - n) MAX_LAYERS) as [Hle|Hgt]; [|exact Hgt].
      rewrite (Hlow k (or_introl eq_refl) Hle) in Ec. discriminate. }
    replace ((k - n <? 0) || (k - n >? MAX_LAYERS)) with true
      by (symmetry; apply orb_true_iff; right; apply Z.gtb_lt; lia).
    destruct (IH Hrest (rcMax m (k - n))) as [H1 H2]. split; [exact H1|].
    intros k' [<-|Hin] Hc'.
    + pose proof (link_scan_mono wh wc sp s n ks (rcMax m (k - n))) as Hm.
      unfold rcMax in *. destruct (m >? k - n) eqn:E; lia.
    + apply H2; assumption.
  - destruct (IH Hrest m) as [H1 H2]. split; [exact H1|].
    intros k' [<-|Hin] Hc'; [congruence|]. apply H2; assumption.
Qed.

Lemma link_dir_mono wh wc xS zS cells st b :
  snd st <= snd (link_dir wh wc xS zS cells st b).
Proof.
  destruct st as [sp m]. destruct b as [[[x z] i] dir]. unfold link_dir.
  destruct (_ || _); [simpl; lia|].
  match goal with |- context [link_scan ?a ?b ?c ?d ?e ?f m] =>
    pose proof (link_scan_mono a b c d e f m) as Hm;
    destruct (link_scan a b c d e f m) as [[l|] m1] end; simpl in *; lia.
Qed.

Lemma link_steps_mono wh wc xS zS cells steps : forall st,
  snd st <= snd (fold_left (link_dir wh wc xS zS cells) steps st).
Proof.
  induction steps as [|b steps IH]; intros st; simpl; [lia|].
  pose proof (link_dir_mono wh wc xS zS cells st b). specialize (IH (link_dir wh wc xS zS cells st b)).
  lia.
Qed.

Lemma link_steps_same_yh wh wc xS zS cells steps : forall st,
  same_yh (fst st) (fst (fold_left (link_dir wh wc xS zS cells) steps st)).
Proof.
  induction steps as [|b steps IH]; intros st; simpl; [apply same_yh_refl|].
  eapply same_yh_trans; [apply link_dir_same_yh|apply IH].
Qed.

(** A step whose scan runs into the layer limit raises [maxLayerIndex]
    above [MAX_LAYERS]. *)
Lemma link_dir_overflow wh wc xS zS cells sp0 sp m x z i dir k :
  same_yh sp0 sp ->
  0 <= x + rcGetDirOffsetX dir < xS -> 0 <= z + rcGetDirOffsetY dir < zS ->
  let nc := zget cell0 cells (x + rcGetDirOffsetX dir + (z + rcGetDirOffsetY dir) * xS) in
  index nc + MAX_LAYERS < k < index nc + count nc ->
  connectable wh wc (zget span0 sp0 i) (zget span0 sp0 k) = true ->
  (forall k', index nc <= k' <= index nc + MAX_LAYERS ->
     connectable wh wc (zget span0 sp0 i) (zget span0 sp0 k') = false) ->
  MAX_LAYERS < snd (link_dir wh wc xS zS cells (sp, m) (x, z, i, dir)).
Proof.
  intros Hyh Hx Hz nc Hk Hc Hlow. unfold link_dir.
  set (sp1 := zset sp i (rcSetCon (zget span0 sp i) dir RC_NOT_CONNECTED)).
  assert (H1 : same_yh sp0 sp1).
  { eapply same_yh_trans; [exact Hyh|apply same_yh_setcon]. }
  replace ((x + rcGetDirOffsetX dir <? 0) || (z + rcGetDirOffsetY dir <? 0)
           || (x + rcGetDirOffsetX dir >=? xS) || (z + rcGetDirOffsetY dir >=? zS)) with false.
  2:{ symmetry. rewrite !orb_false_iff. repeat split;
      first [apply Z.ltb_ge; lia | rewrite Z.geb_leb; apply Z.leb_gt; lia]. }
  fold nc.
  destruct H1 as [Hl1 Hy1]. destruct (Hy1 i) as [Hyi Hhi].
  rewrite <- (link_scan_same_yh wh wc sp0 sp1 (zget span0 sp0 i) (zget span0 sp1 i)
                (index nc) (seqZ (index nc) (count nc)) (conj Hl1 Hy1) Hyi Hhi m).
  destruct (link_scan_overflow wh wc sp0 (zget span0 sp0 i) (index nc)
              (seqZ (index nc) (count nc))) with (m := m) as [Hn Hmax].
  { intros k' Hk' Hle. apply Hlow. apply list_elem_of_In, elem_of_seqZ in Hk'. lia. }
  specialize (Hmax k). 
  destruct (link_scan wh wc sp0 (zget span0 sp0 i) (index nc) (seqZ (index nc) (count nc)) m)
    as [[l|] m1]; simpl in *; [discriminate|].
  assert (k - index nc <= m1); [|cbn [snd]; lia].
  apply Hmax; [|exact Hc]. apply In_seqZ. unfold MAX_LAYERS, RC_NOT_CONNECTED in Hk. lia.
Qed.

Lemma link_all_overflow wh wc xS zS cells sp0 m0 x z i dir k :
  In (x, z, i, dir) (all_steps xS zS cells) ->
  0 <= x + rcGetDirOffsetX dir < xS -> 0 <= z + rcGetDirOffsetY dir < zS ->
  let nc := zget cell0 cells (x + rcGetDirOffsetX dir + (z + rcGetDirOffsetY dir) * xS) in
  index nc + MAX_LAYERS < k < index nc + count nc ->
  connectable wh wc (zget span0 sp0 i) (zget span0 sp0 k) = true ->
  (forall k', index nc <= k' <= index nc + MAX_LAYERS ->
     connectable wh wc (zget span0 sp0 i) (zget span0 sp0 k') = false) ->
  MAX_LAYERS < snd (link_all wh wc xS zS cells (sp0, m0)).
Proof.
  intros Hin Hx Hz nc Hk Hc Hlow. rewrite link_all_flat.
  destruct (in_split _ _ Hin) as (l1 & l2 & ->).
  rewrite fold_left_app. cbn [fold_left].
  pose proof (link_steps_same_yh wh wc xS zS cells l1 (sp0, m0)) as Hyh. simpl in Hyh.
  destruct (fold_left (link_dir wh wc xS zS cells) l1 (sp0, m0)) as [sp m] eqn:E. simpl in Hyh.
  pose proof (link_dir_overflow wh wc xS zS cells sp0 sp m x z i dir k Hyh Hx Hz Hk Hc Hlow) as H.
  pose proof (link_steps_mono wh wc xS zS cells l2
                (link_dir wh wc xS zS cells (sp, m) (x, z, i, dir))) as Hm.
  lia.
Qed.

(** A direction that runs into the layer limit is left unconnected. *)
Lemma neighbor_link_overflow wh wc xS zS cells sp x z i dir :
  let nc := zget cell0 cells (x + rcGetDirOffsetX dir + (z + rcGetDirOffsetY dir) * xS) in
  (forall k', index nc <= k' <= index nc + MAX_LAYERS ->
     connectable wh wc (zget span0 sp i) (zget span0 sp k') = false) ->
  neighbor_link wh wc xS zS cells sp x z i dir = RC_NOT_CONNECTED.
Proof.
  intros nc Hlow. unfold neighbor_link. destruct (_ || _); [reflexivity|]. fold nc.
  destruct (link_scan_overflow wh wc sp (zget span0 sp i) (index nc)
              (seqZ (index nc) (count nc))) with (m := 0) as [Hn _].
  { intros k' Hk' Hle. apply Hlow. apply list_elem_of_In, elem_of_seqZ in Hk'. lia. }
  rewrite Hn. reflexivity.
Qed.

(** The build succeeds whenever its allocations do; the log grows by at
    most the layer error; a direction that runs into the layer limit is
    left unconnected and the error is logged. *)
Lemma rcBuildCompactHeightfield_layer_overflow log wh wc hf :
  exists chf log',
    rcBuildCompactHeightfield true true true log wh wc hf = (true, chf, log') /\
    (log' = log \/ exists m, MAX_LAYERS < m /\ log' = log ++ [too_many_layers m]) /\
    (Z.of_nat (length (Heightfield.spans hf)) = Heightfield.width hf * Heightfield.height hf ->
     Forall (fun chain => (length (walkable_spans chain) <= 255)%nat) (Heightfield.spans hf) ->
     rcGetHeightFieldSpanCount hf < 2 ^ 24 ->
     forall x z i dir,
       0 <= x < width chf -> 0 <= z < height chf -> 0 <= dir <= 3 ->
       in_cell (cells chf) (x + z * width chf) i ->
       layer_overflow chf x z i dir ->
       rcGetCon (zget span0 (spans chf) i) dir = RC_NOT_CONNECTED /\
       exists m, MAX_LAYERS < m /\ log' = log ++ [too_many_layers m]).
Proof.
  destruct (rcBuildCompactHeightfield true true true log wh wc hf) as [[ok chf] log'] eqn:Hb.
  assert (Hok : ok = true).
  { unfold rcBuildCompactHeightfield in Hb. simpl in Hb.
    destruct (link_all _ _ _ _ _ _) as [sp m]. inversion Hb. reflexivity. }
  subst ok. exists chf, log'. split; [reflexivity|].
  destruct (build_success _ _ _ _ _ _ _ _ _ Hb) as (Ew & Eh & Ewh & Ewc & Ec & _ & Es).
  assert (Hlog : log' = if snd (link_all wh wc (Heightfield.width hf) (Heightfield.height hf)
                                  (f_cells (filled_state hf)) (f_spans (filled_state hf), 0))
                           >? MAX_LAYERS
                        then log ++ [too_many_layers
                                       (snd (link_all wh wc (Heightfield.width hf)
                                               (Heightfield.height hf)
                                               (f_cells (filled_state hf))
                                               (f_spans (filled_state hf), 0)))]
                        else log).
  { unfold rcBuildCompactHeightfield in Hb. simpl in Hb. fold (filled_state hf) in Hb.
    destruct (link_all _ _ _ _ _ _) as [sp m]. inversion Hb. reflexivity. }
  split.
  { rewrite Hlog. destruct (Z.gtb_spec (snd (link_all wh wc (Heightfield.width hf)
      (Heightfield.height hf) (f_cells (filled_state hf)) (f_spans (filled_state hf), 0)))
      MAX_LAYERS) as [Hgt|Hle]; [right|left; reflexivity].
    eexists. split; [|reflexivity]. lia. }
  intros Hlen Hfit Htot x z i dir Hx Hz Hd Hi Hov.
  destruct (fill_pass_spec hf Hlen) as (Fs & _ & _ & Fc). fold (filled_state hf) in Fs, Fc.
  set (columns := Heightfield.spans hf) in *.
  set (xS := Heightfield.width hf) in *. set (zS := Heightfield.height hf) in *.
  set (cs := f_cells (filled_state hf)) in *.
  set (sp0 := map fst (emit_all columns)) in *.
  assert (Hfit' : Forall (fun chain => (length (emit chain) <= 255)%nat) columns).
  { eapply Forall_impl; [|exact Hfit]. intros chain Hc.
    rewrite emit_walkable, length_map. exact Hc. }
  assert (Htot' : Z.of_nat (length (emit_all columns)) < 2 ^ 24).
  { pose proof (rcGetHeightFieldSpanCount_spec hf Hlen) as Hcnt. fold columns in Hcnt. lia. }
  pose proof (filled_layout xS zS columns cs Hlen Fc Hfit' Htot') as Hlay.
  destruct Hov as ((Hnx & Hnz) & (k & Hk & Hck) & Hlow).
  rewrite Ew, Eh, Ewh, Ewc, Ec, Es in *. rewrite Fs in *.
  set (final := link_all wh wc xS zS cs (sp0, 0)) in *.
  assert (Hstep : In (x, z, i, dir) (all_steps xS zS cs)).
  { apply in_all_steps. unfold in_cell in Hi. tauto. }
  destruct (link_all_spec wh wc xS zS cs sp0 0 x z i dir Hlay Hstep) as [Hyh Hget].
  fold final in Hyh, Hget.
  assert (Hconn : forall a b, connectable wh wc (zget span0 (fst final) a) (zget span0 (fst final) b)
                              = connectable wh wc (zget span0 sp0 a) (zget span0 sp0 b)).
  { intros a b. destruct Hyh as [_ Hyh]. destruct (Hyh a), (Hyh b).
    apply connectable_yh; congruence. }
  split.
  - rewrite Hget. apply neighbor_link_overflow.
    intros k' Hk'. rewrite <- Hconn. apply Hlow. exact Hk'.
  - assert (Hm : MAX_LAYERS < snd final).
    { unfold final. apply (link_all_overflow wh wc xS zS cs sp0 0 x z i dir k Hstep Hnx Hnz).
      - exact Hk.
      - rewrite <- Hconn. exact Hck.
      - intros k' Hk'. rewrite <- Hconn. apply Hlow. exact Hk'. }
    exists (snd final). split; [exact Hm|].
    rewrite Hlog. replace (snd final >? MAX_LAYERS) with true; [reflexivity|].
    symmetry. apply Z.gtb_lt. exact Hm.
Qed.

(** On [tower_hf] the only span of column 0 runs into the layer limit
    towards column 1. *)
Lemma tower_overflow chf log' :
  rcBuildCompactHeightfield true true true [] 3 1 tower_hf = (true, chf, log') ->
  layer_overflow chf 0 0 0 2.
Proof.
  intros Hb. vm_compute in Hb. inversion Hb; subst. clear Hb.
  unfold layer_overflow. cbn [width height cells walkableHeight walkableClimb spans].
  change (rcGetDirOffsetX 2) with 1. change (rcGetDirOffsetY 2) with 0.
  split; [lia|]. split.
  - exists 64. split; [vm_compute; split; reflexivity|vm_compute; reflexivity].
  - intros k Hk.
    match goal with |- connectable ?a ?b ?s (zget span0 ?l k) = false =>
      assert (Hall : forallb (fun k => negb (connectable a b s (zget span0 l k))) (seqZ 1 63) = true)
        by (vm_compute; reflexivity) end.
    rewrite forallb_forall in Hall.
    apply negb_true_iff. apply Hall. apply In_seqZ.
    revert Hk. match goal with |- ?a <= k <= _ -> _ => change a with 1 end.
    unfold MAX_LAYERS, RC_NOT_CONNECTED. lia.
Qed.

(** The packed neighbour field holds four independent 6-bit slots: after
    [rcSetCon span d v], [rcGetCon] reads [v mod 64] in direction [d] and
    what was there before in the other directions, and the rest of the span
    is unchanged.  A layer index of 64 or more does not fit: it reads back
    reduced modulo 64. *)
Theorem rcSetCon_rcGetCon_round_trip span d d' v :
  0 <= d <= 3 -> 0 <= d' <= 3 ->
  rcGetCon (rcSetCon span d v) d' = (if d =? d' then v mod 64 else rcGetCon span d')
  /\ 0 <= rcGetCon (rcSetCon span d v) d' <= 63
  /\ y (rcSetCon span d v) = y span /\ h (rcSetCon span d v) = h span
  /\ reg (rcSetCon span d v) = reg span.
Proof.
  intros Hd Hd'.
  assert (Hm : forall a, Z.land a 63 = a mod 64).
  { intros a. change 63 with (Z.ones 6). rewrite Z.land_ones by lia. reflexivity. }
  split; [|split; [|repeat split]].
  - destruct (Z.eqb_spec d d') as [<-|Hne].
    + rewrite rcGetCon_rcSetCon_same by exact Hd. apply Hm.
    + apply rcGetCon_rcSetCon_other; assumption.
  - unfold rcGetCon. rewrite Hm.
    pose proof (Z.mod_pos_bound (Z.shiftr (con (rcSetCon span d v)) (d' * 6)) 64 ltac:(lia)).
    lia.
Qed.

Lemma rcSetCon_rcGetCon_round_trip_witness :
  rcGetCon (rcSetCon span0 2 64) 2 = (if 2 =? 2 then 64 mod 64 else rcGetCon span0 2)
  /\ 0 <= rcGetCon (rcSetCon span0 2 64) 2 <= 63
  /\ y (rcSetCon span0 2 64) = y span0 /\ h (rcSetCon span0 2 64) = h span0
  /\ reg (rcSetCon span0 2 64) = reg span0.
Proof. apply (rcSetCon_rcGetCon_round_trip span0 2 2 64); lia. Defined.

(** The four directions and their offsets match: [rcGetDirForOffset] gives
    back the direction of the offsets of [rcGetDirOffsetX] and
    [rcGetDirOffsetY] (which read the direction modulo 4), the offsets are
    unit steps along one axis, and the opposite direction [(dir + 2) & 3]
    has the opposite offsets. *)
Theorem rcGetDirForOffset_round_trip dir :
  rcGetDirForOffset (rcGetDirOffsetX dir) (rcGetDirOffsetY dir) = Z.land dir 3
  /\ Z.abs (rcGetDirOffsetX dir) + Z.abs (rcGetDirOffsetY dir) = 1
  /\ rcGetDirOffsetX (Z.land (dir + 2) 3) = - rcGetDirOffsetX dir
  /\ rcGetDirOffsetY (Z.land (dir + 2) 3) = - rcGetDirOffsetY dir.
Proof.
  unfold rcGetDirOffsetX, rcGetDirOffsetY.
  assert (H3 : Z.land (dir + 2) 3 = (Z.land dir 3 + 2) mod 4).
  { change 3 with (Z.ones 2). rewrite !Z.land_ones by lia. change (2 ^ 2) with 4.
    rewrite Zplus_mod_idemp_l. reflexivity. }
  assert (Hidem : Z.land (Z.land (dir + 2) 3) 3 = Z.land (dir + 2) 3).
  { rewrite <- Z.land_assoc. reflexivity. }
  rewrite Hidem, H3.
  assert (Hr : 0 <= Z.land dir 3 < 4).
  { change 3 with (Z.ones 2). rewrite Z.land_ones by lia. apply Z.mod_pos_bound. lia. }
  assert (Hc : Z.land dir 3 = 0 \/ Z.land dir 3 = 1 \/ Z.land dir 3 = 2 \/ Z.land dir 3 = 3)
    by lia.
  destruct Hc as [-> | [-> | [-> | ->]]]; vm_compute; auto.
Qed.

(** The cells of a compact heightfield partition its spans.  When
    [rcBuildCompactHeightfield] succeeds on a heightfield with one chain per
    cell, at most 255 walkable spans in a column and fewer than 2^24 in
    all, the run [index, index + count) of every cell lies inside the span
    array, the runs of two different cells do not overlap, [count] is the
    number of walkable spans of the column, and [spanCount] is the length
    of the span and area arrays. *)
Theorem compact_cells_partition_spans a1 a2 a3 log wh wc hf chf log' :
  rcBuildCompactHeightfield a1 a2 a3 log wh wc hf = (true, chf, log') ->
  Z.of_nat (length (Heightfield.spans hf)) = Heightfield.width hf * Heightfield.height hf ->
  Forall (fun chain => (length (walkable_spans chain) <= 255)%nat) (Heightfield.spans hf) ->
  rcGetHeightFieldSpanCount hf < 2 ^ 24 ->
  layout (width chf) (height chf) (cells chf) (spans chf)
  /\ spanCount chf = Z.of_nat (length (spans chf))
  /\ length (areas chf) = length (spans chf)
  /\ forall c chain, Heightfield.spans hf !! c = Some chain ->
       count (zget cell0 (cells chf) (Z.of_nat c)) = Z.of_nat (length (walkable_spans chain)).
Proof.
  intros Hb Hlen Hfit Htot.
  destruct (build_success _ _ _ _ _ _ _ _ _ Hb) as (Ew & Eh & _ & _ & Ec & Ea & Es).
  destruct (fill_pass_spec hf Hlen) as (Fs & Fa & _ & Fc). fold (filled_state hf) in Fs, Fa, Fc.
  pose proof (rcGetHeightFieldSpanCount_spec hf Hlen) as Hcnt.
  assert (Hfit' : Forall (fun chain => (length (emit chain) <= 255)%nat) (Heightfield.spans hf)).
  { eapply Forall_impl; [|exact Hfit]. intros chain Hc.
    rewrite emit_walkable, length_map. exact Hc. }
  assert (Htot' : Z.of_nat (length (emit_all (Heightfield.spans hf))) < 2 ^ 24) by lia.
  pose proof (filled_layout (Heightfield.width hf) (Heightfield.height hf)
                (Heightfield.spans hf) (f_cells (filled_state hf)) Hlen Fc Hfit' Htot') as [L1 L2].
  assert (Hsl : length (spans chf) = length (emit_all (Heightfield.spans hf))).
  { rewrite Es.
    destruct (link_all_same_yh wh wc (Heightfield.width hf) (Heightfield.height hf)
                (f_cells (filled_state hf)) (f_spans (filled_state hf), 0)) as [Hl _].
    rewrite <- Hl. simpl. rewrite Fs, length_map. reflexivity. }
  assert (Hsc : spanCount chf = rcGetHeightFieldSpanCount hf).
  { unfold rcBuildCompactHeightfield in Hb.
    destruct a1; [|discriminate]. destruct a2; [|discriminate]. destruct a3; [|discriminate].
    simpl in Hb. destruct (link_all _ _ _ _ _ _) as [sp m]. inversion Hb; subst. reflexivity. }
  split; [|split; [|split]].
  - rewrite Ew, Eh, Ec. split.
    + intros c Hc. specialize (L1 c Hc). rewrite length_map in L1. rewrite Hsl. exact L1.
    + exact L2.
  - rewrite Hsc, Hcnt, Hsl. reflexivity.
  - rewrite Ea, Fa, Hsl, length_map. reflexivity.
  - intros c chain Hc. rewrite Ec.
    destruct (cell_facts (Heightfield.spans hf) (f_cells (filled_state hf)) Fc Hfit' Htot'
                c chain Hc) as (H1 & _).
    rewrite H1, emit_walkable, length_map. reflexivity.
Qed.

Lemma compact_cells_partition_spans_witness :
  layout (width Region.step_chf) (height Region.step_chf) (cells Region.step_chf) (spans Region.step_chf)
  /\ spanCount Region.step_chf = Z.of_nat (length (spans Region.step_chf))
  /\ length (areas Region.step_chf) = length (spans Region.step_chf)
  /\ forall c chain, Heightfield.spans step_hf !! c = Some chain ->
       count (zget cell0 (cells Region.step_chf) (Z.of_nat c))
       = Z.of_nat (length (walkable_spans chain)).
Proof.
  apply (compact_cells_partition_spans true true true [] 3 10 step_hf Region.step_chf []).
  - vm_compute. reflexivity.
  - reflexivity.
  - repeat constructor; simpl; lia.
  - vm_compute. reflexivity.
Defined.

End CompactFacts.

(** ** Erosion *)

Module AreaFacts.
Import Compact CompactFacts Area.

Lemma for_spans_inv {S} (I : S -> Prop) chf zs xs (body : Z -> Z -> Z -> S -> S) :
  (forall x z i st, I st -> I (body x z i st)) -> forall st, I st -> I (for_spans chf zs xs body st).
Proof.
  intros Hbody st Hst. unfold for_spans.
  apply (fold_left_inv _ I); auto. intros st1 z H1.
  apply (fold_left_inv _ I); auto. intros st2 x H2.
  apply (fold_left_inv _ I); auto.
Qed.

Lemma ubits8_range v : 0 <= ubits 8 v <= 255.
Proof. unfold ubits. pose proof (Z.mod_pos_bound v (2 ^ 8) ltac:(lia)). change (2 ^ 8) with 256 in *. lia. Qed.

Lemma relax_bytes dist i from cost : byte_values dist -> byte_values (relax dist i from cost).
Proof.
  intros H. unfold relax. destruct (_ <? _); [|exact H].
  apply zset_Forall; [apply ubits8_range|exact H].
Qed.

Lemma relax_from_bytes chf x z i dA dB dist :
  byte_values dist -> byte_values (relax_from chf x z i dA dB dist).
Proof.
  intros H. unfold relax_from. destruct (_ =? _); [exact H|].
  destruct (_ =? _); repeat apply relax_bytes; exact H.
Qed.

Lemma distanceToBoundary_bytes chf : byte_values (distanceToBoundary chf).
Proof.
  unfold distanceToBoundary.
  apply for_spans_inv; [intros; unfold sweep_backward; repeat apply relax_from_bytes; assumption|].
  apply for_spans_inv; [intros; unfold sweep_forward; repeat apply relax_from_bytes; assumption|].
  apply for_spans_inv.
  - intros x z i st Hst. unfold mark_boundary.
    destruct (_ =? _); [apply zset_Forall; [lia|exact Hst]|].
    destruct (_ =? _); [exact Hst|apply zset_Forall; [lia|exact Hst]].
  - apply Forall_replicate. lia.
Qed.

Lemma erode_areas_get m dist n : forall areas i,
  zget 0 (erode_areas m dist areas n) i
  = if (0 <=? i) && (i <? n) && (zget 0 dist i <? m) then RC_NULL_AREA else zget 0 areas i.
Proof.
  unfold erode_areas. destruct (Z.le_gt_cases n 0) as [Hn|Hn].
  - intros areas i. rewrite seqZ_nil by lia. simpl.
    destruct (0 <=? i) eqn:E1, (i <? n) eqn:E2; simpl; try reflexivity. lia.
  - rewrite <- (Z2Nat.id n) by lia. generalize (Z.to_nat n). clear Hn n. intros n.
    induction n as [|n IH]; intros areas i.
    + rewrite seqZ_nil by (simpl; lia). simpl.
      change (Z.of_nat 0) with 0.
      destruct (Z.leb_spec 0 i), (Z.ltb_spec i 0); simpl; try reflexivity; lia.
    + rewrite seqZ_S, fold_left_app. cbn [fold_left]. rewrite Z.add_0_l.
      set (prev := fold_left _ (seqZ 0 (Z.of_nat n)) areas) in *.
      assert (Hprev : zget 0 prev i
                      = if (0 <=? i) && (i <? Z.of_nat n) && (zget 0 dist i <? m)
                        then RC_NULL_AREA else zget 0 areas i) by apply IH.
      destruct (Z.eq_dec i (Z.of_nat n)) as [->|Hne].
      * assert (E1 : (0 <=? Z.of_nat n) = true) by (apply Z.leb_le; lia).
        assert (E2 : (Z.of_nat n <? Z.of_nat (S n)) = true) by (apply Z.ltb_lt; lia).
        assert (E3 : (Z.of_nat n <? Z.of_nat n) = false) by (apply Z.ltb_ge; lia).
        rewrite E1, E2. rewrite E1, E3 in Hprev. simpl in *.
        destruct (zget 0 dist (Z.of_nat n) <? m); [|exact Hprev].
        destruct (decide (0 <= Z.of_nat n < Z.of_nat (length prev))) as [Hin|Hout].
        -- apply zget_zset_eq. exact Hin.
        -- rewrite zset_outside by exact Hout. unfold zget, RC_NULL_AREA.
           destruct (Z.of_nat n <? 0); [reflexivity|]. apply nth_overflow. lia.
      * assert (E : (i <? Z.of_nat (S n)) = (i <? Z.of_nat n)).
        { destruct (Z.ltb_spec i (Z.of_nat (S n))), (Z.ltb_spec i (Z.of_nat n)); try reflexivity; lia. }
        rewrite E.
        destruct (zget 0 dist (Z.of_nat n) <? m); [|exact Hprev].
        rewrite zget_zset_ne by lia. exact Hprev.
Qed.

Lemma erode_areas_length m dist n areas : length (erode_areas m dist areas n) = length areas.
Proof.
  unfold erode_areas.
  apply (fold_left_inv _ (fun a => length a = length areas)); auto.
  intros a b Ha. destruct (_ <? _); [rewrite zset_length|]; exact Ha.
Qed.

Lemma zget_ext (a b : list Z) : length a = length b -> (forall i, zget 0 a i = zget 0 b i) -> a = b.
Proof.
  intros Hl Hg. apply list_eq. intros i.
  specialize (Hg (Z.of_nat i)). rewrite !zget_nat in Hg.
  destruct (a !! i) as [va|] eqn:Ea, (b !! i) as [vb|] eqn:Eb.
  - rewrite (nth_lookup_Some _ _ _ _ Ea), (nth_lookup_Some _ _ _ _ Eb) in Hg. congruence.
  - apply lookup_lt_Some in Ea. apply lookup_ge_None in Eb. lia.
  - apply lookup_ge_None in Ea. apply lookup_lt_Some in Eb. lia.
  - reflexivity.
Qed.

(** For a radius whose doubled value fits the 8-bit threshold, erosion nulls
    exactly the spans whose distance is below [2 * erosionRadius]. *)
Theorem rcErodeWalkableArea_small_radius log erosionRadius chf :
  0 <= erosionRadius <= 127 ->
  exists chf',
    rcErodeWalkableArea true log erosionRadius chf = (true, chf', log) /\
    length (areas chf') = length (areas chf) /\
    forall i, 0 <= i < spanCount chf ->
      zget 0 (areas chf') i
      = if zget 0 (distanceToBoundary chf) i <? 2 * erosionRadius
        then RC_NULL_AREA else zget 0 (areas chf) i.
Proof.
  intros Hr. eexists. split; [reflexivity|]. simpl. split; [apply erode_areas_length|].
  intros i Hi. rewrite erode_areas_get.
  assert (E1 : (0 <=? i) = true) by lia. assert (E2 : (i <? spanCount chf) = true) by lia.
  rewrite E1, E2. simpl. rewrite RasterizationFacts.ubits_small by (change (2 ^ 8) with 256; lia).
  replace (erosionRadius * 2) with (2 * erosionRadius) by lia. reflexivity.
Qed.

Lemma erode_areas_zero chf a n : erode_areas 0 (distanceToBoundary chf) a n = a.
Proof.
  apply zget_ext; [apply erode_areas_length|]. intros i. rewrite erode_areas_get.
  destruct ((0 <=? i) && (i <? n)); simpl; [|reflexivity].
  pose proof (zget_Forall (fun d => 0 <= d <= 255) 0 _ i ltac:(simpl; lia)
                (distanceToBoundary_bytes chf)) as Hd. simpl in Hd.
  destruct (Z.ltb_spec (zget 0 (distanceToBoundary chf) i) 0); [lia|reflexivity].
Qed.

(** Erosion with radius 0 changes no area. *)
Theorem rcErodeWalkableArea_zero_radius log chf :
  rcErodeWalkableArea true log 0 chf = (true, chf, log).
Proof.
  unfold rcErodeWalkableArea. change (ubits 8 (0 * 2)) with 0. cbn [negb].
  rewrite erode_areas_zero. destruct chf; reflexivity.
Qed.

(** C5 at the failing input.  With [erosionRadius = 128] the threshold
    [(unsigned char)(128 * 2)] is 0: the only span, a boundary span at
    distance 0 < 256, keeps its area. *)
Theorem rcErodeWalkableArea_radius_128 :
  areas single_chf = [63]
  /\ distanceToBoundary single_chf = [0]
  /\ 0 < 2 * 128
  /\ ubits 8 (128 * 2) = 0
  /\ rcErodeWalkableArea true [] 128 single_chf = (true, single_chf, []).
Proof. vm_compute. repeat split; reflexivity. Qed.

Lemma rcErodeWalkableArea_small_radius_witness :
  0 <= 1 <= 127 /\
  exists chf',
    rcErodeWalkableArea true [] 1 single_chf = (true, chf', []) /\
    length (areas chf') = length (areas single_chf) /\
    forall i, 0 <= i < spanCount single_chf ->
      zget 0 (areas chf') i
      = if zget 0 (distanceToBoundary single_chf) i <? 2 * 1
        then RC_NULL_AREA else zget 0 (areas single_chf) i.
Proof.
  split; [lia|]. apply (rcErodeWalkableArea_small_radius [] 1 single_chf). lia.
Defined.

(** ** Loops over all spans *)

Lemma for_spans_establishes {S} (I P : S -> Prop) chf zs xs
    (body : Z -> Z -> Z -> S -> S) x0 z0 i0 :
  (forall x z i st, I st -> I (body x z i st)) ->
  (forall x z i st, I st -> P st -> P (body x z i st)) ->
  (forall st, I st -> P (body x0 z0 i0 st)) ->
  In z0 zs -> In x0 xs ->
  (let cell := zget cell0 (cells chf) (x0 + z0 * width chf) in
   index cell <= i0 < index cell + count cell) ->
  forall st, I st -> P (for_spans chf zs xs body st).
Proof.
  intros HI HP H0 Hz Hx Hi st Hst. unfold for_spans.
  assert (Icell : forall x z l st, I st -> I (fold_left (fun st i => body x z i st) l st)).
  { intros x z l st1 H1. apply (fold_left_inv _ I); auto. }
  assert (Pcell : forall x z l st, I st -> P st -> P (fold_left (fun st i => body x z i st) l st)).
  { intros x z l st1 H1 H2. apply (fold_left_preserves _ I P); auto. }
  assert (Irow : forall z l st, I st ->
            I (fold_left (fun st x => fold_left (fun st i => body x z i st)
                 (seqZ (index (zget cell0 (cells chf) (x + z * width chf)))
                       (count (zget cell0 (cells chf) (x + z * width chf)))) st) l st)).
  { intros z l st1 H1. apply (fold_left_inv _ I); auto. }
  assert (Prow : forall z l st, I st -> P st ->
            P (fold_left (fun st x => fold_left (fun st i => body x z i st)
                 (seqZ (index (zget cell0 (cells chf) (x + z * width chf)))
                       (count (zget cell0 (cells chf) (x + z * width chf)))) st) l st)).
  { intros z l st1 H1 H2. apply (fold_left_preserves _ I P); auto. }
  apply (fold_left_establishes _ I P (fun a b => Irow b xs a) (fun a b => Prow b xs a) z0);
    auto.
  intros st1 H1.
  apply (fold_left_establishes _ I P
           (fun a b => Icell b z0 _ a) (fun a b => Pcell b z0 _ a) x0); auto.
  intros st2 H2.
  apply (fold_left_establishes _ I P
           (fun a b => HI x0 z0 b a) (fun a b => HP x0 z0 b a) i0); auto.
  apply In_seqZ. cbv zeta in Hi. lia.
Qed.

(** ** [rcErodeWalkableArea]: what erosion does to the areas *)

Lemma relax_keeps_zero dist j from cost i :
  byte_values dist -> zget 0 dist i = 0 -> zget 0 (relax dist j from cost) i = 0.
Proof.
  intros Hb Hz. unfold relax. destruct (_ <? _) eqn:E; [|exact Hz].
  destruct (Z.eq_dec j i) as [->|Hne]; [|rewrite zget_zset_ne by exact Hne; exact Hz].
  rewrite Hz in E. pose proof (ubits8_range (rcMin (zget 0 dist from + cost) 255)). lia.
Qed.

Lemma relax_from_keeps_zero chf x z j dA dB dist i :
  byte_values dist -> zget 0 dist i = 0 -> zget 0 (relax_from chf x z j dA dB dist) i = 0.
Proof.
  intros Hb Hz. unfold relax_from. destruct (_ =? _); [exact Hz|].
  destruct (_ =? _).
  - apply relax_keeps_zero; assumption.
  - apply relax_keeps_zero; [apply relax_bytes; exact Hb|].
    apply relax_keeps_zero; assumption.
Qed.

Lemma mark_boundary_bytes chf x z i dist :
  byte_values dist -> byte_values (mark_boundary chf x z i dist).
Proof.
  intros H. unfold mark_boundary.
  destruct (_ =? _); [apply zset_Forall; [lia|exact H]|].
  destruct (_ =? _); [exact H|apply zset_Forall; [lia|exact H]].
Qed.

Lemma mark_boundary_length chf x z i dist :
  length (mark_boundary chf x z i dist) = length dist.
Proof.
  unfold mark_boundary. destruct (_ =? _); [apply zset_length|].
  destruct (_ =? _); [reflexivity|apply zset_length].
Qed.

Lemma mark_boundary_keeps_zero chf x z j dist i :
  zget 0 dist i = 0 -> zget 0 (mark_boundary chf x z j dist) i = 0.
Proof.
  intros Hz.
  assert (Hset : zget 0 (zset dist j 0) i = 0).
  { destruct (Z.eq_dec j i) as [->|Hne]; [|rewrite zget_zset_ne by exact Hne; exact Hz].
    destruct (decide (0 <= i < Z.of_nat (length dist))) as [Hin|Hout].
    - apply zget_zset_eq. exact Hin.
    - rewrite zset_outside by exact Hout. exact Hz. }
  unfold mark_boundary. destruct (_ =? _); [exact Hset|].
  destruct (_ =? _); [exact Hz|exact Hset].
Qed.

(** A span without four walkable neighbours, or without an area, is a seed
    of the distance field and stays at distance 0 through both sweeps. *)
Lemma distanceToBoundary_seed chf x z i :
  span_of_cell chf x z i -> 0 <= i < spanCount chf ->
  zget 0 (areas chf) i = RC_NULL_AREA
  \/ walkable_neighbors chf x z (zget span0 (spans chf) i) [0; 1; 2; 3] 0 <> 4 ->
  zget 0 (distanceToBoundary chf) i = 0.
Proof.
  intros (Hx & Hz & Hi) Hn Hseed. unfold distanceToBoundary.
  set (I := fun st : list Z => byte_values st /\ zget 0 st i = 0).
  assert (Hsweep : forall zs xs body st,
            (forall x z j st, I st -> I (body x z j st)) -> I st ->
            I (for_spans chf zs xs body st)).
  { intros zs xs body st Hb Hst. apply for_spans_inv; assumption. }
  apply Hsweep.
  { intros x' z' j st [Hb Hz0]. unfold sweep_backward. split.
    - repeat apply relax_from_bytes. exact Hb.
    - apply relax_from_keeps_zero; [apply relax_from_bytes; exact Hb|].
      apply relax_from_keeps_zero; assumption. }
  apply Hsweep.
  { intros x' z' j st [Hb Hz0]. unfold sweep_forward. split.
    - repeat apply relax_from_bytes. exact Hb.
    - apply relax_from_keeps_zero; [apply relax_from_bytes; exact Hb|].
      apply relax_from_keeps_zero; assumption. }
  set (J := fun st : list Z => byte_values st /\ length st = Z.to_nat (spanCount chf)).
  assert (HJ : J (for_spans chf (seqZ 0 (height chf)) (seqZ 0 (width chf)) (mark_boundary chf)
                    (replicate (Z.to_nat (spanCount chf)) 255))).
  { apply for_spans_inv.
    - intros x' z' j st [Hb Hl]. split; [apply mark_boundary_bytes; exact Hb|].
      rewrite mark_boundary_length. exact Hl.
    - split; [apply Forall_replicate; lia|apply length_replicate]. }
  split; [exact (proj1 HJ)|].
  apply (for_spans_establishes J (fun st => zget 0 st i = 0) chf _ _ (mark_boundary chf) x z i).
  - intros x' z' j st [Hb Hl]. split; [apply mark_boundary_bytes; exact Hb|].
    rewrite mark_boundary_length. exact Hl.
  - intros x' z' j st _ H0. apply mark_boundary_keeps_zero. exact H0.
  - intros st [Hb Hl].
    assert (Hset : zget 0 (zset st i 0) i = 0) by (apply zget_zset_eq; lia).
    unfold mark_boundary. destruct (zget 0 (areas chf) i =? RC_NULL_AREA) eqn:Ea; [exact Hset|].
    destruct (walkable_neighbors chf x z (zget span0 (spans chf) i) [0; 1; 2; 3] 0 =? 4) eqn:En;
      [|exact Hset].
    exfalso. destruct Hseed as [H|H]; [|apply H]; lia.
  - apply In_seqZ. lia.
  - apply In_seqZ. lia.
  - exact Hi.
  - split; [apply Forall_replicate; lia|apply length_replicate].
Qed.

(** [rcErodeWalkableArea] only clears areas, whatever the radius: it
    changes nothing but the area array, keeps its length, and leaves every
    area as it was or sets it to [RC_NULL_AREA]; when the allocation of the
    distance array fails it changes nothing and logs one error. *)
Theorem rcErodeWalkableArea_only_clears alloc_ok log erosionRadius chf :
  let '(ok, chf', log') := rcErodeWalkableArea alloc_ok log erosionRadius chf in
  ok = alloc_ok
  /\ chf' = set_areas chf (areas chf')
  /\ length (areas chf') = length (areas chf)
  /\ (forall i, zget 0 (areas chf') i = zget 0 (areas chf) i
                \/ zget 0 (areas chf') i = RC_NULL_AREA)
  /\ (alloc_ok = true -> log' = log)
  /\ (alloc_ok = false -> chf' = chf /\ exists e, log' = log ++ [e] /\ fst (fst e) = RC_LOG_ERROR).
Proof.
  unfold rcErodeWalkableArea. destruct alloc_ok; cbn [negb].
  - split; [reflexivity|]. split; [reflexivity|]. cbn [areas set_areas].
    split; [apply erode_areas_length|]. split; [|split; [reflexivity|discriminate]].
    intros i. rewrite erode_areas_get. destruct (_ && _); auto.
  - split; [reflexivity|]. split; [destruct chf; reflexivity|]. split; [reflexivity|].
    split; [auto|]. split; [discriminate|]. intros _. split; [reflexivity|].
    eexists. split; reflexivity.
Qed.

(** Erosion by a radius of 1 to 127 voxels clears every span on the rim of
    the walkable surface: a span of a grid cell that lacks a connected,
    walkable neighbour in one of the four directions has the null area
    afterwards. *)
Theorem rcErodeWalkableArea_clears_rim log erosionRadius chf x z i :
  1 <= erosionRadius <= 127 ->
  span_of_cell chf x z i -> 0 <= i < spanCount chf ->
  walkable_neighbors chf x z (zget span0 (spans chf) i) [0; 1; 2; 3] 0 <> 4 ->
  zget 0 (areas (snd (fst (rcErodeWalkableArea true log erosionRadius chf)))) i = RC_NULL_AREA.
Proof.
  intros Hr Hc Hi Hn. unfold rcErodeWalkableArea. cbn [negb fst snd areas set_areas].
  rewrite erode_areas_get.
  rewrite (distanceToBoundary_seed chf x z i Hc Hi (or_intror Hn)).
  rewrite RasterizationFacts.ubits_small by (change (2 ^ 8) with 256; lia).
  assert (E1 : (0 <=? i) = true) by lia. assert (E2 : (i <? spanCount chf) = true) by lia.
  assert (E3 : (0 <? erosionRadius * 2) = true) by lia.
  rewrite E1, E2, E3. reflexivity.
Qed.

(** ** [insertSort] *)

Lemma zget_app_at {A} (d : A) (a : list A) c post :
  zget d (a ++ c :: post) (Z.of_nat (length a)) = c.
Proof.
  unfold zget. destruct (Z.of_nat (length a) <? 0) eqn:E; [apply Z.ltb_lt in E; lia|].
  rewrite Nat2Z.id. rewrite app_nth2 by lia. rewrite Nat.sub_diag. reflexivity.
Qed.

Lemma zset_app_at {A} (a : list A) c post v :
  zset (a ++ c :: post) (Z.of_nat (length a)) v = a ++ v :: post.
Proof.
  unfold zset. destruct (Z.of_nat (length a) <? 0) eqn:E; [apply Z.ltb_lt in E; lia|].
  rewrite Nat2Z.id. rewrite insert_app_r_alt by lia. rewrite Nat.sub_diag. reflexivity.
Qed.

(** The shift loop on [a ++ b ++ c :: post], entered at the last element of
    [b]: every element of [b] is above [value] and moves up by one place;
    the loop stops at the end of [a]. *)
Lemma insertSort_shift_spec value b : forall a c post fuel,
  Forall (fun y => y > value) b ->
  (forall a' x, a = a' ++ [x] -> x <= value) ->
  (length a + length b <= fuel)%nat ->
  insertSort_shift fuel (a ++ b ++ c :: post) value (Z.of_nat (length a + length b) - 1)
  = (a ++ match b with [] => c :: post | b0 :: _ => b0 :: b ++ post end,
     Z.of_nat (length a) - 1).
Proof.
  induction b as [|y b' IH] using rev_ind; intros a c post fuel Hb Ha Hfuel.
  - simpl. rewrite Nat.add_0_r.
    destruct fuel as [|fuel]; [simpl in Hfuel; f_equal; lia|].
    simpl. destruct a as [|x a0] using rev_ind.
    + reflexivity.
    + clear IHa0. rewrite length_app. simpl.
      replace (Z.of_nat (length a0 + 1) - 1) with (Z.of_nat (length a0)) by lia.
      rewrite <- app_assoc. simpl. rewrite zget_app_at.
      pose proof (Ha a0 x eq_refl).
      assert (E1 : (Z.of_nat (length a0) >=? 0) = true)
        by (rewrite Z.geb_leb; apply Z.leb_le; lia).
      assert (E2 : (x >? value) = false) by (rewrite Z.gtb_ltb; apply Z.ltb_ge; lia).
      rewrite E1, E2. reflexivity.
  - apply Forall_app in Hb. destruct Hb as [Hb' Hy]. inversion Hy as [|? ? Hyv _]; subst.
    rewrite length_app in *. simpl in *.
    destruct fuel as [|fuel]; [lia|]. simpl.
    assert (Hdata : a ++ (b' ++ [y]) ++ c :: post = (a ++ b') ++ y :: c :: post).
    { rewrite <- !app_assoc. reflexivity. }
    rewrite Hdata.
    replace (Z.of_nat (length a + (length b' + 1)) - 1) with (Z.of_nat (length (a ++ b')))
      by (rewrite length_app; lia).
    rewrite zget_app_at.
    assert (E1 : (Z.of_nat (length (a ++ b')) >=? 0) = true)
      by (rewrite Z.geb_leb; apply Z.leb_le; lia).
    assert (E2 : (y >? value) = true) by (rewrite Z.gtb_ltb; apply Z.ltb_lt; lia).
    rewrite E1, E2. simpl.
    replace ((a ++ b') ++ y :: c :: post) with ((a ++ b' ++ [y]) ++ c :: post)
      by (rewrite <- !app_assoc; reflexivity).
    replace (Z.of_nat (length (a ++ b')) + 1) with (Z.of_nat (length (a ++ b' ++ [y])))
      by (rewrite !length_app; simpl; lia).
    rewrite zset_app_at.
    replace ((a ++ b' ++ [y]) ++ y :: post) with (a ++ b' ++ y :: y :: post)
      by (rewrite <- !app_assoc; reflexivity).
    replace (Z.of_nat (length (a ++ b')) - 1) with (Z.of_nat (length a + length b') - 1)
      by (rewrite length_app; lia).
    rewrite (IH a y (y :: post) fuel Hb' Ha) by lia.
    f_equal. f_equal. destruct b' as [|b0 b'']; simpl; [reflexivity|].
    rewrite <- !app_assoc. reflexivity.
Qed.

Lemma insertSort_step_spec a b value post :
  Forall (fun y => y > value) b ->
  (forall a' x, a = a' ++ [x] -> x <= value) ->
  insertSort_step (a ++ b ++ value :: post) (Z.of_nat (length a + length b))
  = a ++ value :: b ++ post.
Proof.
  intros Hb Ha. unfold insertSort_step.
  assert (Hv : zget 0 (a ++ b ++ value :: post) (Z.of_nat (length a + length b)) = value).
  { rewrite app_assoc, <- length_app. apply zget_app_at. }
  rewrite Hv.
  replace (insertSort_shift _ _ _ _)
    with (insertSort_shift (length a + length b) (a ++ b ++ value :: post) value
            (Z.of_nat (length a + length b) - 1)) by (rewrite Nat2Z.id; reflexivity).
  rewrite (insertSort_shift_spec value b a value post) by (auto; lia).
  replace (Z.of_nat (length a) - 1 + 1) with (Z.of_nat (length a)) by lia.
  destruct b as [|b0 b']; apply zset_app_at.
Qed.

Lemma sorted_split value pre :
  StronglySorted Z.le pre ->
  exists a b, pre = a ++ b /\ Forall (fun x => x <= value) a /\ Forall (fun y => y > value) b.
Proof.
  induction 1 as [|x r Hr IH Hx].
  - exists [], []. auto.
  - destruct (Z_le_gt_dec x value) as [Hle|Hgt].
    + destruct IH as (a & b & -> & Ha & Hb). exists (x :: a), b. auto.
    + exists [], (x :: r). split; [reflexivity|]. split; [constructor|].
      constructor; [exact Hgt|]. eapply Forall_impl; [|exact Hx]. simpl. intros; lia.
Qed.

Lemma sorted_insert value a b :
  StronglySorted Z.le (a ++ b) ->
  Forall (fun x => x <= value) a -> Forall (fun y => y > value) b ->
  StronglySorted Z.le (a ++ value :: b).
Proof.
  induction a as [|x a IH]; simpl; intros Hs Ha Hb.
  - constructor; [exact Hs|]. eapply Forall_impl; [|exact Hb]. simpl. intros; lia.
  - inversion Hs as [|? ? Hs' Hx]; subst. inversion Ha as [|? ? Hxv Ha']; subst.
    constructor; [apply IH; assumption|].
    apply Forall_app in Hx. destruct Hx as [Hxa Hxb].
    apply Forall_app. split; [exact Hxa|]. constructor; [exact Hxv|exact Hxb].
Qed.

(** The state of the outer loop before the step for [valueIndex = k]. *)
Lemma insertSort_loop data0 m : forall k data,
  (exists pre, data = pre ++ drop k data0 /\ length pre = k
               /\ StronglySorted Z.le pre /\ Permutation pre (take k data0)) ->
  (k + m <= length data0)%nat ->
  exists pre, fold_left insertSort_step (seqZ (Z.of_nat k) (Z.of_nat m)) data
              = pre ++ drop (k + m) data0
    /\ length pre = (k + m)%nat
    /\ StronglySorted Z.le pre /\ Permutation pre (take (k + m) data0).
Proof.
  induction m as [|m IH]; intros k data (pre & -> & Hlen & Hs & Hp) Hk.
  - rewrite Nat.add_0_r. exists pre. simpl. auto.
  - rewrite Nat2Z.inj_succ, seqZ_cons by lia.
    replace (Z.pred (Z.succ (Z.of_nat m))) with (Z.of_nat m) by lia.
    replace (Z.succ (Z.of_nat k)) with (Z.of_nat (S k)) by lia.
    cbn [fold_left]. replace (k + S m)%nat with (S k + m)%nat by lia.
    apply IH; [|lia].
    destruct (drop k data0) as [|value post] eqn:Ed.
    { apply (f_equal length) in Ed. rewrite length_drop in Ed. simpl in Ed. lia. }
    assert (Hpost : drop (S k) data0 = post).
    { replace (S k) with (k + 1)%nat by lia. rewrite <- drop_drop, Ed. reflexivity. }
    assert (Htake : take (S k) data0 = take k data0 ++ [value]).
    { apply take_S_r. rewrite <- (Nat.add_0_r k), <- lookup_drop, Ed. reflexivity. }
    destruct (sorted_split value pre Hs) as (a & b & -> & Ha & Hb).
    rewrite length_app in Hlen. subst k. rewrite <- app_assoc.
    rewrite insertSort_step_spec; [|exact Hb|].
    + exists (a ++ value :: b). rewrite Hpost, <- app_assoc. simpl.
      split; [reflexivity|]. split; [rewrite length_app; simpl; lia|].
      split; [apply sorted_insert; assumption|].
      rewrite Htake. rewrite <- Hp.
      symmetry. rewrite (Permutation_app_comm (a ++ b) [value]). simpl.
      apply Permutation_cons_app. reflexivity.
    + intros a' x ->. apply Forall_app in Ha. destruct Ha as [_ Hx].
      inversion Hx; subst; assumption.
Qed.

Lemma insertSort_spec data n :
  (n <= length data)%nat ->
  exists pre, insertSort data (Z.of_nat n) = pre ++ drop n data
    /\ length pre = n /\ StronglySorted Z.le pre /\ Permutation pre (take n data).
Proof.
  intros Hn. unfold insertSort. destruct n as [|n].
  - exists []. simpl. rewrite drop_0. repeat split; constructor.
  - replace (Z.of_nat (S n) - 1) with (Z.of_nat n) by lia.
    change 1 with (Z.of_nat 1).
    destruct (insertSort_loop data n 1 data) as (pre & H1 & H2 & H3 & H4); [|lia|].
    + destruct data as [|v rest]; [simpl in Hn; lia|].
      exists [v]. simpl. rewrite drop_0, take_0.
      repeat split; [repeat constructor|reflexivity].
    + exists pre. auto.
Qed.

(** [insertSort] sorts the first [dataLength] bytes of the array in
    ascending order: they are a rearrangement of the bytes that were there,
    and the rest of the array is untouched. *)
Theorem insertSort_sorts data dataLength :
  0 <= dataLength <= Z.of_nat (length data) ->
  exists sorted,
    insertSort data dataLength = sorted ++ drop (Z.to_nat dataLength) data
    /\ StronglySorted Z.le sorted
    /\ Permutation sorted (take (Z.to_nat dataLength) data).
Proof.
  intros Hn. destruct (insertSort_spec data (Z.to_nat dataLength)) as (pre & H1 & _ & H3 & H4);
    [lia|].
  rewrite Z2Nat.id in H1 by lia. exists pre. auto.
Qed.

Lemma insertSort_sorts_witness :
  exists sorted,
    insertSort [3; 1; 2; 9] 3 = sorted ++ drop (Z.to_nat 3) [3; 1; 2; 9]
    /\ StronglySorted Z.le sorted
    /\ Permutation sorted (take (Z.to_nat 3) [3; 1; 2; 9]).
Proof. apply (insertSort_sorts [3; 1; 2; 9] 3). simpl. lia. Defined.

Lemma rcErodeWalkableArea_clears_rim_witness :
  zget 0 (areas (snd (fst (rcErodeWalkableArea true [] 1 single_chf)))) 0 = RC_NULL_AREA.
Proof.
  apply (rcErodeWalkableArea_clears_rim [] 1 single_chf 0 0 0);
    first [lia | unfold span_of_cell; vm_compute; intuition congruence].
Defined.

(** ** [rcMedianFilterWalkableArea] *)

(** An area that is walkable and occurs in the area array of [chf]. *)
Lemma zget_nonzero_In (l : list Z) i : zget 0 l i <> 0 -> In (zget 0 l i) l.
Proof.
  unfold zget. destruct (i <? 0); [congruence|]. intros H.
  destruct (nth_in_or_default (Z.to_nat i) l 0) as [Hin|He]; [exact Hin|congruence].
Qed.

Lemma median_neighbors_areas chf x z span neighborAreas dir :
  Forall (fun v => v <> RC_NULL_AREA /\ In v (areas chf)) neighborAreas ->
  Forall (fun v => v <> RC_NULL_AREA /\ In v (areas chf))
    (median_neighbors chf x z span neighborAreas dir).
Proof.
  intros H. unfold median_neighbors.
  destruct (rcGetCon span dir =? RC_NOT_CONNECTED); [exact H|].
  set (aIndex := index _ + rcGetCon span dir).
  assert (H1 : Forall (fun v => v <> RC_NULL_AREA /\ In v (areas chf))
                 (if negb (zget 0 (areas chf) aIndex =? RC_NULL_AREA)
                  then zset neighborAreas (dir * 2 + 0) (zget 0 (areas chf) aIndex)
                  else neighborAreas)).
  { destruct (zget 0 (areas chf) aIndex =? RC_NULL_AREA) eqn:E; [exact H|]. cbn [negb].
    apply Z.eqb_neq in E. apply zset_Forall; [|exact H].
    split; [exact E|apply zget_nonzero_In; exact E]. }
  destruct (negb (rcGetCon _ _ =? RC_NOT_CONNECTED)); [|exact H1].
  set (bIndex := index _ + rcGetCon _ _).
  destruct (zget 0 (areas chf) bIndex =? RC_NULL_AREA) eqn:E; [exact H1|]. cbn [negb].
  apply Z.eqb_neq in E. apply zset_Forall; [|exact H1].
  split; [exact E|apply zget_nonzero_In; exact E].
Qed.

Lemma median_neighbors_length chf x z span neighborAreas dir :
  length (median_neighbors chf x z span neighborAreas dir) = length neighborAreas.
Proof.
  unfold median_neighbors. destruct (_ =? _); [reflexivity|].
  destruct (negb (rcGetCon _ _ =? RC_NOT_CONNECTED));
    repeat (destruct (negb (zget 0 _ _ =? _))); rewrite ?zset_length; reflexivity.
Qed.

(** The fifth smallest of nine bytes is one of them. *)
Lemma median_of_nine (P : Z -> Prop) l :
  length l = 9%nat -> Forall P l -> P (zget 0 (insertSort l 9) 4).
Proof.
  intros Hl HP. destruct (insertSort_spec l 9) as (pre & He & Hlen & _ & Hp); [lia|].
  change (Z.of_nat 9) with 9 in He. rewrite He.
  rewrite drop_ge, app_nil_r by lia. rewrite take_ge in Hp by lia.
  rewrite Forall_forall in HP. apply HP. apply (Permutation_in _ Hp).
  unfold zget. simpl. apply nth_In. lia.
Qed.

Lemma median_span_length chf x z j st : length (median_span chf x z j st) = length st.
Proof. unfold median_span. destruct (_ =? _); apply zset_length. Qed.

Lemma median_span_value chf x z i st :
  0 <= i < Z.of_nat (length st) ->
  let a := zget 0 (areas chf) i in
  let a' := zget 0 (median_span chf x z i st) i in
  (a' = RC_NULL_AREA <-> a = RC_NULL_AREA) /\ (a' <> RC_NULL_AREA -> In a' (areas chf)).
Proof.
  intros Hi. cbv zeta. unfold median_span.
  destruct (zget 0 (areas chf) i =? RC_NULL_AREA) eqn:E; rewrite zget_zset_eq by exact Hi.
  - apply Z.eqb_eq in E. split; [tauto|]. intros H. contradiction.
  - apply Z.eqb_neq in E.
    set (l := fold_left _ _ _).
    assert (Hl : length l = 9%nat
                 /\ Forall (fun v => v <> RC_NULL_AREA /\ In v (areas chf)) l).
    { unfold l. apply (fold_left_inv _ (fun l => length l = 9%nat
                 /\ Forall (fun v => v <> RC_NULL_AREA /\ In v (areas chf)) l)).
      - intros a b [H1 H2]. split; [rewrite median_neighbors_length; exact H1|].
        apply median_neighbors_areas. exact H2.
      - split; [apply length_replicate|]. apply Forall_replicate.
        split; [exact E|apply zget_nonzero_In; exact E]. }
    destruct Hl as [Hl1 Hl2].
    pose proof (median_of_nine _ l Hl1 Hl2) as [Hm1 Hm2]. tauto.
Qed.

Lemma zget_memcpy dst src n i :
  0 <= i < n -> n <= Z.of_nat (length src) -> zget 0 (memcpy dst src n) i = zget 0 src i.
Proof.
  intros Hi Hn. unfold memcpy, zget. destruct (i <? 0) eqn:E; [reflexivity|].
  rewrite app_nth1 by (rewrite length_take; lia).
  destruct (src !! Z.to_nat i) as [v|] eqn:Ev.
  - rewrite (nth_lookup_Some _ _ 0 v Ev). apply nth_lookup_Some.
    rewrite lookup_take_lt by lia. exact Ev.
  - apply lookup_ge_None in Ev. lia.
Qed.

(** [rcMedianFilterWalkableArea] never changes which spans are walkable: a
    span of a grid cell has the null area afterwards exactly when it had it
    before, and an area it is given is one that was in use in the
    heightfield.  Nothing but the area array changes. *)
Theorem rcMedianFilterWalkableArea_keeps_walkability log chf x z i :
  span_of_cell chf x z i -> 0 <= i < spanCount chf ->
  let chf' := snd (fst (rcMedianFilterWalkableArea true log chf)) in
  let a := zget 0 (areas chf) i in
  let a' := zget 0 (areas chf') i in
  chf' = set_areas chf (areas chf')
  /\ (a' = RC_NULL_AREA <-> a = RC_NULL_AREA)
  /\ (a' <> RC_NULL_AREA -> In a' (areas chf)).
Proof.
  intros (Hx & Hz & Hc) Hi. cbv zeta. unfold rcMedianFilterWalkableArea.
  cbn [negb fst snd areas set_areas]. split; [reflexivity|].
  set (areas1 := for_spans _ _ _ _ _).
  set (I := fun st : list Z => length st = Z.to_nat (spanCount chf)).
  set (P := fun st : list Z =>
              (zget 0 st i = RC_NULL_AREA <-> zget 0 (areas chf) i = RC_NULL_AREA)
              /\ (zget 0 st i <> RC_NULL_AREA -> In (zget 0 st i) (areas chf))).
  assert (HI : I areas1).
  { apply for_spans_inv; [|apply length_replicate].
    intros x' z' j st Hst. unfold I. rewrite median_span_length. exact Hst. }
  assert (HP : P areas1).
  { apply (for_spans_establishes I P chf _ _ (median_span chf) x z i).
    - intros x' z' j st Hst. unfold I. rewrite median_span_length. exact Hst.
    - intros x' z' j st Hst Hp. destruct (Z.eq_dec j i) as [->|Hne].
      + apply median_span_value. unfold I in Hst. lia.
      + unfold P, median_span.
        destruct (_ =? _); rewrite zget_zset_ne by exact Hne; exact Hp.
    - intros st Hst. apply median_span_value. unfold I in Hst. lia.
    - apply In_seqZ. lia.
    - apply In_seqZ. lia.
    - exact Hc.
    - apply length_replicate. }
  rewrite zget_memcpy by (unfold I in HI; lia). exact HP.
Qed.

Lemma rcMedianFilterWalkableArea_keeps_walkability_witness :
  let chf' := snd (fst (rcMedianFilterWalkableArea true [] single_chf)) in
  let a := zget 0 (areas single_chf) 0 in
  let a' := zget 0 (areas chf') 0 in
  chf' = set_areas single_chf (areas chf')
  /\ (a' = RC_NULL_AREA <-> a = RC_NULL_AREA)
  /\ (a' <> RC_NULL_AREA -> In a' (areas single_chf)).
Proof.
  apply (rcMedianFilterWalkableArea_keeps_walkability [] single_chf 0 0 0);
    unfold span_of_cell; vm_compute; intuition congruence.
Defined.

(** ** [rcMarkBoxArea] *)

Lemma mark_box_span_length chf minY maxY areaId x z j st :
  length (mark_box_span chf minY maxY areaId x z j st) = length st.
Proof.
  unfold mark_box_span. destruct (_ || _); [reflexivity|].
  destruct (_ =? _); [reflexivity|apply zset_length].
Qed.

(** What the loops of [rcMarkBoxArea] may do to the area of span [i]. *)
Lemma mark_box_span_frame chf minY maxY areaId x z j st (a : Z) i :
  zget 0 st i = a
  \/ (a <> RC_NULL_AREA /\ zget 0 st i = areaId
      /\ minY <= y (zget span0 (spans chf) i) <= maxY) ->
  zget 0 (mark_box_span chf minY maxY areaId x z j st) i = a
  \/ (a <> RC_NULL_AREA /\ zget 0 (mark_box_span chf minY maxY areaId x z j st) i = areaId
      /\ minY <= y (zget span0 (spans chf) i) <= maxY).
Proof.
  intros H. unfold mark_box_span.
  destruct ((y (zget span0 (spans chf) j) <? minY) || (y (zget span0 (spans chf) j) >? maxY))
    eqn:Ey; [exact H|].
  destruct (zget 0 st j =? RC_NULL_AREA) eqn:Ea; [exact H|].
  destruct (Z.eq_dec j i) as [->|Hne]; [|rewrite zget_zset_ne by exact Hne; exact H].
  apply Z.eqb_neq in Ea. apply orb_false_iff in Ey. destruct Ey as [E1 E2].
  apply Z.ltb_ge in E1. rewrite Z.gtb_ltb in E2. apply Z.ltb_ge in E2.
  destruct (decide (0 <= i < Z.of_nat (length st))) as [Hin|Hout].
  - rewrite zget_zset_eq by exact Hin. right. split; [|split; [reflexivity|lia]].
    destruct H as [H|[H _]]; [congruence|exact H].
  - rewrite zset_outside by exact Hout. exact H.
Qed.

Lemma mark_box_frame minX minY minZ maxX maxY maxZ areaId chf i :
  let chf' := mark_box minX minY minZ maxX maxY maxZ areaId chf in
  chf' = set_areas chf (areas chf')
  /\ length (areas chf') = length (areas chf)
  /\ (zget 0 (areas chf') i = zget 0 (areas chf) i
      \/ (zget 0 (areas chf) i <> RC_NULL_AREA /\ zget 0 (areas chf') i = areaId
          /\ minY <= y (zget span0 (spans chf) i) <= maxY)).
Proof.
  cbv zeta. unfold mark_box.
  assert (Hid : chf = set_areas chf (areas chf)) by (destruct chf; reflexivity).
  destruct (maxX <? 0); [auto|]. destruct (minX >=? width chf); [auto|].
  destruct (maxZ <? 0); [auto|]. destruct (minZ >=? height chf); [auto|].
  cbn [areas set_areas]. split; [reflexivity|]. split.
  - apply (for_spans_inv (fun st => length st = length (areas chf))); [|reflexivity].
    intros x z j st Hst. rewrite mark_box_span_length. exact Hst.
  - apply (for_spans_inv (fun st => zget 0 st i = zget 0 (areas chf) i
             \/ (zget 0 (areas chf) i <> RC_NULL_AREA /\ zget 0 st i = areaId
                 /\ minY <= y (zget span0 (spans chf) i) <= maxY))); [|auto].
    intros x z j st Hst. apply mark_box_span_frame. exact Hst.
Qed.

Lemma mark_box_marks minX minY minZ maxX maxY maxZ areaId chf x z i :
  span_of_cell chf x z i -> 0 <= i < Z.of_nat (length (areas chf)) ->
  minX <= x <= maxX -> minZ <= z <= maxZ ->
  minY <= y (zget span0 (spans chf) i) <= maxY ->
  zget 0 (areas chf) i <> RC_NULL_AREA ->
  zget 0 (areas (mark_box minX minY minZ maxX maxY maxZ areaId chf)) i = areaId.
Proof.
  intros (Hx & Hz & Hc) Hi Hbx Hbz Hby Ha. unfold mark_box.
  assert (E1 : (maxX <? 0) = false) by lia. rewrite E1.
  assert (E2 : (minX >=? width chf) = false) by (rewrite Z.geb_leb; lia). rewrite E2.
  assert (E3 : (maxZ <? 0) = false) by lia. rewrite E3.
  assert (E4 : (minZ >=? height chf) = false) by (rewrite Z.geb_leb; lia). rewrite E4.
  cbn [areas set_areas].
  set (I := fun st : list Z => length st = length (areas chf)
              /\ (zget 0 st i = zget 0 (areas chf) i \/ zget 0 st i = areaId)).
  set (P := fun st : list Z => zget 0 st i = areaId).
  assert (Hstep : forall x' z' st, I st -> P (mark_box_span chf minY maxY areaId x' z' i st)).
  { intros x' z' st [Hl Hv]. unfold P, mark_box_span.
    assert (Ey : (y (zget span0 (spans chf) i) <? minY)
                 || (y (zget span0 (spans chf) i) >? maxY) = false).
    { apply orb_false_iff. split; [lia|]. rewrite Z.gtb_ltb. lia. }
    rewrite Ey. destruct (zget 0 st i =? RC_NULL_AREA) eqn:Ea.
    - apply Z.eqb_eq in Ea. destruct Hv as [Hv|Hv]; congruence.
    - apply zget_zset_eq. lia. }
  apply (for_spans_establishes I P chf _ _ (mark_box_span chf minY maxY areaId) x z i).
  - intros x' z' j st [Hl Hv]. split; [rewrite mark_box_span_length; exact Hl|].
    destruct (Z.eq_dec j i) as [->|Hne]; [right; apply Hstep; split; assumption|].
    unfold mark_box_span. destruct (_ || _); [exact Hv|].
    destruct (_ =? _); [exact Hv|]. rewrite zget_zset_ne by exact Hne. exact Hv.
  - intros x' z' j st HI Hp.
    destruct (Z.eq_dec j i) as [->|Hne]; [apply Hstep; exact HI|].
    unfold P, mark_box_span. destruct (_ || _); [exact Hp|].
    destruct (_ =? _); [exact Hp|]. rewrite zget_zset_ne by exact Hne. exact Hp.
  - intros st HI. apply Hstep. exact HI.
  - apply In_seqZ. destruct (minZ <? 0) eqn:A, (maxZ >=? height chf) eqn:B;
      rewrite ?Z.geb_leb in B; lia.
  - apply In_seqZ. destruct (minX <? 0) eqn:A, (maxX >=? width chf) eqn:B;
      rewrite ?Z.geb_leb in B; lia.
  - exact Hc.
  - split; auto.
Qed.

(** [rcMarkBoxArea] turns the box into voxel bounds by truncation and then
    gives [areaId] to every walkable span of a grid cell within the bounds
    whose floor [y] lies within [minY .. maxY].  It never touches a span
    without an area, so it never makes a span walkable, and it changes
    nothing but areas. *)
Theorem rcMarkBoxArea_marks_walkable_spans_in_box bmin cs ch boxMinBounds boxMaxBounds
    areaId chf chf' :
  rcMarkBoxArea bmin cs ch boxMinBounds boxMaxBounds areaId chf = Some chf' ->
  exists minX minY minZ maxX maxY maxZ,
    (box_coord (Clip.coord boxMinBounds Clip.RC_AXIS_X) (Clip.coord bmin Clip.RC_AXIS_X) cs
       = Some minX
     /\ box_coord (Clip.coord boxMinBounds Clip.RC_AXIS_Y) (Clip.coord bmin Clip.RC_AXIS_Y) ch
       = Some minY
     /\ box_coord (Clip.coord boxMinBounds Clip.RC_AXIS_Z) (Clip.coord bmin Clip.RC_AXIS_Z) cs
       = Some minZ
     /\ box_coord (Clip.coord boxMaxBounds Clip.RC_AXIS_X) (Clip.coord bmin Clip.RC_AXIS_X) cs
       = Some maxX
     /\ box_coord (Clip.coord boxMaxBounds Clip.RC_AXIS_Y) (Clip.coord bmin Clip.RC_AXIS_Y) ch
       = Some maxY
     /\ box_coord (Clip.coord boxMaxBounds Clip.RC_AXIS_Z) (Clip.coord bmin Clip.RC_AXIS_Z) cs
       = Some maxZ)
    /\ chf' = set_areas chf (areas chf')
    /\ length (areas chf') = length (areas chf)
    /\ (forall i,
          zget 0 (areas chf') i = zget 0 (areas chf) i
          \/ (zget 0 (areas chf) i <> RC_NULL_AREA /\ zget 0 (areas chf') i = areaId
              /\ minY <= y (zget span0 (spans chf) i) <= maxY))
    /\ (forall x z i,
          span_of_cell chf x z i -> 0 <= i < Z.of_nat (length (areas chf)) ->
          minX <= x <= maxX -> minZ <= z <= maxZ ->
          minY <= y (zget span0 (spans chf) i) <= maxY ->
          zget 0 (areas chf) i <> RC_NULL_AREA ->
          zget 0 (areas chf') i = areaId).
Proof.
  unfold rcMarkBoxArea. intros H.
  destruct (box_coord (Clip.coord boxMinBounds Clip.RC_AXIS_X) _ cs) as [minX|];
    [|discriminate]. cbn [mbind option_bind] in H.
  destruct (box_coord (Clip.coord boxMinBounds Clip.RC_AXIS_Y) _ ch) as [minY|];
    [|discriminate]. cbn [mbind option_bind] in H.
  destruct (box_coord (Clip.coord boxMinBounds Clip.RC_AXIS_Z) _ cs) as [minZ|];
    [|discriminate]. cbn [mbind option_bind] in H.
  destruct (box_coord (Clip.coord boxMaxBounds Clip.RC_AXIS_X) _ cs) as [maxX|];
    [|discriminate]. cbn [mbind option_bind] in H.
  destruct (box_coord (Clip.coord boxMaxBounds Clip.RC_AXIS_Y) _ ch) as [maxY|];
    [|discriminate]. cbn [mbind option_bind] in H.
  destruct (box_coord (Clip.coord boxMaxBounds Clip.RC_AXIS_Z) _ cs) as [maxZ|];
    [|discriminate]. cbn [mbind option_bind] in H.
  injection H as <-. exists minX, minY, minZ, maxX, maxY, maxZ.
  split; [repeat split; reflexivity|].
  pose proof (fun i => mark_box_frame minX minY minZ maxX maxY maxZ areaId chf i) as Hf.
  cbv zeta in Hf. destruct (Hf 0) as (H1 & H2 & _).
  split; [exact H1|]. split; [exact H2|]. split.
  - intros i. apply Hf.
  - intros x z i. apply mark_box_marks.
Qed.

Lemma rcMarkBoxArea_marks_walkable_spans_in_box_witness :
  let origin := (Float32.zero, Float32.zero, Float32.zero) in
  let corner := (Float32.of_int 2, Float32.of_int 3, Float32.of_int 2) in
  let one := Float32.of_int 1 in
  let chf' := mark_box 0 0 0 2 3 2 5 single_chf in
  exists minX minY minZ maxX maxY maxZ,
    (box_coord (Clip.coord origin Clip.RC_AXIS_X) (Clip.coord origin Clip.RC_AXIS_X) one
       = Some minX
     /\ box_coord (Clip.coord origin Clip.RC_AXIS_Y) (Clip.coord origin Clip.RC_AXIS_Y) one
       = Some minY
     /\ box_coord (Clip.coord origin Clip.RC_AXIS_Z) (Clip.coord origin Clip.RC_AXIS_Z) one
       = Some minZ
     /\ box_coord (Clip.coord corner Clip.RC_AXIS_X) (Clip.coord origin Clip.RC_AXIS_X) one
       = Some maxX
     /\ box_coord (Clip.coord corner Clip.RC_AXIS_Y) (Clip.coord origin Clip.RC_AXIS_Y) one
       = Some maxY
     /\ box_coord (Clip.coord corner Clip.RC_AXIS_Z) (Clip.coord origin Clip.RC_AXIS_Z) one
       = Some maxZ)
    /\ chf' = set_areas single_chf (areas chf')
    /\ length (areas chf') = length (areas single_chf)
    /\ (forall i,
          zget 0 (areas chf') i = zget 0 (areas single_chf) i
          \/ (zget 0 (areas single_chf) i <> RC_NULL_AREA /\ zget 0 (areas chf') i = 5
              /\ minY <= y (zget span0 (spans single_chf) i) <= maxY))
    /\ (forall x z i,
          span_of_cell single_chf x z i -> 0 <= i < Z.of_nat (length (areas single_chf)) ->
          minX <= x <= maxX -> minZ <= z <= maxZ ->
          minY <= y (zget span0 (spans single_chf) i) <= maxY ->
          zget 0 (areas single_chf) i <> RC_NULL_AREA ->
          zget 0 (areas chf') i = 5).
Proof.
  apply (rcMarkBoxArea_marks_walkable_spans_in_box
           (Float32.zero, Float32.zero, Float32.zero) (Float32.of_int 1) (Float32.of_int 1)
           (Float32.zero, Float32.zero, Float32.zero)
           (Float32.of_int 2, Float32.of_int 3, Float32.of_int 2) 5 single_chf).
  vm_compute. reflexivity.
Defined.

End AreaFacts.

(** ** Region partitioning *)

Module RegionFacts.
Import Compact CompactFacts Area Region.

(** C10 fails on the code.  On the 1 x 1 field with one walkable span,
    [sweeps] has [max(1, 1) = 1] entry; the span has no neighbour, takes
    the row-local id [rid = 1] and the sweep writes [sweeps[1]], outside
    the array (with a second entry the step goes through and leaves
    [rid = 2]).  Both partitioners that share the sweep stop there.  On the
    2 x 2 field whose first column holds three spans the first row needs
    four row-local ids for two entries. *)
Theorem sweep_overruns_sweeps :
  rcMax (width single_chf) (height single_chf) = 1
  /\ Sweep.sweeps_set (replicate (Z.to_nat 1) Sweep.sweep0) 1 (Sweep.mkSweep 1 0 0 0) = None
  /\ Sweep.sweep_span single_chf 0 0 0
       (Sweep.mkRow [0] (replicate (Z.to_nat 1) Sweep.sweep0) [0; 0] 1) = None
  /\ option_map Sweep.rid_next
       (Sweep.sweep_span single_chf 0 0 0
          (Sweep.mkRow [0] (replicate (Z.to_nat 2) Sweep.sweep0) [0; 0] 1)) = Some 2
  /\ rcBuildRegionsMonotone true true true [] single_chf 0 0 0 = None
  /\ rcBuildLayerRegions true true true [] single_chf 0 0 = None
  /\ rcMax (width stack_chf) (height stack_chf) = 2
  /\ count (zget cell0 (cells stack_chf) 0) = 3
  /\ rcBuildRegionsMonotone true true true [] stack_chf 0 0 0 = None
  /\ rcBuildLayerRegions true true true [] stack_chf 0 0 = None.
Proof.
  repeat split; vm_compute; reflexivity.
Qed.

(** C6 fails on the code.  [balcony_chf] is the compact field of a 3 x 3
    floor with a second span above the floor of column (2, 1), built with
    [walkableHeight = 3] and [walkableClimb = 10] and given its distance
    field.  Both spans of that column (5 and 6) link to the floor span of
    column (1, 1), inherit its row-local id in the sweep, and leave
    [rcBuildRegionsMonotone] (which returns [true], with the usual
    thresholds 8 and 20) with the same non-border label 1.  The same
    happens on the two-column field [step_chf]. *)
Theorem monotone_labels_column_twice :
  (exists chf' log',
     rcBuildRegionsMonotone true true true [] balcony_chf 0 8 20 = Some (true, chf', log')
     /\ in_cell (cells chf') 5 5
     /\ in_cell (cells chf') 5 6
     /\ reg (zget span0 (spans chf') 5) = 1
     /\ reg (zget span0 (spans chf') 6) = 1
     /\ Z.land 1 RC_BORDER_REG = 0)
  /\
  (exists chf' log',
     rcBuildRegionsMonotone true true true [] step_chf 0 0 0 = Some (true, chf', log')
     /\ in_cell (cells chf') 1 1
     /\ in_cell (cells chf') 1 2
     /\ reg (zget span0 (spans chf') 1) = 1
     /\ reg (zget span0 (spans chf') 2) = 1).
Proof.
  split.
  - eexists. eexists. split; [vm_compute; reflexivity|].
    unfold in_cell. simpl. repeat split; try reflexivity; try lia; vm_compute; congruence.
  - eexists. eexists. split; [vm_compute; reflexivity|].
    unfold in_cell. simpl. repeat split; try reflexivity; try lia; vm_compute; congruence.
Qed.

(** The post-process sees the overlap: on the labels that the sweep
    leaves on [balcony_chf], region 1 is reported in [overlaps], which
    [rcBuildRegionsMonotone] drops. *)
Lemma monotone_overlap_reported :
  Sweep.sweep_regions balcony_chf 0 = Some (replicate 10 1, 2)
  /\ mergeAndFilterRegions true [] 8 20 2 balcony_chf (replicate 10 1)
      = (true, 2, replicate 10 1, [1], []).
Proof. split; vm_compute; reflexivity. Qed.

(** [mergeAndFilterRegions] logs only when it fails. *)
Lemma mergeAndFilterRegions_log alloc log minA mergeA maxId chf srcReg maxR srcReg' overlaps log1 :
  mergeAndFilterRegions alloc log minA mergeA maxId chf srcReg
    = (true, maxR, srcReg', overlaps, log1) ->
  log1 = log.
Proof.
  unfold mergeAndFilterRegions. destruct alloc; simpl; [|discriminate].
  destruct (compress_ids _) as [regions4 regIdGen]. intros H. inversion H. reflexivity.
Qed.

(** With overlaps reported by the post-process, [rcBuildRegions] logs
    their number and still returns [true] with the labels written. *)
Lemma rcBuildRegions_overlaps alloc log chf borderSize minA mergeA srcReg regionId
    maxR srcReg' overlaps log1 :
  watershed_labels chf borderSize = Some (srcReg, regionId) ->
  mergeAndFilterRegions alloc log minA mergeA regionId chf srcReg
    = (true, maxR, srcReg', overlaps, log1) ->
  overlaps <> [] ->
  rcBuildRegions true alloc log chf borderSize minA mergeA
  = (true, with_regions chf borderSize maxR (write_regs chf srcReg'),
     log ++ [overlapping_regions (Z.of_nat (length overlaps))]).
Proof.
  intros Hw Hm Ho. unfold rcBuildRegions. simpl. rewrite Hw, Hm. simpl.
  rewrite (mergeAndFilterRegions_log _ _ _ _ _ _ _ _ _ _ _ Hm).
  destruct overlaps as [|o rest]; [congruence|]. reflexivity.
Qed.

(** C8.  Neither degraded result makes its stage fail.
    [rcBuildCompactHeightfield] returns [true] whenever its allocations
    succeed, its log grows by at most the too-many-layers error, and a
    direction whose only reachable neighbour spans lie above layer 62 is
    left [RC_NOT_CONNECTED] with that error logged.  [rcBuildRegions],
    when the post-process succeeds and reports overlapping regions, logs
    their number, writes the labels and returns [true]. *)
Theorem degraded_results_return_success :
  (forall log wh wc hf,
     exists chf log',
       rcBuildCompactHeightfield true true true log wh wc hf = (true, chf, log') /\
       (log' = log \/ exists m, MAX_LAYERS < m /\ log' = log ++ [too_many_layers m]) /\
       (Z.of_nat (length (Heightfield.spans hf)) = Heightfield.width hf * Heightfield.height hf ->
        Forall (fun chain => (length (walkable_spans chain) <= 255)%nat) (Heightfield.spans hf) ->
        rcGetHeightFieldSpanCount hf < 2 ^ 24 ->
        forall x z i dir,
          0 <= x < width chf -> 0 <= z < height chf -> 0 <= dir <= 3 ->
          in_cell (cells chf) (x + z * width chf) i ->
          layer_overflow chf x z i dir ->
          rcGetCon (zget span0 (spans chf) i) dir = RC_NOT_CONNECTED /\
          exists m, MAX_LAYERS < m /\ log' = log ++ [too_many_layers m]))
  /\
  (forall alloc log chf borderSize minRegionArea mergeRegionArea srcReg regionId
          maxRegions srcReg' overlaps log1,
     watershed_labels chf borderSize = Some (srcReg, regionId) ->
     mergeAndFilterRegions alloc log minRegionArea mergeRegionArea regionId chf srcReg
       = (true, maxRegions, srcReg', overlaps, log1) ->
     overlaps <> [] ->
     rcBuildRegions true alloc log chf borderSize minRegionArea mergeRegionArea
     = (true, with_regions chf borderSize maxRegions (write_regs chf srcReg'),
        log ++ [overlapping_regions (Z.of_nat (length overlaps))])).
Proof.
  split.
  - intros log wh wc hf. apply rcBuildCompactHeightfield_layer_overflow.
  - intros. eapply rcBuildRegions_overlaps; eassumption.
Qed.

Lemma degraded_results_return_success_witness :
  (exists chf log',
     rcBuildCompactHeightfield true true true [] 3 1 tower_hf = (true, chf, log')
     /\ rcGetCon (zget span0 (spans chf) 0) 2 = RC_NOT_CONNECTED
     /\ exists m, MAX_LAYERS < m /\ log' = [] ++ [too_many_layers m])
  /\ rcBuildRegions true true [] balcony_chf 0 8 20
     = (true, with_regions balcony_chf 0 2 (write_regs balcony_chf (replicate 10 1)),
        [] ++ [overlapping_regions (Z.of_nat (length [1]))]).
Proof.
  destruct degraded_results_return_success as [Ha Hb]. split.
  - destruct (Ha [] 3 1 tower_hf) as (chf & log' & Hbuild & _ & Hdir).
    exists chf, log'. split; [exact Hbuild|].
    pose proof (tower_overflow chf log' Hbuild) as Hov.
    destruct (build_success _ _ _ _ _ _ _ _ _ Hbuild) as (Ew & Eh & _ & _ & Ec & _ & _).
    apply (fun a b c => Hdir a b c 0 0 0 2).
    + reflexivity.
    + constructor; [apply Nat.leb_le; reflexivity|].
      constructor; [apply Nat.leb_le; reflexivity|constructor].
    + vm_compute. reflexivity.
    + rewrite Ew. simpl. lia.
    + rewrite Eh. simpl. lia.
    + lia.
    + unfold in_cell. rewrite Ew, Ec. vm_compute. split; [discriminate|reflexivity].
    + exact Hov.
  - apply (Hb true [] balcony_chf 0 8 20 (replicate 10 1) 2 2 (replicate 10 1) [1] []).
    + vm_compute. reflexivity.
    + vm_compute. reflexivity.
    + discriminate.
Defined.

(** The flat floor: erosion leaves the 8 x 8 interior walkable and each of
    the three partitioners, with [minRegionArea = mergeRegionArea = 1],
    returns [true], logs nothing and puts these 64 spans in region 1 and
    the 36 others in region 0. *)
Lemma flat_floor_one_region :
  Z.of_nat (length (filter (fun a => negb (a =? RC_NULL_AREA)) (areas quad_chf))) = 64
  /\ (exists chf',
        rcBuildRegions true true [] (snd (fst (rcBuildDistanceField true true [] quad_chf))) 0 1 1
        = (true, chf', [])
        /\ count_reg 1 chf' = 64 /\ count_reg 0 chf' = 36)
  /\ (exists chf',
        rcBuildRegionsMonotone true true true [] quad_chf 0 1 1 = Some (true, chf', [])
        /\ count_reg 1 chf' = 64 /\ count_reg 0 chf' = 36)
  /\ (exists chf',
        rcBuildLayerRegions true true true [] quad_chf 0 1 = Some (true, chf', [])
        /\ count_reg 1 chf' = 64 /\ count_reg 0 chf' = 36).
Proof.
  split; [vm_compute; reflexivity|].
  split; [|split]; eexists; (split; [vm_compute; reflexivity|]); split; vm_compute; reflexivity.
Qed.

(** The final loop of the post-processes leaves a border label alone. *)
Lemma remap_keeps_border (regions : list rcRegion) (srcReg : list Z) (n k : Z) :
  Z.land (zget 0 srcReg k) RC_BORDER_REG <> 0 ->
  zget 0
    (fold_left (fun srcReg i =>
                  let r := zget 0 srcReg i in
                  if Z.land r RC_BORDER_REG =? 0
                  then zset srcReg i (id (zget region0 regions r)) else srcReg)
       (seqZ 0 n) srcReg) k
  = zget 0 srcReg k.
Proof.
  intros Hb.
  apply (fold_left_inv _ (fun st => zget 0 st k = zget 0 srcReg k)); [|reflexivity].
  intros st i Hst. simpl.
  destruct (Z.eq_dec i k) as [->|Hne].
  - rewrite Hst. destruct (Z.eqb_spec (Z.land (zget 0 srcReg k) RC_BORDER_REG) 0); [contradiction|].
    exact Hst.
  - destruct (_ =? 0); [|exact Hst]. rewrite zget_zset_ne by exact Hne. exact Hst.
Qed.

(** Border-flagged labels pass through [mergeAndFilterRegions] unchanged. *)
Theorem mergeAndFilterRegions_keeps_border alloc log minRegionArea mergeRegionSize maxRegionId
    chf srcReg ok maxRegionId' srcReg' overlaps log' k :
  mergeAndFilterRegions alloc log minRegionArea mergeRegionSize maxRegionId chf srcReg
    = (ok, maxRegionId', srcReg', overlaps, log') ->
  Z.land (zget 0 srcReg k) RC_BORDER_REG <> 0 ->
  zget 0 srcReg' k = zget 0 srcReg k.
Proof.
  unfold mergeAndFilterRegions. intros H Hb.
  destruct alloc; simpl in H.
  - destruct (compress_ids _) as [regions4 regIdGen]. inversion H; subst.
    apply remap_keeps_border. exact Hb.
  - inversion H; subst. reflexivity.
Qed.

Lemma mergeAndFilterRegions_keeps_border_witness :
  Z.land (zget 0 [32769; 1; 1] 0) RC_BORDER_REG <> 0
  /\ zget 0 (snd (fst (fst (mergeAndFilterRegions true [] 0 0 2 step_chf [32769; 1; 1])))) 0
     = zget 0 [32769; 1; 1] 0.
Proof.
  split; [vm_compute; discriminate|].
  destruct (mergeAndFilterRegions true [] 0 0 2 step_chf [32769; 1; 1])
    as [[[[ok maxR] srcReg'] overlaps] log'] eqn:E.
  simpl. apply (mergeAndFilterRegions_keeps_border _ _ _ _ _ _ _ _ _ _ _ _ _ E).
  vm_compute. discriminate.
Defined.

(** With [borderSize = 2] each of the three partitioners returns [true],
    logs nothing and leaves the border-flagged labels on the outer strip
    of the flat floor; the interior forms one region, which keeps the
    first id after the four border ids. *)
Lemma border_strip_preserved :
  (exists chf',
     rcBuildRegions true true [] (snd (fst (rcBuildDistanceField true true [] plain_chf))) 2 1 1
     = (true, chf', []) /\ border_strip_labelled 5 chf' = true)
  /\ (exists chf',
        rcBuildRegionsMonotone true true true [] plain_chf 2 1 1 = Some (true, chf', [])
        /\ border_strip_labelled 5 chf' = true)
  /\ (exists chf',
        rcBuildLayerRegions true true true [] plain_chf 2 1 = Some (true, chf', [])
        /\ border_strip_labelled 5 chf' = true).
Proof.
  split; [|split]; eexists; (split; [vm_compute; reflexivity|]); vm_compute; reflexivity.
Qed.

Import AreaFacts.

(** ** [rcBuildDistanceField] *)

Lemma ubits16_range v : 0 <= ubits 16 v <= 65535.
Proof.
  unfold ubits. change (2 ^ 16) with 65536.
  pose proof (Z.mod_pos_bound v 65536 ltac:(lia)). lia.
Qed.

Lemma chamfer_words src i from cost : words src -> words (chamfer src i from cost).
Proof.
  intros H. unfold chamfer. destruct (_ <? _); [|exact H].
  apply zset_Forall; [apply ubits16_range|exact H].
Qed.

Lemma chamfer_from_words chf x y i dA dB src :
  words src -> words (chamfer_from chf x y i dA dB src).
Proof.
  intros H. unfold chamfer_from. destruct (_ =? _); [exact H|].
  destruct (_ =? _); repeat apply chamfer_words; exact H.
Qed.

Lemma zget_words src i : words src -> 0 <= zget 0 src i <= 65535.
Proof. intros H. apply (zget_Forall (fun d => 0 <= d <= 65535)); [lia|exact H]. Qed.

Lemma chamfer_keeps_zero src j from cost i :
  0 <= cost -> words src -> zget 0 src i = 0 -> zget 0 (chamfer src j from cost) i = 0.
Proof.
  intros Hc Hw Hz. unfold chamfer. destruct (_ <? _) eqn:E; [|exact Hz].
  destruct (Z.eq_dec j i) as [->|Hne]; [|rewrite zget_zset_ne by exact Hne; exact Hz].
  rewrite Hz in E. pose proof (zget_words src from Hw). lia.
Qed.

Lemma chamfer_from_keeps_zero chf x y j dA dB src i :
  words src -> zget 0 src i = 0 -> zget 0 (chamfer_from chf x y j dA dB src) i = 0.
Proof.
  intros Hw Hz. unfold chamfer_from. destruct (_ =? _); [exact Hz|].
  destruct (_ =? _).
  - apply chamfer_keeps_zero; [lia|assumption..].
  - apply chamfer_keeps_zero; [lia|apply chamfer_words; exact Hw|].
    apply chamfer_keeps_zero; [lia|assumption..].
Qed.

Lemma fold_rcMax_bound (src : list Z) n :
  let m := fold_left (fun maxDist i => rcMax (zget 0 src i) maxDist) (seqZ 0 n) 0 in
  0 <= m /\ (words src -> m <= 65535) /\ forall i, 0 <= i < n -> zget 0 src i <= m.
Proof.
  cbv zeta. destruct (Z.le_gt_cases n 0) as [Hn|Hn].
  { rewrite seqZ_nil by lia. simpl. repeat split; try lia. }
  rewrite <- (Z2Nat.id n) by lia. generalize (Z.to_nat n). clear. intros k.
  induction k as [|k IH].
  - simpl. repeat split; try lia.
  - rewrite seqZ_S, fold_left_app. cbn [fold_left]. rewrite Z.add_0_l.
    destruct IH as (H0 & Hw & Hi). unfold rcMax at 1 3 5.
    destruct (zget 0 src (Z.of_nat k) >? _) eqn:E; rewrite Z.gtb_ltb in E.
    + apply Z.ltb_lt in E. split; [lia|]. split.
      * intros W. apply (zget_words src (Z.of_nat k) W).
      * intros i Hi'. destruct (Z.eq_dec i (Z.of_nat k)) as [->|Hne]; [lia|].
        specialize (Hi i ltac:(lia)). lia.
    + apply Z.ltb_ge in E. split; [exact H0|]. split; [exact Hw|].
      intros i Hi'. destruct (Z.eq_dec i (Z.of_nat k)) as [->|Hne]; [lia|].
      apply Hi. lia.
Qed.

Lemma calculateDistanceField_spec chf :
  let src := fst (calculateDistanceField chf) in
  let maxDist := snd (calculateDistanceField chf) in
  words src /\ 0 <= maxDist <= 65535
  /\ (forall i, zget 0 src i <= maxDist)
  /\ (forall x z i, span_of_cell chf x z i -> 0 <= i < Compact.spanCount chf ->
        same_area_neighbors chf x z i <> 4 -> zget 0 src i = 0).
Proof.
  cbv zeta. unfold calculateDistanceField. cbn [fst snd].
  set (src1 := for_spans chf (seqZ 0 (height chf)) (seqZ 0 (width chf))
                 (fun x y i src => if same_area_neighbors chf x y i =? 4 then src
                                   else zset src i 0)
                 (replicate (Z.to_nat (Compact.spanCount chf)) 65535)).
  set (src2 := for_spans chf _ _ _ src1).
  set (src3 := for_spans chf _ _ _ src2).
  set (J := fun st : list Z => words st /\ length st = Z.to_nat (Compact.spanCount chf)).
  assert (Hmark : forall x y j st, J st ->
            J (if same_area_neighbors chf x y j =? 4 then st else zset st j 0)).
  { intros x y j st [Hw Hl]. destruct (_ =? 4); [split; assumption|].
    split; [apply zset_Forall; [lia|exact Hw]|rewrite zset_length; exact Hl]. }
  assert (Hpass : forall x y j dA dB dC dD st, J st ->
            J (chamfer_from chf x y j dA dB (chamfer_from chf x y j dC dD st))).
  { intros x y j dA dB dC dD st [Hw Hl]. split; [repeat apply chamfer_from_words; exact Hw|].
    unfold chamfer_from, chamfer.
    repeat (match goal with |- context [if ?b then _ else _] => destruct b end;
            rewrite ?zset_length); exact Hl. }
  assert (J1 : J src1).
  { apply for_spans_inv; [intros; apply Hmark; assumption|].
    split; [apply Forall_replicate; lia|apply length_replicate]. }
  assert (J2 : J src2) by (apply for_spans_inv; [intros; apply Hpass; assumption|exact J1]).
  assert (J3 : J src3) by (apply for_spans_inv; [intros; apply Hpass; assumption|exact J2]).
  destruct J3 as [W3 L3].
  pose proof (fold_rcMax_bound src3 (Compact.spanCount chf)) as Hm. cbv zeta in Hm.
  destruct Hm as (M0 & MW & Mi).
  split; [exact W3|]. split; [split; [exact M0|apply MW; exact W3]|]. split.
  - intros i. destruct (decide (0 <= i < Compact.spanCount chf)) as [Hi|Hi]; [apply Mi; exact Hi|].
    assert (E : zget 0 src3 i = 0).
    { unfold zget. destruct (i <? 0) eqn:E; [reflexivity|]. apply nth_overflow. lia. }
    rewrite E. exact M0.
  - intros x z i (Hx & Hz & Hc) Hi Hn.
    set (I := fun st : list Z => words st /\ zget 0 st i = 0).
    assert (Hkeep : forall x y j dA dB dC dD st, I st ->
              I (chamfer_from chf x y j dA dB (chamfer_from chf x y j dC dD st))).
    { intros x' y' j dA dB dC dD st [Hw H0]. split; [repeat apply chamfer_from_words; exact Hw|].
      apply chamfer_from_keeps_zero; [apply chamfer_from_words; exact Hw|].
      apply chamfer_from_keeps_zero; assumption. }
    assert (I1 : I src1).
    { split; [exact (proj1 J1)|].
      apply (for_spans_establishes J (fun st => zget 0 st i = 0) chf _ _ _ x z i).
      - intros; apply Hmark; assumption.
      - intros x' y' j st _ H0. destruct (_ =? 4); [exact H0|].
        destruct (Z.eq_dec j i) as [->|Hne]; [|rewrite zget_zset_ne by exact Hne; exact H0].
        destruct (decide (0 <= i < Z.of_nat (length st))) as [Hin|Hout].
        + apply zget_zset_eq. exact Hin.
        + rewrite zset_outside by exact Hout. exact H0.
      - intros st [Hw Hl]. destruct (same_area_neighbors chf x z i =? 4) eqn:E; [lia|].
        apply zget_zset_eq. lia.
      - apply In_seqZ. lia.
      - apply In_seqZ. lia.
      - exact Hc.
      - split; [apply Forall_replicate; lia|apply length_replicate]. }
    assert (I2 : I src2) by (apply for_spans_inv; [intros; apply Hkeep; assumption|exact I1]).
    assert (I3 : I src3) by (apply for_spans_inv; [intros; apply Hkeep; assumption|exact I2]).
    exact (proj2 I3).
Qed.

Lemma boxBlur_spec chf thr src M :
  0 <= thr -> words src -> 0 <= M <= 65535 -> (forall i, zget 0 src i <= M) ->
  forall dst, (forall i, 0 <= zget 0 dst i <= M) ->
  (forall i, 0 <= zget 0 (boxBlur chf thr src dst) i <= M)
  /\ (forall i, zget 0 src i = 0 -> zget 0 dst i = 0 -> zget 0 (boxBlur chf thr src dst) i = 0).
Proof.
  intros Ht Hw HM Hsrc dst Hdst. unfold boxBlur.
  assert (Hset : forall (st : list Z) j v i, 0 <= v <= M ->
            (0 <= zget 0 st i <= M) -> 0 <= zget 0 (zset st j v) i <= M).
  { intros st j v i Hv Hst. destruct (Z.eq_dec j i) as [->|Hne];
      [|rewrite zget_zset_ne by exact Hne; exact Hst].
    destruct (decide (0 <= i < Z.of_nat (length st))) as [Hin|Hout].
    - rewrite zget_zset_eq by exact Hin. exact Hv.
    - rewrite zset_outside by exact Hout. exact Hst. }
  assert (Hval : forall x y j,
            let s := zget span0 (spans chf) j in
            let cd := zget 0 src j in
            let d := fold_left (fun d dir =>
                       if rcGetCon s dir =? RC_NOT_CONNECTED then d + cd * 2
                       else
                         let ax := x + rcGetDirOffsetX dir in
                         let ay := y + rcGetDirOffsetY dir in
                         let ai := con_index chf x y s dir in
                         let as_ := zget span0 (spans chf) ai in
                         let dir2 := Z.land (dir + 1) 3 in
                         if rcGetCon as_ dir2 =? RC_NOT_CONNECTED
                         then d + zget 0 src ai + cd
                         else d + zget 0 src ai + zget 0 src (con_index chf ax ay as_ dir2))
                       [0; 1; 2; 3] cd in
            0 <= ubits 16 ((d + 5) / 9) <= M).
  { intros x y j. cbv zeta.
    set (f := fun d dir => _).
    assert (Hstep : forall d dir, d <= f d dir <= d + 2 * M).
    { intros d dir. unfold f.
      pose proof (zget_words src j Hw). pose proof (Hsrc j).
      destruct (_ =? _); [lia|].
      set (ai := con_index chf x y _ dir).
      pose proof (zget_words src ai Hw). pose proof (Hsrc ai).
      destruct (_ =? _); [lia|].
      match goal with |- context [zget 0 src (con_index ?a ?b ?c ?e ?g)] =>
        pose proof (zget_words src (con_index a b c e g) Hw);
        pose proof (Hsrc (con_index a b c e g)) end. lia. }
    pose proof (zget_words src j Hw) as Hc0. pose proof (Hsrc j) as Hc1.
    simpl fold_left.
    pose proof (Hstep (zget 0 src j) 0) as S0.
    pose proof (Hstep (f (zget 0 src j) 0) 1) as S1.
    pose proof (Hstep (f (f (zget 0 src j) 0) 1) 2) as S2.
    pose proof (Hstep (f (f (f (zget 0 src j) 0) 1) 2) 3) as S3.
    set (d := f (f (f (f (zget 0 src j) 0) 1) 2) 3) in *.
    assert (Hq : 0 <= (d + 5) / 9 <= M).
    { split; [apply Z.div_pos; lia|].
      assert ((d + 5) / 9 < M + 1) by (apply Z.div_lt_upper_bound; lia). lia. }
    rewrite RasterizationFacts.ubits_small; [exact Hq|]. change (2 ^ 16) with 65536. lia. }
  split.
  - intros i. apply (for_spans_inv (fun st => 0 <= zget 0 st i <= M)); [|apply Hdst].
    intros x y j st Hst. cbv zeta.
    destruct (zget 0 src j <=? thr * 2).
    + apply Hset; [|exact Hst]. pose proof (zget_words src j Hw). pose proof (Hsrc j). lia.
    + apply Hset; [|exact Hst]. apply (Hval x y j).
  - intros i Hs Hd. apply (for_spans_inv (fun st => zget 0 st i = 0)); [|exact Hd].
    intros x y j st Hst. cbv zeta.
    destruct (Z.eq_dec j i) as [->|Hne].
    + rewrite Hs. assert (E : (0 <=? thr * 2) = true) by lia. rewrite E.
      destruct (decide (0 <= i < Z.of_nat (length st))) as [Hin|Hout].
      * apply zget_zset_eq. exact Hin.
      * rewrite zset_outside by exact Hout. exact Hst.
    + destruct (_ <=? _); rewrite zget_zset_ne by exact Hne; exact Hst.
Qed.

(** The distance field that [rcBuildDistanceField] stores lies between 0
    and the [maxDistance] it stores (at most 65535), also after the blur,
    and is 0 on the rim of every area: a span of a grid cell that is not
    linked in all four directions to spans of its own area has distance 0. *)
Theorem rcBuildDistanceField_bounds log chf :
  let chf' := snd (fst (rcBuildDistanceField true true log chf)) in
  fst (fst (rcBuildDistanceField true true log chf)) = true
  /\ 0 <= maxDistance chf' <= 65535
  /\ (forall i, 0 <= zget 0 (dist chf') i <= maxDistance chf')
  /\ (forall x z i, span_of_cell chf x z i -> 0 <= i < Compact.spanCount chf ->
        same_area_neighbors chf x z i <> 4 -> zget 0 (dist chf') i = 0).
Proof.
  cbv zeta. unfold rcBuildDistanceField. cbn [negb].
  pose proof (calculateDistanceField_spec chf) as Hs. cbv zeta in Hs.
  destruct (calculateDistanceField chf) as [src maxDist]. cbn [fst snd] in *.
  destruct Hs as (Hw & HM & Hle & Hrim).
  assert (Hdst : forall i, 0 <= zget 0 (replicate (Z.to_nat (Compact.spanCount chf)) 0) i
                           <= maxDist).
  { intros i. pose proof (zget_Forall (fun d => d = 0) 0
                            (replicate (Z.to_nat (Compact.spanCount chf)) 0) i eq_refl
                            ltac:(apply Forall_replicate; reflexivity)) as E.
    simpl in E. rewrite E. lia. }
  destruct (boxBlur_spec chf 1 src maxDist ltac:(lia) Hw HM Hle _ Hdst) as [Hb Hz].
  split; [reflexivity|]. split; [exact HM|]. split; [exact Hb|].
  intros x z i Hc Hi Hn. apply Hz; [apply (Hrim x z i); assumption|].
  apply (zget_Forall (fun d => d = 0) 0); [reflexivity|apply Forall_replicate; reflexivity].
Qed.

(** ** [paintRectRegion] and the border strips *)

Lemma paintRectRegion_frame minx maxx miny maxy regId chf srcReg i :
  zget 0 (Sweep.paintRectRegion minx maxx miny maxy regId chf srcReg) i = zget 0 srcReg i
  \/ (zget 0 (areas chf) i <> RC_NULL_AREA
      /\ zget 0 (Sweep.paintRectRegion minx maxx miny maxy regId chf srcReg) i = regId).
Proof.
  unfold Sweep.paintRectRegion.
  apply (for_spans_inv (fun st => zget 0 st i = zget 0 srcReg i
           \/ (zget 0 (areas chf) i <> RC_NULL_AREA /\ zget 0 st i = regId))); [|auto].
  intros x y j st Hst. destruct (zget 0 (areas chf) j =? RC_NULL_AREA) eqn:E; [exact Hst|].
  destruct (Z.eq_dec j i) as [->|Hne]; [|rewrite zget_zset_ne by exact Hne; exact Hst].
  destruct (decide (0 <= i < Z.of_nat (length st))) as [Hin|Hout].
  - right. split; [lia|apply zget_zset_eq; exact Hin].
  - rewrite zset_outside by exact Hout. exact Hst.
Qed.

Lemma paintRectRegion_length minx maxx miny maxy regId chf srcReg :
  length (Sweep.paintRectRegion minx maxx miny maxy regId chf srcReg) = length srcReg.
Proof.
  unfold Sweep.paintRectRegion.
  apply (for_spans_inv (fun st => length st = length srcReg)); [|reflexivity].
  intros x y j st Hst. destruct (_ =? _); [exact Hst|rewrite zset_length; exact Hst].
Qed.

Lemma paintRectRegion_marks minx maxx miny maxy regId chf srcReg x z i :
  span_of_cell chf x z i -> 0 <= i < Z.of_nat (length srcReg) ->
  minx <= x < maxx -> miny <= z < maxy ->
  zget 0 (areas chf) i <> RC_NULL_AREA ->
  zget 0 (Sweep.paintRectRegion minx maxx miny maxy regId chf srcReg) i = regId.
Proof.
  intros (Hx & Hz & Hc) Hi Hbx Hbz Ha. unfold Sweep.paintRectRegion.
  apply (for_spans_establishes (fun st => length st = length srcReg)
           (fun st => zget 0 st i = regId) chf _ _ _ x z i).
  - intros x' y' j st Hst. destruct (_ =? _); [exact Hst|rewrite zset_length; exact Hst].
  - intros x' y' j st Hl Hp. destruct (_ =? _); [exact Hp|].
    destruct (Z.eq_dec j i) as [->|Hne]; [apply zget_zset_eq; lia|].
    rewrite zget_zset_ne by exact Hne. exact Hp.
  - intros st Hl. destruct (zget 0 (areas chf) i =? RC_NULL_AREA) eqn:E; [lia|].
    apply zget_zset_eq. lia.
  - apply In_seqZ. lia.
  - apply In_seqZ. lia.
  - exact Hc.
  - reflexivity.
Qed.

Lemma border_id_flagged id : is_border (ubits 16 (Z.lor id RC_BORDER_REG)) = true.
Proof.
  unfold is_border, ubits, RC_BORDER_REG.
  assert (H : Z.testbit (Z.land (Z.lor id 32768 mod 2 ^ 16) 32768) 15 = true).
  { rewrite Z.land_spec, Z.mod_pow2_bits_low, Z.lor_spec by lia.
    change 32768 with (2 ^ 15). rewrite Z.pow2_bits_true by lia.
    rewrite orb_true_r. reflexivity. }
  destruct (Z.eqb_spec (Z.land (Z.lor id 32768 mod 2 ^ 16) 32768) 0) as [E|E]; [|reflexivity].
  rewrite E in H. rewrite Z.bits_0 in H. discriminate.
Qed.

Lemma paint_borders_marks_strips chf borderSize srcReg id x z i :
  0 < borderSize ->
  span_of_cell chf x z i -> 0 <= i < Z.of_nat (length srcReg) ->
  zget 0 (areas chf) i <> RC_NULL_AREA ->
  x < borderSize \/ width chf - borderSize <= x
  \/ z < borderSize \/ height chf - borderSize <= z ->
  is_border (zget 0 (fst (Sweep.paint_borders chf borderSize srcReg id)) i) = true.
Proof.
  intros Hb Hc Hi Ha Hedge. unfold Sweep.paint_borders.
  assert (E : (borderSize >? 0) = true) by (rewrite Z.gtb_ltb; lia). rewrite E.
  cbv zeta. cbn [fst snd].
  set (bw := rcMin (width chf) borderSize). set (bh := rcMin (height chf) borderSize).
  set (id1 := ubits 16 (id + 1)). set (id2 := ubits 16 (id1 + 1)).
  set (id3 := ubits 16 (id2 + 1)).
  set (r1 := Sweep.paintRectRegion 0 bw 0 (height chf) _ chf srcReg).
  set (r2 := Sweep.paintRectRegion (width chf - bw) (width chf) 0 (height chf) _ chf r1).
  set (r3 := Sweep.paintRectRegion 0 (width chf) 0 bh _ chf r2).
  set (r4 := Sweep.paintRectRegion 0 (width chf) (height chf - bh) (height chf) _ chf r3).
  assert (L1 : length r1 = length srcReg) by apply paintRectRegion_length.
  assert (L2 : length r2 = length srcReg)
    by (unfold r2; rewrite paintRectRegion_length; exact L1).
  assert (L3 : length r3 = length srcReg)
    by (unfold r3; rewrite paintRectRegion_length; exact L2).
  assert (L4 : length r4 = length srcReg)
    by (unfold r4; rewrite paintRectRegion_length; exact L3).
  assert (Hstep : forall a b c d k (st : list Z),
            is_border (zget 0 st i) = true ->
            is_border (zget 0 (Sweep.paintRectRegion a b c d
                                 (ubits 16 (Z.lor k RC_BORDER_REG)) chf st) i) = true).
  { intros a b c d k st Hst.
    destruct (paintRectRegion_frame a b c d (ubits 16 (Z.lor k RC_BORDER_REG)) chf st i)
      as [-> | [_ ->]]; [exact Hst|apply border_id_flagged]. }
  pose proof Hc as (Hx & Hz & _).
  assert (Hbw : bw = Z.min (width chf) borderSize).
  { unfold bw, rcMin. destruct (Z.ltb_spec (width chf) borderSize); lia. }
  assert (Hbh : bh = Z.min (height chf) borderSize).
  { unfold bh, rcMin. destruct (Z.ltb_spec (height chf) borderSize); lia. }
  destruct Hedge as [He|[He|[He|He]]].
  - unfold r4. apply Hstep. unfold r3. apply Hstep. unfold r2. apply Hstep. unfold r1.
    rewrite (paintRectRegion_marks _ _ _ _ _ _ _ x z i) by (auto; lia).
    apply border_id_flagged.
  - unfold r4. apply Hstep. unfold r3. apply Hstep. unfold r2.
    rewrite (paintRectRegion_marks _ _ _ _ _ _ _ x z i) by (auto; lia).
    apply border_id_flagged.
  - unfold r4. apply Hstep. unfold r3.
    rewrite (paintRectRegion_marks _ _ _ _ _ _ _ x z i) by (auto; lia).
    apply border_id_flagged.
  - unfold r4.
    rewrite (paintRectRegion_marks _ _ _ _ _ _ _ x z i) by (auto; lia).
    apply border_id_flagged.
Qed.

(** The border painting of the three partitioners.  With [borderSize > 0]
    every walkable span of a grid cell that lies within [borderSize] cells of
    an edge of the grid gets a label with the [RC_BORDER_REG] flag; every
    other label is left as it was (a label changes only to a flagged one, and
    only on a walkable span); the four strips use four region ids. *)
Theorem paint_borders_flags_strips chf borderSize srcReg id :
  0 < borderSize ->
  let r := fst (Sweep.paint_borders chf borderSize srcReg id) in
  snd (Sweep.paint_borders chf borderSize srcReg id) = (id + 4) mod 2 ^ 16
  /\ length r = length srcReg
  /\ (forall i, zget 0 r i = zget 0 srcReg i
                \/ (zget 0 (areas chf) i <> RC_NULL_AREA /\ is_border (zget 0 r i) = true))
  /\ (forall x z i,
        span_of_cell chf x z i -> 0 <= i < Z.of_nat (length srcReg) ->
        zget 0 (areas chf) i <> RC_NULL_AREA ->
        x < borderSize \/ width chf - borderSize <= x
        \/ z < borderSize \/ height chf - borderSize <= z ->
        is_border (zget 0 r i) = true).
Proof.
  intros Hb.
  pose proof (fun x z i => paint_borders_marks_strips chf borderSize srcReg id x z i Hb)
    as Hmarks.
  cbv zeta. revert Hmarks. unfold Sweep.paint_borders.
  assert (E : (borderSize >? 0) = true) by (rewrite Z.gtb_ltb; lia). rewrite E.
  cbv zeta. cbn [fst snd].
  set (bw := rcMin (width chf) borderSize). set (bh := rcMin (height chf) borderSize).
  set (id1 := ubits 16 (id + 1)). set (id2 := ubits 16 (id1 + 1)).
  set (id3 := ubits 16 (id2 + 1)).
  set (r1 := Sweep.paintRectRegion 0 bw 0 (height chf) _ chf srcReg).
  set (r2 := Sweep.paintRectRegion (width chf - bw) (width chf) 0 (height chf) _ chf r1).
  set (r3 := Sweep.paintRectRegion 0 (width chf) 0 bh _ chf r2).
  set (r4 := Sweep.paintRectRegion 0 (width chf) (height chf - bh) (height chf) _ chf r3).
  intros Hmarks.
  assert (L1 : length r1 = length srcReg) by apply paintRectRegion_length.
  assert (L2 : length r2 = length srcReg)
    by (unfold r2; rewrite paintRectRegion_length; exact L1).
  assert (L3 : length r3 = length srcReg)
    by (unfold r3; rewrite paintRectRegion_length; exact L2).
  assert (L4 : length r4 = length srcReg)
    by (unfold r4; rewrite paintRectRegion_length; exact L3).
  assert (Hframe : forall a b c d k (st : list Z) i,
            zget 0 st i = zget 0 srcReg i
            \/ (zget 0 (areas chf) i <> RC_NULL_AREA /\ is_border (zget 0 st i) = true) ->
            zget 0 (Sweep.paintRectRegion a b c d (ubits 16 (Z.lor k RC_BORDER_REG)) chf st) i
            = zget 0 srcReg i
            \/ (zget 0 (areas chf) i <> RC_NULL_AREA
                /\ is_border (zget 0 (Sweep.paintRectRegion a b c d
                                        (ubits 16 (Z.lor k RC_BORDER_REG)) chf st) i) = true)).
  { intros a b c d k st i Hst.
    destruct (paintRectRegion_frame a b c d (ubits 16 (Z.lor k RC_BORDER_REG)) chf st i)
      as [-> | [Ha ->]]; [exact Hst|]. right. split; [exact Ha|apply border_id_flagged]. }
  split; [|split; [exact L4|split]].
  - unfold id3, id2, id1, ubits.
    rewrite Zplus_mod_idemp_l, <- Z.add_assoc, Zplus_mod_idemp_l, <- Z.add_assoc,
      Zplus_mod_idemp_l.
    apply (f_equal (fun a => a mod 2 ^ 16)). lia.
  - intros i. unfold r4. apply Hframe. unfold r3. apply Hframe. unfold r2. apply Hframe.
    unfold r1. apply Hframe. left. reflexivity.
  - exact Hmarks.
Qed.

Lemma paint_borders_flags_strips_witness :
  let r := fst (Sweep.paint_borders single_chf 1 [0] 1) in
  snd (Sweep.paint_borders single_chf 1 [0] 1) = (1 + 4) mod 2 ^ 16
  /\ length r = length [0]
  /\ (forall i, zget 0 r i = zget 0 [0] i
                \/ (zget 0 (areas single_chf) i <> RC_NULL_AREA
                    /\ is_border (zget 0 r i) = true))
  /\ (forall x z i,
        span_of_cell single_chf x z i -> 0 <= i < Z.of_nat (length [0]) ->
        zget 0 (areas single_chf) i <> RC_NULL_AREA ->
        x < 1 \/ width single_chf - 1 <= x \/ z < 1 \/ height single_chf - 1 <= z ->
        is_border (zget 0 r i) = true).
Proof. apply (paint_borders_flags_strips single_chf 1 [0] 1). lia. Defined.

(** ** [removeAdjacentNeighbours] and [mergeRegions] *)

Lemma zget_lookup (l : list Z) j : 0 <= j -> zget 0 l j = default 0 (l !! Z.to_nat j).
Proof.
  intros Hj. unfold zget. destruct (j <? 0) eqn:E; [lia|]. apply nth_lookup.
Qed.

Lemma remove_at_length l i :
  0 <= i < Z.of_nat (length l) -> Z.of_nat (length (remove_at l i)) = Z.of_nat (length l) - 1.
Proof.
  intros Hi. unfold remove_at. rewrite length_app, length_take, length_drop. lia.
Qed.

Lemma zget_remove_at l i j :
  0 <= i < Z.of_nat (length l) -> 0 <= j ->
  zget 0 (remove_at l i) j = if j <? i then zget 0 l j else zget 0 l (j + 1).
Proof.
  intros Hi Hj. rewrite !zget_lookup by lia. unfold remove_at.
  destruct (Z.ltb_spec j i) as [Hlt|Hge].
  - rewrite lookup_app_l by (rewrite length_take; lia).
    rewrite lookup_take_lt by lia. reflexivity.
  - rewrite lookup_app_r by (rewrite length_take; lia).
    rewrite length_take, lookup_drop. f_equal. f_equal. lia.
Qed.

Lemma remove_at_sublist l i : remove_at l i `sublist_of` l.
Proof.
  unfold remove_at. rewrite <- (take_drop (Z.to_nat i) l) at 3.
  apply sublist_app; [reflexivity|].
  replace (S (Z.to_nat i)) with (Z.to_nat i + 1)%nat by lia.
  rewrite <- drop_drop. apply sublist_drop.
Qed.

Lemma dedup_loop_spec fuel : forall i l,
  0 <= i <= Z.of_nat (length l) ->
  (forall j, 0 <= j < i -> j + 1 < Z.of_nat (length l) -> zget 0 l j <> zget 0 l (j + 1)) ->
  (i = Z.of_nat (length l) -> 1 < Z.of_nat (length l) ->
     zget 0 l (Z.of_nat (length l) - 1) <> zget 0 l 0) ->
  2 * Z.of_nat (length l) - i < Z.of_nat fuel ->
  no_adjacent_duplicates (dedup_loop fuel true i l)
  /\ dedup_loop fuel true i l `sublist_of` l
  /\ (l <> [] -> dedup_loop fuel true i l <> []).
Proof.
  induction fuel as [|fuel IH]; intros i l Hi Hin Hwrap Hfuel; [lia|].
  cbn [dedup_loop negb orb]. set (size := Z.of_nat (length l)) in *.
  destruct ((i <? size) && (size >? 1)) eqn:Ec.
  - apply andb_true_iff in Ec. destruct Ec as [E1 E2].
    apply Z.ltb_lt in E1. rewrite Z.gtb_ltb in E2. apply Z.ltb_lt in E2.
    destruct (zget 0 l i =? zget 0 l ((i + 1) mod size)) eqn:Eq.
    + apply Z.eqb_eq in Eq.
      assert (Hlen : Z.of_nat (length (remove_at l i)) = size - 1)
        by (apply remove_at_length; lia).
      destruct (IH i (remove_at l i)) as (H1 & H2 & H3).
      * lia.
      * intros j Hj Hj1. rewrite !zget_remove_at by lia.
        assert (Ej : (j <? i) = true) by lia. rewrite Ej.
        destruct (Z.ltb_spec (j + 1) i) as [Hlt|Hge].
        -- apply Hin; lia.
        -- assert (j + 1 = i) by lia. replace (j + 1 + 1) with (i + 1) by lia.
           rewrite Z.mod_small in Eq by lia. rewrite <- Eq.
           replace i with (j + 1) by lia. apply Hin; lia.
      * intros Hi' Hl'. rewrite Hlen in *. rewrite !zget_remove_at by lia.
        assert (Ea : (size - 1 - 1 <? i) = true) by lia.
        assert (Eb : (0 <? i) = true) by lia. rewrite Ea, Eb.
        replace ((i + 1) mod size) with 0 in Eq
          by (replace (i + 1) with size by lia; symmetry; apply Z.mod_same; lia).
        rewrite <- Eq. intros Hc. apply (Hin (size - 1 - 1)); [lia|lia|].
        rewrite Hc. f_equal. lia.
      * lia.
      * split; [exact H1|]. split.
        -- etransitivity; [exact H2|apply remove_at_sublist].
        -- intros _. apply H3. intros E. rewrite E in Hlen. simpl in Hlen. lia.
    + apply Z.eqb_neq in Eq.
      destruct (IH (i + 1) l) as (H1 & H2 & H3).
      * fold size. lia.
      * intros j Hj Hj1. destruct (Z.eq_dec j i) as [->|Hne]; [|apply Hin; lia].
        fold size in Hj1. rewrite Z.mod_small in Eq by lia. exact Eq.
      * fold size. intros Hi' _. replace (size - 1) with i by lia.
        replace ((i + 1) mod size) with 0 in Eq
          by (rewrite Hi'; symmetry; apply Z.mod_same; lia).
        exact Eq.
      * fold size. lia.
      * auto.
  - split; [|split; [reflexivity|auto]].
    intros j Hj Hj1. fold size in Hj, Hj1 |- *.
    apply andb_false_iff in Ec. destruct Ec as [Ec|Ec].
    + apply Z.ltb_ge in Ec. assert (Hi' : i = size) by lia.
      destruct (Z.eq_dec (j + 1) size) as [He|Hne].
      * rewrite He, Z.mod_same by lia. replace j with (size - 1) by lia.
        apply Hwrap; assumption.
      * rewrite Z.mod_small by lia. apply Hin; lia.
    + rewrite Z.gtb_ltb in Ec. apply Z.ltb_ge in Ec. lia.
Qed.

(** After [removeAdjacentNeighbours] no two neighbour ids that are next to
    each other in the ring of connections (the last and the first included)
    are equal, unless a single id is left.  The ids that remain are a
    subsequence of the old ones, a non-empty ring stays non-empty, and no
    other field of the region changes. *)
Theorem removeAdjacentNeighbours_no_adjacent_duplicates reg :
  let c := connections (removeAdjacentNeighbours reg) in
  no_adjacent_duplicates c
  /\ c `sublist_of` connections reg
  /\ (connections reg <> [] -> c <> [])
  /\ removeAdjacentNeighbours reg = set_connections reg c.
Proof.
  cbv zeta. unfold removeAdjacentNeighbours. cbn [connections set_connections].
  destruct (dedup_loop_spec (2 * length (connections reg) + 1) 0 (connections reg))
    as (H1 & H2 & H3); try lia.
  auto.
Qed.

Lemma find_first_spec v l : forall i,
  0 <= i ->
  (find_first v l i = -1 <-> ~ In v l) /\ (find_first v l i = -1 \/ i <= find_first v l i).
Proof.
  induction l as [|c rest IH]; intros i Hi; simpl.
  - split; [tauto|auto].
  - destruct (Z.eqb_spec c v) as [->|Hne].
    + split; [|right; lia]. split; [lia|]. intros H. exfalso. apply H. left. reflexivity.
    + destruct (IH (i + 1) ltac:(lia)) as [H1 H2]. split; [|lia].
      rewrite H1. split; [intros H [E|E]; [congruence|exact (H E)]|tauto].
Qed.

Lemma addUniqueFloorRegion_fields reg n :
  let r := addUniqueFloorRegion reg n in
  connections r = connections reg /\ spanCount r = spanCount reg /\ id r = id reg
  /\ areaType r = areaType reg
  /\ (forall f, In f (floors r) <-> In f (floors reg) \/ f = n)
  /\ (NoDup (floors reg) -> NoDup (floors r)).
Proof.
  cbv zeta. unfold addUniqueFloorRegion.
  destruct (existsb (fun f => f =? n) (floors reg)) eqn:E.
  - apply existsb_exists in E. destruct E as (f0 & Hin & Hf). apply Z.eqb_eq in Hf. subst f0.
    repeat split; auto. intros [H| ->]; assumption.
  - cbn [connections spanCount id areaType floors set_floors]. repeat split; auto.
    + intros H. apply in_app_or in H. destruct H as [H|[H|[]]]; auto.
    + intros [H| ->]; apply in_or_app; [left; exact H|right; left; reflexivity].
    + intros Hnd. apply (proj2 (list.NoDup_app (floors reg) [n])).
      split; [exact Hnd|]. split; [|apply NoDup_singleton].
      intros x Hx Hx'. apply list_elem_of_In in Hx. apply list_elem_of_In in Hx'.
      destruct Hx' as [<-|[]].
      assert (Hex : existsb (fun f => f =? n) (floors reg) = true).
      { apply existsb_exists. exists n. split; [exact Hx|apply Z.eqb_refl]. }
      congruence.
Qed.

Lemma add_floors_fields l : forall reg,
  let r := fold_left addUniqueFloorRegion l reg in
  connections r = connections reg /\ spanCount r = spanCount reg /\ id r = id reg
  /\ areaType r = areaType reg
  /\ (forall f, In f (floors r) <-> In f (floors reg) \/ In f l)
  /\ (NoDup (floors reg) -> NoDup (floors r)).
Proof.
  induction l as [|n l IH]; intros reg; cbv zeta; simpl.
  - repeat split; auto. tauto.
  - pose proof (addUniqueFloorRegion_fields reg n) as H. cbv zeta in H.
    destruct H as (A1 & A2 & A3 & A4 & A5 & A6).
    specialize (IH (addUniqueFloorRegion reg n)). cbv zeta in IH.
    destruct IH as (B1 & B2 & B3 & B4 & B5 & B6).
    repeat split; try congruence.
    + intros H. apply B5 in H. rewrite A5 in H. destruct H as [[H| ->]|H]; auto.
    + intros H. apply B5. rewrite A5. destruct H as [H|[<-|H]]; auto.
    + auto.
Qed.

Lemma rotated_In (con : list Z) ins k :
  0 <= ins -> 0 <= k -> con <> [] ->
  In (zget 0 con ((ins + 1 + k) mod Z.of_nat (length con))) con.
Proof.
  intros Hi Hk Hne.
  assert (Hl : 0 < Z.of_nat (length con)) by (destruct con; [congruence|simpl; lia]).
  pose proof (Z.mod_pos_bound (ins + 1 + k) (Z.of_nat (length con)) Hl) as Hm.
  unfold zget. destruct (_ <? 0) eqn:E; [lia|]. apply nth_In. lia.
Qed.

(** [mergeRegions] fails exactly when the two regions do not name each
    other among their connections.  When it succeeds, region A takes over
    the spans of region B and B is left with none; the floors of A become
    the union of both floor lists, without a duplicate if A had none; the
    new ring of connections of A is made of ids from the two old rings and
    has no two equal ids next to each other. *)
Theorem mergeRegions_joins_regions rega regb :
  (mergeRegions rega regb = None
   <-> ~ In (id regb) (connections rega) \/ ~ In (id rega) (connections regb))
  /\ forall rega' regb', mergeRegions rega regb = Some (rega', regb') ->
       id rega' = id rega /\ areaType rega' = areaType rega
       /\ spanCount rega' = spanCount rega + spanCount regb
       /\ regb' = set_connections (set_spanCount regb 0) []
       /\ (forall f, In f (floors rega') <-> In f (floors rega) \/ In f (floors regb))
       /\ (NoDup (floors rega) -> NoDup (floors rega'))
       /\ no_adjacent_duplicates (connections rega')
       /\ (forall c, In c (connections rega') ->
             In c (connections rega) \/ In c (connections regb)).
Proof.
  unfold mergeRegions.
  destruct (find_first_spec (id regb) (connections rega) 0 ltac:(lia)) as [Ha Ha'].
  destruct (find_first_spec (id rega) (connections regb) 0 ltac:(lia)) as [Hb Hb'].
  destruct (Z.eqb_spec (find_first (id regb) (connections rega) 0) (-1)) as [Ea|Ea].
  { split; [split; [intros _; left; apply Ha; exact Ea|reflexivity]|discriminate]. }
  destruct (Z.eqb_spec (find_first (id rega) (connections regb) 0) (-1)) as [Eb|Eb].
  { split; [split; [intros _; right; apply Hb; exact Eb|reflexivity]|discriminate]. }
  split.
  { split; [discriminate|]. intros [H|H]; [apply Ha in H|apply Hb in H]; contradiction. }
  intros rega' regb' H. injection H as <- <-.
  set (c1 := map _ (seqZ 0 (Z.of_nat (length (connections rega)) - 1))).
  set (c2 := map _ (seqZ 0 (Z.of_nat (length (connections regb)) - 1))).
  destruct (dedup_loop_spec (2 * length (c1 ++ c2) + 1) 0 (c1 ++ c2)) as (R1 & R2 & _);
    try lia.
  assert (R4 : removeAdjacentNeighbours (set_connections rega (c1 ++ c2))
               = set_connections rega
                   (dedup_loop (2 * length (c1 ++ c2) + 1) true 0 (c1 ++ c2))) by reflexivity.
  set (rega1 := removeAdjacentNeighbours (set_connections rega (c1 ++ c2))) in *.
  assert (Hcon : connections rega1
                 = dedup_loop (2 * length (c1 ++ c2) + 1) true 0 (c1 ++ c2))
    by (rewrite R4; reflexivity).
  rewrite <- Hcon in R1, R2.
  pose proof (add_floors_fields (floors regb) rega1) as Hf. cbv zeta in Hf.
  destruct Hf as (F1 & F2 & F3 & F4 & F5 & F6).
  set (rega2 := fold_left addUniqueFloorRegion (floors regb) rega1) in *.
  cbn [id areaType spanCount floors connections set_spanCount].
  assert (Hfl : floors rega1 = floors rega) by (rewrite R4; reflexivity).
  assert (Hid : id rega1 = id rega) by (rewrite R4; reflexivity).
  assert (Hat : areaType rega1 = areaType rega) by (rewrite R4; reflexivity).
  assert (Hsc : spanCount rega1 = spanCount rega) by (rewrite R4; reflexivity).
  rewrite Hfl in F5, F6.
  split; [congruence|]. split; [congruence|]. split; [rewrite F2, Hsc; reflexivity|].
  split; [reflexivity|]. split; [exact F5|]. split; [exact F6|].
  rewrite F1. split; [exact R1|].
  intros c Hc. apply list_elem_of_In in Hc. apply (fun H => elem_of_sublist _ _ _ H R2) in Hc.
  cbn [connections set_connections] in Hc. apply list_elem_of_In in Hc.
  apply in_app_or in Hc. destruct Hc as [Hc|Hc]; apply in_map_iff in Hc;
    destruct Hc as (k & <- & Hk); apply list_elem_of_In, elem_of_seqZ in Hk.
  - left. apply rotated_In; [lia|lia|]. intros E. rewrite E in Hk. simpl in Hk. lia.
  - right. apply rotated_In; [lia|lia|]. intros E. rewrite E in Hk. simpl in Hk. lia.
Qed.

(** ** The row sweep leaves the border strips alone *)

Lemma fold_option_None {S B} (f : S -> B -> option S) l :
  fold_left (fun st b => s ← st ; f s b) l None = None.
Proof. induction l as [|b l IH]; simpl; auto. Qed.

Lemma fold_option_inv {S B} (I : S -> Prop) (f : S -> B -> option S) l : forall st0 st r,
  fold_left (fun st b => s ← st ; f s b) l st0 = Some r ->
  st0 = Some st -> I st ->
  (forall b s s', In b l -> f s b = Some s' -> I s -> I s') ->
  I r.
Proof.
  induction l as [|b l IH]; intros st0 st r H -> Hst Hstep; simpl in H.
  - injection H as <-. exact Hst.
  - destruct (f st b) as [s'|] eqn:E; [|rewrite fold_option_None in H; discriminate].
    apply (IH (Some s') s' r H eq_refl).
    + apply (Hstep b st s'); auto. left. reflexivity.
    + intros b' s1 s2 Hin. apply Hstep. right. exact Hin.
Qed.

Lemma for_row_inv {S} (I : S -> Prop) chf y xs (body : Z -> Z -> Z -> S -> option S) st r :
  Sweep.for_row chf y xs body st = Some r -> I st ->
  (forall x i s s', In x xs ->
     (let cell := zget cell0 (cells chf) (x + y * width chf) in
      index cell <= i < index cell + count cell) ->
     body x y i s = Some s' -> I s -> I s') ->
  I r.
Proof.
  unfold Sweep.for_row. intros H Hst Hstep.
  revert st Hst H. induction xs as [|x xs IH]; intros st Hst H; simpl in H.
  - injection H as <-. exact Hst.
  - set (cell := zget cell0 (cells chf) (x + y * width chf)) in *.
    destruct (fold_left (fun st i => s ← st ; body x y i s)
                (seqZ (index cell) (count cell)) (Some st)) as [s1|] eqn:E.
    + apply (IH (fun x' i s s' Hin => Hstep x' i s s' (or_intror Hin)) s1); [|exact H].
      apply (fold_option_inv I (fun s i => body x y i s) _ _ st s1 E eq_refl Hst).
      intros i s s' Hin Hb Hs. apply (Hstep x i s s'); auto.
      * left. reflexivity.
      * apply list_elem_of_In, elem_of_seqZ in Hin. fold cell. lia.
    + exfalso. clear -H. revert H.
      assert (Hn : forall l, fold_left (fun (st : option S) (x0 : Z) =>
                     fold_left (fun st i => s ← st ; body x0 y i s)
                       (seqZ (index (zget cell0 (cells chf) (x0 + y * width chf)))
                             (count (zget cell0 (cells chf) (x0 + y * width chf)))) st)
                     l None = None).
      { induction l as [|b l IHl]; simpl; [reflexivity|].
        rewrite fold_option_None. exact IHl. }
      rewrite Hn. discriminate.
Qed.

Lemma sweep_span_other chf x y i st st' k :
  Sweep.sweep_span chf x y i st = Some st' -> i <> k ->
  zget 0 (Sweep.srcReg st') k = zget 0 (Sweep.srcReg st) k.
Proof.
  unfold Sweep.sweep_span. intros H Hne.
  destruct (zget 0 (areas chf) i =? RC_NULL_AREA); [injection H as <-; reflexivity|].
  match type of H with mbind _ ?m = Some _ => destruct m as [[[previd rid'] sweeps1]|] end;
    [|discriminate].
  cbn [mbind option_bind] in H.
  match type of H with mbind _ ?m = Some _ => destruct m as [[sweeps2 prev2]|] end;
    [|discriminate].
  cbn [mbind option_bind] in H. injection H as <-. cbn [Sweep.srcReg].
  apply zget_zset_ne. exact Hne.
Qed.

Lemma remap_span_other rid_end sweeps x y i srcReg srcReg' k :
  Sweep.remap_span rid_end sweeps x y i srcReg = Some srcReg' -> i <> k ->
  zget 0 srcReg' k = zget 0 srcReg k.
Proof.
  unfold Sweep.remap_span. intros H Hne.
  destruct (_ && _); [|injection H as <-; reflexivity].
  destruct (Sweep.sweeps_get sweeps (zget 0 srcReg i)) as [sp|]; [|discriminate].
  cbn [mbind option_bind] in H. injection H as <-. apply zget_zset_ne. exact Hne.
Qed.

(** A span that belongs to no cell of the swept rows and columns keeps its label. *)
Lemma sweep_row_other chf borderSize srcReg0 sweeps0 id0 y srcReg1 sweeps1 id1 k :
  Sweep.sweep_row chf borderSize (srcReg0, sweeps0, id0) y = Some (srcReg1, sweeps1, id1) ->
  (forall x i, borderSize <= x < width chf - borderSize ->
     (let cell := zget cell0 (cells chf) (x + y * width chf) in
      index cell <= i < index cell + count cell) -> i <> k) ->
  zget 0 srcReg1 k = zget 0 srcReg0 k.
Proof.
  unfold Sweep.sweep_row. intros H Hk.
  destruct (Sweep.for_row chf y _ (Sweep.sweep_span chf) _) as [row|] eqn:E1; [|discriminate].
  cbn [mbind option_bind] in H.
  destruct (Sweep.assign_ids _ _ _ _) as [[sw idn]|]; [|discriminate].
  cbn [mbind option_bind] in H.
  destruct (Sweep.for_row chf y _ (Sweep.remap_span _ _) _) as [sr|] eqn:E2; [|discriminate].
  cbn [mbind option_bind] in H. injection H as <- <- <-.
  assert (Hxs : forall x, In x (seqZ borderSize (width chf - borderSize - borderSize)) ->
            borderSize <= x < width chf - borderSize).
  { intros x Hx. apply list_elem_of_In, elem_of_seqZ in Hx. lia. }
  transitivity (zget 0 (Sweep.srcReg row) k).
  - apply (for_row_inv (fun s => zget 0 s k = zget 0 (Sweep.srcReg row) k) _ _ _ _ _ _ E2);
      [reflexivity|].
    intros x i s s' Hx Hi Hb Hs. rewrite <- Hs.
    apply (remap_span_other _ _ _ _ _ _ _ _ Hb). apply (Hk x i); auto.
  - apply (for_row_inv (fun st => zget 0 (Sweep.srcReg st) k = zget 0 srcReg0 k)
             _ _ _ _ _ _ E1); [reflexivity|].
    intros x i s s' Hx Hi Hb Hs. rewrite <- Hs.
    apply (sweep_span_other _ _ _ _ _ _ _ Hb). apply (Hk x i); auto.
Qed.

Lemma sweep_rows_other chf borderSize k ys : forall st r,
  fold_left (fun st y => s ← st ; Sweep.sweep_row chf borderSize s y) ys (Some st) = Some r ->
  (forall x y i, borderSize <= x < width chf - borderSize -> In y ys ->
     (let cell := zget cell0 (cells chf) (x + y * width chf) in
      index cell <= i < index cell + count cell) -> i <> k) ->
  zget 0 (fst (fst r)) k = zget 0 (fst (fst st)) k.
Proof.
  intros st r H Hk.
  apply (fold_option_inv (fun s => zget 0 (fst (fst s)) k = zget 0 (fst (fst st)) k)
           _ _ _ st r H eq_refl eq_refl).
  intros y [[s0 w0] i0] [[s1 w1] i1] Hy Hrow Hs. cbn [fst] in *. rewrite <- Hs.
  apply (sweep_row_other _ _ _ _ _ _ _ _ _ _ Hrow).
  intros x i Hx Hi. apply (Hk x y i); auto.
Qed.

Lemma write_regs_reg chf srcReg k :
  0 <= k < Compact.spanCount chf -> k < Z.of_nat (length (spans chf)) ->
  reg (zget span0 (write_regs chf srcReg) k) = zget 0 srcReg k.
Proof.
  intros Hk Hl. unfold write_regs.
  apply (fold_left_establishes _ (fun st => length st = length (spans chf))
           (fun st => reg (zget span0 st k) = zget 0 srcReg k)) with (b0 := k).
  - intros st i Hst. rewrite zset_length. exact Hst.
  - intros st i Hst Hp. destruct (Z.eq_dec i k) as [->|Hne].
    + rewrite zget_zset_eq by lia. reflexivity.
    + rewrite zget_zset_ne by exact Hne. exact Hp.
  - intros st Hst. rewrite zget_zset_eq by lia. reflexivity.
  - apply In_seqZ. lia.
  - reflexivity.
Qed.

Lemma sweep_regions_border chf borderSize srcReg id x z k :
  0 < borderSize ->
  layout (width chf) (height chf) (cells chf) (spans chf) ->
  Sweep.sweep_regions chf borderSize = Some (srcReg, id) ->
  span_of_cell chf x z k -> 0 <= k < Compact.spanCount chf ->
  zget 0 (areas chf) k <> RC_NULL_AREA ->
  in_border_strip chf borderSize x z ->
  is_border (zget 0 srcReg k) = true.
Proof.
  intros Hb [_ Hdis] H Hc Hk Ha Hs. unfold Sweep.sweep_regions in H.
  pose proof (paint_borders_marks_strips chf borderSize
                (replicate (Z.to_nat (Compact.spanCount chf)) 0) 1 x z k Hb Hc
                ltac:(rewrite length_replicate; lia) Ha Hs) as Hp.
  destruct (Sweep.paint_borders chf borderSize _ 1) as [srcReg1 id1]. cbn [fst] in Hp.
  destruct (Sweep.sweep_rows chf borderSize _) as [[[srcReg2 sw2] id2]|] eqn:E; [|discriminate].
  cbn [mbind option_bind] in H. injection H as <- <-.
  unfold Sweep.sweep_rows in E.
  pose proof (sweep_rows_other chf borderSize k _ _ _ E) as Hkeep. cbn [fst] in Hkeep.
  rewrite Hkeep; [exact Hp|].
  intros x' y' i Hx' Hy' Hi Heq. subst i.
  apply list_elem_of_In, elem_of_seqZ in Hy'.
  destruct Hc as (Hx & Hz & Hc). cbv zeta in Hi, Hc.
  assert (E1 : x' + y' * width chf = x + z * width chf).
  { apply (Hdis _ _ k); try nia; unfold in_cell; assumption. }
  destruct (FilterFacts.cell_index_inj (width chf) x z x' y' Hx ltac:(lia) E1) as [-> ->].
  unfold in_border_strip in Hs. lia.
Qed.

(** Both row-sweep partitioners respect the border.  When
    [rcBuildRegionsMonotone] or [rcBuildLayerRegions] succeeds with
    [borderSize > 0] on a compact heightfield whose cells do not share
    spans, every walkable span of a column within [borderSize] cells of an
    edge of the grid ends with a region id that carries the
    [RC_BORDER_REG] flag: the sweep and the merging and filtering of
    regions leave the painted strips alone. *)
Theorem sweep_partitioners_flag_border a1 a2 a3 log chf borderSize minRegionArea
    mergeRegionArea chf' log' x z k :
  rcBuildRegionsMonotone a1 a2 a3 log chf borderSize minRegionArea mergeRegionArea
    = Some (true, chf', log')
  \/ rcBuildLayerRegions a1 a2 a3 log chf borderSize minRegionArea = Some (true, chf', log') ->
  0 < borderSize ->
  layout (width chf) (height chf) (cells chf) (spans chf) ->
  span_of_cell chf x z k -> 0 <= k < Compact.spanCount chf ->
  zget 0 (areas chf) k <> RC_NULL_AREA ->
  in_border_strip chf borderSize x z ->
  is_border (reg (zget span0 (spans chf') k)) = true.
Proof.
  intros H Hb Hl Hc Hk Ha Hs.
  assert (Hlen : k < Z.of_nat (length (spans chf))).
  { destruct Hl as [Hl _]. destruct Hc as (Hx & Hz & Hc). cbv zeta in Hc.
    specialize (Hl (x + z * width chf) ltac:(nia)). lia. }
  assert (Hflag : forall srcReg, is_border (zget 0 srcReg k) = true ->
            Z.land (zget 0 srcReg k) RC_BORDER_REG <> 0).
  { intros srcReg Hf. unfold is_border in Hf.
    destruct (Z.eqb_spec (Z.land (zget 0 srcReg k) RC_BORDER_REG) 0); [discriminate|assumption]. }
  destruct H as [H|H].
  - unfold rcBuildRegionsMonotone in H.
    destruct (negb a1); [discriminate|]. destruct (negb a2); [discriminate|].
    destruct (Sweep.sweep_regions chf borderSize) as [[srcReg id0]|] eqn:E; [|discriminate].
    cbn [mbind option_bind] in H.
    pose proof (sweep_regions_border _ _ _ _ _ _ _ Hb Hl E Hc Hk Ha Hs) as Hf.
    unfold mergeAndFilterRegions in H. destruct a3; cbn [negb] in H; [|discriminate].
    destruct (compress_ids _) as [regions4 regIdGen].
    cbn [negb] in H. injection H as <- <-. cbn [spans with_regions].
    rewrite write_regs_reg by assumption.
    rewrite remap_keeps_border by (apply Hflag; exact Hf). exact Hf.
  - unfold rcBuildLayerRegions in H.
    destruct (negb a1); [discriminate|]. destruct (negb a2); [discriminate|].
    destruct (Sweep.sweep_regions chf borderSize) as [[srcReg id0]|] eqn:E; [|discriminate].
    cbn [mbind option_bind] in H.
    pose proof (sweep_regions_border _ _ _ _ _ _ _ Hb Hl E Hc Hk Ha Hs) as Hf.
    unfold mergeAndFilterLayerRegions in H. destruct a3; cbn [negb] in H; [|discriminate].
    destruct (layer_roots _) as [regions2 u].
    destruct (compress_ids _) as [regions4 regIdGen].
    cbn [negb] in H. injection H as <- <-. cbn [spans with_regions].
    rewrite write_regs_reg by assumption.
    rewrite remap_keeps_border by (apply Hflag; exact Hf). exact Hf.
Qed.

Lemma sweep_partitioners_flag_border_witness :
  is_border
    (reg (zget span0
            (spans (mkCompactHeightfield 1 1 1 3 1 1 0 5 [mkCell 0 1]
                      [mkCSpan 1 32772 16777215 255] [] [63])) 0)) = true.
Proof.
  assert (Hwh : width single_chf * height single_chf = 1) by (vm_compute; reflexivity).
  apply (sweep_partitioners_flag_border true true true [] single_chf 1 0 0 _ [] 0 0 0).
  - left. vm_compute. reflexivity.
  - lia.
  - split.
    + intros c Hc. rewrite Hwh in Hc. assert (c = 0) by lia. subst c.
      vm_compute. split; discriminate.
    + intros c c' i Hc Hc' _ _. rewrite Hwh in Hc, Hc'. lia.
  - unfold span_of_cell. vm_compute. intuition congruence.
  - vm_compute. intuition congruence.
  - vm_compute. discriminate.
  - unfold in_border_strip. left. lia.
Defined.

Lemma rcBuildDistanceField_bounds_witness :
  zget 0 (dist (snd (fst (rcBuildDistanceField true true [] single_chf)))) 0 = 0.
Proof.
  pose proof (rcBuildDistanceField_bounds [] single_chf) as H. cbv zeta in H.
  destruct H as (_ & _ & _ & H).
  apply (H 0 0 0); unfold span_of_cell; vm_compute; intuition congruence.
Defined.

Lemma mergeRegions_joins_regions_witness :
  exists rega' regb',
    mergeRegions pair_a pair_b = Some (rega', regb')
    /\ spanCount rega' = spanCount pair_a + spanCount pair_b
    /\ regb' = set_connections (set_spanCount pair_b 0) []
    /\ (forall f, In f (floors rega') <-> In f (floors pair_a) \/ In f (floors pair_b))
    /\ no_adjacent_duplicates (connections rega').
Proof.
  eexists. eexists. split; [vm_compute; reflexivity|].
  destruct (mergeRegions_joins_regions pair_a pair_b) as [_ H].
  destruct (H _ _ eq_refl) as (_ & _ & H3 & H4 & H5 & _ & H7 & _).
  repeat split; try assumption; apply H5.
Defined.

End RegionFacts.

(** ** Clipping *)

Module ClipFacts.
Import Heightfield Rasterization Clip.

Lemma sub_self x : Float32.is_finite x = true -> Float32.sub x x = S754_zero false.
Proof.
  destruct x as [s| | |s m e]; simpl; try discriminate; intros _.
  - unfold Float32.sub, SFsub. destruct s; reflexivity.
  - unfold Float32.sub, SFsub.
    assert (Hd : forall a : Z, IntDef.Z.sub a a = 0) by (intros a; apply Z.sub_diag).
    assert (Hm : forall a : Z, IntDef.Z.min a a = a) by (intros a; apply Z.min_id).
    rewrite Hm. unfold shl_align. rewrite (Hd e). cbv beta iota. rewrite Hd. reflexivity.
Qed.

Lemma dividePoly_loop_on_plane axis c verts : Float32.is_finite c = true ->
  on_plane axis c verts ->
  forall vB out1 out2, coord vB axis = c ->
    dividePoly_loop c axis vB verts out1 out2 = (out1 ++ verts, out2 ++ verts).
Proof.
  intros Hc. induction 1 as [|vA rest HA Hrest IH]; intros vB out1 out2 HB; simpl.
  - rewrite !app_nil_r. reflexivity.
  - rewrite HA, HB, (sub_self c Hc). cbn -[dividePoly_loop app].
    rewrite IH by exact HA. rewrite <- !app_assoc. reflexivity.
Qed.

(** One step through a bind of the option monad in hypothesis [H]. *)
Ltac bind_step H x :=
  match type of H with
  | mbind _ ?m = Some _ => destruct m as [x|] eqn:?; simpl in H; [|discriminate]
  end.

Lemma fmin_same c : fmin c c = c.
Proof. unfold fmin. destruct (Float32.ltb c c); reflexivity. Qed.

Lemma fmax_same c : fmax c c = c.
Proof. unfold fmax. destruct (Float32.ltb c c); reflexivity. Qed.

Lemma column_fragment_cell g x z a p1 ops :
  column_fragment g x z a p1 = Some ops ->
  forall op, In op ops -> insertion_cell op = (x, z) /\ 0 <= x.
Proof.
  unfold column_fragment. intros H op Hin.
  destruct (Z.of_nat (length p1) <? 3); [inversion H; subst; destruct Hin|].
  destruct (x <? 0) eqn:Hx; [inversion H; subst; destruct Hin|]. apply Z.ltb_ge in Hx.
  destruct p1 as [|v rest]; [inversion H; subst; destruct Hin|].
  destruct (Float32.ltb _ Float32.zero); [inversion H; subst; destruct Hin|].
  destruct (Float32.ltb _ _); [inversion H; subst; destruct Hin|].
  bind_step H fl. bind_step H ce.
  inversion H; subst. destruct Hin as [<-|[]]. simpl. split; [reflexivity|lia].
Qed.

Lemma column_loop_cell g z a xs : forall inRow ops,
  column_loop g z a xs inRow = Some ops ->
  forall op, In op ops -> exists x, In x xs /\ 0 <= x /\ insertion_cell op = (x, z).
Proof.
  induction xs as [|x xs IH]; intros inRow ops H op Hin; simpl in H.
  - inversion H; subst. destruct Hin.
  - destruct (dividePoly inRow _ RC_AXIS_X) as [p1 p2].
    destruct (column_fragment g x z a p1) as [here|] eqn:Eh; simpl in H; [|discriminate].
    destruct (column_loop g z a xs p2) as [more|] eqn:Em; simpl in H; [|discriminate].
    inversion H; subst. apply in_app_or in Hin. destruct Hin as [Hin|Hin].
    + destruct (column_fragment_cell _ _ _ _ _ _ Eh op Hin) as [Hc Hx].
      exists x. split; [left; reflexivity|]. split; [exact Hx|exact Hc].
    + destruct (IH _ _ Em op Hin) as (x' & Hx' & H0 & Hc).
      exists x'. split; [right; exact Hx'|]. split; [exact H0|exact Hc].
Qed.

Lemma fold_same {A} (f : A -> vec3 -> A) (rest : list vec3) (c : A) :
  (forall v, In v rest -> f c v = c) -> fold_left f rest c = c.
Proof.
  induction rest as [|v rest IH]; intros H; simpl; [reflexivity|].
  rewrite (H v (or_introl eq_refl)). apply IH. intros v' Hv'. apply H. right. exact Hv'.
Qed.

(** The columns a row polygon reaches. *)
Lemma row_fragments_cell g z a inRow ops :
  row_fragments g z a inRow = Some ops ->
  forall op, In op ops -> 0 <= z /\ snd (insertion_cell op) = z /\ 0 <= fst (insertion_cell op).
Proof.
  unfold row_fragments. intros H op Hin.
  destruct (Z.of_nat (length inRow) <? 3); [inversion H; subst; destruct Hin|].
  destruct (z <? 0) eqn:Hz; [inversion H; subst; destruct Hin|]. apply Z.ltb_ge in Hz.
  destruct inRow as [|v rest]; [inversion H; subst; destruct Hin|].
  bind_step H x0. bind_step H x1.
  destruct (_ || _); [inversion H; subst; destruct Hin|].
  destruct (column_loop_cell _ _ _ _ _ _ H op Hin) as (x & _ & Hx & Hc).
  rewrite Hc. simpl. auto.
Qed.

Lemma row_loop_cell g a zs : forall in_ ops,
  row_loop g a zs in_ = Some ops ->
  forall op, In op ops -> In (snd (insertion_cell op)) zs /\ 0 <= snd (insertion_cell op).
Proof.
  induction zs as [|z zs IH]; intros in_ ops H op Hin; simpl in H.
  - inversion H; subst. destruct Hin.
  - destruct (dividePoly in_ _ RC_AXIS_Z) as [inRow p1].
    destruct (row_fragments g z a inRow) as [here|] eqn:Eh; simpl in H; [|discriminate].
    destruct (row_loop g a zs p1) as [more|] eqn:Em; simpl in H; [|discriminate].
    inversion H; subst. apply in_app_or in Hin. destruct Hin as [Hin|Hin].
    + destruct (row_fragments_cell _ _ _ _ _ Eh op Hin) as (Hz & Hc & _).
      rewrite Hc. split; [left; reflexivity|exact Hz].
    + destruct (IH _ _ Em op Hin) as [H1 H2]. split; [right; exact H1|exact H2].
Qed.

(** Between the two clamps of one index there is at most one row (column)
    that is not negative. *)
Lemma clamped_range k n r :
  rcClamp k (-1) (n - 1) <= r < rcClamp k (-1) (n - 1) + (rcClamp k 0 (n - 1) - rcClamp k (-1) (n - 1) + 1) ->
  0 <= r -> r = rcClamp k 0 (n - 1).
Proof.
  unfold rcClamp.
  destruct (Z.ltb_spec k (-1)), (Z.ltb_spec k 0), (Z.gtb_spec k (n - 1)); lia.
Qed.

(** The bounding box of a triangle with a common Z coordinate is flat. *)
Lemma triangle_bounds_on_plane v0 v1 v2 c :
  on_plane RC_AXIS_Z c [v0; v1; v2] ->
  coord (rcVmin (rcVmin v0 v1) v2) RC_AXIS_Z = c /\
  coord (rcVmax (rcVmax v0 v1) v2) RC_AXIS_Z = c.
Proof.
  intros Hp.
  inversion Hp as [|? ? H0 Hp1]; subst. inversion Hp1 as [|? ? H1 Hp2]; subst.
  inversion Hp2 as [|? ? H2 _]; subst.
  destruct v0 as [[x0 y0] z0], v1 as [[x1 y1] z1], v2 as [[x2 y2] z2].
  cbn [coord rcVmin rcVmax] in *. subst. rewrite !fmin_same, !fmax_same. split; reflexivity.
Qed.

(** A triangle whose vertices share their Z coordinate reaches one row. *)
Lemma triangle_fragments_row g v0 v1 v2 a c k ops :
  on_plane RC_AXIS_Z c [v0; v1; v2] ->
  Float32.to_int (Float32.mul (Float32.sub c (coord (heightfieldBBMin g) RC_AXIS_Z))
                    (inverseCellSize g)) = Some k ->
  triangle_fragments g v0 v1 v2 a = Some ops ->
  forall op, In op ops -> snd (insertion_cell op) = rcClamp k 0 (g_height g - 1).
Proof.
  intros Hp Hk H op Hin. unfold triangle_fragments in H.
  destruct (negb _); [inversion H; subst; destruct Hin|].
  destruct (triangle_bounds_on_plane v0 v1 v2 c Hp) as [Hmin Hmax].
  rewrite Hmin, Hmax, Hk in H. simpl in H.
  destruct (row_loop_cell _ _ _ _ _ H op Hin) as [Hr H0].
  apply list_elem_of_In, elem_of_seqZ in Hr.
  apply clamped_range; assumption.
Qed.

Lemma sub_same_value c xa xb : same_value c xa -> same_value c xb ->
  Float32.is_zero (Float32.sub xa xb) = true \/ Float32.sub xa xb = S754_nan.
Proof.
  intros [->|[Hc Ha]] [->|[Hc' Hb]].
  - destruct c as [s|s| |s m e].
    + left. rewrite sub_self; reflexivity.
    + right. destruct s; reflexivity.
    + right. reflexivity.
    + left. rewrite sub_self; reflexivity.
  - destruct c as [s|s| |s m e]; try discriminate. destruct xb as [t|t| |t m e]; try discriminate.
    left. destruct s, t; reflexivity.
  - destruct c as [s|s| |s m e]; try discriminate. destruct xa as [t|t| |t m e]; try discriminate.
    left. destruct s, t; reflexivity.
  - destruct xa as [s|s| |s m e]; try discriminate. destruct xb as [t|t| |t m e]; try discriminate.
    left. destruct s, t; reflexivity.
Qed.

Lemma mul_zero_or_nan d s :
  Float32.is_zero d = true \/ d = S754_nan ->
  Float32.is_zero (Float32.mul d s) = true \/ Float32.mul d s = S754_nan.
Proof.
  intros [Hd| ->].
  - destruct d as [t|t| |t m e]; try discriminate.
    destruct s as [u|u| |u m e]; [left|right|right|left]; reflexivity.
  - right. reflexivity.
Qed.

Lemma add_zero_or_nan c xb d : value_or_nan c xb ->
  Float32.is_zero d = true \/ d = S754_nan -> value_or_nan c (Float32.add xb d).
Proof.
  intros [Hb| ->] [Hd| ->].
  - destruct d as [t|t| |t m e]; try discriminate. left.
    destruct xb as [s|s| |s m e].
    + right. destruct Hb as [<-|[Hc _]]; [split; [reflexivity|destruct s, t; reflexivity]|].
      split; [exact Hc|destruct s, t; reflexivity].
    + exact Hb.
    + exact Hb.
    + exact Hb.
  - right. destruct xb; reflexivity.
  - right. reflexivity.
  - right. reflexivity.
Qed.

Lemma lerp_x_on_plane c vB vA s :
  x_on_plane c vB -> x_on_plane c vA -> x_on_plane c (lerp vB vA s).
Proof.
  destruct vB as [[xb yb] zb], vA as [[xa ya] za]. unfold x_on_plane. cbn [lerp coord].
  intros Hb Ha. apply add_zero_or_nan; [exact Hb|]. apply mul_zero_or_nan.
  destruct Ha as [Ha| ->].
  - destruct Hb as [Hb| ->].
    + apply (sub_same_value c); assumption.
    + right. destruct xa; reflexivity.
  - right. reflexivity.
Qed.

Lemma dividePoly_loop_keeps (Q : vec3 -> Prop) axisOffset axis :
  (forall vB vA s, Q vB -> Q vA -> Q (lerp vB vA s)) ->
  forall verts vB out1 out2, Q vB -> Forall Q verts -> Forall Q out1 -> Forall Q out2 ->
    Forall Q (fst (dividePoly_loop axisOffset axis vB verts out1 out2))
    /\ Forall Q (snd (dividePoly_loop axisOffset axis vB verts out1 out2)).
Proof.
  intros Hl. induction verts as [|vA rest IH]; intros vB out1 out2 HB Hv H1 H2; [split; assumption|].
  inversion Hv as [|? ? HA Hrest]; subst. cbn [dividePoly_loop].
  assert (Hp : forall s, Q (lerp vB vA s)) by (intros s; apply Hl; assumption).
  repeat match goal with
         | |- context [if ?b then _ else _] => destruct b
         end;
    apply IH; auto; rewrite ?Forall_app; repeat split; auto.
Qed.

Lemma dividePoly_keeps (Q : vec3 -> Prop) inVerts axisOffset axis :
  (forall vB vA s, Q vB -> Q vA -> Q (lerp vB vA s)) -> Forall Q inVerts ->
  Forall Q (fst (dividePoly inVerts axisOffset axis))
  /\ Forall Q (snd (dividePoly inVerts axisOffset axis)).
Proof.
  intros Hl Hv. unfold dividePoly. destruct inVerts as [|v rest]; [split; constructor|].
  apply dividePoly_loop_keeps; auto.
  rewrite Forall_forall in Hv. apply Hv.
  destruct (exists_last (l := v :: rest)) as (l' & a & E); [discriminate|].
  rewrite E, last_last. apply in_or_app. right. left. reflexivity.
Qed.

(** A fold that keeps one of the values it meets. *)
Lemma fold_pick (P : Float32.float -> Prop) (pick : Float32.float -> Float32.float -> bool)
    (rest : list vec3) : forall m,
  P m -> Forall (fun v => P (coord v RC_AXIS_X)) rest ->
  P (fold_left (fun m v => if pick (coord v RC_AXIS_X) m then coord v RC_AXIS_X else m) rest m).
Proof.
  induction rest as [|v rest IH]; intros m Hm Hr; [exact Hm|].
  inversion Hr as [|? ? Hv Hrest]; subst. simpl. apply IH; [|exact Hrest].
  destruct (pick _ m); assumption.
Qed.

Lemma to_int_same_value c x b ics : same_value c x ->
  Float32.to_int (Float32.mul (Float32.sub x b) ics)
  = Float32.to_int (Float32.mul (Float32.sub c b) ics).
Proof.
  intros [->|[Hc Hx]]; [reflexivity|].
  destruct c as [s|s| |s m e]; try discriminate. destruct x as [t|t| |t m e]; try discriminate.
  destruct b as [u|u| |u m e]; try reflexivity.
  destruct ics as [w|w| |w m e]; destruct s, t, u; reflexivity.
Qed.

Lemma to_int_nan b ics : Float32.to_int (Float32.mul (Float32.sub S754_nan b) ics) = None.
Proof. reflexivity. Qed.

(** A row polygon whose X coordinates have the value of [c] (or are NaN)
    reaches one column. *)
Lemma row_fragments_one_column g z a c k inRow ops :
  Forall (x_on_plane c) inRow ->
  Float32.to_int (Float32.mul (Float32.sub c (coord (heightfieldBBMin g) RC_AXIS_X))
                    (inverseCellSize g)) = Some k ->
  row_fragments g z a inRow = Some ops ->
  (forall op, In op ops -> fst (insertion_cell op) = rcClamp k 0 (g_width g - 1)) /\
  (k < 0 \/ g_width g <= k -> ops = []).
Proof.
  intros Hp Hk H. unfold row_fragments in H.
  destruct (Z.of_nat (length inRow) <? 3); [inversion H; subst; split; [intros ? []|reflexivity]|].
  destruct (z <? 0) eqn:Hz; [inversion H; subst; split; [intros ? []|reflexivity]|].
  destruct inRow as [|v rest]; [inversion H; subst; split; [intros ? []|reflexivity]|].
  inversion Hp as [|? ? Hv Hrest]; subst.
  assert (Hmin := fold_pick (value_or_nan c) Float32.ltb rest _ Hv Hrest).
  assert (Hmax := fold_pick (value_or_nan c) (fun x m => Float32.ltb m x) rest _ Hv Hrest).
  cbv beta in Hmin, Hmax.
  destruct Hmin as [Hmin|Hmin]; [|rewrite Hmin, to_int_nan in H; discriminate].
  rewrite (to_int_same_value c _ _ _ Hmin), Hk in H. cbn [mbind option_bind] in H.
  destruct Hmax as [Hmax|Hmax]; [|rewrite Hmax, to_int_nan in H; discriminate].
  rewrite (to_int_same_value c _ _ _ Hmax), Hk in H. cbn [mbind option_bind] in H.
  destruct (k <? 0) eqn:Hk0; simpl in H;
    [inversion H; subst; split; [intros ? []|reflexivity]|].
  destruct (k >=? g_width g) eqn:Hkw; simpl in H;
    [inversion H; subst; split; [intros ? []|reflexivity]|].
  apply Z.ltb_ge in Hk0. rewrite Z.geb_leb in Hkw. apply Z.leb_gt in Hkw.
  split; [|lia].
  intros op Hin.
  destruct (column_loop_cell _ _ _ _ _ _ H op Hin) as (x & Hx & Hx0 & Hc).
  rewrite Hc. cbn [fst].
  apply list_elem_of_In, elem_of_seqZ in Hx. apply clamped_range; assumption.
Qed.

Lemma row_loop_one_column g a c k zs : forall in_ ops,
  Forall (x_on_plane c) in_ ->
  Float32.to_int (Float32.mul (Float32.sub c (coord (heightfieldBBMin g) RC_AXIS_X))
                    (inverseCellSize g)) = Some k ->
  row_loop g a zs in_ = Some ops ->
  (forall op, In op ops -> fst (insertion_cell op) = rcClamp k 0 (g_width g - 1)) /\
  (k < 0 \/ g_width g <= k -> ops = []).
Proof.
  induction zs as [|z zs IH]; intros in_ ops Hp Hk H; simpl in H.
  - inversion H; subst. split; [intros ? []|reflexivity].
  - pose proof (dividePoly_keeps (x_on_plane c) in_
                  (Float32.add (Float32.add (coord (heightfieldBBMin g) RC_AXIS_Z)
                                  (Float32.mul (Float32.of_int z) (cellSize g))) (cellSize g))
                  RC_AXIS_Z (lerp_x_on_plane c) Hp) as [Hrow Hrest].
    destruct (dividePoly in_ _ RC_AXIS_Z) as [inRow p1]. cbn [fst snd] in Hrow, Hrest.
    destruct (row_fragments g z a inRow) as [here|] eqn:Eh; simpl in H; [|discriminate].
    destruct (row_loop g a zs p1) as [more|] eqn:Em; simpl in H; [|discriminate].
    inversion H; subst.
    destruct (row_fragments_one_column _ _ _ _ _ _ _ Hrow Hk Eh) as [Hh1 Hh2].
    destruct (IH _ _ Hrest Hk Em) as [Hm1 Hm2].
    split.
    + intros op Hin. apply in_app_or in Hin. destruct Hin as [Hin|Hin]; auto.
    + intros Hout. rewrite Hh2, Hm2 by exact Hout. reflexivity.
Qed.

(** A triangle whose vertices share their X coordinate reaches one column,
    and none at all when the truncated index of that X is outside the grid. *)
Lemma triangle_fragments_column g v0 v1 v2 a c k ops :
  on_plane RC_AXIS_X c [v0; v1; v2] ->
  Float32.to_int (Float32.mul (Float32.sub c (coord (heightfieldBBMin g) RC_AXIS_X))
                    (inverseCellSize g)) = Some k ->
  triangle_fragments g v0 v1 v2 a = Some ops ->
  (forall op, In op ops -> fst (insertion_cell op) = rcClamp k 0 (g_width g - 1)) /\
  (k < 0 \/ g_width g <= k -> ops = []).
Proof.
  intros Hp Hk H. unfold triangle_fragments in H.
  destruct (negb _); [inversion H; subst; split; [intros ? []|reflexivity]|].
  bind_step H z0. bind_step H z1.
  refine (row_loop_one_column g a c k _ [v0; v1; v2] ops _ Hk H).
  unfold on_plane in Hp. eapply Forall_impl; [|exact Hp].
  intros v Hv. left. left. exact Hv.
Qed.

(** C7 (as amended).  [dividePoly] keeps the vertices on the dividing
    plane on both sides: a polygon that lies on the plane is copied whole
    to both outputs.  That a boundary triangle writes to one side at most
    comes from the truncated indices in [rasterizeTri]: with all vertices
    on one Z the fragments lie in the single row [rcClamp k 0 (h - 1)],
    [k] being the truncated row index of that Z; with all vertices on one X
    the fragments lie in the single column [rcClamp k 0 (w - 1)], [k] being
    the truncated column index of that X, and there is none when [k < 0]
    or [k >= w]. *)
Theorem boundary_polygon_sides :
  (forall axis c verts,
     Float32.is_finite c = true -> on_plane axis c verts ->
     dividePoly verts c axis = (verts, verts))
  /\
  (forall g v0 v1 v2 areaID c k ops,
     on_plane RC_AXIS_Z c [v0; v1; v2] ->
     Float32.to_int (Float32.mul (Float32.sub c (coord (heightfieldBBMin g) RC_AXIS_Z))
                       (inverseCellSize g)) = Some k ->
     triangle_fragments g v0 v1 v2 areaID = Some ops ->
     forall op, In op ops -> snd (insertion_cell op) = rcClamp k 0 (g_height g - 1))
  /\
  (forall g v0 v1 v2 areaID c k ops,
     on_plane RC_AXIS_X c [v0; v1; v2] ->
     Float32.to_int (Float32.mul (Float32.sub c (coord (heightfieldBBMin g) RC_AXIS_X))
                       (inverseCellSize g)) = Some k ->
     triangle_fragments g v0 v1 v2 areaID = Some ops ->
     (forall op, In op ops -> fst (insertion_cell op) = rcClamp k 0 (g_width g - 1)) /\
     (k < 0 \/ g_width g <= k -> ops = [])).
Proof.
  split; [|split].
  - intros axis c verts Hc Hp. unfold dividePoly. destruct verts as [|v rest]; [reflexivity|].
    apply (dividePoly_loop_on_plane axis c (v :: rest) Hc Hp).
    unfold on_plane in Hp. rewrite Forall_forall in Hp. apply Hp.
    destruct (exists_last (l := v :: rest)) as (l' & a & E); [discriminate|].
    rewrite E, last_last. apply in_or_app. right. left. reflexivity.
  - intros g v0 v1 v2 areaID c k ops Hp Hk H. eapply triangle_fragments_row; eassumption.
  - intros g v0 v1 v2 areaID c k ops Hp Hk H. eapply triangle_fragments_column; eassumption.
Qed.

Lemma boundary_polygon_sides_witness :
  dividePoly tri_z1 (Float32.of_int 1) RC_AXIS_Z = (tri_z1, tri_z1)
  /\ snd (insertion_cell (Raster 0 1 1 2 63)) = rcClamp 1 0 (g_height unit_grid - 1)
  /\ fst (insertion_cell (Raster 1 0 1 2 63)) = rcClamp 1 0 (g_width unit_grid - 1).
Proof.
  destruct boundary_polygon_sides as (Ha & Hb & Hc). split; [|split].
  - apply Ha; [reflexivity|]. repeat constructor.
  - apply (Hb unit_grid (vertex 1 4 4) (vertex 3 4 4) (vertex 2 8 4) 63 (Float32.of_int 1) 1
              [Raster 0 1 1 2 63]).
    + repeat constructor.
    + vm_compute. reflexivity.
    + vm_compute. reflexivity.
    + left. reflexivity.
  - apply (Hc unit_grid (vertex 4 4 1) (vertex 4 4 3) (vertex 4 8 2) 63 (Float32.of_int 1) 1
              [Raster 1 0 1 2 63]).
    + repeat constructor.
    + vm_compute. reflexivity.
    + vm_compute. reflexivity.
    + left. reflexivity.
Defined.

(** C7 as stated fails.  For the triangle on the plane Z = 1 the tie-break
    of [dividePoly] at that plane leaves all three vertices in the second
    output polygon as well, not in the first one only; and the triangle
    on the boundary plane X = 2 of the grid produces no span on either
    side of it. *)
Lemma dividePoly_tie_counterexample :
  on_plane RC_AXIS_Z (Float32.of_int 1) tri_z1
  /\ fst (dividePoly tri_z1 (Float32.of_int 1) RC_AXIS_Z) = tri_z1
  /\ snd (dividePoly tri_z1 (Float32.of_int 1) RC_AXIS_Z) = tri_z1
  /\ on_plane RC_AXIS_X (Float32.of_int 2) tri_x2
  /\ triangle_fragments unit_grid (vertex 8 4 1) (vertex 8 4 3) (vertex 8 8 2) 63 = Some [].
Proof.
  split; [repeat constructor|]. split; [vm_compute; reflexivity|].
  split; [vm_compute; reflexivity|]. split; [repeat constructor|]. vm_compute. reflexivity.
Qed.

(** The rows and columns that boundary triangles of [unit_grid] reach:
    the row above the plane Z = 1, the last row for the far plane Z = 2,
    the column to the right of the plane X = 1. *)
Lemma boundary_triangle_cells :
  triangle_fragments unit_grid (vertex 1 4 4) (vertex 3 4 4) (vertex 2 8 4) 63
    = Some [Raster 0 1 1 2 63]
  /\ triangle_fragments unit_grid (vertex 1 4 8) (vertex 3 4 8) (vertex 2 8 8) 63
    = Some [Raster 0 1 1 2 63]
  /\ triangle_fragments unit_grid (vertex 4 4 1) (vertex 4 4 3) (vertex 4 8 2) 63
    = Some [Raster 1 0 1 2 63].
Proof. repeat split; vm_compute; reflexivity. Qed.

(** A triangle whose bounding box misses the box of the heightfield
    produces no span: [rasterizeTri] returns [true] and leaves the
    heightfield as it is. *)
Theorem triangle_outside_no_spans alloc_ok g v0 v1 v2 areaID hf flagMergeThreshold :
  overlapBounds (rcVmin (rcVmin v0 v1) v2) (rcVmax (rcVmax v0 v1) v2)
    (heightfieldBBMin g) (heightfieldBBMax g) = false ->
  triangle_fragments g v0 v1 v2 areaID = Some []
  /\ rasterizeTri alloc_ok g v0 v1 v2 areaID hf flagMergeThreshold = Some (true, hf).
Proof.
  intros H. unfold rasterizeTri, triangle_fragments. rewrite H. simpl. split; reflexivity.
Qed.

Lemma triangle_outside_no_spans_witness :
  overlapBounds (rcVmin (rcVmin (vertex 20 4 1) (vertex 24 4 3)) (vertex 20 8 2))
    (rcVmax (rcVmax (vertex 20 4 1) (vertex 24 4 3)) (vertex 20 8 2))
    (heightfieldBBMin unit_grid) (heightfieldBBMax unit_grid) = false
  /\ triangle_fragments unit_grid (vertex 20 4 1) (vertex 24 4 3) (vertex 20 8 2) 63 = Some []
  /\ rasterizeTri true unit_grid (vertex 20 4 1) (vertex 24 4 3) (vertex 20 8 2) 63 (mkHeightfield 2 2 [[]; []; []; []] 0 0) 1
     = Some (true, (mkHeightfield 2 2 [[]; []; []; []] 0 0)).
Proof.
  split; [vm_compute; reflexivity|].
  apply (triangle_outside_no_spans true unit_grid (vertex 20 4 1) (vertex 24 4 3) (vertex 20 8 2)
           63 (mkHeightfield 2 2 [[]; []; []; []] 0 0) 1).
  vm_compute. reflexivity.
Defined.

Import RasterizationFacts.

(** ** [rasterizeTri]: the cells of the fragments *)

Lemma column_fragment_raster g x z a p1 ops :
  column_fragment g x z a p1 = Some ops ->
  forall op, In op ops -> exists fl ce, op = Raster x z fl ce a /\ 0 <= x.
Proof.
  unfold column_fragment. intros H op Hin.
  destruct (Z.of_nat (length p1) <? 3); [inversion H; subst; destruct Hin|].
  destruct (x <? 0) eqn:Hx; [inversion H; subst; destruct Hin|]. apply Z.ltb_ge in Hx.
  destruct p1 as [|v rest]; [inversion H; subst; destruct Hin|].
  destruct (Float32.ltb _ Float32.zero); [inversion H; subst; destruct Hin|].
  destruct (Float32.ltb _ _); [inversion H; subst; destruct Hin|].
  bind_step H fl. bind_step H ce.
  inversion H; subst. destruct Hin as [<-|[]]. eauto.
Qed.

Lemma column_loop_raster g z a xs : forall inRow ops,
  column_loop g z a xs inRow = Some ops ->
  forall op, In op ops -> exists x fl ce, In x xs /\ 0 <= x /\ op = Raster x z fl ce a.
Proof.
  induction xs as [|x xs IH]; intros inRow ops H op Hin; simpl in H.
  - inversion H; subst. destruct Hin.
  - destruct (dividePoly inRow _ RC_AXIS_X) as [p1 p2].
    destruct (column_fragment g x z a p1) as [here|] eqn:Eh; simpl in H; [|discriminate].
    destruct (column_loop g z a xs p2) as [more|] eqn:Em; simpl in H; [|discriminate].
    inversion H; subst. apply in_app_or in Hin. destruct Hin as [Hin|Hin].
    + destruct (column_fragment_raster _ _ _ _ _ _ Eh op Hin) as (fl & ce & -> & Hx).
      exists x, fl, ce. split; [left; reflexivity|]. auto.
    + destruct (IH _ _ Em op Hin) as (x' & fl & ce & Hx' & H0 & ->).
      exists x', fl, ce. split; [right; exact Hx'|]. auto.
Qed.

Lemma row_fragments_raster g z a inRow ops :
  row_fragments g z a inRow = Some ops ->
  forall op, In op ops ->
    exists x fl ce, op = Raster x z fl ce a /\ 0 <= x < g_width g /\ 0 <= z.
Proof.
  unfold row_fragments. intros H op Hin.
  destruct (Z.of_nat (length inRow) <? 3); [inversion H; subst; destruct Hin|].
  destruct (z <? 0) eqn:Hz; [inversion H; subst; destruct Hin|]. apply Z.ltb_ge in Hz.
  destruct inRow as [|v rest]; [inversion H; subst; destruct Hin|].
  bind_step H x0. bind_step H x1.
  destruct ((x1 <? 0) || (x0 >=? g_width g)) eqn:E; [inversion H; subst; destruct Hin|].
  apply orb_false_iff in E. destruct E as [E1 E2]. apply Z.ltb_ge in E1.
  destruct (column_loop_raster _ _ _ _ _ _ H op Hin) as (x & fl & ce & Hx & Hx0 & ->).
  exists x, fl, ce. split; [reflexivity|]. split; [|exact Hz].
  apply list_elem_of_In, elem_of_seqZ in Hx. revert Hx. unfold rcClamp.
  destruct (x0 <? -1), (x1 <? 0) eqn:A, (x0 >? g_width g - 1), (x1 >? g_width g - 1) eqn:B;
    rewrite ?Z.gtb_ltb in B; try apply Z.ltb_ge in B; try apply Z.ltb_lt in B; lia.
Qed.

Lemma row_loop_raster g a zs : forall in_ ops,
  row_loop g a zs in_ = Some ops ->
  forall op, In op ops ->
    exists x z fl ce, op = Raster x z fl ce a /\ 0 <= x < g_width g /\ In z zs /\ 0 <= z.
Proof.
  induction zs as [|z zs IH]; intros in_ ops H op Hin; simpl in H.
  - inversion H; subst. destruct Hin.
  - destruct (dividePoly in_ _ RC_AXIS_Z) as [inRow p1].
    destruct (row_fragments g z a inRow) as [here|] eqn:Eh; simpl in H; [|discriminate].
    destruct (row_loop g a zs p1) as [more|] eqn:Em; simpl in H; [|discriminate].
    inversion H; subst. apply in_app_or in Hin. destruct Hin as [Hin|Hin].
    + destruct (row_fragments_raster _ _ _ _ _ Eh op Hin) as (x & fl & ce & -> & Hx & Hz).
      exists x, z, fl, ce. split; [reflexivity|]. split; [exact Hx|].
      split; [left; reflexivity|exact Hz].
    + destruct (IH _ _ Em op Hin) as (x & z' & fl & ce & -> & Hx & Hz' & H0).
      exists x, z', fl, ce. split; [reflexivity|]. split; [exact Hx|].
      split; [right; exact Hz'|exact H0].
Qed.

Lemma triangle_fragments_raster g v0 v1 v2 a ops :
  1 <= g_height g ->
  triangle_fragments g v0 v1 v2 a = Some ops ->
  forall op, In op ops ->
    exists x z fl ce, op = Raster x z fl ce a /\ 0 <= x < g_width g /\ 0 <= z < g_height g.
Proof.
  intros Hh H op Hin. unfold triangle_fragments in H.
  destruct (negb _); [inversion H; subst; destruct Hin|].
  bind_step H z0. bind_step H z1.
  destruct (row_loop_raster _ _ _ _ _ H op Hin) as (x & z & fl & ce & -> & Hx & Hz & H0).
  exists x, z, fl, ce. split; [reflexivity|]. split; [exact Hx|]. split; [exact H0|].
  apply list_elem_of_In, elem_of_seqZ in Hz. revert Hz. unfold rcClamp.
  destruct (z0 <? -1), (z1 <? 0), (z0 >? g_height g - 1), (z1 >? g_height g - 1) eqn:B;
    rewrite ?Z.gtb_ltb in B; try apply Z.ltb_ge in B; try apply Z.ltb_lt in B; lia.
Qed.

(** ** The span allocator: no span is lost *)

Lemma walk_length thr chain : forall n,
  Z.of_nat (length (fst (addSpan_walk thr n chain))) + snd (addSpan_walk thr n chain)
  = Z.of_nat (length chain) + 1
  /\ 0 <= snd (addSpan_walk thr n chain).
Proof.
  induction chain as [|c rest IH]; intros n; simpl; [lia|].
  destruct (smin c >? smax n); [simpl; lia|].
  destruct (smax c <? smin n).
  - specialize (IH n). destruct (addSpan_walk thr n rest) as [r f]. simpl in *. lia.
  - specialize (IH (absorb thr n c)).
    destruct (addSpan_walk thr (absorb thr n c) rest) as [r f]. simpl in *. lia.
Qed.

Lemma concat_zset_length (l : list (list rcSpan)) i c :
  0 <= i < Z.of_nat (length l) ->
  Z.of_nat (length (concat (zset l i c)))
  = Z.of_nat (length (concat l)) - Z.of_nat (length (zget [] l i)) + Z.of_nat (length c).
Proof.
  intros Hi. unfold zset, zget. destruct (i <? 0) eqn:E; [lia|].
  destruct (l !! Z.to_nat i) as [old|] eqn:El; [|apply lookup_ge_None in El; lia].
  rewrite (nth_lookup_Some _ _ _ _ El).
  rewrite insert_take_drop by lia.
  rewrite <- (take_drop_middle l (Z.to_nat i) old El) at 3.
  rewrite !concat_app. simpl. rewrite !length_app. lia.
Qed.

Lemma addSpan_balanced thr ok hf x z min max a :
  Z.of_nat (length (spans hf)) = width hf * height hf ->
  0 <= x < width hf -> 0 <= z < height hf ->
  pools_balanced hf ->
  let r := addSpan ok hf x z min max a thr in
  pools_balanced (snd r)
  /\ width (snd r) = width hf /\ height (snd r) = height hf
  /\ length (spans (snd r)) = length (spans hf)
  /\ (fst r = false -> ok = false /\ snd r = hf).
Proof.
  intros Hlen Hx Hz [Hb Hf]. cbv zeta. unfold addSpan.
  destruct (allocSpan ok hf) as [hf1|] eqn:Ea.
  - assert (H1 : spans hf1 = spans hf /\ width hf1 = width hf /\ height hf1 = height hf
                 /\ pools hf1 * RC_SPANS_PER_POOL = freelist hf1 + spans_in_use hf + 1
                 /\ 0 <= freelist hf1).
    { unfold allocSpan in Ea. unfold spans_in_use, RC_SPANS_PER_POOL in *.
      destruct (freelist hf <=? 1) eqn:E; [destruct ok|]; inversion Ea; subst; simpl;
        repeat split; lia. }
    destruct H1 as (Es & Ew & Eh & Hb1 & Hf1). rewrite Es, Ew.
    pose proof (walk_length thr (zget [] (spans hf) (x + z * width hf))
                  (mkSpan (ubits RC_SPAN_HEIGHT_BITS (ubits 16 min))
                     (ubits RC_SPAN_HEIGHT_BITS (ubits 16 max)) (ubits 6 (ubits 8 a))))
      as [Hw Hfreed].
    destruct (addSpan_walk thr _ (zget [] (spans hf) (x + z * width hf))) as [chain freed].
    simpl in Hw, Hfreed. simpl. rewrite zset_length.
    split; [|repeat split; auto; discriminate].
    unfold pools_balanced, spans_in_use in *. simpl.
    rewrite concat_zset_length by nia. split; lia.
  - simpl. split; [split; assumption|]. repeat split; auto.
    unfold allocSpan in Ea. destruct (freelist hf <=? 1); [|discriminate].
    destruct ok; [discriminate|reflexivity].
Qed.

Lemma insert_balanced thr ok hf op :
  Z.of_nat (length (spans hf)) = width hf * height hf ->
  in_grid hf op -> pools_balanced hf ->
  let r := insert thr ok hf op in
  pools_balanced (snd r)
  /\ width (snd r) = width hf /\ height (snd r) = height hf
  /\ length (spans (snd r)) = length (spans hf)
  /\ (fst r = false -> ok = false /\ snd r = hf).
Proof.
  intros Hlen [Hx Hz] Hb. destruct op as [x z min max a|x z fl ce a]; simpl in *;
    apply addSpan_balanced; assumption.
Qed.

Lemma insert_all_balanced thr ops : forall hf,
  Z.of_nat (length (spans hf)) = width hf * height hf ->
  Forall (fun p => in_grid hf (snd p)) ops -> pools_balanced hf ->
  let r := insert_all thr ops hf in
  pools_balanced (snd r)
  /\ width (snd r) = width hf /\ height (snd r) = height hf
  /\ length (spans (snd r)) = length (spans hf)
  /\ (fst r = false -> Exists (fun p => fst p = false) ops).
Proof.
  induction ops as [|[ok op] rest IH]; intros hf Hlen Hops Hb; cbv zeta; simpl.
  - repeat split; try apply Hb; discriminate.
  - inversion Hops as [|? ? Hop Hrest]; subst. simpl in Hop.
    pose proof (insert_balanced thr ok hf op Hlen Hop Hb) as H1. cbv zeta in H1.
    destruct (insert thr ok hf op) as [r hf1]. simpl in H1.
    destruct H1 as (Hb1 & Ew & Eh & El & Hfail).
    destruct r.
    + assert (Hlen1 : Z.of_nat (length (spans hf1)) = width hf1 * height hf1)
        by (rewrite El, Ew, Eh; exact Hlen).
      assert (Hrest1 : Forall (fun p => in_grid hf1 (snd p)) rest).
      { eapply Forall_impl; [|exact Hrest]. unfold in_grid. rewrite Ew, Eh. auto. }
      pose proof (IH hf1 Hlen1 Hrest1 Hb1) as H2. cbv zeta in H2.
      destruct H2 as (Hb2 & Ew2 & Eh2 & El2 & Hfail2).
      repeat split; try apply Hb2; try congruence.
      intros Hf. right. apply Hfail2. exact Hf.
    + simpl. repeat split; try apply Hb1; auto.
      intros _. left. simpl. apply Hfail. reflexivity.
Qed.

(** Spans are never lost.  Starting from the heightfield that
    [rcCreateHeightfield] returns, after any sequence of insertions into
    columns of the grid (merges and failed insertions included) every span
    of every allocated pool is either linked into a column or on the free
    list: [pools * 2048 = freelist + spans in use].  An insertion fails only
    when a pool allocation fails. *)
Theorem insertions_conserve_spans thr sizeX sizeZ ops hf0 ok hf :
  0 <= sizeX -> 0 <= sizeZ ->
  rcCreateHeightfield true sizeX sizeZ = Some hf0 ->
  Forall (fun p => in_grid hf0 (snd p)) ops ->
  insert_all thr ops hf0 = (ok, hf) ->
  pools hf * RC_SPANS_PER_POOL = freelist hf + spans_in_use hf
  /\ 0 <= freelist hf
  /\ (ok = false -> Exists (fun p => fst p = false) ops).
Proof.
  intros Hx Hz Hc Hops Hrun. inversion Hc; subst hf0. clear Hc.
  set (hf0 := mkHeightfield sizeX sizeZ (replicate (Z.to_nat (sizeX * sizeZ)) []) 0 0) in *.
  assert (Hlen : Z.of_nat (length (spans hf0)) = width hf0 * height hf0).
  { simpl. rewrite length_replicate. nia. }
  assert (Hb : pools_balanced hf0).
  { unfold pools_balanced, spans_in_use. simpl.
    assert (E : forall n, concat (replicate n ([] : list rcSpan)) = []).
    { induction n as [|n IHn]; simpl; auto. }
    rewrite E. simpl. lia. }
  pose proof (insert_all_balanced thr ops hf0 Hlen Hops Hb) as H. cbv zeta in H.
  rewrite Hrun in H. simpl in H. destruct H as ([H1 H2] & _ & _ & _ & H3). auto.
Qed.

Lemma insertions_conserve_spans_witness :
  pools demo_hf * RC_SPANS_PER_POOL = freelist demo_hf + spans_in_use demo_hf
  /\ 0 <= freelist demo_hf
  /\ (true = false -> Exists (fun p => fst p = false) demo_ops).
Proof.
  apply (insertions_conserve_spans 1 2 1 demo_ops demo_hf0 true demo_hf);
    [lia|lia|reflexivity| |vm_compute; reflexivity].
  unfold demo_ops, in_grid. repeat constructor; simpl; lia.
Defined.

(** ** [addSpan]: the solid space only grows *)

Lemma walk_proper thr chain : forall n,
  Forall proper chain -> proper n -> Forall proper (fst (addSpan_walk thr n chain)).
Proof.
  induction chain as [|c rest IH]; intros n0 Hp Hn0; simpl; [repeat constructor; exact Hn0|].
  inversion Hp as [|? ? Hpc Hprest]; subst.
  destruct (smin c >? smax n0); [simpl; repeat constructor; assumption|].
  destruct (smax c <? smin n0) eqn:E2.
  - specialize (IH n0 Hprest Hn0). destruct (addSpan_walk thr n0 rest) as [r f].
    simpl in *. constructor; assumption.
  - assert (Hm : proper (absorb thr n0 c)).
    { unfold proper in *. rewrite absorb_smin, absorb_smax. lia. }
    specialize (IH _ Hprest Hm). destruct (addSpan_walk thr (absorb thr n0 c) rest) as [r f].
    exact IH.
Qed.

(** A successful [addSpan] with [0 <= min <= max <= 8191] into a column of
    the grid makes the column cover exactly what it covered before together
    with the new span (on the doubled scale of [covers], which tells touching
    spans from spans one voxel apart); every other column is left as it was. *)
Theorem addSpan_covers_union thr hf x z min max areaID hf' :
  Z.of_nat (length (spans hf)) = width hf * height hf ->
  0 <= x < width hf -> 0 <= z < height hf ->
  0 <= min -> min <= max -> max <= RC_SPAN_MAX_HEIGHT ->
  Forall proper (column hf x z) ->
  addSpan true hf x z min max areaID thr = (true, hf') ->
  (forall q, covers (column hf' x z) q <-> 2 * min <= q <= 2 * max \/ covers (column hf x z) q)
  /\ Forall proper (column hf' x z)
  /\ (forall x' z', 0 <= x' < width hf -> (x', z') <> (x, z) ->
        column hf' x' z' = column hf x' z').
Proof.
  intros Hlen Hx Hz H0 H1 H2 Hp Hrun. unfold addSpan in Hrun.
  destruct (allocSpan true hf) as [hf1|] eqn:Ea; [|discriminate].
  destruct (allocSpan_spans _ _ _ Ea) as (Es & Ew & Eh). rewrite Es, Ew in Hrun.
  set (n := mkSpan (ubits RC_SPAN_HEIGHT_BITS (ubits 16 min))
              (ubits RC_SPAN_HEIGHT_BITS (ubits 16 max)) (ubits 6 (ubits 8 areaID))) in *.
  assert (Hmin : smin n = min).
  { simpl. unfold RC_SPAN_MAX_HEIGHT, RC_SPAN_HEIGHT_BITS in *.
    rewrite (ubits_small 16), ubits_small; change (2 ^ 16) with 65536;
      change (2 ^ 13) with 8192; lia. }
  assert (Hmax : smax n = max).
  { simpl. unfold RC_SPAN_MAX_HEIGHT, RC_SPAN_HEIGHT_BITS in *.
    rewrite (ubits_small 16), ubits_small; change (2 ^ 16) with 65536;
      change (2 ^ 13) with 8192; lia. }
  assert (Hn : proper n) by (unfold proper; lia).
  pose proof (walk_covers thr (zget [] (spans hf) (x + z * width hf)) n) as Hc.
  pose proof (walk_proper thr (zget [] (spans hf) (x + z * width hf)) n Hp Hn) as Hpw.
  destruct (addSpan_walk thr n (zget [] (spans hf) (x + z * width hf))) as [chain freed].
  simpl in Hc, Hpw. inversion Hrun; subst hf'. unfold column; simpl.
  assert (Hin : 0 <= x + z * width hf < Z.of_nat (length (spans hf))) by nia.
  rewrite zget_zset_eq by exact Hin.
  split; [|split; [exact Hpw|]].
  - intros q. rewrite (Hc q Hn Hp). unfold inside. rewrite Hmin, Hmax. reflexivity.
  - intros x' z' Hx' Hne. apply zget_zset_ne. intros He.
    apply Hne. destruct (FilterFacts.cell_index_inj (width hf) x z x' z' Hx Hx').
    + lia.
    + congruence.
Qed.

Lemma addSpan_covers_union_witness :
  (forall q, covers (column (snd (addSpan true demo_hf 0 0 15 45 1 1)) 0 0) q
             <-> 2 * 15 <= q <= 2 * 45 \/ covers (column demo_hf 0 0) q)
  /\ Forall proper (column (snd (addSpan true demo_hf 0 0 15 45 1 1)) 0 0)
  /\ (forall x' z', 0 <= x' < width demo_hf -> (x', z') <> (0, 0) ->
        column (snd (addSpan true demo_hf 0 0 15 45 1 1)) x' z' = column demo_hf x' z').
Proof.
  apply (addSpan_covers_union 1 demo_hf 0 0 15 45 1);
    try (simpl; unfold RC_SPAN_MAX_HEIGHT, RC_SPAN_HEIGHT_BITS; lia).
  - repeat constructor; unfold proper; simpl; lia.
  - vm_compute. reflexivity.
Defined.

(** ** [rasterizeTri] and its callers *)

(** [rasterizeTri] never reaches outside the grid: on a grid of at least one
    row, every span that a triangle gives rise to goes to a column
    [0 <= x < width], [0 <= z < height], whatever the vertex coordinates
    are, and carries the area of the triangle. *)
Theorem triangle_fragments_within_grid g v0 v1 v2 areaID ops :
  1 <= g_height g ->
  triangle_fragments g v0 v1 v2 areaID = Some ops ->
  Forall (fun op => exists x z fl ce,
            op = Raster x z fl ce areaID /\ 0 <= x < g_width g /\ 0 <= z < g_height g) ops.
Proof.
  intros Hh H. rewrite Forall_forall. intros op Hin.
  eapply triangle_fragments_raster; eassumption.
Qed.

Lemma triangle_fragments_within_grid_witness :
  Forall (fun op => exists x z fl ce,
            op = Raster x z fl ce 63 /\ 0 <= x < g_width unit_grid /\ 0 <= z < g_height unit_grid)
    [Raster 1 0 1 2 63].
Proof.
  apply (triangle_fragments_within_grid unit_grid (vertex 4 4 1) (vertex 4 4 3) (vertex 4 8 2));
    [simpl; lia|vm_compute; reflexivity].
Defined.

Lemma rasterizeTri_balanced alloc_ok g v0 v1 v2 a hf thr r :
  g_width g = width hf -> g_height g = height hf -> 1 <= height hf ->
  Z.of_nat (length (spans hf)) = width hf * height hf ->
  pools_balanced hf ->
  rasterizeTri alloc_ok g v0 v1 v2 a hf thr = Some r ->
  pools_balanced (snd r)
  /\ width (snd r) = width hf /\ height (snd r) = height hf
  /\ length (spans (snd r)) = length (spans hf)
  /\ (fst r = false -> alloc_ok = false).
Proof.
  intros Gw Gh Hh Hlen Hb H. unfold rasterizeTri in H.
  destruct (triangle_fragments g v0 v1 v2 a) as [ops|] eqn:Eo; simpl in H; [|discriminate].
  injection H as <-.
  assert (Hops : Forall (fun p => in_grid hf (snd p)) (map (fun op => (alloc_ok, op)) ops)).
  { rewrite Forall_forall. intros p Hp. apply in_map_iff in Hp. destruct Hp as (op & <- & Hin).
    destruct (triangle_fragments_raster g v0 v1 v2 a ops ltac:(lia) Eo op Hin)
      as (x & z & fl & ce & -> & Hx & Hz).
    unfold in_grid. simpl. lia. }
  pose proof (insert_all_balanced thr _ hf Hlen Hops Hb) as Hr. cbv zeta in Hr.
  destruct Hr as (H1 & H2 & H3 & H4 & H5). repeat split; try apply H1; auto.
  intros Hf. apply H5 in Hf. apply Exists_exists in Hf. destruct Hf as (p & Hp & Hfp).
  apply in_map_iff in Hp. destruct Hp as (op & <- & _). exact Hfp.
Qed.

Lemma rasterize_triangles_balanced alloc_ok g verts tris areas thr idx : forall hf r,
  g_width g = width hf -> g_height g = height hf -> 1 <= height hf ->
  Z.of_nat (length (spans hf)) = width hf * height hf ->
  pools_balanced hf ->
  rasterize_triangles alloc_ok g verts tris areas thr idx hf = Some r ->
  pools_balanced (snd r)
  /\ width (snd r) = width hf /\ height (snd r) = height hf
  /\ length (spans (snd r)) = length (spans hf)
  /\ (fst r = false -> alloc_ok = false).
Proof.
  induction idx as [|i idx IH]; intros hf r Gw Gh Hh Hlen Hb H; simpl in H.
  - injection H as <-. simpl. repeat split; try apply Hb; discriminate.
  - destruct (rasterizeTri alloc_ok g _ _ _ _ hf thr) as [[ok hf1]|] eqn:Er; [|discriminate].
    destruct (rasterizeTri_balanced _ _ _ _ _ _ _ _ _ Gw Gh Hh Hlen Hb Er)
      as (H1 & H2 & H3 & H4 & H5). simpl in *.
    destruct ok.
    + destruct (IH hf1 r) as (K1 & K2 & K3 & K4 & K5);
        [congruence|congruence|lia|rewrite H4, H2, H3; exact Hlen|exact H1|exact H|].
      repeat split; first [apply K1 | congruence | exact K5].
    + injection H as <-. simpl. repeat split; try apply H1; auto.
Qed.

(** [rcRasterizeTriangles] keeps the allocator sound and the grid as it is:
    on a heightfield of at least one row whose pools are balanced, after
    the call (successful or not) every span of every pool is still either in
    a column or on the free list.  The call fails only when a pool
    allocation fails, and logs its error exactly then. *)
Theorem rcRasterizeTriangles_conserves_spans alloc_ok log bmin bmax cs ch verts tris
    triAreaIDs numTris hf thr ok hf' log' :
  1 <= height hf ->
  Z.of_nat (length (spans hf)) = width hf * height hf ->
  pools_balanced hf ->
  rcRasterizeTriangles alloc_ok log bmin bmax cs ch verts tris triAreaIDs numTris hf thr
    = Some (ok, hf', log') ->
  pools_balanced hf'
  /\ width hf' = width hf /\ height hf' = height hf
  /\ length (spans hf') = length (spans hf)
  /\ (ok = true -> log' = log)
  /\ (ok = false ->
      alloc_ok = false
      /\ log' = log ++ [(RC_LOG_ERROR, "rcRasterizeTriangles: Out of memory."%string, [])]).
Proof.
  intros Hh Hlen Hb H. unfold rcRasterizeTriangles in H.
  destruct (rasterize_triangles _ _ _ _ _ _ _ hf) as [[ok1 hf1]|] eqn:Er; [|discriminate].
  destruct (rasterize_triangles_balanced alloc_ok (heightfield_grid hf bmin bmax cs ch)
              verts tris triAreaIDs thr (seqZ 0 numTris) hf (ok1, hf1)
              eq_refl eq_refl Hh Hlen Hb Er) as (H1 & H2 & H3 & H4 & H5). simpl in *.
  destruct ok1; injection H as <- <- <-.
  - repeat split; try apply H1; auto; discriminate.
  - repeat split; try apply H1; auto; discriminate.
Qed.

Lemma rcRasterizeTriangles_conserves_spans_witness :
  pools_balanced corner_hf
  /\ width corner_hf = width corner_hf0 /\ height corner_hf = height corner_hf0
  /\ length (spans corner_hf) = length (spans corner_hf0)
  /\ (true = true -> ([] : list log_entry) = [])
  /\ (true = false ->
      true = false
      /\ ([] : list log_entry)
         = [] ++ [(RC_LOG_ERROR, "rcRasterizeTriangles: Out of memory."%string, [])]).
Proof.
  apply (rcRasterizeTriangles_conserves_spans true []
           (heightfieldBBMin unit_grid) (heightfieldBBMax unit_grid)
           (Float32.of_int 1) (Float32.of_int 1)
           [vertex 1 4 1; vertex 7 4 1; vertex 1 8 7] [0; 1; 2] [63] 1 corner_hf0 1).
  - simpl. lia.
  - reflexivity.
  - unfold pools_balanced, spans_in_use. simpl. lia.
  - vm_compute. reflexivity.
Defined.

(** ** [rasterizeTri]: the span at the top voxel *)

(** At and above the top voxel the quantisation of [rasterizeTri] never
    yields a span with [smin < smax]: the floor index is clamped to 8191, the
    lower bound [8192] of the second clamp exceeds its upper bound, and the
    13-bit [smax] reads 0 or 8191. *)
Lemma quantized_at_top_not_in_range fl ce a :
  RC_SPAN_MAX_HEIGHT <= fl ->
  smin (stored_span (spanMinCellIndex fl, spanMaxCellIndex fl ce, a)) = 8191
  /\ (smax (stored_span (spanMinCellIndex fl, spanMaxCellIndex fl ce, a)) = 0
      \/ smax (stored_span (spanMinCellIndex fl, spanMaxCellIndex fl ce, a)) = 8191).
Proof.
  unfold RC_SPAN_MAX_HEIGHT, RC_SPAN_HEIGHT_BITS. intros Hfl.
  assert (Hmin : spanMinCellIndex fl = 8191).
  { unfold spanMinCellIndex, rcClamp, RC_SPAN_MAX_HEIGHT, RC_SPAN_HEIGHT_BITS.
    destruct (fl <? 0) eqn:E1; [lia|].
    destruct (fl >? 2 ^ 13 - 1) eqn:E2; [reflexivity|].
    rewrite Z.gtb_ltb in E2. apply Z.ltb_ge in E2.
    replace fl with 8191 by lia. reflexivity. }
  unfold stored_span, spanMaxCellIndex. rewrite Hmin. cbn [smin smax].
  split; [reflexivity|].
  unfold rcClamp, RC_SPAN_MAX_HEIGHT, RC_SPAN_HEIGHT_BITS.
  destruct (ce <? 8191 + 1) eqn:E1; [left; reflexivity|].
  destruct (ce >? 2 ^ 13 - 1) eqn:E2; [right; reflexivity|].
  apply Z.ltb_ge in E1. rewrite Z.gtb_ltb in E2. apply Z.ltb_ge in E2. lia.
Qed.

(** C2 at the failing input.  The heightfield is the one that
    [rcCreateHeightfield] returns for one column; its box is 8191 voxels
    high and the triangle lies in the top face of the box.  [rasterizeTri]
    takes the floor index 8191 and calls [addSpan] with [min = 8191] and
    [max = 8192]; the 13-bit field [smax] keeps 0, so the successful
    insertion leaves the span [(8191, 0)] in the column, which does not
    satisfy [smin < smax].  The same holds for every fragment whose floor
    index is 8191 or more: the span that is stored has [smax <= smin]. *)
Theorem rasterizeTri_top_voxel_span :
  rcCreateHeightfield true 1 1 = Some top_hf0
  /\ triangle_fragments
       (heightfield_grid top_hf0 top_bmin top_bmax (Float32.of_int 1) (Float32.of_int 1))
       top_v0 top_v1 top_v2 63 = Some [Raster 0 0 8191 8191 63]
  /\ spanMinCellIndex 8191 = 8191
  /\ spanMaxCellIndex 8191 8191 = 8192
  /\ rcRasterizeTriangle true [] top_bmin top_bmax (Float32.of_int 1) (Float32.of_int 1)
       top_v0 top_v1 top_v2 63 top_hf0 1 = Some (true, top_hf, [])
  /\ column top_hf 0 0 = [mkSpan 8191 0 63]
  /\ ~ span_in_range (mkSpan 8191 0 63)
  /\ ~ Forall chain_ok (spans top_hf)
  /\ (forall fl ce areaID, RC_SPAN_MAX_HEIGHT <= fl ->
        ~ span_in_range (stored_span (spanMinCellIndex fl, spanMaxCellIndex fl ce, areaID))).
Proof.
  assert (Hr : ~ span_in_range (mkSpan 8191 0 63)).
  { unfold span_in_range. simpl. lia. }
  split; [reflexivity|]. split; [vm_compute; reflexivity|].
  split; [reflexivity|]. split; [reflexivity|].
  split; [vm_compute; reflexivity|]. split; [reflexivity|].
  split; [exact Hr|]. split.
  - intros H. inversion H as [|? ? Hc _]; subst.
    destruct Hc as (_ & _ & Hs). inversion Hs as [|? ? Hs0 _]; subst. exact (Hr Hs0).
  - intros fl ce areaID Hfl (_ & Hlt & _).
    destruct (quantized_at_top_not_in_range fl ce areaID Hfl) as [Hmin [Hmax|Hmax]]; lia.
Qed.

End ClipFacts.
